(** * Sora mail server: metadata store, sequence trigger, pre-lookup cache
      and ManageSieve session, embedded from the Go and SQL sources.

    - [DB]            src/db/append.go (CopyMessages, InsertMessage,
                      InsertMessageFromImporter) and
                      src/db/migrations/000002_add_sequence_caching.up.sql
                      (maintain_message_sequences);
    - [Sieve]         the sieve script functions of src/db/append.go;
    - [PrelookupCache] src/server/proxy/prelookup_cache.go;
    - [ManageSieve]   the managesieve session of
                      src/server/userapi/message_list.go;
    - [Prelookup], [ESearch] behaviour that only tests under src/ exercise;
    - [ConnectionLimiter] the connection limiter of package server;
    - [POP3]          src/server/pop3/xclient.go;
    - [UserAPI]       the message list of
                      src/server/userapi/message_list.go. *)

From Stdlib Require Import ZArith Lia.
From stdpp Require Import base numbers option list sorting gmap strings pretty.

#[local] Open Scope Z_scope.

(** ** Machine integers *)

Definition max_int64 : Z := 2 ^ 63 - 1.
Definition max_int32 : Z := 2 ^ 31 - 1.
Definition max_uint32 : Z := 2 ^ 32 - 1.

(** Go's conversion [imap.UID(x)] of an int64 to a uint32 keeps the low 32 bits. *)
Definition to_uint32 (x : Z) : Z := x mod 2 ^ 32.

(** Go's conversion [int64(x)] and int64 arithmetic wrap modulo 2^64. *)
Definition to_int64 (x : Z) : Z := (x + 2 ^ 63) mod 2 ^ 64 - 2 ^ 63.

Module DB.

(** ** Tables *)

(** Go's [time.Time] as Unix time in nanoseconds. *)
Definition Time := Z.

Record mailbox := {
  mb_name : string;
  highest_uid : Z;
  uid_validity : Z }.

Record message := {
  id : Z;
  account_id : Z;
  mailbox_id : option Z;
  mailbox_path : string;
  uid : Z;
  message_id : string;
  content_hash : string;
  s3_domain : string;
  s3_localpart : string;
  flags : Z;
  custom_flags : string;
  internal_date : Time;
  size : Z;
  subject : string;
  sent_date : Time;
  in_reply_to : string;
  body_structure : string;
  recipients_json : string;
  uploaded : bool;
  created_modseq : Z;
  subject_sort : string;
  from_name_sort : string;
  from_email_sort : string;
  to_email_sort : string;
  cc_email_sort : string;
  flags_changed_at : option Time;
  expunged_at : option Time }.

Record message_content := {
  text_body : option string;
  text_body_tsv : string;
  headers : string;
  headers_tsv : string }.

Record pending_upload := {
  pu_instance_id : string;
  pu_size : Z;
  pu_created_at : Time }.

(** message_sequences (mailbox_id, uid, seqnum), 000002 lines 6-13. *)
Record message_sequence := {
  ms_mailbox_id : Z;
  ms_uid : Z;
  ms_seqnum : Z }.

(** The state a transaction sees.  [mailboxes] is keyed by id,
    [message_contents] by content_hash, [pending_uploads] by
    (content_hash, account_id): the conflict targets of the INSERTs.
    [advisory_locks] lists the keys locked with pg_advisory_xact_lock. *)
Record db := {
  mailboxes : gmap Z mailbox;
  messages : list message;
  message_contents : gmap string message_content;
  pending_uploads : gmap (string * Z) pending_upload;
  message_sequences : list message_sequence;
  messages_id_seq : Z;
  messages_modseq : Z;
  advisory_locks : list Z }.

Definition with_mailboxes (mbs : gmap Z mailbox) (st : db) : db :=
  {| mailboxes := mbs; messages := messages st;
     message_contents := message_contents st;
     pending_uploads := pending_uploads st;
     message_sequences := message_sequences st;
     messages_id_seq := messages_id_seq st;
     messages_modseq := messages_modseq st;
     advisory_locks := advisory_locks st |}.

Definition with_messages (ms : list message) (st : db) : db :=
  {| mailboxes := mailboxes st; messages := ms;
     message_contents := message_contents st;
     pending_uploads := pending_uploads st;
     message_sequences := message_sequences st;
     messages_id_seq := messages_id_seq st;
     messages_modseq := messages_modseq st;
     advisory_locks := advisory_locks st |}.

Definition with_message_contents (cs : gmap string message_content) (st : db) : db :=
  {| mailboxes := mailboxes st; messages := messages st;
     message_contents := cs;
     pending_uploads := pending_uploads st;
     message_sequences := message_sequences st;
     messages_id_seq := messages_id_seq st;
     messages_modseq := messages_modseq st;
     advisory_locks := advisory_locks st |}.

Definition with_pending_uploads (ps : gmap (string * Z) pending_upload) (st : db) : db :=
  {| mailboxes := mailboxes st; messages := messages st;
     message_contents := message_contents st;
     pending_uploads := ps;
     message_sequences := message_sequences st;
     messages_id_seq := messages_id_seq st;
     messages_modseq := messages_modseq st;
     advisory_locks := advisory_locks st |}.

Definition with_message_sequences (ss : list message_sequence) (st : db) : db :=
  {| mailboxes := mailboxes st; messages := messages st;
     message_contents := message_contents st;
     pending_uploads := pending_uploads st;
     message_sequences := ss;
     messages_id_seq := messages_id_seq st;
     messages_modseq := messages_modseq st;
     advisory_locks := advisory_locks st |}.

Definition with_sequences_advanced (n : Z) (st : db) : db :=
  {| mailboxes := mailboxes st; messages := messages st;
     message_contents := message_contents st;
     pending_uploads := pending_uploads st;
     message_sequences := message_sequences st;
     messages_id_seq := messages_id_seq st + n;
     messages_modseq := messages_modseq st + n;
     advisory_locks := advisory_locks st |}.

Definition pg_advisory_xact_lock (v : Z) (st : db) : db :=
  {| mailboxes := mailboxes st; messages := messages st;
     message_contents := message_contents st;
     pending_uploads := pending_uploads st;
     message_sequences := message_sequences st;
     messages_id_seq := messages_id_seq st;
     messages_modseq := messages_modseq st;
     advisory_locks := v :: advisory_locks st |}.

(** ** Errors *)

(** A [*pgconn.PgError]: SQLSTATE code and the constraint it names. *)
Record PgError := {
  Code : string;
  ConstraintName : string }.

#[global] Instance PgError_eq_dec : EqDecision PgError.
Proof. solve_decision. Defined.

Inductive pg_result (A : Type) :=
| PgOk (a : A)
| PgErr (e : PgError).
Arguments PgOk {A} a.
Arguments PgErr {A} e.

(** The errors append.go returns: the [consts.Err...] values and its
    [fmt.Errorf] wrappers. *)
Inductive error :=
| ErrSameMailbox
| ErrInternalError
| ErrScanFailed
| ErrDBUpdateFailed
| ErrDestMailboxName
| ErrBatchCopyFailed
| ErrSerializationFailed
| ErrMarshalCustomKeywords
| ErrDBUniqueViolation
| ErrDBInsertFailed.

Inductive result (A : Type) :=
| Ok (a : A)
| Err (e : error).
Arguments Ok {A} a.
Arguments Err {A} e.

(** [tx.QueryRow(...).Scan]: a row, pgx.ErrNoRows, or the error with
    which the database answers the query. *)
Inductive row_result (A : Type) :=
| Row (a : A)
| ErrNoRows
| QueryErr (e : PgError).
Arguments Row {A} a.
Arguments ErrNoRows {A}.
Arguments QueryErr {A} e.

(** Once a statement of a transaction has failed, Postgres refuses every
    further statement of that transaction with SQLSTATE 25P02
    (in_failed_sql_transaction) until it is rolled back. *)
Definition in_failed_sql_transaction : PgError :=
  {| Code := "25P02"; ConstraintName := "" |}.

(** ** The sequence-maintenance trigger (000002_add_sequence_caching.up.sql) *)

Inductive TG_OP := INSERT | UPDATE | DELETE.

(** [SELECT DISTINCT mailbox_id FROM t WHERE mailbox_id IS NOT NULL] *)
Definition distinct_mailbox_ids (t : list message) : list Z :=
  remove_dups (omap mailbox_id t).

(** Lines 27-36: the mailboxes named by the transition tables. *)
Definition affected_mailboxes (op : TG_OP) (old_table new_table : list message) : list Z :=
  match op with
  | INSERT => distinct_mailbox_ids new_table
  | DELETE => distinct_mailbox_ids old_table
  | UPDATE => remove_dups (distinct_mailbox_ids new_table ++ distinct_mailbox_ids old_table)
  end.

(** [m.mailbox_id = v AND m.expunged_at IS NULL] *)
Definition live_in (v : Z) (m : message) : Prop :=
  mailbox_id m = Some v ∧ expunged_at m = None.

#[global] Instance live_in_dec v m : Decision (live_in v m).
Proof. unfold live_in. apply _. Defined.

(** The UIDs of the live messages of mailbox [v], in ascending order. *)
Definition live_uids (v : Z) (ms : list message) : list Z :=
  merge_sort Z.le (uid <$> filter (live_in v) ms).

(** Lines 47-49: [SELECT m.mailbox_id, m.uid, ROW_NUMBER() OVER (ORDER BY m.uid)]. *)
Definition numbered (v : Z) (uids : list Z) : list message_sequence :=
  imap (λ i u, {| ms_mailbox_id := v; ms_uid := u; ms_seqnum := Z.of_nat i + 1 |}) uids.

Definition message_sequences_pkey : PgError :=
  {| Code := "23505"; ConstraintName := "message_sequences_pkey" |}.
Definition message_sequences_mailbox_id_fkey : PgError :=
  {| Code := "23503"; ConstraintName := "message_sequences_mailbox_id_fkey" |}.
Definition integer_out_of_range : PgError :=
  {| Code := "22003"; ConstraintName := "" |}.

(** Lines 41-49, one iteration of the loop: lock the mailbox, delete its
    rows and insert the renumbered live messages.  The INSERT fails on the
    declared constraints of message_sequences: PRIMARY KEY (mailbox_id, uid),
    the INT type of seqnum, and the reference to mailboxes(id).
    UNIQUE (mailbox_id, seqnum) cannot fail, the row numbers being distinct. *)
Definition rebuild_sequences (st : db) (v : Z) : pg_result db :=
  let st := pg_advisory_xact_lock v st in
  let kept := filter (λ r, ms_mailbox_id r ≠ v) (message_sequences st) in
  let uids := live_uids v (messages st) in
  if bool_decide (NoDup uids) then
    if bool_decide (Z.of_nat (length uids) ≤ max_int32) then
      if bool_decide (uids = [] ∨ is_Some (mailboxes st !! v)) then
        PgOk (with_message_sequences (kept ++ numbered v uids) st)
      else PgErr message_sequences_mailbox_id_fkey
    else PgErr integer_out_of_range
  else PgErr message_sequences_pkey.

(** Lines 39-50: the loop over the affected mailboxes; an error aborts. *)
Fixpoint rebuild_all (st : db) (vs : list Z) : pg_result db :=
  match vs with
  | [] => PgOk st
  | v :: vs =>
      match rebuild_sequences st v with
      | PgOk st => rebuild_all st vs
      | PgErr e => PgErr e
      end
  end.

Definition maintain_message_sequences (op : TG_OP) (old_table new_table : list message)
    (st : db) : pg_result db :=
  rebuild_all st (affected_mailboxes op old_table new_table).

(** ** Statements on messages

    Each statement first meets the declared constraints of table messages,
    then fires the AFTER ... FOR EACH STATEMENT trigger with its transition
    tables (lines 58-74 of the migration).  The schema of messages is not
    part of these sources: its constraints are the parameter
    [messages_constraints], which reads the would-be table and names the
    constraint it violates, if any. *)

Module PendingUpload.
Record t := mk {
  InstanceID : string;
  ContentHash : string;
  Size : Z;
  AccountID : Z }.
End PendingUpload.

(** The fields of [helpers.Recipient] that InsertMessage reads. *)
Record Recipient := {
  Name : string;
  EmailAddress : string;
  AddressType : string }.

(** Unix time of Go's zero [time.Time] (January 1, year 1, UTC), in nanoseconds. *)
Definition zero_time : Time := -62135596800 * 10 ^ 9.
Definition IsZero (t : Time) : bool := bool_decide (t = zero_time).

(** Modelled from the spec: the column default of messages.uploaded, declared
    in a migration that is not under src/ ("A message inserted via APPEND/LMTP
    starts with uploaded=false"). *)
Definition uploaded_default : bool := false.

Definition messages_message_id_mailbox_id_key : PgError :=
  {| Code := "23505"; ConstraintName := "messages_message_id_mailbox_id_key" |}.

Section store.

Variable messages_constraints : list message → option PgError.
(** [db.FlagRecent], [db.SplitFlags], [db.FlagsToBitwise]: declared outside src/. *)
Variable FlagRecent : Z.
Variable SplitFlags : list string → list string * list string.
Variable FlagsToBitwise : list string → Z.
(** [helpers.SanitizeUTF8], [helpers.SerializeBodyStructureGob]. *)
Variable SanitizeUTF8 : string → string.
Variable BodyStructure : Type.
Variable SerializeBodyStructureGob : BodyStructure → option string.
(** [json.Marshal] at its two uses, [strings.ToUpper], [strings.ToLower],
    and Postgres's [to_tsvector('simple', _)]. *)
Variable Marshal_recipients : list Recipient → option string.
Variable Marshal_keywords : list string → option string.
Variable ToUpper ToLower : string → string.
Variable to_tsvector : string → string.

Inductive statement :=
| InsertInto (rows : list message)
| UpdateWhere (P : message → bool) (f : message → message)
| DeleteWhere (P : message → bool).

Definition exec (s : statement) (st : db) : pg_result db :=
  match s with
  | InsertInto rows =>
      let ms := messages st ++ rows in
      match messages_constraints ms with
      | Some e => PgErr e
      | None => maintain_message_sequences INSERT [] rows (with_messages ms st)
      end
  | UpdateWhere P f =>
      let old_table := filter (λ m, P m) (messages st) in
      let new_table := f <$> old_table in
      let ms := (λ m, if P m then f m else m) <$> messages st in
      match messages_constraints ms with
      | Some e => PgErr e
      | None => maintain_message_sequences UPDATE old_table new_table (with_messages ms st)
      end
  | DeleteWhere P =>
      let old_table := filter (λ m, P m) (messages st) in
      let ms := filter (λ m, ¬ P m) (messages st) in
      maintain_message_sequences DELETE old_table [] (with_messages ms st)
  end.

(** [UPDATE mailboxes SET highest_uid = f(highest_uid) WHERE id = $id
    RETURNING highest_uid], scanned into an int64.  No row (pgx.ErrNoRows)
    and a value outside BIGINT both fail. *)
Definition update_highest_uid (f : Z → Z) (mailboxID : Z) (st : db) : option (Z * db) :=
  mb ← mailboxes st !! mailboxID;
  let h := f (highest_uid mb) in
  if bool_decide (- 2 ^ 63 ≤ h ≤ max_int64) then
    Some (h, with_mailboxes
               (<[mailboxID := {| mb_name := mb_name mb; highest_uid := h;
                                  uid_validity := uid_validity mb |}]> (mailboxes st)) st)
  else None.

(** [UPDATE mailboxes SET uid_validity = $2 WHERE id = $1] *)
Definition update_uid_validity (v : Z) (mailboxID : Z) (st : db) : db :=
  with_mailboxes
    (alter (λ mb, {| mb_name := mb_name mb; highest_uid := highest_uid mb;
                     uid_validity := v |}) mailboxID (mailboxes st)) st.

(** *** CopyMessages (append.go, lines 21-105) *)

Definition by_uid (r1 r2 : Z * Z) : Prop := r1.2 ≤ r2.2.

#[local] Instance by_uid_dec r1 r2 : Decision (by_uid r1 r2).
Proof. unfold by_uid. apply _. Defined.

(** Line 30: [SELECT id, uid FROM messages WHERE mailbox_id = $1 AND
    uid = ANY($2) AND expunged_at IS NULL ORDER BY uid]. *)
Definition select_source (srcMailboxID : Z) (uids : list Z) (ms : list message) : list (Z * Z) :=
  merge_sort by_uid
    ((λ m, (id m, uid m)) <$> filter (λ m, live_in srcMailboxID m ∧ uid m ∈ uids) ms).

(** Lines 36-46: the scan loop.  The uid column is scanned into an
    [imap.UID] (uint32), which fails outside its range. *)
Fixpoint scan_source (rows : list (Z * Z)) (messageIDs sourceUIDsForMap : list Z)
    : option (list Z * list Z) :=
  match rows with
  | [] => Some (messageIDs, sourceUIDsForMap)
  | (messageID, sourceUID) :: rows =>
      if bool_decide (0 ≤ sourceUID ≤ max_uint32) then
        scan_source rows (messageIDs ++ [messageID]) (sourceUIDsForMap ++ [sourceUID])
      else None
  end.

(** Lines 64-70: the loop that assigns the new UIDs. *)
Fixpoint assign_new_uids (startUID : Z) (i : Z) (sourceUIDsForMap : list Z)
    (newUIDs : list Z) (messageUIDMap : gmap Z Z) : list Z * gmap Z Z :=
  match sourceUIDsForMap with
  | [] => (newUIDs, messageUIDMap)
  | sourceUID :: rest =>
      let newUID := to_int64 (startUID + i) in
      assign_new_uids startUID (i + 1) rest (newUIDs ++ [newUID])
        (<[sourceUID := to_uint32 newUID]> messageUIDMap)
  end.

(** Lines 87-98: the row copied from [m] under a new UID. *)
Definition copied_row (now : Time) (destMailboxID : Z) (destMailboxName : string)
    (new_id new_modseq : Z) (m : message) (new_uid : Z) : message :=
  {| id := new_id;
     account_id := account_id m; content_hash := content_hash m;
     uploaded := uploaded m; message_id := message_id m;
     in_reply_to := in_reply_to m; subject := subject m;
     sent_date := sent_date m; internal_date := internal_date m;
     flags := Z.lor (flags m) FlagRecent; custom_flags := custom_flags m;
     size := size m; body_structure := body_structure m;
     recipients_json := recipients_json m;
     s3_domain := s3_domain m; s3_localpart := s3_localpart m;
     subject_sort := subject_sort m; from_name_sort := from_name_sort m;
     from_email_sort := from_email_sort m; to_email_sort := to_email_sort m;
     cc_email_sort := cc_email_sort m;
     mailbox_id := Some destMailboxID; mailbox_path := destMailboxName;
     flags_changed_at := Some now; created_modseq := new_modseq;
     uid := new_uid; expunged_at := None |}.

(** [FROM messages m JOIN unnest($3, $4) AS d(message_id, new_uid)
    ON m.id = d.message_id] *)
Definition join_unnest (ms : list message) (messageIDs newUIDs : list Z) : list (message * Z) :=
  d ← zip messageIDs newUIDs;
  m ← filter (λ m, id m = d.1) ms;
  [(m, d.2)].

Definition copied_rows (now : Time) (destMailboxID : Z) (destMailboxName : string)
    (messageIDs newUIDs : list Z) (st : db) : list message :=
  imap (λ k md, copied_row now destMailboxID destMailboxName
                  (messages_id_seq st + Z.of_nat k + 1)
                  (messages_modseq st + Z.of_nat k + 1) md.1 md.2)
       (join_unnest (messages st) messageIDs newUIDs).

Definition CopyMessages (now : Time) (uids : list Z)
    (srcMailboxID destMailboxID userID : Z) (st : db) : result (gmap Z Z) * db :=
  let messageUIDMap : gmap Z Z := ∅ in
  if bool_decide (srcMailboxID = destMailboxID) then (Err ErrSameMailbox, st) else
  match scan_source (select_source srcMailboxID uids (messages st)) [] [] with
  | None => (Err ErrScanFailed, st)
  | Some (messageIDs, sourceUIDsForMap) =>
      if bool_decide (length messageIDs = 0%nat) then (Ok messageUIDMap, st) else
      let numToCopy := Z.of_nat (length messageIDs) in
      match update_highest_uid (λ h, h + numToCopy) destMailboxID st with
      | None => (Err ErrDBUpdateFailed, st)
      | Some (newHighestUID, st1) =>
          let startUID := to_int64 (newHighestUID - numToCopy + 1) in
          let '(newUIDs, messageUIDMap) :=
            assign_new_uids startUID 0 sourceUIDsForMap [] messageUIDMap in
          match mailboxes st1 !! destMailboxID with
          | None => (Err ErrDestMailboxName, st1)
          | Some mb =>
              let destMailboxName := mb_name mb in
              let rows := copied_rows now destMailboxID destMailboxName messageIDs newUIDs st1 in
              match exec (InsertInto rows)
                      (with_sequences_advanced (Z.of_nat (length rows)) st1) with
              | PgErr _ => (Err ErrBatchCopyFailed, st1)
              | PgOk st2 => (Ok messageUIDMap, st2)
              end
          end
      end
  end.

(** *** InsertMessage (append.go, lines 107-349) *)

Record InsertMessageOptions := {
  UserID : Z;
  MailboxID : Z;
  MailboxName : string;
  S3Domain : string;
  S3Localpart : string;
  ContentHash : string;
  MessageID : string;
  Flags : list string;
  InternalDate : Time;
  Size : Z;
  Subject : string;
  PlaintextBody : string;
  SentDate : Time;
  InReplyTo : list string;
  BodyStructure_ : BodyStructure;
  Recipients : list Recipient;
  RawHeaders : string;
  PreservedUID : option Z;
  PreservedUIDValidity : option Z;
  FTSRetention : Z }.

(** Lines 132-137: the Message-ID the INSERT uses. *)
Definition saneMessageID (now : Time) (options : InsertMessageOptions) : string :=
  let sane := SanitizeUTF8 (MessageID options) in
  if bool_decide (sane = "") then
    "<" +:+ pretty now +:+ "@" +:+ MailboxName options +:+ ">"
  else sane.

(** Lines 152-188 (and 372-409): the UID the row gets and the mailbox's
    highest_uid as returned by the UPDATE; [None] is ErrDBUpdateFailed. *)
Definition reserve_uid (options : InsertMessageOptions) (st : db) : option (Z * Z * db) :=
  match PreservedUID options with
  | Some preserved =>
      let uidToUse := preserved in
      '(highestUID, st) ← update_highest_uid (λ h, Z.max h uidToUse) (MailboxID options) st;
      match PreservedUIDValidity options with
      | Some v => Some (uidToUse, highestUID, update_uid_validity v (MailboxID options) st)
      | None => Some (uidToUse, highestUID, st)
      end
  | None =>
      '(highestUID, st) ← update_highest_uid (λ h, h + 1) (MailboxID options) st;
      Some (highestUID, highestUID, st)
  end.

(** Lines 197-223: the denormalized sort fields, taken from the first
    recipient of each kind. *)
Record sort_fields := {
  fromNameSort : string; fromEmailSort : string;
  toEmailSort : string; ccEmailSort : string;
  fromFound : bool; toFound : bool; ccFound : bool }.

Definition sort_fields_step (r : Recipient) (a : sort_fields) : sort_fields :=
  if bool_decide (AddressType r = "from") then
    if fromFound a then a else
    {| fromNameSort := ToLower (Name r); fromEmailSort := ToLower (EmailAddress r);
       toEmailSort := toEmailSort a; ccEmailSort := ccEmailSort a;
       fromFound := true; toFound := toFound a; ccFound := ccFound a |}
  else if bool_decide (AddressType r = "to") then
    if toFound a then a else
    {| fromNameSort := fromNameSort a; fromEmailSort := fromEmailSort a;
       toEmailSort := ToLower (EmailAddress r); ccEmailSort := ccEmailSort a;
       fromFound := fromFound a; toFound := true; ccFound := ccFound a |}
  else if bool_decide (AddressType r = "cc") then
    if ccFound a then a else
    {| fromNameSort := fromNameSort a; fromEmailSort := fromEmailSort a;
       toEmailSort := toEmailSort a; ccEmailSort := ToLower (EmailAddress r);
       fromFound := fromFound a; toFound := toFound a; ccFound := true |}
  else a.

Fixpoint sort_fields_loop (rs : list Recipient) (a : sort_fields) : sort_fields :=
  match rs with
  | [] => a
  | r :: rs =>
      let a := sort_fields_step r a in
      if fromFound a && toFound a && ccFound a then a else sort_fields_loop rs a
  end.

Definition no_sort_fields : sort_fields :=
  {| fromNameSort := ""; fromEmailSort := ""; toEmailSort := ""; ccEmailSort := "";
     fromFound := false; toFound := false; ccFound := false |}.

(** [strings.Join(options.InReplyTo, " ")] *)
Fixpoint Join (l : list string) (sep : string) : string :=
  match l with
  | [] => ""
  | [x] => x
  | x :: l => x +:+ sep +:+ Join l sep
  end.

(** Lines 225-238: the custom keywords as JSON. *)
Definition customKeywordsJSON (customKeywordsToSet : list string) : option string :=
  if bool_decide (length customKeywordsToSet = 0%nat) then Some "[]"
  else Marshal_keywords customKeywordsToSet.

(** Lines 247-276 (and 468-497): the row of the INSERT.  [uploaded] is the
    column default in InsertMessage and [true] in InsertMessageFromImporter;
    flags_changed_at and expunged_at are not listed and stay NULL. *)
Definition new_row (now : Time) (options : InsertMessageOptions) (uidToUse : Z)
    (bodyStructureData recipientsJSON customKeywords : string) (uploaded_ : bool)
    (st : db) : message :=
  let sorts := sort_fields_loop (Recipients options) no_sort_fields in
  let '(systemFlagsToSet, _) := SplitFlags (Flags options) in
  {| id := messages_id_seq st + 1;
     account_id := UserID options;
     mailbox_id := Some (MailboxID options);
     mailbox_path := MailboxName options;
     uid := uidToUse;
     message_id := saneMessageID now options;
     content_hash := ContentHash options;
     s3_domain := S3Domain options;
     s3_localpart := S3Localpart options;
     flags := FlagsToBitwise systemFlagsToSet;
     custom_flags := customKeywords;
     internal_date := if IsZero (InternalDate options) then now else InternalDate options;
     size := Size options;
     subject := SanitizeUTF8 (Subject options);
     sent_date := SentDate options;
     in_reply_to := SanitizeUTF8 (Join (InReplyTo options) " ");
     body_structure := bodyStructureData;
     recipients_json := recipientsJSON;
     uploaded := uploaded_;
     created_modseq := messages_modseq st + 1;
     subject_sort := ToUpper (SanitizeUTF8 (Subject options));
     from_name_sort := fromNameSort sorts;
     from_email_sort := fromEmailSort sorts;
     to_email_sort := toEmailSort sorts;
     cc_email_sort := ccEmailSort sorts;
     flags_changed_at := None;
     expunged_at := None |}.

(** Lines 290-293: [SELECT id, uid FROM messages WHERE account_id = $1 AND
    mailbox_id = $2 AND message_id = $3 AND expunged_at IS NULL], first row. *)
Definition existing_message (userID mailboxID : Z) (msgid : string) (m : message) : Prop :=
  account_id m = userID ∧ live_in mailboxID m ∧ message_id m = msgid.

#[local] Instance existing_message_dec u b i m : Decision (existing_message u b i m).
Proof. unfold existing_message. apply _. Defined.

(** The SELECT of lines 290-293, sent on a transaction that is [aborted] or
    not. *)
Definition select_existing (aborted : bool) (userID mailboxID : Z) (msgid : string) (st : db)
    : row_result (Z * Z) :=
  if aborted then QueryErr in_failed_sql_transaction else
  match head (filter (existing_message userID mailboxID msgid) (messages st)) with
  | Some m => Row (id m, uid m)
  | None => ErrNoRows
  end.

(** Lines 278-313 (and 499-534): what the failed INSERT turns into.  The
    function sends its SELECT with [tx.QueryRow] on the transaction of the
    INSERT that has just failed, so on an aborted transaction; whatever the
    query answers other than a row ends in ErrDBUniqueViolation. *)
Definition insert_failed (now : Time) (options : InsertMessageOptions) (pgErr : PgError)
    (st : db) : result (Z * Z) :=
  if bool_decide (Code pgErr = "23505"
                  ∧ ConstraintName pgErr = "messages_message_id_mailbox_id_key") then
    match select_existing true (UserID options) (MailboxID options)
            (saneMessageID now options) st with
    | Row (existingID, existingUID) => Ok (existingID, existingUID)
    | ErrNoRows => Err ErrDBUniqueViolation
    | QueryErr _ => Err ErrDBUniqueViolation
    end
  else Err ErrDBInsertFailed.

(** Lines 315-328: [INSERT INTO message_contents ... ON CONFLICT (content_hash)
    DO NOTHING]. *)
Definition insert_message_contents (now : Time) (options : InsertMessageOptions) (st : db) : db :=
  let sanePlaintextBody := SanitizeUTF8 (PlaintextBody options) in
  let textBodyArg :=
    if bool_decide (0 < FTSRetention options)
       && bool_decide (SentDate options < now - FTSRetention options)
    then None else Some sanePlaintextBody in
  match message_contents st !! ContentHash options with
  | Some _ => st
  | None =>
      with_message_contents
        (<[ContentHash options :=
             {| text_body := textBodyArg; text_body_tsv := to_tsvector sanePlaintextBody;
                headers := RawHeaders options;
                headers_tsv := to_tsvector (RawHeaders options) |}]> (message_contents st)) st
  end.

(** Lines 334-342: [INSERT INTO pending_uploads ... ON CONFLICT (content_hash,
    account_id) DO NOTHING]. *)
Definition insert_pending_upload (now : Time) (upload : PendingUpload.t) (st : db) : db :=
  let key := (PendingUpload.ContentHash upload, PendingUpload.AccountID upload) in
  match pending_uploads st !! key with
  | Some _ => st
  | None =>
      with_pending_uploads
        (<[key := {| pu_instance_id := PendingUpload.InstanceID upload;
                     pu_size := PendingUpload.Size upload;
                     pu_created_at := now |}]> (pending_uploads st)) st
  end.

Definition InsertMessage (now : Time) (options : InsertMessageOptions)
    (upload : PendingUpload.t) (st : db) : result (Z * Z) * db :=
  match SerializeBodyStructureGob (BodyStructure_ options) with
  | None => (Err ErrSerializationFailed, st)
  | Some bodyStructureData =>
  match reserve_uid options st with
  | None => (Err ErrDBUpdateFailed, st)
  | Some (uidToUse, highestUID, st) =>
  match Marshal_recipients (Recipients options) with
  | None => (Err ErrSerializationFailed, st)
  | Some recipientsJSON =>
  match customKeywordsJSON (SplitFlags (Flags options)).2 with
  | None => (Err ErrMarshalCustomKeywords, st)
  | Some customKeywords =>
  let row := new_row now options uidToUse bodyStructureData recipientsJSON
               customKeywords uploaded_default st in
  match exec (InsertInto [row]) (with_sequences_advanced 1 st) with
  | PgErr pgErr => (insert_failed now options pgErr st, st)
  | PgOk st =>
      let messageRowId := id row in
      let st := insert_message_contents now options st in
      let st := insert_pending_upload now upload st in
      (Ok (messageRowId, highestUID), st)
  end end end end end.

(** *** InsertMessageFromImporter (append.go, lines 351-556) *)

Definition InsertMessageFromImporter (now : Time) (options : InsertMessageOptions)
    (st : db) : result (Z * Z) * db :=
  match SerializeBodyStructureGob (BodyStructure_ options) with
  | None => (Err ErrSerializationFailed, st)
  | Some bodyStructureData =>
  match reserve_uid options st with
  | None => (Err ErrDBUpdateFailed, st)
  | Some (uidToUse, highestUID, st) =>
  match Marshal_recipients (Recipients options) with
  | None => (Err ErrSerializationFailed, st)
  | Some recipientsJSON =>
  match customKeywordsJSON (SplitFlags (Flags options)).2 with
  | None => (Err ErrMarshalCustomKeywords, st)
  | Some customKeywords =>
  let row := new_row now options uidToUse bodyStructureData recipientsJSON
               customKeywords true st in
  match exec (InsertInto [row]) (with_sequences_advanced 1 st) with
  | PgErr pgErr => (insert_failed now options pgErr st, st)
  | PgOk st =>
      let messageRowId := id row in
      let st := insert_message_contents now options st in
      (Ok (messageRowId, uidToUse), st)
  end end end end end.

(** The write operations of append.go on mailboxes and messages. *)
Inductive write_op :=
| OpInsertMessage (now : Time) (options : InsertMessageOptions) (upload : PendingUpload.t)
| OpInsertMessageFromImporter (now : Time) (options : InsertMessageOptions)
| OpCopyMessages (now : Time) (uids : list Z) (srcMailboxID destMailboxID userID : Z).

Definition run (op : write_op) (st : db) : db :=
  match op with
  | OpInsertMessage now options upload => (InsertMessage now options upload st).2
  | OpInsertMessageFromImporter now options => (InsertMessageFromImporter now options st).2
  | OpCopyMessages now uids src dest userID => (CopyMessages now uids src dest userID st).2
  end.

(** ** Properties of the trigger and of the statements *)

(** The tables a rebuild leaves alone. *)
Definition same_tables (st st' : db) : Prop :=
  mailboxes st' = mailboxes st ∧ messages st' = messages st
  ∧ message_contents st' = message_contents st
  ∧ pending_uploads st' = pending_uploads st
  ∧ messages_id_seq st' = messages_id_seq st
  ∧ messages_modseq st' = messages_modseq st.

Lemma same_tables_refl st : same_tables st st.
Proof. by repeat split. Qed.

Lemma same_tables_trans st1 st2 st3 :
  same_tables st1 st2 → same_tables st2 st3 → same_tables st1 st3.
Proof. unfold same_tables. intros (?&?&?&?&?&?) (?&?&?&?&?&?). repeat split; congruence. Qed.

Lemma rebuild_sequences_inv st v st' :
  rebuild_sequences st v = PgOk st' →
  NoDup (live_uids v (messages st))
  ∧ Z.of_nat (length (live_uids v (messages st))) ≤ max_int32
  ∧ st' = with_message_sequences
            (filter (λ r, ms_mailbox_id r ≠ v) (message_sequences st)
               ++ numbered v (live_uids v (messages st)))
            (pg_advisory_xact_lock v st).
Proof.
  unfold rebuild_sequences. cbv zeta.
  repeat case_bool_decide; intros; simplify_eq. by repeat split.
Qed.

Lemma rebuild_sequences_frame st v st' :
  rebuild_sequences st v = PgOk st' → same_tables st st'.
Proof. intros (_ & _ & ->)%rebuild_sequences_inv. by repeat split. Qed.

Lemma rebuild_all_frame vs : ∀ st st',
  rebuild_all st vs = PgOk st' → same_tables st st'.
Proof.
  induction vs as [|v vs IH]; intros st st' H; simpl in H.
  - simplify_eq. apply same_tables_refl.
  - destruct (rebuild_sequences st v) as [st1|] eqn:E; [|done].
    eapply same_tables_trans; [by eapply rebuild_sequences_frame | by apply IH].
Qed.

Lemma exec_InsertInto_inv rows st st' :
  exec (InsertInto rows) st = PgOk st' →
  messages_constraints (messages st ++ rows) = None
  ∧ messages st' = messages st ++ rows
  ∧ mailboxes st' = mailboxes st
  ∧ message_contents st' = message_contents st
  ∧ pending_uploads st' = pending_uploads st.
Proof.
  simpl. destruct (messages_constraints _); [done|].
  intros (?&?&?&?&?&?)%rebuild_all_frame. by repeat split.
Qed.

Lemma exec_mailboxes s st st' :
  exec s st = PgOk st' → mailboxes st' = mailboxes st.
Proof.
  destruct s; simpl.
  - destruct (messages_constraints _); [done|].
    by intros (?&?)%rebuild_all_frame.
  - destruct (messages_constraints _); [done|].
    by intros (?&?)%rebuild_all_frame.
  - by intros (?&?)%rebuild_all_frame.
Qed.

(** ** Properties of CopyMessages *)

(** The source UIDs a copy matches: live in the source mailbox and in the
    requested set, ascending. *)
Definition matched_uids (srcMailboxID : Z) (uids : list Z) (ms : list message) : list Z :=
  merge_sort Z.le (uid <$> filter (λ m, live_in srcMailboxID m ∧ uid m ∈ uids) ms).

Lemma scan_source_inv rows : ∀ ids us ids' us',
  scan_source rows ids us = Some (ids', us') →
  ids' = ids ++ rows.*1 ∧ us' = us ++ rows.*2
  ∧ Forall (λ u, 0 ≤ u ≤ max_uint32) rows.*2.
Proof.
  induction rows as [|[i u] rows IH]; intros ids us ids' us' H; simpl in H.
  - simplify_eq. by rewrite !app_nil_r.
  - case_bool_decide; [|done].
    apply IH in H as (-> & -> & ?). rewrite <-!app_assoc. simpl.
    split; [done|]. split; [done|]. by constructor.
Qed.

Lemma scan_source_total rows ids us :
  Forall (λ u, 0 ≤ u ≤ max_uint32) rows.*2 →
  scan_source rows ids us = Some (ids ++ rows.*1, us ++ rows.*2).
Proof.
  revert ids us. induction rows as [|[i u] rows IH]; intros ids us H; simpl.
  - by rewrite !app_nil_r.
  - inversion_clear H. rewrite bool_decide_true by done.
    rewrite IH by done. by rewrite <-!app_assoc.
Qed.

#[local] Instance by_uid_total : Total by_uid.
Proof. intros [] []. unfold by_uid. simpl. lia. Qed.

#[local] Instance by_uid_trans : Transitive by_uid.
Proof. intros [] [] []. unfold by_uid. simpl. lia. Qed.

Lemma select_source_uids src uids ms :
  (select_source src uids ms).*2 = matched_uids src uids ms.
Proof.
  unfold select_source, matched_uids.
  apply (StronglySorted_unique Z.le).
  - apply (StronglySorted_fmap snd by_uid Z.le); [by intros [] []|].
    apply (StronglySorted_merge_sort _).
  - apply (StronglySorted_merge_sort _).
  - rewrite !merge_sort_Permutation. by rewrite <-list_fmap_compose.
Qed.

Lemma select_source_length src uids ms :
  length (select_source src uids ms)
  = length (filter (λ m, live_in src m ∧ uid m ∈ uids) ms).
Proof.
  unfold select_source. by rewrite merge_sort_Permutation, length_fmap.
Qed.

Lemma to_int64_id x : - 2 ^ 63 ≤ x ≤ max_int64 → to_int64 x = x.
Proof.
  unfold to_int64, max_int64. intros ?.
  rewrite Z.mod_small; lia.
Qed.

Lemma to_uint32_id x : 0 ≤ x ≤ max_uint32 → to_uint32 x = x.
Proof. unfold to_uint32, max_uint32. intros ?. rewrite Z.mod_small; lia. Qed.

Lemma assign_new_uids_spec startUID sourceUIDs : ∀ i newUIDs m,
  NoDup sourceUIDs →
  0 ≤ startUID + i →
  startUID + i + Z.of_nat (length sourceUIDs) ≤ max_uint32 + 1 →
  assign_new_uids startUID i sourceUIDs newUIDs m
  = (newUIDs ++ seqZ (startUID + i) (Z.of_nat (length sourceUIDs)),
     list_to_map (zip sourceUIDs (seqZ (startUID + i) (Z.of_nat (length sourceUIDs)))) ∪ m).
Proof.
  induction sourceUIDs as [|u rest IH]; intros i newUIDs m Hnd Hlo Hhi.
  - simpl. by rewrite app_nil_r, (left_id_L ∅ (∪)).
  - apply NoDup_cons in Hnd as [Hu Hnd].
    cbn [assign_new_uids length]. cbv zeta.
    rewrite to_int64_id by (unfold max_int64, max_uint32 in *; simpl length in Hhi; lia).
    rewrite to_uint32_id by (unfold max_uint32 in *; simpl length in Hhi; lia).
    rewrite IH; [|done|lia|simpl length in Hhi; lia].
    rewrite (seqZ_cons (startUID + i)) by lia.
    replace (Z.succ (startUID + i)) with (startUID + (i + 1)) by lia.
    replace (Z.pred (Z.of_nat (S (length rest)))) with (Z.of_nat (length rest)) by lia.
    f_equal.
    + by rewrite <-app_assoc.
    + cbn [zip zip_with]. rewrite list_to_map_cons. cbn [fst snd].
      rewrite <-insert_union_l. symmetry. apply insert_union_r.
      apply not_elem_of_list_to_map. rewrite fst_zip; [done|].
      rewrite length_seqZ. lia.
Qed.

Lemma StronglySorted_lt_lookup (l : list Z) : ∀ (i j : nat) x y,
  StronglySorted Z.lt l → l !! i = Some x → l !! j = Some y → (i < j)%nat → x < y.
Proof.
  induction l as [|a l IH]; intros i j x y Hs Hi Hj Hij; [done|].
  apply StronglySorted_inv in Hs as [Hs Hall].
  destruct j as [|j]; [lia|]. destruct i as [|i]; simpl in *.
  - simplify_eq. rewrite Forall_forall in Hall. apply Hall.
    by eapply list_elem_of_lookup_2.
  - eapply IH; eauto. lia.
Qed.

Lemma StronglySorted_le_NoDup (l : list Z) :
  StronglySorted Z.le l → NoDup l → StronglySorted Z.lt l.
Proof.
  induction 1 as [|a l Hs IH Hall]; intros Hnd; constructor.
  - apply IH. by apply NoDup_cons in Hnd as [].
  - apply NoDup_cons in Hnd as [Ha _].
    rewrite Forall_forall in Hall |- *. intros x Hx.
    specialize (Hall x Hx). assert (a ≠ x) by (by intros ->). lia.
Qed.

Lemma lookup_zip_seqZ (l : list Z) (a : Z) (i : nat) (u : Z) :
  l !! i = Some u →
  zip l (seqZ a (Z.of_nat (length l))) !! i = Some (u, a + Z.of_nat i).
Proof.
  intros Hi. apply lookup_zip_with_Some. exists u, (a + Z.of_nat i).
  split; [done|]. split; [done|]. apply lookup_seqZ. split; [done|].
  apply lookup_lt_Some in Hi. lia.
Qed.

Lemma filter_and_sublist {A} (P Q : A → Prop) `{!∀ x, Decision (P x)}
    `{!∀ x, Decision (Q x)} (l : list A) :
  filter (λ x, P x ∧ Q x) l `sublist_of` filter P l.
Proof.
  induction l as [|x l IH]; [done|].
  rewrite !filter_cons. destruct (decide (P x)), (decide (Q x)).
  - rewrite decide_True by done. by constructor.
  - rewrite decide_False by tauto. by constructor.
  - rewrite decide_False by tauto. done.
  - rewrite decide_False by tauto. done.
Qed.

Lemma matched_uids_NoDup src uids ms :
  NoDup (live_uids src ms) → NoDup (matched_uids src uids ms).
Proof.
  unfold live_uids, matched_uids. rewrite !merge_sort_Permutation.
  intros Hnd. eapply sublist_NoDup; [exact Hnd|].
  apply fmap_sublist, filter_and_sublist.
Qed.

Lemma matched_uids_length src uids ms :
  length (matched_uids src uids ms)
  = length (filter (λ m, live_in src m ∧ uid m ∈ uids) ms).
Proof. unfold matched_uids. by rewrite merge_sort_Permutation, length_fmap. Qed.

Lemma matched_uids_sorted src uids ms :
  NoDup (live_uids src ms) → StronglySorted Z.lt (matched_uids src uids ms).
Proof.
  intros Hnd. apply StronglySorted_le_NoDup; [|by apply matched_uids_NoDup].
  apply (StronglySorted_merge_sort _).
Qed.

Lemma uid_map_facts (matched : list Z) (a : Z) :
  StronglySorted Z.lt matched → NoDup matched →
  let m : gmap Z Z := list_to_map (zip matched (seqZ a (Z.of_nat (length matched)))) in
  base.size m = length matched
  ∧ (∀ (i : nat) u, matched !! i = Some u → m !! u = Some (a + Z.of_nat i))
  ∧ (∀ u1 u2 n1 n2, m !! u1 = Some n1 → m !! u2 = Some n2 → u1 < u2 → n1 < n2).
Proof.
  intros Hs Hnd m.
  assert (Hlen : length (seqZ a (Z.of_nat (length matched))) = length matched)
    by (rewrite length_seqZ; lia).
  assert (Hfst : (zip matched (seqZ a (Z.of_nat (length matched)))).*1 = matched)
    by (apply fst_zip; lia).
  split; [|split].
  - unfold m. rewrite map_size_list_to_map by (by rewrite Hfst).
    rewrite length_zip_with. lia.
  - intros i u Hi. apply elem_of_list_to_map_1; [by rewrite Hfst|].
    eapply list_elem_of_lookup_2. by apply lookup_zip_seqZ.
  - intros u1 u2 n1 n2 H1 H2 Hlt.
    apply elem_of_list_to_map_2, list_elem_of_lookup in H1 as [i Hi].
    apply elem_of_list_to_map_2, list_elem_of_lookup in H2 as [j Hj].
    apply lookup_zip_with_Some in Hi as (x1 & y1 & ? & Hx1 & Hy1).
    apply lookup_zip_with_Some in Hj as (x2 & y2 & ? & Hx2 & Hy2).
    simplify_eq. apply lookup_seqZ in Hy1 as [-> ?]. apply lookup_seqZ in Hy2 as [-> ?].
    destruct (decide (i < j)%nat) as [|Hge]; [lia|].
    destruct (decide (i = j)) as [->|]; [simplify_eq; lia|].
    assert (j < i)%nat as Hji by lia.
    pose proof (StronglySorted_lt_lookup matched j i _ _ Hs Hx2 Hx1 Hji). lia.
Qed.

(** The claim as the spec words it, for a call from state [st] that returned
    the map [m] and left [st']: the map pairs the matched source UIDs, in
    ascending order, with the consecutive UIDs that end at the destination's
    new highest_uid. *)
Definition consecutive_uids_claimed (uids : list Z) (srcMailboxID destMailboxID : Z)
    (st : db) (m : gmap Z Z) (st' : db) : Prop :=
  let matched := matched_uids srcMailboxID uids (messages st) in
  let N := Z.of_nat (length matched) in
  ∃ mb', mailboxes st' !! destMailboxID = Some mb'
    ∧ ∀ (i : nat) u, matched !! i = Some u →
        m !! u = Some (highest_uid mb' - (N - 1 - Z.of_nat i)).

(** C1 (amended).  A successful CopyMessages between distinct mailboxes
    whose new UIDs stay within the 32 bits of an [imap.UID] (the
    destination's highest_uid is not negative and highest_uid + N is at most
    4294967295), N being the number of live source messages whose UID is
    requested and live UIDs being unique within the source mailbox (the key
    of message_sequences): the destination's highest_uid grows by exactly N,
    and the returned map pairs the N matched source UIDs, in ascending
    order, with the N consecutive UIDs that end at the new highest_uid; the
    pairing is strictly increasing, so source set and destination set have
    equal length and the same order. *)
Theorem CopyMessages_assigns_consecutive_uids now uids src dst userID st m st' mb :
  src ≠ dst →
  CopyMessages now uids src dst userID st = (Ok m, st') →
  mailboxes st !! dst = Some mb →
  NoDup (live_uids src (messages st)) →
  0 ≤ highest_uid mb →
  highest_uid mb + Z.of_nat (length (matched_uids src uids (messages st))) ≤ max_uint32 →
  let matched := matched_uids src uids (messages st) in
  let N := Z.of_nat (length matched) in
  length matched = length (filter (λ m, live_in src m ∧ uid m ∈ uids) (messages st))
  ∧ (∃ mb', mailboxes st' !! dst = Some mb'
            ∧ highest_uid mb' = highest_uid mb + N)
  ∧ StronglySorted Z.lt matched
  ∧ m = list_to_map (zip matched (seqZ (highest_uid mb + 1) N))
  ∧ base.size m = length matched
  ∧ (∀ (i : nat) u, matched !! i = Some u →
       m !! u = Some (highest_uid mb + N - (N - 1 - Z.of_nat i)))
  ∧ (∀ u1 u2 n1 n2, m !! u1 = Some n1 → m !! u2 = Some n2 → u1 < u2 → n1 < n2).
Proof.
  intros Hne H Hmb Hnd Hlo Hhi matched N.
  assert (Hsorted := matched_uids_sorted src uids _ Hnd).
  assert (HndM := matched_uids_NoDup src uids _ Hnd).
  fold matched in Hsorted, HndM, Hhi.
  unfold CopyMessages in H. rewrite bool_decide_false in H by done.
  destruct (scan_source _ [] []) as [[ids us]|] eqn:Hscan; [|done].
  apply scan_source_inv in Hscan as (-> & -> & Hrange).
  rewrite !app_nil_l, select_source_uids, !length_fmap, select_source_length,
    <-matched_uids_length in H.
  fold matched in H. fold N in H.
  split; [apply matched_uids_length|].
  case_bool_decide as HN.
  - simplify_eq. apply nil_length_inv in HN. subst N. rewrite HN in *. simpl.
    split; [exists mb; split; [done|lia]|].
    split; [constructor|]. split; [done|]. split; [done|]. split; [done|].
    intros ????. by rewrite lookup_empty.
  - unfold update_highest_uid in H. rewrite Hmb in H.
    cbn [mbind option_bind] in H.
    rewrite bool_decide_true in H by (unfold max_int64, max_uint32 in *; lia).
    cbn [highest_uid mb_name mailboxes with_mailboxes] in H.
    rewrite lookup_insert_eq in H.
    replace (highest_uid mb + N - N + 1) with (highest_uid mb + 1) in H by lia.
    rewrite to_int64_id in H by (unfold max_int64, max_uint32 in *; lia).
    rewrite assign_new_uids_spec in H; [|done|lia|fold N; lia].
    rewrite Z.add_0_r, (right_id_L ∅ (∪)) in H. fold N in H.
    destruct (exec _ _) as [st2|] eqn:Hexec; [|done].
    apply exec_mailboxes in Hexec. simplify_eq.
    destruct (uid_map_facts matched (highest_uid mb + 1) Hsorted HndM) as (Hsz & Hpt & Hmono).
    fold N in Hsz, Hpt, Hmono.
    split.
    { eexists. rewrite Hexec. cbn [mailboxes with_mailboxes with_sequences_advanced].
      rewrite lookup_insert_eq. done. }
    split; [done|]. split; [done|]. split; [done|]. split; [|done].
    intros i u Hi. rewrite (Hpt i u Hi). f_equal. lia.
Qed.


(** ** highest_uid only advances *)

Definition highest_uid_le (st st' : db) : Prop :=
  ∀ i mb, mailboxes st !! i = Some mb →
    ∃ mb', mailboxes st' !! i = Some mb' ∧ highest_uid mb ≤ highest_uid mb'.

Lemma highest_uid_le_same st st' :
  mailboxes st' = mailboxes st → highest_uid_le st st'.
Proof. intros Heq i mb Hi. exists mb. by rewrite Heq. Qed.

Lemma highest_uid_le_trans st1 st2 st3 :
  highest_uid_le st1 st2 → highest_uid_le st2 st3 → highest_uid_le st1 st3.
Proof.
  intros H12 H23 i mb Hi.
  destruct (H12 i mb Hi) as (mb2 & Hi2 & ?).
  destruct (H23 i mb2 Hi2) as (mb3 & Hi3 & ?).
  exists mb3. split; [done|lia].
Qed.

Lemma update_highest_uid_inv f i st h st' :
  update_highest_uid f i st = Some (h, st') →
  ∃ mb, mailboxes st !! i = Some mb ∧ h = f (highest_uid mb)
    ∧ mailboxes st' = <[i := {| mb_name := mb_name mb; highest_uid := h;
                                uid_validity := uid_validity mb |}]> (mailboxes st)
    ∧ messages st' = messages st
    ∧ message_contents st' = message_contents st
    ∧ pending_uploads st' = pending_uploads st.
Proof.
  unfold update_highest_uid. destruct (mailboxes st !! i) as [mb|] eqn:Hi; [|done].
  cbn [mbind option_bind]. case_bool_decide; [|done].
  intros ?; simplify_eq. by exists mb.
Qed.

Lemma update_highest_uid_le f i st h st' :
  (∀ x, x ≤ f x) → update_highest_uid f i st = Some (h, st') → highest_uid_le st st'.
Proof.
  intros Hf (mb & Hi & -> & Hmbs & _)%update_highest_uid_inv j mbj Hj.
  rewrite Hmbs. destruct (decide (i = j)) as [->|].
  - rewrite lookup_insert_eq. eexists; split; [done|]. simplify_eq. apply Hf.
  - rewrite lookup_insert_ne by done. exists mbj. split; [done|lia].
Qed.

Lemma update_uid_validity_le v i st : highest_uid_le st (update_uid_validity v i st).
Proof.
  intros j mbj Hj. unfold update_uid_validity. cbn [mailboxes with_mailboxes].
  destruct (decide (i = j)) as [->|].
  - rewrite lookup_alter_eq, Hj. eexists; split; [done|]. simpl. lia.
  - rewrite lookup_alter_ne by done. exists mbj. split; [done|lia].
Qed.

(** The mailbox's highest_uid that [reserve_uid] leaves. *)
Definition reserved_highest_uid (options : InsertMessageOptions) (h : Z) : Z :=
  match PreservedUID options with
  | Some preserved => Z.max h preserved
  | None => h + 1
  end.

Lemma reserve_uid_inv options st uidToUse highestUID st' :
  reserve_uid options st = Some (uidToUse, highestUID, st') →
  (∃ mb mb', mailboxes st !! MailboxID options = Some mb
     ∧ mailboxes st' !! MailboxID options = Some mb'
     ∧ highest_uid mb' = reserved_highest_uid options (highest_uid mb)
     ∧ highestUID = highest_uid mb'
     ∧ uidToUse = default highestUID (PreservedUID options))
  ∧ highest_uid_le st st'
  ∧ messages st' = messages st
  ∧ message_contents st' = message_contents st
  ∧ pending_uploads st' = pending_uploads st.
Proof.
  unfold reserve_uid, reserved_highest_uid.
  destruct (PreservedUID options) as [p|].
  - destruct (update_highest_uid _ _ st) as [[h st1]|] eqn:Hup; [|done].
    cbn [mbind option_bind].
    pose proof (update_highest_uid_le _ _ _ _ _ (λ x, Z.le_max_l x p) Hup) as Hle.
    apply update_highest_uid_inv in Hup as (mb & Hi & -> & Hmbs & ? & ? & ?).
    destruct (PreservedUIDValidity options) as [v|]; intros ?; simplify_eq.
    + split; [|split; [|done]].
      * exists mb. eexists. split; [done|]. unfold update_uid_validity.
        cbn [mailboxes with_mailboxes]. rewrite lookup_alter_eq, Hmbs, lookup_insert_eq.
        done.
      * eapply highest_uid_le_trans; [done|apply update_uid_validity_le].
    + split; [|done]. exists mb. eexists. rewrite Hmbs, lookup_insert_eq. done.
  - destruct (update_highest_uid _ _ st) as [[h st1]|] eqn:Hup; [|done].
    cbn [mbind option_bind]. intros ?; simplify_eq.
    assert (∀ x, x ≤ x + 1) as Hf by lia.
    pose proof (update_highest_uid_le _ _ _ _ _ Hf Hup) as Hle.
    apply update_highest_uid_inv in Hup as (mb & Hi & -> & Hmbs & ? & ? & ?).
    split; [|done]. exists mb. eexists. rewrite Hmbs, lookup_insert_eq. done.
Qed.

Lemma insert_message_contents_frame now options st :
  mailboxes (insert_message_contents now options st) = mailboxes st
  ∧ messages (insert_message_contents now options st) = messages st
  ∧ pending_uploads (insert_message_contents now options st) = pending_uploads st.
Proof. unfold insert_message_contents. cbv zeta. by destruct (message_contents st !! _). Qed.

Lemma insert_pending_upload_frame now upload st :
  mailboxes (insert_pending_upload now upload st) = mailboxes st
  ∧ messages (insert_pending_upload now upload st) = messages st.
Proof. unfold insert_pending_upload. cbv zeta. by destruct (pending_uploads st !! _). Qed.

Lemma insert_pending_upload_present now upload st :
  is_Some (pending_uploads (insert_pending_upload now upload st)
             !! (PendingUpload.ContentHash upload, PendingUpload.AccountID upload)).
Proof.
  unfold insert_pending_upload. cbv zeta.
  destruct (pending_uploads st !! _) eqn:E; [by rewrite E|].
  cbn [pending_uploads with_pending_uploads]. by rewrite lookup_insert_eq.
Qed.

Lemma insert_pending_upload_keeps now upload st k :
  is_Some (pending_uploads st !! k) →
  is_Some (pending_uploads (insert_pending_upload now upload st) !! k).
Proof.
  intros Hk. unfold insert_pending_upload. cbv zeta.
  destruct (pending_uploads st !! (_, _)) eqn:E; [done|].
  cbn [pending_uploads with_pending_uploads].
  destruct (decide ((PendingUpload.ContentHash upload, PendingUpload.AccountID upload) = k))
    as [<-|Hne].
  - rewrite E in Hk. by destruct Hk.
  - by rewrite lookup_insert_ne.
Qed.

Lemma InsertMessage_highest_uid_le now options upload st :
  highest_uid_le st (InsertMessage now options upload st).2.
Proof.
  unfold InsertMessage.
  destruct (SerializeBodyStructureGob _); [|by apply highest_uid_le_same].
  destruct (reserve_uid options st) as [[[u h] st1]|] eqn:Hres;
    [|by apply highest_uid_le_same].
  apply reserve_uid_inv in Hres as (_ & Hle & _).
  destruct (Marshal_recipients _); [|done].
  destruct (customKeywordsJSON _); [|done].
  cbv zeta. destruct (exec _ _) as [st2|] eqn:Hexec; [|done].
  apply exec_mailboxes in Hexec. cbn [snd].
  eapply highest_uid_le_trans; [done|]. apply highest_uid_le_same.
  rewrite (proj1 (insert_pending_upload_frame _ _ _)).
  rewrite (proj1 (insert_message_contents_frame _ _ _)). done.
Qed.

Lemma InsertMessageFromImporter_highest_uid_le now options st :
  highest_uid_le st (InsertMessageFromImporter now options st).2.
Proof.
  unfold InsertMessageFromImporter.
  destruct (SerializeBodyStructureGob _); [|by apply highest_uid_le_same].
  destruct (reserve_uid options st) as [[[u h] st1]|] eqn:Hres;
    [|by apply highest_uid_le_same].
  apply reserve_uid_inv in Hres as (_ & Hle & _).
  destruct (Marshal_recipients _); [|done].
  destruct (customKeywordsJSON _); [|done].
  cbv zeta. destruct (exec _ _) as [st2|] eqn:Hexec; [|done].
  apply exec_mailboxes in Hexec. cbn [snd].
  eapply highest_uid_le_trans; [done|]. apply highest_uid_le_same.
  rewrite (proj1 (insert_message_contents_frame _ _ _)). done.
Qed.

Lemma CopyMessages_highest_uid_le now uids src dst userID st :
  highest_uid_le st (CopyMessages now uids src dst userID st).2.
Proof.
  unfold CopyMessages. case_bool_decide; [by apply highest_uid_le_same|].
  destruct (scan_source _ [] []) as [[ids us]|]; [|by apply highest_uid_le_same].
  case_bool_decide; [by apply highest_uid_le_same|].
  destruct (update_highest_uid _ dst st) as [[h st1]|] eqn:Hup;
    [|by apply highest_uid_le_same].
  assert (highest_uid_le st st1) as Hle.
  { eapply update_highest_uid_le; [|done]. intros x. cbv beta. lia. }
  destruct (assign_new_uids _ _ _ _ _) as [newUIDs m].
  destruct (mailboxes st1 !! dst); [|done].
  destruct (exec _ _) as [st2|] eqn:Hexec; [|done].
  apply exec_mailboxes in Hexec. cbn [snd].
  eapply highest_uid_le_trans; [done|]. by apply highest_uid_le_same.
Qed.
Lemma InsertMessage_ok_highest_uid now options upload st r st' mb :
  InsertMessage now options upload st = (Ok r, st') →
  mailboxes st !! MailboxID options = Some mb →
  ∃ mb', mailboxes st' !! MailboxID options = Some mb'
         ∧ highest_uid mb' = reserved_highest_uid options (highest_uid mb).
Proof.
  unfold InsertMessage. intros H Hmb.
  destruct (SerializeBodyStructureGob _); [|done].
  destruct (reserve_uid options st) as [[[u h] st1]|] eqn:Hres; [|done].
  apply reserve_uid_inv in Hres as ((mb0 & mb' & Hmb0 & Hmb' & Hh & _) & _).
  rewrite Hmb in Hmb0. simplify_eq.
  destruct (Marshal_recipients _); [|done].
  destruct (customKeywordsJSON _); [|done].
  cbv zeta in H. destruct (exec _ _) as [st2|] eqn:Hexec.
  - apply exec_mailboxes in Hexec. simplify_eq. exists mb'. split; [|done].
    rewrite (proj1 (insert_pending_upload_frame _ _ _)).
    rewrite (proj1 (insert_message_contents_frame _ _ _)). by rewrite Hexec.
  - simplify_eq. by exists mb'.
Qed.

Lemma InsertMessageFromImporter_ok_highest_uid now options st r st' mb :
  InsertMessageFromImporter now options st = (Ok r, st') →
  mailboxes st !! MailboxID options = Some mb →
  ∃ mb', mailboxes st' !! MailboxID options = Some mb'
         ∧ highest_uid mb' = reserved_highest_uid options (highest_uid mb).
Proof.
  unfold InsertMessageFromImporter. intros H Hmb.
  destruct (SerializeBodyStructureGob _); [|done].
  destruct (reserve_uid options st) as [[[u h] st1]|] eqn:Hres; [|done].
  apply reserve_uid_inv in Hres as ((mb0 & mb' & Hmb0 & Hmb' & Hh & _) & _).
  rewrite Hmb in Hmb0. simplify_eq.
  destruct (Marshal_recipients _); [|done].
  destruct (customKeywordsJSON _); [|done].
  cbv zeta in H. destruct (exec _ _) as [st2|] eqn:Hexec.
  - apply exec_mailboxes in Hexec. simplify_eq. exists mb'. split; [|done].
    rewrite (proj1 (insert_message_contents_frame _ _ _)). by rewrite Hexec.
  - simplify_eq. by exists mb'.
Qed.

Lemma CopyMessages_ok_highest_uid now uids src dst userID st m st' mb :
  CopyMessages now uids src dst userID st = (Ok m, st') →
  mailboxes st !! dst = Some mb →
  ∃ mb', mailboxes st' !! dst = Some mb'
         ∧ highest_uid mb' = highest_uid mb
             + Z.of_nat (length (filter (λ m, live_in src m ∧ uid m ∈ uids) (messages st))).
Proof.
  unfold CopyMessages. intros H Hmb. case_bool_decide; [done|].
  destruct (scan_source _ [] []) as [[ids us]|] eqn:Hscan; [|done].
  apply scan_source_inv in Hscan as (-> & -> & _).
  rewrite !app_nil_l, !length_fmap, select_source_length in H.
  case_bool_decide as HN.
  - simplify_eq. exists mb. rewrite HN. split; [done|]. simpl. lia.
  - destruct (update_highest_uid _ dst st) as [[h st1]|] eqn:Hup; [|done].
    apply update_highest_uid_inv in Hup as (mb0 & Hmb0 & -> & Hmbs & _).
    rewrite Hmb in Hmb0. simplify_eq.
    destruct (assign_new_uids _ _ _ _ _) as [newUIDs m'].
    destruct (mailboxes st1 !! dst); [|done].
    destruct (exec _ _) as [st2|] eqn:Hexec; [|done].
    apply exec_mailboxes in Hexec. simplify_eq.
    eexists. rewrite Hexec. cbn [mailboxes with_sequences_advanced].
    rewrite Hmbs, lookup_insert_eq. done.
Qed.

(** The mailbox that an operation writes to, the highest_uid that its UPDATE
    of mailboxes leaves there, and what makes the operation reach that
    UPDATE: the body structure serializes (InsertMessage), the mailboxes
    differ and the matched UIDs scan into an [imap.UID] (CopyMessages). *)
Definition target (op : write_op) : Z :=
  match op with
  | OpInsertMessage _ options _ | OpInsertMessageFromImporter _ options => MailboxID options
  | OpCopyMessages _ _ _ destMailboxID _ => destMailboxID
  end.

Definition advanced (op : write_op) (st : db) (h : Z) : Z :=
  match op with
  | OpInsertMessage _ options _ | OpInsertMessageFromImporter _ options =>
      reserved_highest_uid options h
  | OpCopyMessages _ uids srcMailboxID _ _ =>
      h + Z.of_nat (length (filter (λ m, live_in srcMailboxID m ∧ uid m ∈ uids) (messages st)))
  end.

Definition reaches_update (op : write_op) (st : db) : Prop :=
  match op with
  | OpInsertMessage _ options _ | OpInsertMessageFromImporter _ options =>
      is_Some (SerializeBodyStructureGob (BodyStructure_ options))
  | OpCopyMessages _ uids srcMailboxID destMailboxID _ =>
      srcMailboxID ≠ destMailboxID
      ∧ Forall (λ u, 0 ≤ u ≤ max_uint32) (matched_uids srcMailboxID uids (messages st))
  end.

Lemma reserve_uid_total options st mb :
  mailboxes st !! MailboxID options = Some mb →
  - 2 ^ 63 ≤ reserved_highest_uid options (highest_uid mb) ≤ max_int64 →
  is_Some (reserve_uid options st).
Proof.
  unfold reserve_uid, reserved_highest_uid, update_highest_uid. intros Hmb Hrange.
  rewrite Hmb. cbn [mbind option_bind].
  destruct (PreservedUID options) as [p|].
  - rewrite bool_decide_true by done. cbn [mbind option_bind].
    by destruct (PreservedUIDValidity options).
  - by rewrite bool_decide_true by done.
Qed.

Lemma InsertMessage_advances now options upload st mb :
  mailboxes st !! MailboxID options = Some mb →
  is_Some (SerializeBodyStructureGob (BodyStructure_ options)) →
  - 2 ^ 63 ≤ reserved_highest_uid options (highest_uid mb) ≤ max_int64 →
  ∃ mb', mailboxes (InsertMessage now options upload st).2 !! MailboxID options = Some mb'
         ∧ highest_uid mb' = reserved_highest_uid options (highest_uid mb).
Proof.
  intros Hmb [bs Hbs] Hrange. unfold InsertMessage. rewrite Hbs.
  destruct (reserve_uid_total options st mb Hmb Hrange) as [[[u h] st1] Hres].
  rewrite Hres.
  apply reserve_uid_inv in Hres as ((mb0 & mb' & Hmb0 & Hmb' & Hh & _) & _).
  rewrite Hmb in Hmb0. simplify_eq. exists mb'. split; [|done].
  destruct (Marshal_recipients _); [|done].
  destruct (customKeywordsJSON _); [|done].
  cbv zeta. destruct (exec _ _) as [st2|] eqn:Hexec; [|done].
  apply exec_mailboxes in Hexec. cbn [snd].
  rewrite (proj1 (insert_pending_upload_frame _ _ _)).
  rewrite (proj1 (insert_message_contents_frame _ _ _)). by rewrite Hexec.
Qed.

Lemma InsertMessageFromImporter_advances now options st mb :
  mailboxes st !! MailboxID options = Some mb →
  is_Some (SerializeBodyStructureGob (BodyStructure_ options)) →
  - 2 ^ 63 ≤ reserved_highest_uid options (highest_uid mb) ≤ max_int64 →
  ∃ mb', mailboxes (InsertMessageFromImporter now options st).2 !! MailboxID options
         = Some mb'
         ∧ highest_uid mb' = reserved_highest_uid options (highest_uid mb).
Proof.
  intros Hmb [bs Hbs] Hrange. unfold InsertMessageFromImporter. rewrite Hbs.
  destruct (reserve_uid_total options st mb Hmb Hrange) as [[[u h] st1] Hres].
  rewrite Hres.
  apply reserve_uid_inv in Hres as ((mb0 & mb' & Hmb0 & Hmb' & Hh & _) & _).
  rewrite Hmb in Hmb0. simplify_eq. exists mb'. split; [|done].
  destruct (Marshal_recipients _); [|done].
  destruct (customKeywordsJSON _); [|done].
  cbv zeta. destruct (exec _ _) as [st2|] eqn:Hexec; [|done].
  apply exec_mailboxes in Hexec. cbn [snd].
  rewrite (proj1 (insert_message_contents_frame _ _ _)). by rewrite Hexec.
Qed.

Lemma CopyMessages_advances now uids src dst userID st mb :
  mailboxes st !! dst = Some mb →
  src ≠ dst →
  Forall (λ u, 0 ≤ u ≤ max_uint32) (matched_uids src uids (messages st)) →
  let N := Z.of_nat (length (filter (λ m, live_in src m ∧ uid m ∈ uids) (messages st))) in
  - 2 ^ 63 ≤ highest_uid mb + N ≤ max_int64 →
  ∃ mb', mailboxes (CopyMessages now uids src dst userID st).2 !! dst = Some mb'
         ∧ highest_uid mb' = highest_uid mb + N.
Proof.
  intros Hmb Hne Hscan N Hrange. unfold CopyMessages.
  rewrite bool_decide_false by done.
  rewrite scan_source_total by (by rewrite select_source_uids).
  rewrite !app_nil_l, !length_fmap, select_source_length. fold N.
  case_bool_decide as HN.
  - exists mb. split; [done|]. unfold N. rewrite HN. simpl. lia.
  - unfold update_highest_uid. rewrite Hmb. cbn [mbind option_bind].
    rewrite bool_decide_true by done.
    destruct (assign_new_uids _ _ _ _ _) as [newUIDs m'].
    cbn [mailboxes with_mailboxes]. rewrite lookup_insert_eq.
    exists {| mb_name := mb_name mb; highest_uid := highest_uid mb + N;
              uid_validity := uid_validity mb |}.
    split; [|done].
    destruct (exec _ _) as [st2|] eqn:Hexec.
    + apply exec_mailboxes in Hexec. cbn [snd]. rewrite Hexec.
      cbn [mailboxes with_sequences_advanced with_mailboxes].
      by rewrite lookup_insert_eq.
    + cbn [snd mailboxes with_mailboxes]. by rewrite lookup_insert_eq.
Qed.

(** C3.  No write operation of append.go lowers a mailbox's highest_uid,
    whatever the operation returns.  An operation that reaches its UPDATE of
    mailboxes leaves in the mailbox it writes to exactly the advanced value,
    whatever it returns afterwards: highest_uid + 1 for InsertMessage (and
    InsertMessageFromImporter) without a preserved UID, the greater of
    highest_uid and the preserved UID with one, and highest_uid plus the
    number of messages copied for CopyMessages.  In particular every
    successful call leaves that value. *)
Theorem highest_uid_never_decreases op st :
  highest_uid_le st (run op st)
  ∧ (∀ mb, mailboxes st !! target op = Some mb →
       reaches_update op st →
       - 2 ^ 63 ≤ advanced op st (highest_uid mb) ≤ max_int64 →
       ∃ mb', mailboxes (run op st) !! target op = Some mb'
              ∧ highest_uid mb' = advanced op st (highest_uid mb))
  ∧ match op with
    | OpInsertMessage now options upload =>
        ∀ r st' mb,
          InsertMessage now options upload st = (Ok r, st') →
          mailboxes st !! MailboxID options = Some mb →
          ∃ mb', mailboxes st' !! MailboxID options = Some mb'
            ∧ highest_uid mb' = match PreservedUID options with
                                | Some preserved => Z.max (highest_uid mb) preserved
                                | None => highest_uid mb + 1
                                end
    | OpInsertMessageFromImporter now options =>
        ∀ r st' mb,
          InsertMessageFromImporter now options st = (Ok r, st') →
          mailboxes st !! MailboxID options = Some mb →
          ∃ mb', mailboxes st' !! MailboxID options = Some mb'
            ∧ highest_uid mb' = match PreservedUID options with
                                | Some preserved => Z.max (highest_uid mb) preserved
                                | None => highest_uid mb + 1
                                end
    | OpCopyMessages now uids src dst userID =>
        ∀ m st' mb,
          CopyMessages now uids src dst userID st = (Ok m, st') →
          mailboxes st !! dst = Some mb →
          ∃ mb', mailboxes st' !! dst = Some mb'
            ∧ highest_uid mb' = highest_uid mb
                + Z.of_nat (length (filter (λ m, live_in src m ∧ uid m ∈ uids)
                                           (messages st)))
    end.
Proof.
  destruct op as [now options upload|now options|now uids src dst userID];
    (split; [|split]).
  - apply InsertMessage_highest_uid_le.
  - intros mb. apply InsertMessage_advances.
  - intros r st' mb. apply InsertMessage_ok_highest_uid.
  - apply InsertMessageFromImporter_highest_uid_le.
  - intros mb. apply InsertMessageFromImporter_advances.
  - intros r st' mb. apply InsertMessageFromImporter_ok_highest_uid.
  - apply CopyMessages_highest_uid_le.
  - intros mb Hmb [Hne Hscan]. by apply CopyMessages_advances.
  - intros m st' mb. apply CopyMessages_ok_highest_uid.
Qed.

(** ** Duplicate Message-ID *)

(** The steps of InsertMessage before its INSERT succeed. *)
Definition reaches_insert (options : InsertMessageOptions) (st : db) : Prop :=
  is_Some (SerializeBodyStructureGob (BodyStructure_ options))
  ∧ is_Some (reserve_uid options st)
  ∧ is_Some (Marshal_recipients (Recipients options))
  ∧ is_Some (customKeywordsJSON (SplitFlags (Flags options)).2).

(** The INSERT of a row with this Message-ID into this mailbox violates
    messages_message_id_mailbox_id_key. *)
Definition hits_message_id_key (mailboxID : Z) (msgid : string) (st : db) : Prop :=
  ∀ row, mailbox_id row = Some mailboxID → message_id row = msgid →
    messages_constraints (messages st ++ [row]) = Some messages_message_id_mailbox_id_key.

Lemma new_row_fields now options uidToUse bs rj ck up st :
  let row := new_row now options uidToUse bs rj ck up st in
  id row = messages_id_seq st + 1
  ∧ account_id row = UserID options
  ∧ mailbox_id row = Some (MailboxID options)
  ∧ uid row = uidToUse
  ∧ message_id row = saneMessageID now options
  ∧ content_hash row = ContentHash options
  ∧ uploaded row = up
  ∧ expunged_at row = None.
Proof. unfold new_row. by destruct (SplitFlags _). Qed.

(** On a transaction that is not aborted the SELECT of lines 290-293 finds
    a live message with that Message-ID when there is one. *)
Lemma select_existing_Some userID mailboxID msgid st m0 :
  m0 ∈ messages st → existing_message userID mailboxID msgid m0 →
  ∃ m, select_existing false userID mailboxID msgid st = Row (id m, uid m)
       ∧ m ∈ messages st ∧ existing_message userID mailboxID msgid m.
Proof.
  intros Hin Hex. unfold select_existing.
  destruct (filter _ (messages st)) as [|m l] eqn:Hf.
  - assert (m0 ∈ filter (existing_message userID mailboxID msgid) (messages st)) as Hm
      by (by apply list_elem_of_filter).
    rewrite Hf in Hm. by apply elem_of_nil in Hm.
  - assert (m ∈ filter (existing_message userID mailboxID msgid) (messages st)) as Hm
      by (rewrite Hf; left).
    apply list_elem_of_filter in Hm as [? ?]. by exists m.
Qed.

(** The claim of the silent dedupe, as the spec words it: such a call
    returns the id and the UID of a live message with that Message-ID, with
    no error. *)
Definition returns_existing (now : Time) (options : InsertMessageOptions)
    (upload : PendingUpload.t) (st : db) : Prop :=
  ∃ m st',
    InsertMessage now options upload st = (Ok (id m, uid m), st')
    ∧ m ∈ messages st
    ∧ existing_message (UserID options) (MailboxID options) (saneMessageID now options) m.

(** C2 (the code against the claim).  When the INSERT of InsertMessage hits
    the Message-ID uniqueness constraint of the mailbox, the call returns
    ErrDBUniqueViolation and never the existing message, also when a live
    message with the same sanitized Message-ID exists there for the account
    and the same SELECT on a fresh transaction would find it: the lookup is
    sent on the transaction that the failed INSERT aborted.  The messages
    table is as before. *)
Theorem InsertMessage_duplicate_is_an_error now options upload st m0 :
  reaches_insert options st →
  hits_message_id_key (MailboxID options) (saneMessageID now options) st →
  m0 ∈ messages st →
  existing_message (UserID options) (MailboxID options) (saneMessageID now options) m0 →
  (∃ st', InsertMessage now options upload st = (Err ErrDBUniqueViolation, st')
          ∧ messages st' = messages st)
  ∧ (∃ m, select_existing false (UserID options) (MailboxID options)
            (saneMessageID now options) st = Row (id m, uid m)
          ∧ m ∈ messages st)
  ∧ ¬ returns_existing now options upload st.
Proof.
  intros ([bs Hbs] & [[[u h] st1] Hres] & [rj Hrj] & [ck Hck]) Hhit Hin Hex.
  pose proof Hres as Hinv. apply reserve_uid_inv in Hinv as (_ & _ & Hmsgs & _).
  assert (InsertMessage now options upload st = (Err ErrDBUniqueViolation, st1)) as Hrun.
  { unfold InsertMessage. rewrite Hbs, Hres, Hrj, Hck. cbv zeta.
    cbn [exec messages with_sequences_advanced]. rewrite Hmsgs.
    rewrite Hhit; [|apply new_row_fields..]. cbn [fst snd].
    unfold insert_failed. by rewrite bool_decide_true by done. }
  split; [by exists st1|]. split.
  - destruct (select_existing_Some (UserID options) (MailboxID options)
                (saneMessageID now options) st m0) as (m & Hsel & Hm & _); [done..|].
    by exists m.
  - intros (m & st' & Hok & _). rewrite Hrun in Hok. discriminate.
Qed.

(** ** Pending uploads *)

(** Every message that is not uploaded has a pending_uploads row for its
    (content_hash, account_id). *)
Definition pending_inv (st : db) : Prop :=
  ∀ m, m ∈ messages st → uploaded m = false →
    is_Some (pending_uploads st !! (content_hash m, account_id m)).

Definition upload_matches (options : InsertMessageOptions) (upload : PendingUpload.t) : Prop :=
  PendingUpload.ContentHash upload = ContentHash options
  ∧ PendingUpload.AccountID upload = UserID options.

Lemma pending_inv_same st st' :
  messages st' = messages st → pending_uploads st' = pending_uploads st →
  pending_inv st → pending_inv st'.
Proof. unfold pending_inv. intros -> ->. done. Qed.

(** What a successful InsertMessage leaves in messages and pending_uploads. *)
Lemma InsertMessage_ok_inv now options upload st r st' :
  InsertMessage now options upload st = (Ok r, st') →
  (messages st' = messages st ∧ pending_uploads st' = pending_uploads st)
  ∨ ∃ row st2,
      messages st2 = messages st ++ [row]
      ∧ pending_uploads st2 = pending_uploads st
      ∧ messages st' = messages st2
      ∧ pending_uploads st' = pending_uploads (insert_pending_upload now upload st2)
      ∧ r.1 = id row
      ∧ uploaded row = false
      ∧ content_hash row = ContentHash options
      ∧ account_id row = UserID options.
Proof.
  unfold InsertMessage. intros H.
  destruct (SerializeBodyStructureGob _) as [bs|]; [|done].
  destruct (reserve_uid options st) as [[[u h] st1]|] eqn:Hres; [|done].
  apply reserve_uid_inv in Hres as (_ & _ & Hmsgs & _ & Hpend).
  destruct (Marshal_recipients _) as [rj|]; [|done].
  destruct (customKeywordsJSON _) as [ck|]; [|done].
  cbv zeta in H. destruct (exec _ _) as [st2|] eqn:Hexec.
  - apply exec_InsertInto_inv in Hexec as (_ & Hm2 & _ & _ & Hp2).
    cbn [messages pending_uploads with_sequences_advanced] in Hm2, Hp2.
    simplify_eq. right.
    pose proof (new_row_fields now options u bs rj ck uploaded_default st1)
      as (? & ? & ? & ? & ? & ? & ? & ?).
    eexists _, (insert_message_contents now options st2).
    rewrite !(proj1 (proj2 (insert_message_contents_frame _ _ _))).
    rewrite !(proj2 (proj2 (insert_message_contents_frame _ _ _))).
    rewrite Hm2, Hp2, Hmsgs, Hpend.
    rewrite (proj2 (insert_pending_upload_frame _ _ _)).
    rewrite !(proj1 (proj2 (insert_message_contents_frame _ _ _))).
    by rewrite Hm2, Hmsgs.
  - simplify_eq. by left.
Qed.

Lemma InsertMessage_err_inv now options upload st e st' :
  InsertMessage now options upload st = (Err e, st') →
  messages st' = messages st ∧ pending_uploads st' = pending_uploads st.
Proof.
  unfold InsertMessage. intros H.
  destruct (SerializeBodyStructureGob _) as [bs|]; [|by simplify_eq].
  destruct (reserve_uid options st) as [[[u h] st1]|] eqn:Hres; [|by simplify_eq].
  apply reserve_uid_inv in Hres as (_ & _ & Hmsgs & _ & Hpend).
  destruct (Marshal_recipients _) as [rj|]; [|by simplify_eq].
  destruct (customKeywordsJSON _) as [ck|]; [|by simplify_eq].
  cbv zeta in H. destruct (exec _ _) as [st2|] eqn:Hexec; by simplify_eq.
Qed.

Lemma InsertMessage_pending_inv now options upload st :
  upload_matches options upload → pending_inv st →
  pending_inv (InsertMessage now options upload st).2.
Proof.
  intros [Hh Ha] Hinv.
  destruct (InsertMessage now options upload st) as [[r|e] st'] eqn:H; cbn [snd].
  - apply InsertMessage_ok_inv in H
      as [[Hm Hp]|(row & st2 & Hm2 & Hp2 & Hm & Hp & _ & Hup & Hch & Hac)].
    + by eapply pending_inv_same.
    + intros m. rewrite Hm, Hm2, Hp. intros [Hin|Hin]%elem_of_app Hu.
      * apply insert_pending_upload_keeps. rewrite Hp2. by apply Hinv.
      * apply list_elem_of_singleton in Hin as ->. rewrite Hch, Hac, <-Hh, <-Ha.
        apply insert_pending_upload_present.
  - apply InsertMessage_err_inv in H as [Hm Hp]. by eapply pending_inv_same.
Qed.
Lemma InsertMessageFromImporter_pending_inv now options st :
  pending_inv st → pending_inv (InsertMessageFromImporter now options st).2.
Proof.
  intros Hinv. unfold InsertMessageFromImporter.
  destruct (SerializeBodyStructureGob _) as [bs|]; [|done].
  destruct (reserve_uid options st) as [[[u h] st1]|] eqn:Hres; [|done].
  apply reserve_uid_inv in Hres as (_ & _ & Hmsgs & _ & Hpend).
  assert (pending_inv st1) as Hinv1 by (by eapply pending_inv_same).
  destruct (Marshal_recipients _) as [rj|]; [|done].
  destruct (customKeywordsJSON _) as [ck|]; [|done].
  cbv zeta. destruct (exec _ _) as [st2|] eqn:Hexec; [|done].
  apply exec_InsertInto_inv in Hexec as (_ & Hm2 & _ & _ & Hp2).
  cbn [messages pending_uploads with_sequences_advanced] in Hm2, Hp2. cbn [snd].
  pose proof (new_row_fields now options u bs rj ck true st1)
    as (? & ? & ? & ? & ? & ? & Hup & ?).
  intros m.
  rewrite (proj1 (proj2 (insert_message_contents_frame _ _ _))).
  rewrite (proj2 (proj2 (insert_message_contents_frame _ _ _))).
  rewrite Hm2, Hp2. intros [Hin|Hin]%elem_of_app Hu.
  - by apply Hinv1.
  - apply list_elem_of_singleton in Hin as ->. cbv zeta in Hup. congruence.
Qed.

Lemma copied_rows_source now dst name ids news st row :
  row ∈ copied_rows now dst name ids news st →
  ∃ m, m ∈ messages st ∧ uploaded row = uploaded m
       ∧ content_hash row = content_hash m ∧ account_id row = account_id m
       ∧ mailbox_id row = Some dst.
Proof.
  unfold copied_rows. intros (k & [m n] & -> & Hk)%elem_of_lookup_imap.
  apply list_elem_of_lookup_2 in Hk. unfold join_unnest in Hk.
  apply list_elem_of_bind in Hk as (d & Hk & _).
  apply list_elem_of_bind in Hk as (m' & Hk & Hm').
  apply list_elem_of_singleton in Hk. simplify_eq.
  apply list_elem_of_filter in Hm' as [_ Hm']. by exists m'.
Qed.

Lemma CopyMessages_pending_inv now uids src dst userID st :
  pending_inv st → pending_inv (CopyMessages now uids src dst userID st).2.
Proof.
  intros Hinv. unfold CopyMessages. case_bool_decide; [done|].
  destruct (scan_source _ [] []) as [[ids us]|]; [|done].
  case_bool_decide; [done|].
  destruct (update_highest_uid _ dst st) as [[h st1]|] eqn:Hup; [|done].
  apply update_highest_uid_inv in Hup as (mb & _ & _ & _ & Hmsgs & _ & Hpend).
  assert (pending_inv st1) as Hinv1 by (by eapply pending_inv_same).
  destruct (assign_new_uids _ _ _ _ _) as [newUIDs m'].
  destruct (mailboxes st1 !! dst); [|done].
  destruct (exec _ _) as [st2|] eqn:Hexec; [|done].
  apply exec_InsertInto_inv in Hexec as (_ & Hm2 & _ & _ & Hp2).
  cbn [messages pending_uploads with_sequences_advanced] in Hm2, Hp2. cbn [snd].
  intros row. rewrite Hm2, Hp2. intros [Hin|Hin]%elem_of_app Hu.
  - by apply Hinv1.
  - apply copied_rows_source in Hin as (m0 & Hm0 & Hu0 & -> & -> & _).
    apply Hinv1; [done|congruence].
Qed.

(** C4 (amended).  A row that InsertMessage creates has uploaded = false and
    carries the options' content hash and account, and on return
    pending_uploads holds a row for the (ContentHash, AccountID) of the
    [upload] argument.  When the caller passes an upload that names the
    options' content hash and account, this is the row for the message, and
    then every write operation of append.go keeps the invariant that each
    message with uploaded = false has a pending_uploads row. *)
Theorem InsertMessage_pending_upload op st :
  (match op with
   | OpInsertMessage _ options upload => upload_matches options upload
   | _ => True
   end → pending_inv st → pending_inv (run op st))
  ∧ match op with
    | OpInsertMessage now options upload =>
        ∀ r st', InsertMessage now options upload st = (Ok r, st') →
          ∃ created, messages st' = messages st ++ created
            ∧ Forall (λ row,
                 uploaded row = false
                 ∧ content_hash row = ContentHash options
                 ∧ account_id row = UserID options
                 ∧ is_Some (pending_uploads st'
                     !! (PendingUpload.ContentHash upload, PendingUpload.AccountID upload)))
               created
    | _ => True
    end.
Proof.
  destruct op as [now options upload|now options|now uids src dst userID];
    (split; [|try done]).
  - apply InsertMessage_pending_inv.
  - intros r st' H.
    apply InsertMessage_ok_inv in H
      as [[Hm Hp]|(row & st2 & Hm2 & Hp2 & Hm & Hp & _ & Hup & Hch & Hac)].
    + exists []. by rewrite app_nil_r.
    + exists [row]. split; [by rewrite Hm, Hm2|].
      constructor; [|done]. rewrite Hp. repeat split; try done.
      apply insert_pending_upload_present.
  - intros _. apply InsertMessageFromImporter_pending_inv.
  - intros _. apply CopyMessages_pending_inv.
Qed.

(** ** The trigger rebuilds the sequence numbers *)

(** The rows of message_sequences that belong to mailbox [w]. *)
Definition sequences_of (w : Z) (st : db) : list message_sequence :=
  filter (λ r, ms_mailbox_id r = w) (message_sequences st).

Lemma numbered_mailbox v uids :
  Forall (λ r, ms_mailbox_id r = v) (numbered v uids).
Proof.
  apply Forall_forall. intros r (i & u & -> & _)%elem_of_lookup_imap. done.
Qed.

Lemma numbered_uids v uids : ms_uid <$> numbered v uids = uids.
Proof.
  unfold numbered. apply list_eq. intros i.
  rewrite list_lookup_fmap, list_lookup_imap. by destruct (uids !! i).
Qed.

Lemma numbered_seqnums v uids :
  ms_seqnum <$> numbered v uids = seqZ 1 (Z.of_nat (length uids)).
Proof.
  unfold numbered. apply list_eq. intros i.
  rewrite list_lookup_fmap, list_lookup_imap.
  destruct (uids !! i) as [u|] eqn:Hi; simpl.
  - symmetry. apply lookup_seqZ. apply lookup_lt_Some in Hi. lia.
  - symmetry. apply lookup_seqZ_ge. apply lookup_ge_None in Hi. lia.
Qed.

Lemma filter_all {A} (P : A → Prop) `{!∀ x, Decision (P x)} (l : list A) :
  Forall P l → filter P l = l.
Proof.
  induction 1 as [|x l Hx _ IH]; [done|].
  by rewrite filter_cons_True, IH.
Qed.

Lemma filter_none {A} (P : A → Prop) `{!∀ x, Decision (P x)} (l : list A) :
  Forall (λ x, ¬ P x) l → filter P l = [].
Proof.
  induction 1 as [|x l Hx _ IH]; [done|].
  by rewrite filter_cons_False.
Qed.

Lemma rebuild_sequences_rows st v st' w :
  rebuild_sequences st v = PgOk st' →
  sequences_of w st'
  = if decide (w = v) then numbered v (live_uids v (messages st)) else sequences_of w st.
Proof.
  intros (_ & _ & ->)%rebuild_sequences_inv. unfold sequences_of.
  cbn [message_sequences with_message_sequences pg_advisory_xact_lock].
  rewrite filter_app, list_filter_filter. destruct (decide (w = v)) as [->|Hne].
  - rewrite (filter_none (λ r, ms_mailbox_id r = v ∧ ms_mailbox_id r ≠ v))
      by (apply Forall_forall; tauto).
    rewrite filter_all by apply numbered_mailbox. done.
  - rewrite (filter_none _ (numbered _ _)).
    + rewrite app_nil_r. apply list_filter_iff. intros r. split; [tauto|].
      intros Hr. split; [done|congruence].
    + eapply Forall_impl; [apply numbered_mailbox|]. cbv beta. congruence.
Qed.

Lemma rebuild_sequences_locks st v st' :
  rebuild_sequences st v = PgOk st' → advisory_locks st' = v :: advisory_locks st.
Proof. by intros (_ & _ & ->)%rebuild_sequences_inv. Qed.

Lemma rebuild_all_rows vs : ∀ st st' w,
  rebuild_all st vs = PgOk st' →
  sequences_of w st'
  = if decide (w ∈ vs) then numbered w (live_uids w (messages st)) else sequences_of w st.
Proof.
  induction vs as [|v vs IH]; intros st st' w H; simpl in H.
  - simplify_eq. rewrite decide_False; [done|]. apply not_elem_of_nil.
  - destruct (rebuild_sequences st v) as [st1|] eqn:Hv; [|done].
    pose proof (rebuild_sequences_frame _ _ _ Hv) as (_ & Hmsgs & _).
    rewrite (IH _ _ w H), Hmsgs, (rebuild_sequences_rows _ _ _ w Hv).
    destruct (decide (w ∈ vs)) as [Hin|Hnin].
    + rewrite decide_True; [done|by right].
    + destruct (decide (w = v)) as [->|Hne].
      * rewrite decide_True; [done|by left].
      * rewrite decide_False; [done|]. by intros [?|?]%elem_of_cons.
Qed.

Lemma rebuild_all_locks vs : ∀ st st' w,
  rebuild_all st vs = PgOk st' → w ∈ vs → w ∈ advisory_locks st'.
Proof.
  assert (∀ vs st st' w, rebuild_all st vs = PgOk st' →
            w ∈ advisory_locks st → w ∈ advisory_locks st') as Hkeep.
  { clear. induction vs as [|v vs IH]; intros st st' w H Hw; simpl in H.
    - by simplify_eq.
    - destruct (rebuild_sequences st v) as [st1|] eqn:Hv; [|done].
      eapply IH; [done|]. rewrite (rebuild_sequences_locks _ _ _ Hv). by right. }
  induction vs as [|v vs IH]; intros st st' w H Hw; simpl in H.
  - by apply elem_of_nil in Hw.
  - destruct (rebuild_sequences st v) as [st1|] eqn:Hv; [|done].
    apply elem_of_cons in Hw as [->|Hw]; [|by eapply IH].
    eapply Hkeep; [done|]. rewrite (rebuild_sequences_locks _ _ _ Hv). by left.
Qed.

Lemma rebuild_all_checked vs : ∀ st st' w,
  rebuild_all st vs = PgOk st' → w ∈ vs →
  NoDup (live_uids w (messages st))
  ∧ Z.of_nat (length (live_uids w (messages st))) ≤ max_int32.
Proof.
  induction vs as [|v vs IH]; intros st st' w H Hw; simpl in H.
  - by apply elem_of_nil in Hw.
  - destruct (rebuild_sequences st v) as [st1|] eqn:Hv; [|done].
    pose proof (rebuild_sequences_frame _ _ _ Hv) as (_ & Hmsgs & _).
    apply elem_of_cons in Hw as [->|Hw].
    + by apply rebuild_sequences_inv in Hv as (? & ? & _).
    + rewrite <-Hmsgs. by eapply IH.
Qed.
Lemma elem_of_distinct_mailbox_ids v t :
  v ∈ distinct_mailbox_ids t ↔ ∃ m, m ∈ t ∧ mailbox_id m = Some v.
Proof.
  unfold distinct_mailbox_ids. by rewrite elem_of_remove_dups, list_elem_of_omap.
Qed.

(** The mailboxes a statement touches: those of the rows it inserts, deletes,
    or updates (before or after the update). *)
Definition touches (s : statement) (st : db) (v : Z) : Prop :=
  match s with
  | InsertInto rows => ∃ m, m ∈ rows ∧ mailbox_id m = Some v
  | UpdateWhere P f =>
      ∃ m, m ∈ messages st ∧ P m ∧ (mailbox_id m = Some v ∨ mailbox_id (f m) = Some v)
  | DeleteWhere P => ∃ m, m ∈ messages st ∧ P m ∧ mailbox_id m = Some v
  end.

(** What [exec] hands to the trigger. *)
Lemma exec_fires_trigger s st st' :
  exec s st = PgOk st' →
  ∃ op old_table new_table ms,
    maintain_message_sequences op old_table new_table (with_messages ms st) = PgOk st'
    ∧ ∀ v, touches s st v → v ∈ affected_mailboxes op old_table new_table.
Proof.
  destruct s as [rows|P f|P]; simpl.
  - destruct (messages_constraints _); [done|]. intros H.
    exists INSERT, [], rows, (messages st ++ rows). split; [done|].
    intros v Hv. by apply elem_of_distinct_mailbox_ids.
  - destruct (messages_constraints _); [done|]. intros H.
    eexists UPDATE, _, _, _. split; [done|].
    intros v (m & Hm & HP & Hv). cbn [affected_mailboxes].
    rewrite elem_of_remove_dups, elem_of_app, !elem_of_distinct_mailbox_ids.
    destruct Hv as [Hv|Hv].
    + right. exists m. split; [|done]. by apply list_elem_of_filter.
    + left. exists (f m). split; [|done]. apply list_elem_of_fmap.
      exists m. split; [done|]. by apply list_elem_of_filter.
  - intros H. eexists DELETE, _, [], _. split; [done|].
    intros v (m & Hm & HP & Hv). apply elem_of_distinct_mailbox_ids.
    exists m. split; [|done]. by apply list_elem_of_filter.
Qed.

Lemma live_uids_perm v ms : live_uids v ms ≡ₚ uid <$> filter (live_in v) ms.
Proof. apply merge_sort_Permutation. Qed.

Lemma live_uids_length v ms : length (live_uids v ms) = length (filter (live_in v) ms).
Proof. by rewrite live_uids_perm, length_fmap. Qed.

(** C5.  After an INSERT, UPDATE or DELETE statement on messages has run
    (trigger included), for every mailbox the statement touched: the
    transaction holds pg_advisory_xact_lock(mailbox_id); the mailbox's rows of
    message_sequences are exactly its live (expunged_at IS NULL) messages,
    one row per message; their UIDs ascend strictly; and their seqnums are
    1, 2, ..., N in that order: contiguous, without gaps, and unique. *)
Theorem maintain_message_sequences_rebuilds s st st' v :
  exec s st = PgOk st' →
  touches s st v →
  v ∈ advisory_locks st'
  ∧ sequences_of v st' = numbered v (live_uids v (messages st'))
  ∧ ms_uid <$> sequences_of v st' ≡ₚ uid <$> filter (live_in v) (messages st')
  ∧ StronglySorted Z.lt (ms_uid <$> sequences_of v st')
  ∧ ms_seqnum <$> sequences_of v st'
    = seqZ 1 (Z.of_nat (length (filter (live_in v) (messages st'))))
  ∧ NoDup (ms_seqnum <$> sequences_of v st').
Proof.
  intros (op & old_table & new_table & ms & Htrig & Haff)%exec_fires_trigger Hv.
  apply Haff in Hv. unfold maintain_message_sequences in Htrig.
  pose proof (rebuild_all_frame _ _ _ Htrig) as (_ & Hmsgs & _).
  pose proof (rebuild_all_rows _ _ _ v Htrig) as Hrows.
  rewrite decide_True in Hrows by done. rewrite <-Hmsgs in Hrows.
  pose proof (rebuild_all_checked _ _ _ v Htrig Hv) as [Hnd _].
  rewrite <-Hmsgs in Hnd.
  split; [by eapply rebuild_all_locks|]. split; [done|].
  rewrite Hrows, numbered_uids, numbered_seqnums, live_uids_length.
  split; [apply live_uids_perm|]. split; [|split; [done|apply NoDup_seqZ]].
  apply StronglySorted_le_NoDup; [|done]. apply (StronglySorted_merge_sort _).
Qed.

(** The trigger succeeds when every affected mailbox exists, its live UIDs
    are distinct, and they are few enough for the INT column. *)
Lemma rebuild_all_succeeds vs : ∀ st,
  (∀ v, v ∈ vs → NoDup (live_uids v (messages st))
                 ∧ Z.of_nat (length (live_uids v (messages st))) ≤ max_int32
                 ∧ is_Some (mailboxes st !! v)) →
  ∃ st', rebuild_all st vs = PgOk st'.
Proof.
  induction vs as [|v vs IH]; intros st Hok; simpl; [by eexists|].
  destruct (Hok v) as (Hnd & Hlen & Hmb); [by left|].
  destruct (rebuild_sequences st v) as [st1|e] eqn:Hv.
  - pose proof (rebuild_sequences_frame _ _ _ Hv) as (Hmbs & Hmsgs & _).
    apply IH. intros w Hw. rewrite Hmbs, Hmsgs. apply Hok. by right.
  - unfold rebuild_sequences in Hv. cbv zeta in Hv.
    cbn [messages mailboxes pg_advisory_xact_lock] in Hv.
    rewrite !bool_decide_true in Hv; [done|by right|done|done].
Qed.

(** ** What CopyMessages copies *)

(** The columns that the INSERT ... SELECT of lines 77-98 takes over from the
    source row [m] as they are. *)
Definition same_content (m row : message) : Prop :=
  account_id row = account_id m ∧ content_hash row = content_hash m
  ∧ uploaded row = uploaded m ∧ message_id row = message_id m
  ∧ in_reply_to row = in_reply_to m ∧ subject row = subject m
  ∧ sent_date row = sent_date m ∧ internal_date row = internal_date m
  ∧ custom_flags row = custom_flags m ∧ size row = size m
  ∧ body_structure row = body_structure m ∧ recipients_json row = recipients_json m
  ∧ s3_domain row = s3_domain m ∧ s3_localpart row = s3_localpart m
  ∧ subject_sort row = subject_sort m ∧ from_name_sort row = from_name_sort m
  ∧ from_email_sort row = from_email_sort m ∧ to_email_sort row = to_email_sort m
  ∧ cc_email_sort row = cc_email_sort m.

(** The new UIDs and the map of the loop of lines 64-70, whatever the range
    of the numbers. *)
Lemma assign_new_uids_eq startUID sourceUIDs : ∀ i newUIDs m,
  NoDup sourceUIDs →
  let news := (λ k, to_int64 (startUID + k)) <$> seqZ i (Z.of_nat (length sourceUIDs)) in
  assign_new_uids startUID i sourceUIDs newUIDs m
  = (newUIDs ++ news, list_to_map (zip sourceUIDs (to_uint32 <$> news)) ∪ m).
Proof.
  induction sourceUIDs as [|u rest IH]; intros i newUIDs m Hnd; cbv zeta.
  - simpl. by rewrite app_nil_r, (left_id_L ∅ (∪)).
  - apply NoDup_cons in Hnd as [Hu Hnd].
    cbn [assign_new_uids length]. cbv zeta.
    rewrite IH by done. cbv zeta.
    rewrite (seqZ_cons i) by lia.
    replace (Z.succ i) with (i + 1) by lia.
    replace (Z.pred (Z.of_nat (S (length rest)))) with (Z.of_nat (length rest)) by lia.
    rewrite !fmap_cons. f_equal.
    + by rewrite <-app_assoc.
    + cbn [zip zip_with]. rewrite list_to_map_cons. cbn [fst snd].
      rewrite <-insert_union_l. symmetry. apply insert_union_r.
      apply not_elem_of_list_to_map. rewrite fst_zip; [done|].
      rewrite !length_fmap, length_seqZ. lia.
Qed.

Lemma filter_id_singleton (ms : list message) m :
  NoDup (id <$> ms) → m ∈ ms → filter (λ x, id x = id m) ms = [m].
Proof.
  induction ms as [|x ms IH]; intros Hnd Hin; [by apply elem_of_nil in Hin|].
  rewrite fmap_cons in Hnd. apply NoDup_cons in Hnd as [Hx Hnd].
  rewrite filter_cons. apply elem_of_cons in Hin as [->|Hin].
  - rewrite decide_True by done. f_equal.
    apply filter_none, Forall_forall. intros y Hy Heq.
    apply Hx. rewrite <-Heq. by apply list_elem_of_fmap_2.
  - rewrite decide_False; [by apply IH|].
    intros Heq. apply Hx. rewrite Heq. by apply list_elem_of_fmap_2.
Qed.

(** The selected rows are the matched messages of the source mailbox. *)
Lemma select_source_elem src uids ms r :
  r ∈ select_source src uids ms ↔
  ∃ m, m ∈ ms ∧ live_in src m ∧ uid m ∈ uids ∧ r = (id m, uid m).
Proof.
  unfold select_source. rewrite merge_sort_Permutation, list_elem_of_fmap.
  split.
  - intros (m & -> & [[??] ?]%list_elem_of_filter). by exists m.
  - intros (m & ? & ? & ? & ->). exists m. split; [done|].
    by apply list_elem_of_filter.
Qed.

(** With unique ids, the join of lines 96-97 pairs each selected id with its
    one message. *)
Lemma join_unnest_rows (ms : list message) (rows : list (Z * Z)) (news : list Z) :
  NoDup (id <$> ms) →
  length news = length rows →
  (∀ r, r ∈ rows → ∃ m, m ∈ ms ∧ r = (id m, uid m)) →
  ∃ l, join_unnest ms rows.*1 news = zip l news
       ∧ Forall (λ m, m ∈ ms) l ∧ (λ m, (id m, uid m)) <$> l = rows.
Proof.
  intros Hnd. revert news.
  induction rows as [|r rows IH]; intros news Hlen Hrows.
  - exists []. by destruct news.
  - destruct news as [|n news]; [done|].
    destruct (Hrows r) as (m & Hm & ->); [left|].
    destruct (IH news) as (l & Hl & Hsub & Hfm);
      [simpl in Hlen; lia|intros r' Hr'; apply Hrows; by right|].
    exists (m :: l). unfold join_unnest in *.
    rewrite fmap_cons. cbn [fst zip zip_with]. rewrite bind_cons.
    cbn [fst snd]. rewrite filter_id_singleton by done.
    rewrite bind_singleton. cbn [app]. rewrite Hl.
    split; [done|]. split; [by constructor|by rewrite fmap_cons, Hfm].
Qed.

(** X1.  A successful CopyMessages, the ids of messages being unique (the
    primary key) and the live UIDs of the source mailbox too, leaves every
    existing row as it was and appends one row per matched source message.
    Each new row is the copy of a live, requested message of the source
    mailbox: the same account, content hash, upload state, headers and sort
    fields, the flags with the recent bit added, the destination mailbox and
    its name, not expunged.  For the UID of the source the returned map
    gives the low 32 bits of the UID of the new row (an [imap.UID]): the
    row's UID itself when that fits 32 bits, and another number when it
    does not. *)
Theorem CopyMessages_copies_content now uids src dst userID st mm st' :
  CopyMessages now uids src dst userID st = (Ok mm, st') →
  NoDup (id <$> messages st) →
  NoDup (live_uids src (messages st)) →
  ∃ rows,
    messages st' = messages st ++ rows
    ∧ length rows = length (filter (λ m, live_in src m ∧ uid m ∈ uids) (messages st))
    ∧ ∀ row, row ∈ rows →
        ∃ m mb, m ∈ messages st ∧ live_in src m ∧ uid m ∈ uids
          ∧ same_content m row
          ∧ flags row = Z.lor (flags m) FlagRecent
          ∧ mailbox_id row = Some dst
          ∧ mailboxes st !! dst = Some mb ∧ mailbox_path row = mb_name mb
          ∧ expunged_at row = None
          ∧ flags_changed_at row = Some now
          ∧ mm !! uid m = Some (to_uint32 (uid row))
          ∧ (0 ≤ uid row ≤ max_uint32 → mm !! uid m = Some (uid row))
          ∧ (¬ 0 ≤ uid row ≤ max_uint32 → mm !! uid m ≠ Some (uid row)).
Proof.
  intros H Hids Hnd.
  assert (HndM := matched_uids_NoDup src uids _ Hnd).
  unfold CopyMessages in H. case_bool_decide as Hne; [done|].
  destruct (scan_source _ [] []) as [[ids us]|] eqn:Hscan; [|done].
  apply scan_source_inv in Hscan as (-> & -> & Hrange).
  rewrite !app_nil_l in H.
  case_bool_decide as HN.
  { simplify_eq. exists []. rewrite app_nil_r. split; [done|].
    rewrite length_fmap, select_source_length in HN.
    split; [done|]. intros row Hrow. by apply elem_of_nil in Hrow. }
  destruct (update_highest_uid _ dst st) as [[h st1]|] eqn:Hup; [|done].
  apply update_highest_uid_inv in Hup as (mb & Hmb & _ & Hmbs & Hmsgs & _ & _).
  rewrite select_source_uids in H.
  rewrite assign_new_uids_eq in H by done. cbv zeta in H.
  rewrite (right_id_L ∅ (∪)), app_nil_l in H.
  destruct (mailboxes st1 !! dst) as [mb1|] eqn:Hmb1; [|done].
  rewrite Hmbs, lookup_insert_eq in Hmb1. simplify_eq. cbn [mb_name] in H.
  destruct (exec _ _) as [st2|] eqn:Hexec; [|done].
  apply exec_InsertInto_inv in Hexec as (_ & Hm2 & _).
  cbn [messages with_sequences_advanced] in Hm2. simplify_eq.
  rewrite Hm2, Hmsgs. eexists. split; [done|].
  set (news := (λ k, to_int64 (_ + k)) <$> seqZ 0 _) in *.
  assert (length news = length (select_source src uids (messages st))) as Hlen.
  { unfold news. rewrite length_fmap, length_seqZ, <-select_source_uids, length_fmap. lia. }
  destruct (join_unnest_rows (messages st) (select_source src uids (messages st)) news)
    as (l & Hjoin & Hsub & Hl); [done|done| |].
  { intros r (m & ? & _ & _ & ->)%select_source_elem. by exists m. }
  unfold copied_rows. rewrite Hmsgs, Hjoin.
  assert (length l = length news) as Hll.
  { rewrite Hlen, <-Hl. by rewrite length_fmap. }
  split.
  { rewrite length_imap, length_zip, Hll, Nat.min_id, Hlen. apply select_source_length. }
  intros row (k & [m n] & -> & Hk)%elem_of_lookup_imap.
  apply lookup_zip_with_Some in Hk as (m' & n' & [= <- <-] & Hlk & Hnk).
  assert ((id m, uid m) ∈ select_source src uids (messages st)) as Hsel.
  { rewrite <-Hl. apply list_elem_of_fmap. exists m. split; [done|].
    by eapply list_elem_of_lookup_2. }
  apply select_source_elem in Hsel as (m0 & Hm0 & Hlive & Hu & Heq).
  assert (m0 = m) as ->.
  { assert (m ∈ messages st) as Hm by (by eapply Forall_lookup_1 in Hsub).
    assert ([m0] = [m]) as [= ->]; [|done].
    rewrite <-(filter_id_singleton (messages st) m0), <-(filter_id_singleton (messages st) m)
      by done.
    by injection Heq as -> _. }
  exists m, mb. cbn [fst snd copied_row].
  split; [done|]. split; [done|]. split; [done|].
  split; [by repeat split|].
  split; [done|]. split; [done|]. split; [done|]. split; [done|].
  split; [done|]. split; [done|].
  assert (list_to_map (M := gmap Z Z)
            (zip (matched_uids src uids (messages st)) (to_uint32 <$> news)) !! uid m
          = Some (to_uint32 n)) as Hmap.
  { apply elem_of_list_to_map_1.
    { rewrite fst_zip; [done|]. rewrite length_fmap, Hlen, <-select_source_uids.
      by rewrite length_fmap. }
    apply list_elem_of_lookup. exists k.
    apply lookup_zip_with_Some. exists (uid m), (to_uint32 n).
    split; [done|]. split; [|by rewrite list_lookup_fmap, Hnk].
    rewrite <-select_source_uids, <-Hl, <-list_fmap_compose, list_lookup_fmap, Hlk. done. }
  split; [done|]. split.
  - intros Hfit. by rewrite Hmap, to_uint32_id.
  - intros Hout. rewrite Hmap. intros [= Hlow]. apply Hout.
    cbn [uid copied_row] in Hlow |- *. unfold to_uint32, max_uint32 in *.
    assert (0 ≤ n mod 2 ^ 32 < 2 ^ 32) by (apply Z.mod_pos_bound; lia). lia.
Qed.

(** ** UIDs and the mailbox's highest_uid *)

(** The row of message_contents that lines 315-328 write for a new hash. *)
Definition stored_content (now : Time) (options : InsertMessageOptions) : message_content :=
  {| text_body :=
       if bool_decide (0 < FTSRetention options)
          && bool_decide (SentDate options < now - FTSRetention options)
       then None else Some (SanitizeUTF8 (PlaintextBody options));
     text_body_tsv := to_tsvector (SanitizeUTF8 (PlaintextBody options));
     headers := RawHeaders options;
     headers_tsv := to_tsvector (RawHeaders options) |}.

Lemma insert_message_contents_spec now options st :
  message_contents (insert_message_contents now options st)
  = match message_contents st !! ContentHash options with
    | Some _ => message_contents st
    | None => <[ContentHash options := stored_content now options]> (message_contents st)
    end.
Proof. unfold insert_message_contents. cbv zeta. by destruct (_ !! _). Qed.

(** The ways an insert ends: before the UID is reserved, with the state as
    it was; after it, without a new row (an error, or the existing message of
    a duplicate); or with the new row. *)
Inductive insert_outcome (now : Time) (options : InsertMessageOptions) (st : db)
    (r : result (Z * Z) * db) (up : bool) (returned : Z → Z → Z) : Prop :=
| insert_refused e :
    r = (Err e, st) → insert_outcome now options st r up returned
| insert_no_row uidToUse highestUID st1 :
    reserve_uid options st = Some (uidToUse, highestUID, st1) →
    r.2 = st1 →
    insert_outcome now options st r up returned
| insert_row uidToUse highestUID st1 row :
    reserve_uid options st = Some (uidToUse, highestUID, st1) →
    r.1 = Ok (id row, returned uidToUse highestUID) →
    mailboxes r.2 = mailboxes st1 →
    messages r.2 = messages st ++ [row] →
    message_contents r.2
    = match message_contents st !! ContentHash options with
      | Some _ => message_contents st
      | None => <[ContentHash options := stored_content now options]> (message_contents st)
      end →
    uid row = uidToUse → mailbox_id row = Some (MailboxID options) →
    uploaded row = up → content_hash row = ContentHash options →
    insert_outcome now options st r up returned.

Lemma InsertMessage_outcome now options upload st :
  insert_outcome now options st (InsertMessage now options upload st) uploaded_default
    (λ uidToUse highestUID, highestUID).
Proof.
  unfold InsertMessage.
  destruct (SerializeBodyStructureGob _) as [bs|]; [|by eapply insert_refused].
  destruct (reserve_uid options st) as [[[u h] st1]|] eqn:Hres; [|by eapply insert_refused].
  pose proof Hres as (_ & _ & Hmsgs & Hcont & _)%reserve_uid_inv.
  destruct (Marshal_recipients _) as [rj|]; [|by eapply insert_no_row].
  destruct (customKeywordsJSON _) as [ck|]; [|by eapply insert_no_row].
  cbv zeta. destruct (exec _ _) as [st2|] eqn:Hexec; [|by eapply insert_no_row].
  apply exec_InsertInto_inv in Hexec as (_ & Hm2 & Hmb2 & Hc2 & _).
  cbn [messages mailboxes message_contents with_sequences_advanced] in Hm2, Hmb2, Hc2.
  pose proof (new_row_fields now options u bs rj ck uploaded_default st1)
    as (? & ? & ? & ? & ? & ? & ? & ?).
  eapply insert_row; [done|done|..]; cbn [fst snd]; try done.
  - rewrite (proj1 (insert_pending_upload_frame _ _ _)).
    by rewrite (proj1 (insert_message_contents_frame _ _ _)).
  - rewrite (proj2 (insert_pending_upload_frame _ _ _)).
    rewrite (proj1 (proj2 (insert_message_contents_frame _ _ _))). by rewrite Hm2, Hmsgs.
  - unfold insert_pending_upload. cbv zeta.
    destruct (pending_uploads _ !! _); cbn [message_contents with_pending_uploads];
      by rewrite insert_message_contents_spec, Hc2, Hcont.
Qed.

Lemma InsertMessageFromImporter_outcome now options st :
  insert_outcome now options st (InsertMessageFromImporter now options st) true
    (λ uidToUse highestUID, uidToUse).
Proof.
  unfold InsertMessageFromImporter.
  destruct (SerializeBodyStructureGob _) as [bs|]; [|by eapply insert_refused].
  destruct (reserve_uid options st) as [[[u h] st1]|] eqn:Hres; [|by eapply insert_refused].
  pose proof Hres as (_ & _ & Hmsgs & Hcont & _)%reserve_uid_inv.
  destruct (Marshal_recipients _) as [rj|]; [|by eapply insert_no_row].
  destruct (customKeywordsJSON _) as [ck|]; [|by eapply insert_no_row].
  cbv zeta. destruct (exec _ _) as [st2|] eqn:Hexec; [|by eapply insert_no_row].
  apply exec_InsertInto_inv in Hexec as (_ & Hm2 & Hmb2 & Hc2 & _).
  cbn [messages mailboxes message_contents with_sequences_advanced] in Hm2, Hmb2, Hc2.
  pose proof (new_row_fields now options u bs rj ck true st1)
    as (? & ? & ? & ? & ? & ? & ? & ?).
  eapply insert_row; [done|done|..]; cbn [fst snd]; try done.
  - by rewrite (proj1 (insert_message_contents_frame _ _ _)).
  - rewrite (proj1 (proj2 (insert_message_contents_frame _ _ _))). by rewrite Hm2, Hmsgs.
  - by rewrite insert_message_contents_spec, Hc2, Hcont.
Qed.

(** Every highest_uid is a BIGINT, and no message of a mailbox has a UID
    above the mailbox's highest_uid. *)
Definition uid_inv (st : db) : Prop :=
  (∀ v mb, mailboxes st !! v = Some mb → - 2 ^ 63 ≤ highest_uid mb ≤ max_int64)
  ∧ ∀ m v mb, m ∈ messages st → mailbox_id m = Some v → mailboxes st !! v = Some mb →
      uid m ≤ highest_uid mb.

Lemma update_highest_uid_uid_inv f i st h st' :
  (∀ x, x ≤ f x) → update_highest_uid f i st = Some (h, st') → uid_inv st → uid_inv st'.
Proof.
  intros Hf Hup [Hrange Hbound]. unfold update_highest_uid in Hup.
  destruct (mailboxes st !! i) as [mb|] eqn:Hi; [|done].
  cbn [mbind option_bind] in Hup. case_bool_decide as Hh; [|done]. simplify_eq.
  split; cbn [mailboxes messages with_mailboxes].
  - intros v mb'. destruct (decide (i = v)) as [->|Hne].
    + rewrite lookup_insert_eq. by intros [= <-].
    + rewrite lookup_insert_ne by done. apply Hrange.
  - intros m v mb' Hm Hv. destruct (decide (i = v)) as [->|Hne].
    + rewrite lookup_insert_eq. intros [= <-]. cbn [highest_uid].
      specialize (Hbound m v mb Hm Hv Hi). specialize (Hf (highest_uid mb)). lia.
    + rewrite lookup_insert_ne by done. by apply Hbound.
Qed.

Lemma update_uid_validity_uid_inv v i st : uid_inv st → uid_inv (update_uid_validity v i st).
Proof.
  intros [Hrange Hbound]. unfold update_uid_validity.
  split; cbn [mailboxes messages with_mailboxes].
  - intros w mb. destruct (decide (i = w)) as [->|Hne].
    + rewrite lookup_alter_eq. destruct (mailboxes st !! w) as [mb0|] eqn:Hw; [|done].
      intros [= <-]. by apply (Hrange w mb0).
    + rewrite lookup_alter_ne by done. apply Hrange.
  - intros m w mb Hm Hw. destruct (decide (i = w)) as [->|Hne].
    + rewrite lookup_alter_eq. destruct (mailboxes st !! w) as [mb0|] eqn:Hw0; [|done].
      intros [= <-]. by apply (Hbound m w mb0).
    + rewrite lookup_alter_ne by done. by apply Hbound.
Qed.

Lemma reserve_uid_uid_inv options st uidToUse highestUID st' :
  reserve_uid options st = Some (uidToUse, highestUID, st') → uid_inv st → uid_inv st'.
Proof.
  unfold reserve_uid. intros H Hinv.
  destruct (PreservedUID options) as [p|].
  - destruct (update_highest_uid _ _ st) as [[h st1]|] eqn:Hup; [|done].
    cbn [mbind option_bind] in H.
    apply update_highest_uid_uid_inv in Hup; [|intros x; apply Z.le_max_l|done].
    destruct (PreservedUIDValidity options); simplify_eq; [|done].
    by apply update_uid_validity_uid_inv.
  - destruct (update_highest_uid _ _ st) as [[h st1]|] eqn:Hup; [|done].
    cbn [mbind option_bind] in H. simplify_eq.
    eapply update_highest_uid_uid_inv; [|done|done]. intros x. cbv beta. lia.
Qed.

(** The UID that an insert uses is not above the highest_uid it leaves. *)
Lemma reserve_uid_bound options st uidToUse highestUID st' :
  reserve_uid options st = Some (uidToUse, highestUID, st') →
  ∃ mb mb', mailboxes st !! MailboxID options = Some mb
    ∧ mailboxes st' !! MailboxID options = Some mb'
    ∧ highestUID = highest_uid mb'
    ∧ uidToUse ≤ highest_uid mb'
    ∧ (PreservedUID options = None → uidToUse = highest_uid mb + 1 ∧ highestUID = uidToUse).
Proof.
  intros ((mb & mb' & Hmb & Hmb' & Hh & -> & ->) & _)%reserve_uid_inv.
  exists mb, mb'. split; [done|]. split; [done|]. split; [done|].
  unfold reserved_highest_uid in Hh.
  destruct (PreservedUID options) as [p|]; cbn [default from_option Datatypes.id].
  - split; [lia|done].
  - split; [lia|]. intros _. split; [lia|done].
Qed.

Lemma insert_outcome_uid_inv now options st r up returned :
  insert_outcome now options st r up returned → uid_inv st → uid_inv r.2.
Proof.
  intros [e ->|u h st1 Hres ->|u h st1 row Hres _ Hmbs Hmsgs _ Hu Hmb _ _] Hinv; [done|..].
  - by eapply reserve_uid_uid_inv.
  - pose proof (reserve_uid_uid_inv _ _ _ _ _ Hres Hinv) as [Hrange Hbound].
    pose proof Hres as (_ & _ & Hm1 & _)%reserve_uid_inv.
    apply reserve_uid_bound in Hres as (mb & mb' & _ & Hmb' & _ & Hle & _).
    split; rewrite Hmbs; [done|]. rewrite Hmsgs.
    intros m v mbv [Hm|Hm%list_elem_of_singleton]%elem_of_app Hv Hlook.
    + apply (Hbound m v mbv); [by rewrite Hm1|done|done].
    + subst m. rewrite Hmb in Hv. simplify_eq. lia.
Qed.

(** The new UIDs of lines 62-70, whatever the source UIDs are. *)
Lemma assign_new_uids_fst startUID sourceUIDs : ∀ i newUIDs m,
  (assign_new_uids startUID i sourceUIDs newUIDs m).1
  = newUIDs ++ ((λ k, to_int64 (startUID + k)) <$> seqZ i (Z.of_nat (length sourceUIDs))).
Proof.
  induction sourceUIDs as [|u rest IH]; intros i newUIDs m.
  - simpl. by rewrite app_nil_r.
  - cbn [assign_new_uids length]. cbv zeta. rewrite IH.
    rewrite (seqZ_cons i) by lia.
    replace (Z.succ i) with (i + 1) by lia.
    replace (Z.pred (Z.of_nat (S (length rest)))) with (Z.of_nat (length rest)) by lia.
    by rewrite fmap_cons, <-app_assoc.
Qed.

Lemma copied_rows_uid now dst name ids news st row :
  row ∈ copied_rows now dst name ids news st →
  mailbox_id row = Some dst ∧ uid row ∈ news.
Proof.
  unfold copied_rows. intros (k & [m n] & -> & Hk)%elem_of_lookup_imap.
  apply list_elem_of_lookup_2 in Hk. unfold join_unnest in Hk.
  apply list_elem_of_bind in Hk as ([i n'] & Hk & Hd).
  apply list_elem_of_bind in Hk as (m' & Hk & Hm').
  apply list_elem_of_singleton in Hk. simplify_eq.
  split; [done|]. cbn [snd copied_row uid].
  apply elem_of_zip_r in Hd. done.
Qed.

(** What CopyMessages adds: rows of the destination mailbox whose UIDs lie
    above the destination's former highest_uid and up to the new one. *)
Lemma CopyMessages_rows now uids src dst userID st :
  uid_inv st →
  let r := CopyMessages now uids src dst userID st in
  uid_inv r.2
  ∧ ∃ rows, messages r.2 = messages st ++ rows
      ∧ ∀ row mb, row ∈ rows → mailboxes st !! dst = Some mb →
          mailbox_id row = Some dst ∧ highest_uid mb < uid row.
Proof.
  intros Hinv. cbv zeta.
  assert (∀ st0 : db, uid_inv st0 → messages st0 = messages st →
    uid_inv st0 ∧ ∃ rows : list message, messages st0 = messages st ++ rows
      ∧ ∀ row mb, row ∈ rows → mailboxes st !! dst = Some mb →
          mailbox_id row = Some dst ∧ highest_uid mb < uid row) as Hsame.
  { intros st0 ? Hm. split; [done|]. exists []. rewrite app_nil_r. split; [done|].
    intros row mb Hrow. by apply elem_of_nil in Hrow. }
  unfold CopyMessages. case_bool_decide as Hne; [by apply Hsame|].
  destruct (scan_source _ [] []) as [[ids us]|] eqn:Hscan; [|by apply Hsame].
  apply scan_source_inv in Hscan as (-> & -> & _). rewrite !app_nil_l.
  case_bool_decide as HN; [by apply Hsame|].
  destruct (update_highest_uid _ dst st) as [[h st1]|] eqn:Hup; [|by apply Hsame].
  assert (uid_inv st1) as Hinv1.
  { eapply update_highest_uid_uid_inv; [|done|done]. intros x. cbv beta. lia. }
  apply update_highest_uid_inv in Hup as (mb & Hmb & -> & Hmbs & Hmsgs & _ & _).
  destruct (assign_new_uids _ _ _ _ _) as [newUIDs m'] eqn:Hassign.
  apply (f_equal fst) in Hassign. rewrite assign_new_uids_fst, app_nil_l in Hassign.
  cbn [fst] in Hassign.
  destruct (mailboxes st1 !! dst) as [mb1|] eqn:Hmb1; [|by apply Hsame].
  destruct (exec _ _) as [st2|] eqn:Hexec; [|by apply Hsame].
  apply exec_InsertInto_inv in Hexec as (_ & Hm2 & Hmb2 & _).
  cbn [messages mailboxes with_sequences_advanced] in Hm2, Hmb2. cbn [snd].
  rewrite Hmbs, lookup_insert_eq in Hmb1. simplify_eq.
  destruct Hinv as [Hrange Hbound]. pose proof (Hrange dst mb Hmb) as Hmbr.
  destruct Hinv1 as [Hrange1 Hbound1].
  pose proof (Hrange1 dst) as Hnew. rewrite Hmbs, lookup_insert_eq in Hnew.
  specialize (Hnew _ eq_refl). cbn [highest_uid] in Hnew.
  set (N := Z.of_nat (length (select_source src uids (messages st)).*1)) in *.
  assert (0 < N) as HNpos by (unfold N; destruct (_.*1); [done|simpl; lia]).
  assert (∀ row, row ∈ copied_rows now dst (mb_name mb)
                   (select_source src uids (messages st)).*1
                   ((λ k, to_int64 (to_int64 (highest_uid mb + N - N + 1) + k))
                      <$> seqZ 0 (Z.of_nat (length (select_source src uids (messages st)).*2)))
                   st1 →
            mailbox_id row = Some dst
            ∧ highest_uid mb < uid row ≤ highest_uid mb + N) as Hrows.
  { intros row [Hd Hu]%copied_rows_uid. split; [done|].
    apply list_elem_of_fmap in Hu as (k & -> & Hk).
    apply elem_of_seqZ in Hk. rewrite !length_fmap in Hk. unfold N in *.
    rewrite length_fmap in *.
    rewrite (to_int64_id (_ + 1)) by (unfold max_int64 in *; lia).
    rewrite to_int64_id by (unfold max_int64 in *; lia). lia. }
  split.
  - split; rewrite Hmb2; [done|]. rewrite Hm2.
    intros m v mbv [Hm|Hm]%elem_of_app Hv Hlook.
    + by apply (Hbound1 m v mbv).
    + apply Hrows in Hm as [Hd Hu]. rewrite Hd in Hv. simplify_eq.
      rewrite Hmbs, lookup_insert_eq in Hlook. simplify_eq. cbn [highest_uid]. lia.
  - eexists. split; [by rewrite Hm2, Hmsgs|].
    intros row mb0 Hrow Hmb0. simplify_eq.
    apply Hrows in Hrow as [? ?]. split; [done|lia].
Qed.

(** X2.  Where every highest_uid is a BIGINT and no message has a UID above
    the highest_uid of its mailbox, the same holds after every write
    operation of append.go, whatever the operation returns. *)
Theorem highest_uid_bounds_uids op st : uid_inv st → uid_inv (run op st).
Proof.
  intros Hinv. destruct op as [now options upload|now options|now uids src dst userID];
    cbn [run].
  - eapply insert_outcome_uid_inv; [apply InsertMessage_outcome|done].
  - eapply insert_outcome_uid_inv; [apply InsertMessageFromImporter_outcome|done].
  - by apply CopyMessages_rows.
Qed.

(** The operations that draw their UIDs from highest_uid. *)
Definition assigns_uid (op : write_op) : Prop :=
  match op with
  | OpInsertMessage _ options _ | OpInsertMessageFromImporter _ options =>
      PreservedUID options = None
  | OpCopyMessages _ _ _ _ _ => True
  end.

(** X3.  An operation that draws its UIDs from highest_uid (an insert
    without a preserved UID, a copy) only appends rows, and the UID of each
    new row is greater than the UID of every message that its mailbox held
    before, expunged ones included: no UID is used twice. *)
Theorem new_uids_are_fresh op st :
  uid_inv st → assigns_uid op →
  ∃ rows, messages (run op st) = messages st ++ rows
    ∧ ∀ row m, row ∈ rows → m ∈ messages st →
        is_Some (mailbox_id row) → mailbox_id m = mailbox_id row → uid m < uid row.
Proof.
  intros Hinv Hop.
  assert (∀ now options r up returned,
    insert_outcome now options st r up returned → PreservedUID options = None →
    ∃ rows, messages r.2 = messages st ++ rows
      ∧ ∀ row m, row ∈ rows → m ∈ messages st →
          is_Some (mailbox_id row) → mailbox_id m = mailbox_id row → uid m < uid row)
    as Hinsert.
  { intros now options r up returned
      [e ->|u h st1 Hres ->|u h st1 row Hres _ Hmbs Hmsgs _ Hu Hmb _ _] Hnone.
    - exists []. rewrite app_nil_r. split; [done|].
      intros row m Hrow. by apply elem_of_nil in Hrow.
    - apply reserve_uid_inv in Hres as (_ & _ & Hm1 & _).
      exists []. rewrite app_nil_r. split; [done|].
      intros row m Hrow. by apply elem_of_nil in Hrow.
    - apply reserve_uid_bound in Hres as (mb & mb' & Hmb0 & _ & _ & _ & Hfresh).
      destruct (Hfresh Hnone) as [-> _].
      exists [row]. split; [done|].
      intros row' m ->%list_elem_of_singleton Hm _ Hsame.
      rewrite Hmb in Hsame. destruct Hinv as [_ Hbound].
      specialize (Hbound m _ mb Hm Hsame Hmb0). lia. }
  destruct op as [now options upload|now options|now uids src dst userID];
    cbn [run assigns_uid] in *.
  - eapply Hinsert; [apply InsertMessage_outcome|done].
  - eapply Hinsert; [apply InsertMessageFromImporter_outcome|done].
  - destruct (CopyMessages_rows now uids src dst userID st Hinv) as (_ & rows & Hm & Hrows).
    exists rows. split; [done|].
    intros row m Hrow Hmem _ Hsame.
    destruct (mailboxes st !! dst) as [mb|] eqn:Hmb.
    + destruct (Hrows row mb Hrow eq_refl) as [Hd Hlt]. rewrite Hd in Hsame.
      destruct Hinv as [_ Hbound]. specialize (Hbound m dst mb Hmem Hsame Hmb). lia.
    + exfalso. revert Hrow Hm. unfold CopyMessages.
      case_bool_decide; [|destruct (scan_source _ [] []) as [[ids us]|];
        [case_bool_decide; [|unfold update_highest_uid; rewrite Hmb]|]];
        cbn [snd mbind option_bind]; intros Hrow Hm;
        apply (f_equal length) in Hm; rewrite length_app in Hm;
        destruct rows; [by apply elem_of_nil in Hrow|simpl in Hm; lia
                       |by apply elem_of_nil in Hrow|simpl in Hm; lia
                       |by apply elem_of_nil in Hrow|simpl in Hm; lia
                       |by apply elem_of_nil in Hrow|simpl in Hm; lia].
Qed.

(** X4.  When InsertMessage creates a row it returns the row's id together
    with the highest_uid of the mailbox after the call, not the row's UID:
    the two agree exactly when no UID is preserved or the preserved UID is at
    least the former highest_uid.  InsertMessageFromImporter returns the
    row's own UID. *)
Theorem InsertMessage_returns_highest_uid now options upload st r st' row mb :
  InsertMessage now options upload st = (Ok r, st') →
  messages st' = messages st ++ [row] →
  mailboxes st !! MailboxID options = Some mb →
  ∃ mb', mailboxes st' !! MailboxID options = Some mb'
    ∧ r = (id row, highest_uid mb')
    ∧ uid row = default (highest_uid mb + 1) (PreservedUID options)
    ∧ (r.2 = uid row ↔
       match PreservedUID options with
       | Some preserved => highest_uid mb ≤ preserved
       | None => True
       end)
    ∧ ∀ r2 st2 row2,
        InsertMessageFromImporter now options st = (Ok r2, st2) →
        messages st2 = messages st ++ [row2] →
        r2 = (id row2, uid row2) ∧ uid row2 = uid row.
Proof.
  intros H Hmsgs Hmb.
  pose proof (InsertMessage_outcome now options upload st) as Hout.
  rewrite H in Hout. cbn [fst snd] in Hout.
  destruct Hout as [e ?|u h st1 Hres Hst|u h st1 row' Hres Hr Hmbs Hm _ Hu _ _ _];
    [done|..].
  { cbn [snd] in Hst. subst st'.
    apply reserve_uid_inv in Hres as (_ & _ & Hm1 & _). rewrite Hm1 in Hmsgs.
    apply (f_equal length) in Hmsgs. rewrite length_app in Hmsgs. simpl in Hmsgs. lia. }
  cbn [fst snd] in *. rewrite Hmsgs in Hm. apply app_inv_head in Hm. simplify_eq.
  pose proof Hres as ((mb0 & mb' & Hmb0 & Hmb' & Hh & -> & Hu) & _)%reserve_uid_inv.
  simplify_eq. exists mb'. rewrite Hmbs. split; [done|]. split; [done|].
  unfold reserved_highest_uid in Hh.
  split; [|split].
  - rewrite Hu. destruct (PreservedUID options); cbn [default from_option Datatypes.id]; [done|lia].
  - cbn [snd]. rewrite Hu. destruct (PreservedUID options) as [p|]; cbn [default from_option Datatypes.id]; [|done].
    rewrite Hh. lia.
  - intros r2 st2 row2 H2 Hmsgs2.
    pose proof (InsertMessageFromImporter_outcome now options st) as Hout.
    rewrite H2 in Hout. cbn [fst snd] in Hout.
    destruct Hout as [e ?|u2 h2 st3 Hres2 Hst|u2 h2 st3 row3 Hres2 Hr2 Hmbs2 Hm _ Hu2 _ _ _];
      [done|..].
    { cbn [snd] in Hst. subst st2.
      apply reserve_uid_inv in Hres2 as (_ & _ & Hm1 & _). rewrite Hm1 in Hmsgs2.
      apply (f_equal length) in Hmsgs2. rewrite length_app in Hmsgs2. simpl in Hmsgs2. lia. }
    cbn [fst snd] in *. rewrite Hmsgs2 in Hm. apply app_inv_head in Hm. simplify_eq.
    by split.
Qed.

(** X5.  No write operation of append.go changes or removes a row of
    message_contents: a content hash that has a row keeps it as it is, and
    after an insert that created a message the message's content hash has a
    row, the existing one or else the new one, whose text_body is NULL
    exactly when an FTS retention is set and the message was sent before
    now minus the retention. *)
Theorem message_contents_are_kept op st :
  (∀ h c, message_contents st !! h = Some c → message_contents (run op st) !! h = Some c)
  ∧ match op with
    | OpInsertMessage now options _ | OpInsertMessageFromImporter now options =>
        ∀ row, messages (run op st) = messages st ++ [row] →
          content_hash row = ContentHash options
          ∧ message_contents (run op st) !! ContentHash options
            = Some (default (stored_content now options)
                      (message_contents st !! ContentHash options))
          ∧ (text_body (stored_content now options) = None ↔
             0 < FTSRetention options ∧ SentDate options < now - FTSRetention options)
    | OpCopyMessages _ _ _ _ _ => message_contents (run op st) = message_contents st
    end.
Proof.
  assert (∀ now options r up returned,
    insert_outcome now options st r up returned →
    (∀ h c, message_contents st !! h = Some c → message_contents r.2 !! h = Some c)
    ∧ ∀ row, messages r.2 = messages st ++ [row] →
        content_hash row = ContentHash options
        ∧ message_contents r.2 !! ContentHash options
          = Some (default (stored_content now options)
                    (message_contents st !! ContentHash options))
        ∧ (text_body (stored_content now options) = None ↔
           0 < FTSRetention options ∧ SentDate options < now - FTSRetention options))
    as Hinsert.
  { intros now options r up returned
      [e ->|u h st1 Hres ->|u h st1 row Hres _ Hmbs Hmsgs Hcont Hu Hmb _ Hhash].
    - split; [done|]. intros row Hm. cbn [snd] in Hm.
      apply (f_equal length) in Hm. rewrite length_app in Hm. simpl in Hm. lia.
    - apply reserve_uid_inv in Hres as (_ & _ & Hm1 & Hc1 & _).
      split; [by rewrite Hc1|]. intros row Hm. rewrite Hm1 in Hm.
      apply (f_equal length) in Hm. rewrite length_app in Hm. simpl in Hm. lia.
    - split.
      + intros h' c Hh'. rewrite Hcont.
        destruct (message_contents st !! ContentHash options) eqn:Hex; [done|].
        rewrite lookup_insert_ne; [done|]. intros <-. congruence.
      + intros row' Hm. rewrite Hmsgs in Hm. apply app_inv_head in Hm. simplify_eq.
        split; [done|]. split.
        * rewrite Hcont.
          destruct (message_contents st !! ContentHash options) eqn:Hex; [done|].
          by rewrite lookup_insert_eq.
        * unfold stored_content. cbn [text_body].
          destruct (bool_decide (0 < _)) eqn:H1, (bool_decide (SentDate options < _)) eqn:H2;
            cbn [andb];
            try apply bool_decide_eq_true_1 in H1; try apply bool_decide_eq_false_1 in H1;
            try apply bool_decide_eq_true_1 in H2; try apply bool_decide_eq_false_1 in H2;
            split; try done; try (intros [??]; done). }
  destruct op as [now options upload|now options|now uids src dst userID]; cbn [run].
  - eapply Hinsert. apply InsertMessage_outcome.
  - eapply Hinsert. apply InsertMessageFromImporter_outcome.
  - assert (message_contents (CopyMessages now uids src dst userID st).2
            = message_contents st) as Heq; [|by rewrite Heq].
    unfold CopyMessages. case_bool_decide; [done|].
    destruct (scan_source _ [] []) as [[ids us]|]; [|done].
    case_bool_decide; [done|].
    destruct (update_highest_uid _ dst st) as [[h st1]|] eqn:Hup; [|done].
    apply update_highest_uid_inv in Hup as (mb & _ & _ & _ & _ & Hc & _).
    destruct (assign_new_uids _ _ _ _ _) as [newUIDs m'].
    destruct (mailboxes st1 !! dst); [|done].
    destruct (exec _ _) as [st2|] eqn:Hexec; [|done].
    apply exec_InsertInto_inv in Hexec as (_ & _ & _ & Hc2 & _).
    cbn [message_contents with_sequences_advanced] in Hc2. cbn [snd]. congruence.
Qed.

(** ** The sequence cache as a whole *)

(** The cache of mailbox [v] agrees with the messages table. *)
Definition sequences_consistent (st : db) (v : Z) : Prop :=
  sequences_of v st = numbered v (live_uids v (messages st)).

(** The trigger rebuilds exactly the mailboxes that the statement touches. *)
Lemma exec_rebuilds_touched s st st' :
  exec s st = PgOk st' →
  ∃ vs ms, rebuild_all (with_messages ms st) vs = PgOk st'
    ∧ messages st' = ms
    ∧ (∀ v, v ∈ vs ↔ touches s st v)
    ∧ ∀ v, ¬ touches s st v → filter (live_in v) ms = filter (live_in v) (messages st).
Proof.
  destruct s as [rows|P f|P]; simpl.
  - destruct (messages_constraints _); [done|]. intros H.
    exists (distinct_mailbox_ids rows), (messages st ++ rows).
    split; [done|]. split; [by apply rebuild_all_frame in H as (_ & ? & _)|].
    split; [intros v; apply elem_of_distinct_mailbox_ids|].
    intros v Hv. rewrite filter_app.
    rewrite (filter_none _ rows), app_nil_r; [done|].
    apply Forall_forall. intros m Hm [Hmb _]. apply Hv. by exists m.
  - destruct (messages_constraints _); [done|]. intros H.
    eexists _, _. split; [done|].
    split; [by apply rebuild_all_frame in H as (_ & ? & _)|]. split.
    + intros v. cbn [affected_mailboxes].
      rewrite elem_of_remove_dups, elem_of_app, !elem_of_distinct_mailbox_ids. split.
      * intros [(m' & (m & -> & [HP Hm]%list_elem_of_filter)%list_elem_of_fmap & Hv)
               |(m & [HP Hm]%list_elem_of_filter & Hv)];
          exists m; destruct (P m); try done; auto.
      * intros (m & Hm & HP & [Hv|Hv]).
        -- right. exists m. split; [|done]. by apply list_elem_of_filter.
        -- left. exists (f m). split; [|done]. apply list_elem_of_fmap.
           exists m. split; [done|]. by apply list_elem_of_filter.
    + intros v Hv.
      assert (∀ m, m ∈ messages st → P m →
                mailbox_id m ≠ Some v ∧ mailbox_id (f m) ≠ Some v) as Hout.
      { intros m Hm HP. split; intros Hmb; apply Hv; exists m; auto. }
      clear Hv H. induction (messages st) as [|m ms IH]; [done|].
      rewrite fmap_cons, !filter_cons, IH by (intros m' ?; apply Hout; by right).
      destruct (P m) eqn:HP; [|done].
      destruct (Hout m) as [H1 H2]; [left|by rewrite HP|].
      rewrite decide_False, decide_False; [done|..]; by intros [? _].
  - intros H. eexists _, _. split; [done|].
    split; [by apply rebuild_all_frame in H as (_ & ? & _)|]. split.
    + intros v. cbn [affected_mailboxes]. rewrite elem_of_distinct_mailbox_ids. split.
      * intros (m & [HP Hm]%list_elem_of_filter & Hv). by exists m.
      * intros (m & Hm & HP & Hv). exists m. split; [|done]. by apply list_elem_of_filter.
    + intros v Hv.
      assert (∀ m, m ∈ messages st → P m → mailbox_id m ≠ Some v) as Hout.
      { intros m Hm HP Hmb. apply Hv. by exists m. }
      clear Hv H. induction (messages st) as [|m ms IH]; [done|].
      rewrite (filter_cons (λ m, ¬ P m)).
      destruct (decide (¬ P m)) as [Hn|Hn].
      * by rewrite !filter_cons, IH by (intros m' ?; apply Hout; by right).
      * rewrite IH by (intros m' ?; apply Hout; by right).
        rewrite (filter_cons _ m ms), decide_False; [done|].
        intros [Hmb _]. apply (Hout m); [left| |done].
        destruct (P m); [done|]. apply Hn. by intros ?.
Qed.

(** X6.  A statement on messages leaves alone the mailboxes that it does
    not touch: their live messages and their rows of message_sequences are
    as before. *)
Theorem untouched_mailbox_keeps_sequences s st st' v :
  exec s st = PgOk st' →
  ¬ touches s st v →
  filter (live_in v) (messages st') = filter (live_in v) (messages st)
  ∧ sequences_of v st' = sequences_of v st.
Proof.
  intros (vs & ms & Hall & <- & Hvs & Hlive)%exec_rebuilds_touched Hv.
  split; [by apply Hlive|].
  rewrite (rebuild_all_rows _ _ _ v Hall).
  rewrite decide_False; [done|]. by rewrite Hvs.
Qed.

(** X7.  The cache stays right as a whole: when the rows of
    message_sequences of every mailbox are its live messages numbered
    1, 2, ... in ascending UID order, they are so again after every INSERT,
    UPDATE or DELETE statement on messages that succeeds, in the mailboxes
    that the statement touches and in the others. *)
Theorem sequences_stay_consistent s st st' :
  exec s st = PgOk st' →
  (∀ v, sequences_consistent st v) →
  ∀ v, sequences_consistent st' v.
Proof.
  intros Hexec Hinv v. unfold sequences_consistent.
  pose proof Hexec as (vs & ms & Hall & <- & Hvs & Hlive)%exec_rebuilds_touched.
  pose proof (rebuild_all_frame _ _ _ Hall) as (_ & Hmsgs & _).
  cbn [messages with_messages] in Hmsgs.
  rewrite (rebuild_all_rows _ _ _ v Hall). cbn [messages with_messages].
  destruct (decide (v ∈ vs)) as [Hin|Hin]; [done|].
  change (sequences_of v (with_messages (messages st') st)) with (sequences_of v st).
  rewrite (Hinv v). unfold live_uids. rewrite Hlive; [done|]. by rewrite <-Hvs.
Qed.

(** X8.  Rebuilding a mailbox twice is rebuilding it once: the second run
    succeeds and leaves message_sequences exactly as the first one did. *)
Theorem rebuild_sequences_idempotent st v st1 :
  rebuild_sequences st v = PgOk st1 →
  ∃ st2, rebuild_sequences st1 v = PgOk st2
    ∧ message_sequences st2 = message_sequences st1
    ∧ same_tables st1 st2.
Proof.
  intros H. pose proof H as (Hnd & Hlen & ->)%rebuild_sequences_inv.
  revert H. unfold rebuild_sequences. cbv zeta.
  cbn [messages mailboxes message_sequences with_message_sequences pg_advisory_xact_lock].
  rewrite !bool_decide_eq_true_2 by done.
  case_bool_decide as Hfk; [|done]. intros _.
  eexists. split; [done|].
  cbn [message_sequences with_message_sequences pg_advisory_xact_lock].
  split; [|by repeat split].
  rewrite filter_app.
  rewrite (filter_all _ (filter _ _))
    by (apply Forall_forall; by intros r [? _]%list_elem_of_filter).
  rewrite (filter_none _ (numbered _ _)); [by rewrite app_nil_r|].
  eapply Forall_impl; [apply numbered_mailbox|]. intros r Hr Hne. by apply Hne.
Qed.

(** *** The bootstrap of the cache (migration 000002, lines 76-86)

    [INSERT INTO message_sequences SELECT m.mailbox_id, m.uid, ROW_NUMBER()
    OVER (PARTITION BY m.mailbox_id ORDER BY m.uid) FROM messages m WHERE
    m.expunged_at IS NULL AND m.mailbox_id IS NOT NULL]: one partition per
    mailbox that has a live message. *)
Definition bootstrap_rows (ms : list message) : list message_sequence :=
  v ← distinct_mailbox_ids (filter (λ m, expunged_at m = None) ms);
  numbered v (live_uids v ms).

Definition message_sequences_mailbox_id_seqnum_key : PgError :=
  {| Code := "23505"; ConstraintName := "message_sequences_mailbox_id_seqnum_key" |}.

(** The INSERT meets the declared constraints of message_sequences: the INT
    type of seqnum, PRIMARY KEY (mailbox_id, uid), UNIQUE (mailbox_id,
    seqnum) and the reference to mailboxes(id). *)
Definition bootstrap_message_sequences (st : db) : pg_result db :=
  let rows := bootstrap_rows (messages st) in
  let table := message_sequences st ++ rows in
  if bool_decide (Forall (λ r, ms_seqnum r ≤ max_int32) rows) then
    if bool_decide (NoDup ((λ r, (ms_mailbox_id r, ms_uid r)) <$> table)) then
      if bool_decide (NoDup ((λ r, (ms_mailbox_id r, ms_seqnum r)) <$> table)) then
        if bool_decide (Forall (λ r, is_Some (mailboxes st !! ms_mailbox_id r)) rows) then
          PgOk (with_message_sequences table st)
        else PgErr message_sequences_mailbox_id_fkey
      else PgErr message_sequences_mailbox_id_seqnum_key
    else PgErr message_sequences_pkey
  else PgErr integer_out_of_range.

Lemma filter_bootstrap_rows v (vs : list Z) (ms : list message) :
  NoDup vs →
  filter (λ r, ms_mailbox_id r = v) (w ← vs; numbered w (live_uids w ms))
  = if decide (v ∈ vs) then numbered v (live_uids v ms) else [].
Proof.
  induction vs as [|w vs IH]; intros Hnd.
  - by rewrite decide_False by apply not_elem_of_nil.
  - apply NoDup_cons in Hnd as [Hw Hnd]. rewrite bind_cons, filter_app, IH by done.
    destruct (decide (v = w)) as [->|Hne].
    + rewrite (decide_True (P := w ∈ w :: vs)) by left.
      rewrite (decide_False (P := w ∈ vs)) by done.
      rewrite app_nil_r. apply filter_all, numbered_mailbox.
    + rewrite filter_none.
      2:{ eapply Forall_impl; [apply numbered_mailbox|]. intros r -> ?. done. }
      cbn [app]. destruct (decide (v ∈ vs)) as [Hin|Hin].
      * rewrite (decide_True (P := v ∈ w :: vs)); [done|by right].
      * rewrite (decide_False (P := v ∈ w :: vs)); [done|].
        by intros [?|?]%elem_of_cons.
Qed.

(** X9.  The bootstrap of the migration, run on an empty message_sequences
    and succeeding, leaves the cache of every mailbox as the trigger keeps
    it: the live messages of the mailbox numbered 1, 2, ... in ascending UID
    order, and nothing for a mailbox without live messages.  The messages
    table is not changed. *)
Theorem bootstrap_is_consistent st st' :
  bootstrap_message_sequences st = PgOk st' →
  message_sequences st = [] →
  same_tables st st' ∧ ∀ v, sequences_consistent st' v.
Proof.
  unfold bootstrap_message_sequences. cbv zeta. intros H Hempty.
  repeat case_bool_decide; try done. simplify_eq.
  split; [by repeat split|].
  intros v. unfold sequences_consistent, sequences_of.
  cbn [message_sequences messages with_message_sequences].
  rewrite Hempty, app_nil_l. unfold bootstrap_rows.
  rewrite filter_bootstrap_rows by apply NoDup_remove_dups.
  destruct (decide _) as [Hin|Hin]; [done|].
  assert (filter (live_in v) (messages st) = []) as Hnone.
  { apply filter_none, Forall_forall. intros m Hm [Hmb Hlive]. apply Hin.
    apply elem_of_distinct_mailbox_ids. exists m. split; [|done].
    by apply list_elem_of_filter. }
  unfold live_uids. by rewrite Hnone.
Qed.

End store.


(** ** A concrete database and concrete helpers, for the examples *)

(** UNIQUE (message_id, mailbox_id) on messages, the constraint that
    append.go names messages_message_id_mailbox_id_key. *)
Definition unique_message_id (ms : list message) : option PgError :=
  if bool_decide (NoDup (omap (λ m, (λ b, (b, message_id m)) <$> mailbox_id m) ms))
  then None else Some messages_message_id_mailbox_id_key.

Definition ex_message (i mb u : Z) (msgid : string) (expunged : option Time) : message :=
  {| id := i; account_id := 1; mailbox_id := Some mb; mailbox_path := "INBOX"; uid := u;
     message_id := msgid; content_hash := "h" +:+ msgid; s3_domain := "";
     s3_localpart := ""; flags := 0; custom_flags := "[]"; internal_date := 0;
     size := 1; subject := ""; sent_date := 0; in_reply_to := ""; body_structure := "";
     recipients_json := "[]"; uploaded := true; created_modseq := i; subject_sort := "";
     from_name_sort := ""; from_email_sort := ""; to_email_sort := "";
     cc_email_sort := ""; flags_changed_at := None; expunged_at := expunged |}.

(** INBOX (id 1) holds UIDs 3, 4, 7 live and 5 expunged; Archive (id 2) is empty. *)
Definition ex_db : db :=
  {| mailboxes := {[ 1 := {| mb_name := "INBOX"; highest_uid := 7; uid_validity := 1 |};
                     2 := {| mb_name := "Archive"; highest_uid := 10; uid_validity := 1 |} ]};
     messages := [ex_message 1 1 3 "a" None; ex_message 2 1 5 "b" (Some 9);
                  ex_message 3 1 7 "c" None; ex_message 4 1 4 "d" None];
     message_contents := ∅; pending_uploads := ∅;
     message_sequences :=
       [{| ms_mailbox_id := 1; ms_uid := 3; ms_seqnum := 1 |};
        {| ms_mailbox_id := 1; ms_uid := 4; ms_seqnum := 2 |};
        {| ms_mailbox_id := 1; ms_uid := 7; ms_seqnum := 3 |}];
     messages_id_seq := 4; messages_modseq := 4; advisory_locks := [] |}.

Definition ex_options (msgid hash : string) (preserved : option Z) : InsertMessageOptions unit :=
  {| UserID := 1; MailboxID := 1; MailboxName := "INBOX"; S3Domain := "x.test";
     S3Localpart := "alice"; ContentHash := hash; MessageID := msgid;
     Flags := ["\Seen"]; InternalDate := 5; Size := 220; Subject := "hello";
     PlaintextBody := "body"; SentDate := 4; InReplyTo := []; BodyStructure_ := ();
     Recipients := [{| Name := "Bob"; EmailAddress := "bob@x.test"; AddressType := "from" |}];
     RawHeaders := "Subject: hello"; PreservedUID := preserved;
     PreservedUIDValidity := None; FTSRetention := 0 |}.

Definition ex_upload (hash : string) : PendingUpload.t :=
  PendingUpload.mk "host-1" hash 220 1.

Definition ex_CopyMessages := CopyMessages unique_message_id 32.

Definition ex_InsertMessage :=
  InsertMessage unique_message_id (λ fs, (fs, [])) (λ fs, Z.of_nat (length fs))
    (λ s, s) unit (λ _, Some "") (λ _, Some "[]") (λ _, Some "[]")
    (λ s, s) (λ s, s) (λ s, s).

Definition ex_run :=
  run unique_message_id 32 (λ fs, (fs, [])) (λ fs, Z.of_nat (length fs))
    (λ s, s) unit (λ _, Some "") (λ _, Some "[]") (λ _, Some "[]")
    (λ s, s) (λ s, s) (λ s, s).

Example ex_CopyMessages_run :
  let r := ex_CopyMessages 100 [7; 3; 5; 99] 1 2 1 ex_db in
  r.1 = Ok {[3 := 11; 7 := 12]}
  ∧ highest_uid <$> mailboxes r.2 !! 2 = Some 12
  ∧ sequences_of 2 r.2 = [{| ms_mailbox_id := 2; ms_uid := 11; ms_seqnum := 1 |};
                          {| ms_mailbox_id := 2; ms_uid := 12; ms_seqnum := 2 |}].
Proof. vm_compute. done. Qed.

Example ex_InsertMessage_run :
  let r := ex_InsertMessage 100 (ex_options "e" "he" None) (ex_upload "he") ex_db in
  r.1 = Ok (5, 8)
  ∧ highest_uid <$> mailboxes r.2 !! 1 = Some 8
  ∧ (λ m, (uid m, uploaded m)) <$> last (messages r.2) = Some (8, false)
  ∧ pu_instance_id <$> pending_uploads r.2 !! ("he", 1) = Some "host-1"
  ∧ ms_seqnum <$> sequences_of 1 r.2 = [1; 2; 3; 4].
Proof. vm_compute. done. Qed.

(** ** Witnesses and counterexamples *)

Lemma CopyMessages_assigns_consecutive_uids_witness :
  let r := ex_CopyMessages 100 [7; 3; 5; 99] 1 2 1 ex_db in
  matched_uids 1 [7; 3; 5; 99] (messages ex_db) = [3; 7]
  ∧ r.1 = Ok {[3 := 11; 7 := 12]}
  ∧ (∃ mb', mailboxes r.2 !! 2 = Some mb' ∧ highest_uid mb' = 10 + 2)
  ∧ ∀ i u, [3; 7] !! i = Some u →
      ({[3 := 11; 7 := 12]} : gmap Z Z) !! u = Some (10 + 2 - (2 - 1 - Z.of_nat i)).
Proof.
  cbv zeta. split; [by vm_compute|]. split; [by vm_compute|].
  destruct (CopyMessages_assigns_consecutive_uids unique_message_id 32 100
              [7; 3; 5; 99] 1 2 1 ex_db {[3 := 11; 7 := 12]}
              (ex_CopyMessages 100 [7; 3; 5; 99] 1 2 1 ex_db).2
              {| mb_name := "Archive"; highest_uid := 10; uid_validity := 1 |})
    as (_ & Hhigh & _ & _ & _ & Hpt & _).
  - done.
  - by vm_compute.
  - by vm_compute.
  - vm_compute. apply (bool_decide_unpack _). by vm_compute.
  - simpl. lia.
  - by vm_compute.
  - split; [exact Hhigh|exact Hpt].
Defined.

(** The state after an insert into Archive with the preserved UID
    4294967295, the greatest UID that IMAP has. *)
Definition ex_options_archive (msgid hash : string) (preserved : option Z)
    : InsertMessageOptions unit :=
  {| UserID := 1; MailboxID := 2; MailboxName := "Archive"; S3Domain := "x.test";
     S3Localpart := "alice"; ContentHash := hash; MessageID := msgid;
     Flags := ["\Seen"]; InternalDate := 5; Size := 220; Subject := "hello";
     PlaintextBody := "body"; SentDate := 4; InReplyTo := []; BodyStructure_ := ();
     Recipients := [{| Name := "Bob"; EmailAddress := "bob@x.test"; AddressType := "from" |}];
     RawHeaders := "Subject: hello"; PreservedUID := preserved;
     PreservedUIDValidity := None; FTSRetention := 0 |}.

Definition ex_db_at_limit : db :=
  (ex_InsertMessage 100 (ex_options_archive "z" "hz" (Some 4294967295)) (ex_upload "hz")
     ex_db).2.

(** C1 as stated fails past the last 32-bit UID: the copy of UIDs 3 and 7
    into a mailbox whose highest_uid is 4294967295 succeeds, takes
    highest_uid to 4294967297 and stores the rows under 4294967296 and
    4294967297, but the map that it returns pairs 3 with 0 and 7 with 1. *)
Lemma CopyMessages_assigns_consecutive_uids_counterexample :
  let r := ex_CopyMessages 100 [3; 7] 1 2 1 ex_db_at_limit in
  (ex_InsertMessage 100 (ex_options_archive "z" "hz" (Some 4294967295)) (ex_upload "hz")
     ex_db).1 = Ok (5, 4294967295)
  ∧ highest_uid <$> mailboxes ex_db_at_limit !! 2 = Some 4294967295
  ∧ r.1 = Ok {[3 := 0; 7 := 1]}
  ∧ highest_uid <$> mailboxes r.2 !! 2 = Some 4294967297
  ∧ uid <$> drop (length (messages ex_db_at_limit)) (messages r.2)
    = [4294967296; 4294967297]
  ∧ ¬ consecutive_uids_claimed [3; 7] 1 2 ex_db_at_limit {[3 := 0; 7 := 1]} r.2.
Proof.
  cbv zeta. split; [by vm_compute|]. split; [by vm_compute|]. split; [by vm_compute|].
  split; [by vm_compute|]. split; [by vm_compute|].
  intros (mb' & Hmb' & Hpt). vm_compute in Hmb'. injection Hmb' as <-.
  assert (matched_uids 1 [3; 7] (messages ex_db_at_limit) !! 0%nat = Some 3) as Hfirst
    by (by vm_compute).
  specialize (Hpt 0%nat 3 Hfirst). by vm_compute in Hpt.
Qed.


(** The counter moves as claimed: an insert without a preserved UID takes
    INBOX from 7 to 8, one with the preserved UID 12 to 12, one with the
    preserved UID 3 leaves 7, and a copy of two messages takes Archive from
    10 to 12. *)
Lemma highest_uid_never_decreases_witness :
  let insert p := OpInsertMessage unit 100 (ex_options "e" "he" p) (ex_upload "he") in
  let copy := OpCopyMessages unit 100 [7; 3; 5; 99] 1 2 1 in
  highest_uid <$> mailboxes ex_db !! 1 = Some 7
  ∧ highest_uid <$> mailboxes ex_db !! 2 = Some 10
  ∧ (∃ mb', mailboxes (ex_run (insert None) ex_db) !! 1 = Some mb' ∧ highest_uid mb' = 8)
  ∧ (∃ mb', mailboxes (ex_run (insert (Some 12)) ex_db) !! 1 = Some mb'
            ∧ highest_uid mb' = 12)
  ∧ (∃ mb', mailboxes (ex_run (insert (Some 3)) ex_db) !! 1 = Some mb'
            ∧ highest_uid mb' = 7)
  ∧ (∃ mb', mailboxes (ex_run copy ex_db) !! 2 = Some mb' ∧ highest_uid mb' = 12).
Proof.
  cbv zeta.
  pose proof (λ op, proj1 (proj2
    (highest_uid_never_decreases unique_message_id 32 (λ fs, (fs, []))
       (λ fs, Z.of_nat (length fs)) (λ s, s) unit (λ _, Some "")
       (λ _, Some "[]") (λ _, Some "[]") (λ s, s) (λ s, s) (λ s, s) op ex_db))) as Hadv.
  split; [by vm_compute|]. split; [by vm_compute|].
  split; [|split; [|split]].
  - apply (Hadv (OpInsertMessage unit 100 (ex_options "e" "he" None) (ex_upload "he"))
             {| mb_name := "INBOX"; highest_uid := 7; uid_validity := 1 |});
      [by vm_compute|by eexists|by vm_compute].
  - apply (Hadv (OpInsertMessage unit 100 (ex_options "e" "he" (Some 12)) (ex_upload "he"))
             {| mb_name := "INBOX"; highest_uid := 7; uid_validity := 1 |});
      [by vm_compute|by eexists|by vm_compute].
  - apply (Hadv (OpInsertMessage unit 100 (ex_options "e" "he" (Some 3)) (ex_upload "he"))
             {| mb_name := "INBOX"; highest_uid := 7; uid_validity := 1 |});
      [by vm_compute|by eexists|by vm_compute].
  - apply (Hadv (OpCopyMessages unit 100 [7; 3; 5; 99] 1 2 1)
             {| mb_name := "Archive"; highest_uid := 10; uid_validity := 1 |}).
    + by vm_compute.
    + split; [done|]. apply (bool_decide_unpack _). by vm_compute.
    + by vm_compute.
Defined.

Lemma ex_hits_message_id_key : hits_message_id_key unique_message_id 1 "a" ex_db.
Proof.
  intros row Hmb Hid. unfold unique_message_id.
  cbn [messages ex_db app omap list_omap ex_message mailbox_id message_id fmap option_fmap
       option_map].
  rewrite Hmb, Hid. by vm_compute.
Qed.

(** A duplicate APPEND: Message-ID a is live in INBOX under UID 3, and the
    call answers with the unique-violation error. *)
Lemma InsertMessage_duplicate_is_an_error_witness :
  ex_message 1 1 3 "a" None ∈ messages ex_db
  ∧ existing_message 1 1 "a" (ex_message 1 1 3 "a" None)
  ∧ (∃ st', ex_InsertMessage 100 (ex_options "a" "ha" None) (ex_upload "ha") ex_db
            = (Err ErrDBUniqueViolation, st')
            ∧ messages st' = messages ex_db)
  ∧ ∃ m, select_existing false 1 1 "a" ex_db = Row (id m, uid m) ∧ m ∈ messages ex_db.
Proof.
  assert (ex_message 1 1 3 "a" None ∈ messages ex_db) as Hin by left.
  assert (existing_message 1 1 "a" (ex_message 1 1 3 "a" None)) as Hex by done.
  split; [done|]. split; [done|].
  destruct (InsertMessage_duplicate_is_an_error unique_message_id (λ fs, (fs, []))
              (λ fs, Z.of_nat (length fs)) (λ s, s) unit (λ _, Some "")
              (λ _, Some "[]") (λ _, Some "[]") (λ s, s) (λ s, s) (λ s, s)
              100 (ex_options "a" "ha" None) (ex_upload "ha") ex_db
              (ex_message 1 1 3 "a" None)) as (Herr & Hsel & _).
  - unfold reaches_insert. split; [|split; [|split]]; vm_compute; by eexists.
  - exact ex_hits_message_id_key.
  - exact Hin.
  - exact Hex.
  - split; [exact Herr|exact Hsel].
Defined.

Example ex_duplicate_run :
  let r := ex_InsertMessage 100 (ex_options "a" "ha" None) (ex_upload "ha") ex_db in
  r.1 = Err ErrDBUniqueViolation ∧ messages r.2 = messages ex_db
  ∧ select_existing false 1 1 "a" ex_db = Row (1, 3).
Proof. by vm_compute. Qed.

(** C4 as stated fails when the caller's upload names another content hash:
    the new row is not uploaded, and pending_uploads has no row for it. *)
Lemma InsertMessage_pending_upload_counterexample :
  let r := ex_InsertMessage 100 (ex_options "e" "he" None) (ex_upload "other") ex_db in
  r.1 = Ok (5, 8)
  ∧ ∃ row, last (messages r.2) = Some row
      ∧ uploaded row = false ∧ content_hash row = "he" ∧ account_id row = 1
      ∧ pending_uploads r.2 !! (content_hash row, account_id row) = None.
Proof. cbv zeta. split; [by vm_compute|]. eexists. by vm_compute. Qed.

Lemma InsertMessage_pending_upload_witness :
  upload_matches unit (ex_options "e" "he" None) (ex_upload "he")
  ∧ pending_inv ex_db
  ∧ pending_inv (ex_run (OpInsertMessage unit 100 (ex_options "e" "he" None)
                           (ex_upload "he")) ex_db).
Proof.
  assert (pending_inv ex_db) as Hinv.
  { intros m Hm Hu. repeat (apply elem_of_cons in Hm as [->|Hm]); try done.
    by apply elem_of_nil in Hm. }
  split; [done|]. split; [done|].
  apply (proj1 (InsertMessage_pending_upload unique_message_id 32 (λ fs, (fs, []))
                 (λ fs, Z.of_nat (length fs)) (λ s, s) unit (λ _, Some "")
                 (λ _, Some "[]") (λ _, Some "[]") (λ s, s) (λ s, s) (λ s, s)
                 (OpInsertMessage unit 100 (ex_options "e" "he" None) (ex_upload "he"))
                 ex_db)); done.
Defined.

Lemma maintain_message_sequences_rebuilds_witness :
  let s := UpdateWhere (λ m, bool_decide (uid m = 4))
             (λ m, ex_message (id m) 1 (uid m) (message_id m) (Some 50)) in
  ∃ st', exec unique_message_id s ex_db = PgOk st'
    ∧ touches s ex_db 1
    ∧ ms_uid <$> sequences_of 1 st' = [3; 7]
    ∧ ms_seqnum <$> sequences_of 1 st' = seqZ 1 2
    ∧ 1 ∈ advisory_locks st'.
Proof.
  cbv zeta.
  destruct (exec unique_message_id
              (UpdateWhere (λ m, bool_decide (uid m = 4))
                 (λ m, ex_message (id m) 1 (uid m) (message_id m) (Some 50))) ex_db)
    as [st'|] eqn:Hexec; [|by vm_compute in Hexec].
  assert (touches (UpdateWhere (λ m, bool_decide (uid m = 4))
                     (λ m, ex_message (id m) 1 (uid m) (message_id m) (Some 50))) ex_db 1)
    as Htouch.
  { exists (ex_message 4 1 4 "d" None). split; [|split; [done|by left]].
    do 3 right. left. }
  exists st'. split; [done|]. split; [done|].
  destruct (maintain_message_sequences_rebuilds unique_message_id _ _ _ 1 Hexec Htouch)
    as (Hlock & Hrows & _ & _ & Hseq & _).
  vm_compute in Hexec. injection Hexec as <-.
  split; [by vm_compute|]. split; [exact Hseq|exact Hlock].
Defined.

(** ** The further properties on the example database *)

Definition ex_InsertMessageFromImporter :=
  InsertMessageFromImporter unique_message_id (λ fs, (fs, [])) (λ fs, Z.of_nat (length fs))
    (λ s, s) unit (λ _, Some "") (λ _, Some "[]") (λ _, Some "[]")
    (λ s, s) (λ s, s) (λ s, s).

Definition ex_expunge : statement :=
  UpdateWhere (λ m, bool_decide (uid m = 4))
    (λ m, ex_message (id m) 1 (uid m) (message_id m) (Some 50)).

Lemma ex_uid_inv : uid_inv ex_db.
Proof.
  split.
  - assert (map_Forall (λ _ mb, - 2 ^ 63 ≤ highest_uid mb ≤ max_int64) (mailboxes ex_db))
      as H by (apply (bool_decide_unpack _); by vm_compute).
    exact H.
  - intros m v mb Hm Hv Hl.
    repeat (apply elem_of_cons in Hm as [->|Hm]); [..|by apply elem_of_nil in Hm];
      injection Hv as <-; vm_compute in Hl; injection Hl as <-; cbn; lia.
Qed.

Lemma ex_sequences_consistent v : sequences_consistent ex_db v.
Proof.
  destruct (decide (v = 1)) as [->|Hne]; [by vm_compute|].
  unfold sequences_consistent, sequences_of, live_uids.
  cbn [message_sequences messages ex_db].
  rewrite !filter_cons, !filter_nil.
  rewrite !decide_False; [done|..]; cbn; try congruence; by intros [[= ?] _].
Qed.

Lemma CopyMessages_copies_content_witness :
  let r := ex_CopyMessages 100 [7; 3; 5; 99] 1 2 1 ex_db in
  NoDup (id <$> messages ex_db)
  ∧ NoDup (live_uids 1 (messages ex_db))
  ∧ ∃ rows, messages r.2 = messages ex_db ++ rows
      ∧ length rows = 2%nat
      ∧ ∀ row, row ∈ rows → ∃ m, m ∈ messages ex_db ∧ same_content m row
                                 ∧ flags row = Z.lor (flags m) 32.
Proof.
  cbv zeta.
  assert (NoDup (id <$> messages ex_db)) as Hids
    by (apply (bool_decide_unpack _); by vm_compute).
  assert (NoDup (live_uids 1 (messages ex_db))) as Hnd
    by (apply (bool_decide_unpack _); by vm_compute).
  split; [done|]. split; [done|].
  destruct (CopyMessages_copies_content unique_message_id 32 100 [7; 3; 5; 99] 1 2 1 ex_db
              {[3 := 11; 7 := 12]} (ex_CopyMessages 100 [7; 3; 5; 99] 1 2 1 ex_db).2)
    as (rows & Hm & Hlen & Hrows); [by vm_compute|done|done|].
  exists rows. split; [exact Hm|]. split; [exact Hlen|].
  intros row Hrow. destruct (Hrows row Hrow) as (m & mb & ? & _ & _ & ? & ? & _).
  by exists m.
Defined.

Lemma highest_uid_bounds_uids_witness :
  uid_inv ex_db
  ∧ uid_inv (ex_run (OpCopyMessages unit 100 [7; 3; 5; 99] 1 2 1) ex_db).
Proof.
  split; [exact ex_uid_inv|].
  exact (highest_uid_bounds_uids unique_message_id 32 (λ fs, (fs, []))
           (λ fs, Z.of_nat (length fs)) (λ s, s) unit (λ _, Some "")
           (λ _, Some "[]") (λ _, Some "[]") (λ s, s) (λ s, s) (λ s, s)
           (OpCopyMessages unit 100 [7; 3; 5; 99] 1 2 1) ex_db ex_uid_inv).
Defined.

Lemma new_uids_are_fresh_witness :
  let op := OpInsertMessage unit 100 (ex_options "e" "he" None) (ex_upload "he") in
  uid_inv ex_db
  ∧ assigns_uid unit op
  ∧ ∃ rows, messages (ex_run op ex_db) = messages ex_db ++ rows
      ∧ ∀ row m, row ∈ rows → m ∈ messages ex_db →
          is_Some (mailbox_id row) → mailbox_id m = mailbox_id row → uid m < uid row.
Proof.
  cbv zeta. split; [exact ex_uid_inv|]. split; [done|].
  exact (new_uids_are_fresh unique_message_id 32 (λ fs, (fs, []))
           (λ fs, Z.of_nat (length fs)) (λ s, s) unit (λ _, Some "")
           (λ _, Some "[]") (λ _, Some "[]") (λ s, s) (λ s, s) (λ s, s)
           (OpInsertMessage unit 100 (ex_options "e" "he" None) (ex_upload "he"))
           ex_db ex_uid_inv eq_refl).
Defined.

(** With the preserved UID 6 in a mailbox whose highest_uid is 7, the new
    row has UID 6 and InsertMessage returns 7. *)
Lemma InsertMessage_returns_highest_uid_witness :
  let r := ex_InsertMessage 100 (ex_options "e" "he" (Some 6)) (ex_upload "he") ex_db in
  r.1 = Ok (5, 7)
  ∧ ∃ row mb', messages r.2 = messages ex_db ++ [row]
      ∧ uid row = 6
      ∧ mailboxes r.2 !! 1 = Some mb'
      ∧ highest_uid mb' = 7
      ∧ (ex_InsertMessageFromImporter 100 (ex_options "e" "he" (Some 6)) ex_db).1
        = Ok (5, 6).
Proof.
  cbv zeta.
  destruct (ex_InsertMessage 100 (ex_options "e" "he" (Some 6)) (ex_upload "he") ex_db)
    as [res st'] eqn:Hrun.
  assert (res = Ok (5, 7)) as -> by (by vm_compute in Hrun; injection Hrun as <- _).
  assert (∃ row, messages st' = messages ex_db ++ [row]) as [row Hrow].
  { vm_compute in Hrun. injection Hrun as <-. by eexists. }
  destruct (InsertMessage_returns_highest_uid unique_message_id (λ fs, (fs, []))
              (λ fs, Z.of_nat (length fs)) (λ s, s) unit (λ _, Some "")
              (λ _, Some "[]") (λ _, Some "[]") (λ s, s) (λ s, s) (λ s, s)
              100 (ex_options "e" "he" (Some 6)) (ex_upload "he") ex_db (5, 7) st' row
              {| mb_name := "INBOX"; highest_uid := 7; uid_validity := 1 |}
              Hrun Hrow eq_refl)
    as (mb' & Hmb' & Hr & Hu & _ & _).
  split; [done|]. exists row, mb'.
  split; [exact Hrow|]. split; [exact Hu|]. split; [exact Hmb'|].
  split; [by injection Hr as _ <-|]. by vm_compute.
Defined.

Lemma ex_expunge_untouched : ¬ touches ex_expunge ex_db 2.
Proof.
  intros (m & Hm & _ & Hmb).
  repeat (apply elem_of_cons in Hm as [->|Hm]); [..|by apply elem_of_nil in Hm];
    by destruct Hmb.
Qed.

Lemma untouched_mailbox_keeps_sequences_witness :
  ∃ st', exec unique_message_id ex_expunge ex_db = PgOk st'
    ∧ sequences_of 2 st' = sequences_of 2 ex_db
    ∧ ms_seqnum <$> sequences_of 1 st' = [1; 2].
Proof.
  destruct (exec unique_message_id ex_expunge ex_db) as [st'|] eqn:Hexec;
    [|by vm_compute in Hexec].
  exists st'. split; [done|].
  destruct (untouched_mailbox_keeps_sequences unique_message_id ex_expunge ex_db st' 2
              Hexec ex_expunge_untouched) as [_ Hseq].
  split; [exact Hseq|].
  vm_compute in Hexec. injection Hexec as <-. by vm_compute.
Defined.

Lemma sequences_stay_consistent_witness :
  ∃ st', exec unique_message_id ex_expunge ex_db = PgOk st'
    ∧ sequences_consistent st' 1 ∧ sequences_consistent st' 2.
Proof.
  destruct (exec unique_message_id ex_expunge ex_db) as [st'|] eqn:Hexec;
    [|by vm_compute in Hexec].
  exists st'. split; [done|].
  split; exact (sequences_stay_consistent unique_message_id ex_expunge ex_db st'
                  Hexec ex_sequences_consistent _).
Defined.

Lemma rebuild_sequences_idempotent_witness :
  ∃ st1 st2, rebuild_sequences ex_db 1 = PgOk st1
    ∧ rebuild_sequences st1 1 = PgOk st2
    ∧ message_sequences st2 = message_sequences st1.
Proof.
  destruct (rebuild_sequences ex_db 1) as [st1|] eqn:H1; [|by vm_compute in H1].
  destruct (rebuild_sequences_idempotent ex_db 1 st1 H1) as (st2 & H2 & Hseq & _).
  by exists st1, st2.
Defined.

Lemma bootstrap_is_consistent_witness :
  ∃ st', bootstrap_message_sequences (with_message_sequences [] ex_db) = PgOk st'
    ∧ sequences_consistent st' 1
    ∧ ms_uid <$> message_sequences st' = [3; 4; 7].
Proof.
  destruct (bootstrap_message_sequences (with_message_sequences [] ex_db))
    as [st'|] eqn:H; [|by vm_compute in H].
  exists st'.
  destruct (bootstrap_is_consistent (with_message_sequences [] ex_db) st' H eq_refl)
    as [_ Hcons].
  split; [done|]. split; [exact (Hcons 1)|].
  vm_compute in H. injection H as <-. by vm_compute.
Defined.

End DB.

(** * Sieve scripts in the metadata store (package db, the second part of
      src/db/append.go, lines 557-678) *)

Module Sieve.

(** The struct of lines 568-575; a row of sieve_scripts has the same
    columns (id, account_id, name, script, active, updated_at). *)
Record SieveScript := {
  ID : Z;
  UserID : Z;
  Name : string;
  Script : string;
  Active : bool;
  UpdatedAt : DB.Time }.

#[global] Instance SieveScript_eq_dec : EqDecision SieveScript.
Proof. solve_decision. Defined.

(** The table and the sequence that its id column draws from. *)
Record db := {
  sieve_scripts : list SieveScript;
  sieve_scripts_id_seq : Z }.

(** The errors these functions return: pgx.ErrNoRows as it is,
    consts.ErrDBNotFound, an error of the database, and the wrapper of
    line 669. *)
Inductive error :=
| ErrNoRows
| ErrDBNotFound
| ErrPg (e : DB.PgError)
| ErrDeactivateFailed (e : DB.PgError).

Inductive result (A : Type) :=
| Ok (a : A)
| Err (e : error).
Arguments Ok {A} a.
Arguments Err {A} e.

Section scripts.

(** The schema of sieve_scripts is not part of these sources: its
    constraints read the would-be table and name the one it violates, and the
    default of updated_at is a function of the time of the INSERT. *)
Variable sieve_scripts_constraints : list SieveScript → option DB.PgError.
Variable updated_at_default : DB.Time → DB.Time.

(** A SELECT without ORDER BY returns the rows that match in an order that
    these sources do not determine: [row_order] is that order, some
    permutation of the rows. *)
Variable row_order : list SieveScript → list SieveScript.
Hypothesis row_order_perm : ∀ rows, row_order rows ≡ₚ rows.

(** The error with which tx.Exec answers the DELETE of DeleteScript when the
    database refuses the statement ([None] is a nil error).  These sources
    do not determine it: a reference from another table, a transaction that
    an earlier statement aborted, a lost connection. *)
Variable delete_error : Z → Z → db → option DB.PgError.

(** [QueryRow(...).Scan]: the first row, or pgx.ErrNoRows. *)
Definition QueryRow (rows : list SieveScript) : result SieveScript :=
  match rows with
  | r :: _ => Ok r
  | [] => Err ErrNoRows
  end.

(** Lines 577-594: the query has no ORDER BY. *)
Definition GetUserScripts (userID : Z) (st : db) : list SieveScript :=
  row_order (filter (λ r, UserID r = userID) (sieve_scripts st)).

(** Lines 596-606. *)
Definition GetScript (scriptID userID : Z) (st : db) : result SieveScript :=
  QueryRow (filter (λ r, ID r = scriptID ∧ UserID r = userID) (sieve_scripts st)).

(** Lines 608-620. *)
Definition GetActiveScript (userID : Z) (st : db) : result SieveScript :=
  match QueryRow (filter (λ r, UserID r = userID ∧ Active r = true) (sieve_scripts st)) with
  | Ok r => Ok r
  | Err ErrNoRows => Err ErrDBNotFound
  | Err e => Err e
  end.

(** Lines 622-635: account_id is not selected, the struct gets the
    argument. *)
Definition GetScriptByName (name : string) (userID : Z) (st : db) : result SieveScript :=
  match QueryRow (filter (λ r, Name r = name ∧ UserID r = userID) (sieve_scripts st)) with
  | Ok r => Ok {| ID := ID r; UserID := userID; Name := Name r; Script := Script r;
                  Active := Active r; UpdatedAt := UpdatedAt r |}
  | Err ErrNoRows => Err ErrDBNotFound
  | Err e => Err e
  end.

(** Lines 637-648: the id is drawn from the sequence whether the INSERT
    succeeds or not. *)
Definition CreateScript (now : DB.Time) (userID : Z) (name script : string) (st : db)
    : result SieveScript * db :=
  let row := {| ID := sieve_scripts_id_seq st + 1; UserID := userID; Name := name;
                Script := script; Active := false;
                UpdatedAt := updated_at_default now |} in
  match sieve_scripts_constraints (sieve_scripts st ++ [row]) with
  | Some e => (Err (ErrPg e), {| sieve_scripts := sieve_scripts st;
                                 sieve_scripts_id_seq := sieve_scripts_id_seq st + 1 |})
  | None => (Ok row, {| sieve_scripts := sieve_scripts st ++ [row];
                        sieve_scripts_id_seq := sieve_scripts_id_seq st + 1 |})
  end.

(** [UPDATE sieve_scripts SET ... WHERE P]: the rows that meet [P] become
    [f] of themselves, if the constraints allow it; an UPDATE that matches no
    row changes nothing and cannot fail on a constraint. *)
Definition update_where (P : SieveScript → bool) (f : SieveScript → SieveScript) (st : db)
    : DB.pg_result db :=
  let rows := (λ r, if P r then f r else r) <$> sieve_scripts st in
  match filter (λ r, P r) (sieve_scripts st) with
  | [] => DB.PgOk st
  | _ :: _ =>
      match sieve_scripts_constraints rows with
      | Some e => DB.PgErr e
      | None =>
          DB.PgOk {| sieve_scripts := rows; sieve_scripts_id_seq := sieve_scripts_id_seq st |}
      end
  end.

(** Lines 650-661. *)
Definition UpdateScript (now : DB.Time) (scriptID userID : Z) (name script : string) (st : db)
    : result SieveScript * db :=
  let P := λ r, bool_decide (ID r = scriptID ∧ UserID r = userID) in
  let f := λ r, {| ID := ID r; UserID := UserID r; Name := name; Script := script;
                   Active := Active r; UpdatedAt := now |} in
  match update_where P f st with
  | DB.PgErr e => (Err (ErrPg e), st)
  | DB.PgOk st' => (QueryRow (f <$> filter (λ r, P r) (sieve_scripts st)), st')
  end.

(** Lines 660-663: the function returns the error of tx.Exec as it is. *)
Definition DeleteScript (scriptID userID : Z) (st : db) : result unit * db :=
  match delete_error scriptID userID st with
  | Some e => (Err (ErrPg e), st)
  | None =>
      (Ok (), {| sieve_scripts :=
                   filter (λ r, ¬ (ID r = scriptID ∧ UserID r = userID)) (sieve_scripts st);
                 sieve_scripts_id_seq := sieve_scripts_id_seq st |})
  end.

Definition deactivated (r : SieveScript) : SieveScript :=
  {| ID := ID r; UserID := UserID r; Name := Name r; Script := Script r;
     Active := false; UpdatedAt := UpdatedAt r |}.

Definition with_active (active : bool) (now : DB.Time) (r : SieveScript) : SieveScript :=
  {| ID := ID r; UserID := UserID r; Name := Name r; Script := Script r;
     Active := active; UpdatedAt := now |}.

(** Lines 668-683. *)
Definition SetScriptActive (now : DB.Time) (scriptID userID : Z) (active : bool) (st : db)
    : result unit * db :=
  let target := λ r, bool_decide (ID r = scriptID ∧ UserID r = userID) in
  let others :=
    if active then
      update_where (λ r, bool_decide (UserID r = userID ∧ Active r = true)) deactivated st
    else DB.PgOk st in
  match others with
  | DB.PgErr e => (Err (ErrDeactivateFailed e), st)
  | DB.PgOk st1 =>
      match update_where target (with_active active now) st1 with
      | DB.PgErr e => (Err (ErrPg e), st1)
      | DB.PgOk st2 => (Ok (), st2)
      end
  end.

(** ** Properties *)

(** What identifies a script and what it says, flag and time stamp apart. *)
Definition content (r : SieveScript) : Z * Z * string * string :=
  (ID r, UserID r, Name r, Script r).

(** Case analysis on a test whose condition holds no other test. *)
Ltac decide_innermost :=
  match goal with
  | |- context [bool_decide ?P] =>
      lazymatch P with
      | context [bool_decide _] => fail
      | context [if _ then _ else _] => fail
      | _ => destruct (bool_decide_reflect P)
      end
  end.

(** A case whose tests contradict one another. *)
Ltac absurd_case :=
  exfalso;
  repeat match goal with H : _ ∧ _ |- _ => destruct H end;
  match goal with H : ¬ _ |- _ => apply H; repeat split; congruence end.

Lemma fmap_unmatched (P : SieveScript → bool) (f : SieveScript → SieveScript)
    (rows : list SieveScript) :
  filter (λ r, P r) rows = [] → (λ r, if P r then f r else r) <$> rows = rows.
Proof.
  induction rows as [|r rows IH]; [done|]. rewrite filter_cons, fmap_cons.
  destruct (P r); [done|]. rewrite decide_False by (by intros ?). intros ?. by rewrite IH.
Qed.

Lemma update_where_inv P f st st' :
  update_where P f st = DB.PgOk st' →
  sieve_scripts st' = (λ r, if P r then f r else r) <$> sieve_scripts st
  ∧ sieve_scripts_id_seq st' = sieve_scripts_id_seq st.
Proof.
  unfold update_where. cbv zeta.
  destruct (filter _ (sieve_scripts st)) eqn:Hf.
  - intros [= <-]. by rewrite fmap_unmatched.
  - destruct (sieve_scripts_constraints _); [done|]. intros [= <-]. done.
Qed.

Lemma SetScriptActive_rows now scriptID userID st st' :
  SetScriptActive now scriptID userID true st = (Ok (), st') →
  sieve_scripts st'
  = (λ r, if bool_decide (UserID r = userID) then
            if bool_decide (ID r = scriptID) then with_active true now r
            else deactivated r
          else r) <$> sieve_scripts st.
Proof.
  unfold SetScriptActive. cbv zeta.
  destruct (update_where _ deactivated st) as [st1|] eqn:H1; [|done].
  destruct (update_where _ (with_active true now) st1) as [st2|] eqn:H2; [|done].
  intros [= <-].
  apply update_where_inv in H1 as [H1 _]. apply update_where_inv in H2 as [H2 _].
  rewrite H2, H1, <-list_fmap_compose. apply list_fmap_ext. intros _ r _. cbn.
  destruct r as [i u n s a t]. unfold deactivated, with_active. cbn.
  repeat (decide_innermost; cbn);
    first [done | absurd_case | destruct a; first [done | absurd_case]].
Qed.

(** X10.  A successful SetScriptActive(id, user, true) leaves, among the
    scripts of the account, exactly those with that id active: the target,
    if the account has it, and no other script; when the account has no
    script with that id the call still succeeds and the account ends with no
    active script at all.  No script is added or removed, no name or text
    changes, and the scripts of other accounts are as they were. *)
Theorem SetScriptActive_exclusive now scriptID userID st st' :
  SetScriptActive now scriptID userID true st = (Ok (), st') →
  content <$> sieve_scripts st' = content <$> sieve_scripts st
  ∧ (∀ r, r ∈ sieve_scripts st' → UserID r = userID →
       (Active r = true ↔ ID r = scriptID))
  ∧ (∀ u, u ≠ userID → GetUserScripts u st' = GetUserScripts u st)
  ∧ ((∀ r, r ∈ sieve_scripts st → UserID r = userID → ID r ≠ scriptID) →
     GetActiveScript userID st' = Err ErrDBNotFound).
Proof.
  intros Hrows%SetScriptActive_rows.
  assert (∀ r, r ∈ sieve_scripts st' → UserID r = userID →
            (Active r = true ↔ ID r = scriptID)) as Hact.
  { intros r. rewrite Hrows. intros (r0 & -> & Hr0)%list_elem_of_fmap.
    repeat (decide_innermost; cbn); intros Hu; first [done|split; intros; congruence]. }
  split; [|split; [done|split]].
  - rewrite Hrows, <-list_fmap_compose. apply list_fmap_ext. intros _ r _. cbn.
    repeat (decide_innermost; cbn); reflexivity.
  - intros u Hu. unfold GetUserScripts. f_equal. rewrite Hrows. clear Hrows Hact.
    induction (sieve_scripts st) as [|r rows IH]; [done|].
    rewrite fmap_cons, !filter_cons, IH.
    decide_innermost; [|done].
    rewrite !decide_False; [done|congruence|].
    decide_innermost; cbn; congruence.
  - intros Hnone. unfold GetActiveScript.
    rewrite (DB.filter_none _ (sieve_scripts st')); [done|].
    apply Forall_forall. intros r Hr [Hu Ha].
    apply (Hact r Hr Hu) in Ha. revert Hr Hu Ha. rewrite Hrows.
    intros (r0 & -> & Hr0)%list_elem_of_fmap.
    repeat (decide_innermost; cbn); intros Hu Ha; by apply (Hnone r0 Hr0).
Qed.

(** X11.  After a successful SetScriptActive(id, user, true), where ids are
    unique and the account has the script, GetActiveScript returns that
    script, marked active and stamped with the time of the call, its name
    and text as they were. *)
Theorem SetScriptActive_then_GetActiveScript now scriptID userID st st' r :
  SetScriptActive now scriptID userID true st = (Ok (), st') →
  NoDup (ID <$> sieve_scripts st) →
  r ∈ sieve_scripts st → ID r = scriptID → UserID r = userID →
  GetActiveScript userID st' = Ok (with_active true now r).
Proof.
  intros Hrows%SetScriptActive_rows Hnd Hr Hid Hu. unfold GetActiveScript.
  rewrite Hrows. clear Hrows.
  assert (filter (λ r0, UserID r0 = userID ∧ Active r0 = true)
            ((λ r0, if bool_decide (UserID r0 = userID) then
                      if bool_decide (ID r0 = scriptID) then with_active true now r0
                      else deactivated r0
                    else r0) <$> sieve_scripts st) = [with_active true now r]) as ->; [|done].
  induction (sieve_scripts st) as [|r0 rows IH]; [by apply elem_of_nil in Hr|].
  rewrite fmap_cons in Hnd. apply NoDup_cons in Hnd as [Hr0 Hnd].
  rewrite fmap_cons, filter_cons.
  apply elem_of_cons in Hr as [->|Hr].
  - rewrite !bool_decide_eq_true_2 by done.
    rewrite decide_True by done. f_equal.
    apply DB.filter_none, Forall_forall.
    intros r' (r1 & -> & Hr1)%list_elem_of_fmap [Hu' Ha'].
    assert (ID r1 ≠ ID r0) as Hne.
    { intros Heq. apply Hr0. rewrite <-Heq. by apply list_elem_of_fmap_2. }
    revert Hu' Ha'. repeat (decide_innermost; cbn); congruence.
  - rewrite IH by done.
    assert (ID r0 ≠ scriptID) as Hne.
    { intros Heq. apply Hr0. rewrite Heq, <-Hid. by apply list_elem_of_fmap_2. }
    rewrite decide_False; [done|].
    intros [Hu' Ha']. revert Hu' Ha'. repeat (decide_innermost; cbn); congruence.
Qed.

(** X12.  A script that CreateScript has stored is found again: where the
    account had no script of that name, GetScriptByName returns the created
    script, which is not active and has the given text; GetUserScripts
    returns it together with the former scripts of the account, each once,
    in an order that the query does not fix; and the lookups of every other
    name or account answer as before. *)
Theorem CreateScript_then_GetScriptByName now userID name script st s st' :
  CreateScript now userID name script st = (Ok s, st') →
  (∀ r, r ∈ sieve_scripts st → UserID r = userID → Name r ≠ name) →
  GetScriptByName name userID st' = Ok s
  ∧ Active s = false ∧ Script s = script ∧ Name s = name ∧ UserID s = userID
  ∧ GetUserScripts userID st' ≡ₚ s :: GetUserScripts userID st
  ∧ (∀ r, r ∈ GetUserScripts userID st' ↔ r = s ∨ r ∈ GetUserScripts userID st)
  ∧ ∀ n u, (n, u) ≠ (name, userID) → GetScriptByName n u st' = GetScriptByName n u st.
Proof using row_order_perm.
  unfold CreateScript. cbv zeta. destruct (sieve_scripts_constraints _); [done|].
  intros [= <- <-] Hfree. cbn [sieve_scripts Active Script Name UserID].
  match goal with |- context [GetUserScripts userID ?st1 ≡ₚ ?s1 :: _] =>
    assert (GetUserScripts userID st1 ≡ₚ s1 :: GetUserScripts userID st) as Hlist
  end.
  { unfold GetUserScripts. cbn [sieve_scripts].
    rewrite !row_order_perm, filter_app, filter_cons, decide_True by done.
    by rewrite filter_nil, <-Permutation_cons_append. }
  split; [|split; [done|split; [done|split; [done|split; [done|split; [done|split]]]]]].
  - unfold GetScriptByName. cbn [sieve_scripts]. rewrite filter_app.
    rewrite (DB.filter_none _ (sieve_scripts st)).
    2:{ apply Forall_forall. intros r Hr [Hn Hu]. by apply (Hfree r). }
    rewrite filter_cons, decide_True by done. done.
  - intros r. rewrite Hlist. apply elem_of_cons.
  - intros n u Hne. unfold GetScriptByName. cbn [sieve_scripts].
    rewrite filter_app, filter_cons, decide_False, filter_nil, app_nil_r; [done|].
    cbn. intros [<- <-]. done.
Qed.

(** X13.  UpdateScript rewrites the name, the text and the time stamp of the
    script with that id of that account and nothing else: its active flag
    and id stay, and so does every other script.  For a script that the
    account does not have it fails with pgx.ErrNoRows and the table is as it
    was. *)
Theorem UpdateScript_keeps_active now scriptID userID name script st :
  let r := UpdateScript now scriptID userID name script st in
  ((∀ s, s ∈ sieve_scripts st → ¬ (ID s = scriptID ∧ UserID s = userID)) →
   r.1 = Err ErrNoRows ∧ sieve_scripts r.2 = sieve_scripts st)
  ∧ ∀ s, r.1 = Ok s →
      ID s = scriptID ∧ UserID s = userID ∧ Name s = name ∧ Script s = script
      ∧ UpdatedAt s = now
      ∧ (∃ s0, s0 ∈ sieve_scripts st ∧ ID s0 = scriptID ∧ UserID s0 = userID
               ∧ Active s = Active s0)
      ∧ s ∈ sieve_scripts r.2
      ∧ (λ x, (ID x, UserID x, Active x)) <$> sieve_scripts r.2
        = (λ x, (ID x, UserID x, Active x)) <$> sieve_scripts st
      ∧ filter (λ x, ¬ (ID x = scriptID ∧ UserID x = userID)) (sieve_scripts r.2)
        = filter (λ x, ¬ (ID x = scriptID ∧ UserID x = userID)) (sieve_scripts st).
Proof.
  cbv zeta. unfold UpdateScript. cbv zeta. split.
  - intros Hnone.
    assert (filter (λ r, bool_decide (ID r = scriptID ∧ UserID r = userID))
              (sieve_scripts st) = []) as Hf.
    { apply DB.filter_none, Forall_forall. intros r Hr HP%bool_decide_unpack.
      by apply (Hnone r). }
    unfold update_where. cbv zeta. by rewrite Hf.
  - intros s. destruct (update_where _ _ st) as [st'|] eqn:Hup; [|done].
    apply update_where_inv in Hup as [Hrows _]. cbn [fst snd]. intros Hs.
    destruct (filter _ (sieve_scripts st)) as [|s0 l] eqn:Hf; [done|].
    cbn in Hs. injection Hs as <-.
    assert (s0 ∈ filter (λ r, bool_decide (ID r = scriptID ∧ UserID r = userID))
                   (sieve_scripts st)) as Hs0 by (rewrite Hf; left).
    apply list_elem_of_filter in Hs0 as [[Hid Hu]%bool_decide_unpack Hs0].
    cbn. split; [done|]. split; [done|]. split; [done|]. split; [done|]. split; [done|].
    split; [by exists s0|]. split; [|split].
    + rewrite Hrows. apply list_elem_of_fmap. exists s0.
      by rewrite bool_decide_eq_true_2.
    + rewrite Hrows, <-list_fmap_compose. apply list_fmap_ext. intros _ r _. cbn.
      by case_bool_decide.
    + rewrite Hrows. clear. induction (sieve_scripts st) as [|r rows IH]; [done|].
      rewrite fmap_cons, !filter_cons, IH. case_bool_decide as HP.
      * rewrite !decide_False; [done|by intros Hn; apply Hn|by intros Hn; apply Hn].
      * by rewrite !decide_True.
Qed.

(** X14.  DeleteScript returns the error with which the database answers
    its DELETE, if any, and then the table is as it was.  Otherwise it
    returns nil, also for a script that the account does not have, and it
    has removed the scripts with that id of that account, active or not,
    and no other: afterwards GetScript finds none for that id and account,
    and answers for every other id or account as before. *)
Theorem DeleteScript_removes_only_target scriptID userID st :
  let r := DeleteScript scriptID userID st in
  match delete_error scriptID userID st with
  | Some e => r = (Err (ErrPg e), st)
  | None =>
      r.1 = Ok ()
      ∧ GetScript scriptID userID r.2 = Err ErrNoRows
      ∧ (∀ i u, (i, u) ≠ (scriptID, userID) → GetScript i u r.2 = GetScript i u st)
      ∧ (∀ s, s ∈ sieve_scripts r.2 ↔
              s ∈ sieve_scripts st ∧ ¬ (ID s = scriptID ∧ UserID s = userID))
  end.
Proof.
  cbv zeta. unfold DeleteScript, GetScript.
  destruct (delete_error scriptID userID st) as [e|]; [done|].
  cbn [fst snd sieve_scripts].
  split; [done|]. split; [|split].
  - rewrite DB.filter_none; [done|].
    apply Forall_forall. by intros r [Hn _]%list_elem_of_filter HP.
  - intros i u Hne. f_equal.
    induction (sieve_scripts st) as [|r rows IH]; [done|].
    rewrite !filter_cons. destruct (decide (¬ _)) as [Hn|Hn].
    + by rewrite filter_cons, IH.
    + rewrite IH, decide_False; [done|].
      intros [<- <-]. apply Hn. intros [? ?]. apply Hne. congruence.
  - intros s. rewrite list_elem_of_filter. split; intros [? ?]; by split.
Qed.

End scripts.

(** ** An example table *)

Definition ex_scripts : db :=
  {| sieve_scripts :=
       [{| ID := 1; UserID := 7; Name := "vacation"; Script := "keep;"; Active := true;
           UpdatedAt := 10 |};
        {| ID := 2; UserID := 7; Name := "spam"; Script := "discard;"; Active := false;
           UpdatedAt := 11 |};
        {| ID := 3; UserID := 8; Name := "spam"; Script := "stop;"; Active := true;
           UpdatedAt := 12 |}];
     sieve_scripts_id_seq := 3 |}.

(** One active script per account, and one script per name and account. *)
Definition ex_constraints (rows : list SieveScript) : option DB.PgError :=
  if bool_decide (NoDup (UserID <$> filter (λ r, Active r = true) rows)) then
    if bool_decide (NoDup ((λ r, (UserID r, Name r)) <$> rows)) then None
    else Some {| DB.Code := "23505"; DB.ConstraintName := "sieve_scripts_account_id_name_key" |}
  else Some {| DB.Code := "23505"; DB.ConstraintName := "sieve_scripts_account_id_active_idx" |}.

Example ex_SetScriptActive_run :
  let r := SetScriptActive ex_constraints 20 2 7 true ex_scripts in
  r.1 = Ok ()
  ∧ (λ s, (ID s, Active s)) <$> sieve_scripts r.2 = [(1, false); (2, true); (3, true)].
Proof. by vm_compute. Qed.

Lemma SetScriptActive_exclusive_witness :
  ∃ st', SetScriptActive ex_constraints 20 2 7 true ex_scripts = (Ok (), st')
    ∧ content <$> sieve_scripts st' = content <$> sieve_scripts ex_scripts
    ∧ GetUserScripts reverse 8 st' = GetUserScripts reverse 8 ex_scripts.
Proof.
  destruct (SetScriptActive ex_constraints 20 2 7 true ex_scripts) as [res st'] eqn:Hrun.
  assert (res = Ok ()) as -> by (by vm_compute in Hrun; injection Hrun as <- _).
  exists st'. split; [done|].
  destruct (SetScriptActive_exclusive ex_constraints reverse 20 2 7 ex_scripts st' Hrun)
    as (Hcontent & _ & Hothers & _).
  split; [exact Hcontent|]. by apply Hothers.
Defined.

Lemma SetScriptActive_then_GetActiveScript_witness :
  ∃ st', SetScriptActive ex_constraints 20 2 7 true ex_scripts = (Ok (), st')
    ∧ GetActiveScript 7 st'
      = Ok {| ID := 2; UserID := 7; Name := "spam"; Script := "discard;"; Active := true;
              UpdatedAt := 20 |}.
Proof.
  destruct (SetScriptActive ex_constraints 20 2 7 true ex_scripts) as [res st'] eqn:Hrun.
  assert (res = Ok ()) as -> by (by vm_compute in Hrun; injection Hrun as <- _).
  exists st'. split; [done|].
  apply (SetScriptActive_then_GetActiveScript ex_constraints 20 2 7 ex_scripts st'
           {| ID := 2; UserID := 7; Name := "spam"; Script := "discard;"; Active := false;
              UpdatedAt := 11 |} Hrun).
  - apply (bool_decide_unpack _). by vm_compute.
  - right. left.
  - done.
  - done.
Defined.

Lemma CreateScript_then_GetScriptByName_witness :
  ∃ s st', CreateScript ex_constraints (λ t, t) 20 7 "work" "keep;" ex_scripts = (Ok s, st')
    ∧ GetScriptByName "work" 7 st' = Ok s
    ∧ ID s = 4 ∧ Active s = false
    ∧ GetUserScripts reverse 7 st' ≡ₚ s :: GetUserScripts reverse 7 ex_scripts.
Proof.
  destruct (CreateScript ex_constraints (λ t, t) 20 7 "work" "keep;" ex_scripts)
    as [res st'] eqn:Hrun.
  destruct res as [s|e]; [|by vm_compute in Hrun].
  exists s, st'. split; [done|].
  destruct (CreateScript_then_GetScriptByName ex_constraints (λ t, t) reverse
              reverse_Permutation 20 7 "work" "keep;"
              ex_scripts s st' Hrun) as (Hget & Hact & _ & _ & _ & Hlist & _).
  { intros r Hr _. repeat (apply elem_of_cons in Hr as [->|Hr]); [done..|].
    by apply elem_of_nil in Hr. }
  split; [exact Hget|]. split; [|split; [exact Hact|exact Hlist]].
  vm_compute in Hrun. by injection Hrun as <- _.
Defined.

Lemma UpdateScript_keeps_active_witness :
  (UpdateScript ex_constraints 20 9 7 "x" "keep;" ex_scripts).1 = Err ErrNoRows
  ∧ ∃ s, (UpdateScript ex_constraints 20 1 7 "vacation" "stop;" ex_scripts).1 = Ok s
      ∧ Active s = true ∧ Script s = "stop;".
Proof.
  destruct (UpdateScript_keeps_active ex_constraints 20 9 7 "x" "keep;" ex_scripts)
    as [Hmissing _].
  split.
  { apply Hmissing. intros s Hs [Hid _].
    repeat (apply elem_of_cons in Hs as [->|Hs]); [done..|]. by apply elem_of_nil in Hs. }
  destruct (UpdateScript ex_constraints 20 1 7 "vacation" "stop;" ex_scripts).1
    as [s|] eqn:Hrun; [|by vm_compute in Hrun].
  exists s. split; [done|]. vm_compute in Hrun. by injection Hrun as <-.
Defined.

(** A database that refuses to delete script 2 and accepts the other
    deletions. *)
Definition ex_delete_error (scriptID userID : Z) (st : db) : option DB.PgError :=
  if bool_decide (scriptID = 2)
  then Some {| DB.Code := "23503"; DB.ConstraintName := "filters_script_id_fkey" |}
  else None.

Lemma DeleteScript_removes_only_target_witness :
  let st' := (DeleteScript ex_delete_error 1 7 ex_scripts).2 in
  GetScript 1 7 st' = Err ErrNoRows
  ∧ GetScript 3 8 st' = GetScript 3 8 ex_scripts
  ∧ GetActiveScript 7 st' = Err ErrDBNotFound
  ∧ DeleteScript ex_delete_error 9 7 ex_scripts = (Ok (), ex_scripts)
  ∧ DeleteScript ex_delete_error 2 7 ex_scripts
    = (Err (ErrPg {| DB.Code := "23503"; DB.ConstraintName := "filters_script_id_fkey" |}),
       ex_scripts).
Proof.
  cbv zeta.
  destruct (DeleteScript_removes_only_target ex_delete_error 1 7 ex_scripts)
    as (_ & Hgone & Hrest & _).
  split; [exact Hgone|]. split; [by apply Hrest|]. split; [by vm_compute|].
  split; [by vm_compute|].
  exact (DeleteScript_removes_only_target ex_delete_error 2 7 ex_scripts).
Defined.

End Sieve.

(** * The pre-lookup cache (src/server/proxy/prelookup_cache.go) *)

Module PrelookupCache.

(** [AuthResult] is declared elsewhere in package proxy; these are the
    values the cache and its tests name. *)
Inductive AuthResult := AuthUserNotFound | AuthSuccess | AuthFailed.

#[global] Instance AuthResult_eq_dec : EqDecision AuthResult.
Proof. solve_decision. Defined.

(** Instants and durations in nanoseconds. *)
Definition Time := Z.
Definition Duration := Z.
Definition zero_time : Time := -62135596800 * 10 ^ 9.

Section cache.

(** [UserRoutingInfo], declared elsewhere in package proxy; the cache holds
    pointers to it ([None] is nil). *)
Variable UserRoutingInfo : Type.

Record cacheEntry := {
  info : option UserRoutingInfo;
  authResult : AuthResult;
  expiresAt : Time;
  isNegative : bool }.

(** The fields of [prelookupCache] that Get, Set and cleanup use; the mutex
    and the cleanup goroutine's channels are left out.  [hits] and [misses]
    are uint64 counters. *)
Record prelookupCache := {
  entries : gmap string cacheEntry;
  positiveTTL : Duration;
  negativeTTL : Duration;
  maxSize : Z;
  hits : Z;
  misses : Z }.

(** Go ranges over a map in an unspecified order: [range] is any enumeration
    of the map's entries. *)
Variable range : gmap string cacheEntry → list (string * cacheEntry).
Hypothesis range_perm : ∀ m, range m ≡ₚ map_to_list m.

Definition newPrelookupCache (positiveTTL negativeTTL : Duration) (maxSize : Z)
    : prelookupCache :=
  let maxSize := if bool_decide (maxSize ≤ 0) then 10000 else maxSize in
  {| entries := ∅; positiveTTL := positiveTTL; negativeTTL := negativeTTL;
     maxSize := maxSize; hits := 0; misses := 0 |}.

Definition uint64_incr (x : Z) : Z := (x + 1) mod 2 ^ 64.

Definition with_entries (es : gmap string cacheEntry) (c : prelookupCache) : prelookupCache :=
  {| entries := es; positiveTTL := positiveTTL c; negativeTTL := negativeTTL c;
     maxSize := maxSize c; hits := hits c; misses := misses c |}.

Definition miss (c : prelookupCache) : prelookupCache :=
  {| entries := entries c; positiveTTL := positiveTTL c; negativeTTL := negativeTTL c;
     maxSize := maxSize c; hits := hits c; misses := uint64_incr (misses c) |}.

Definition hit (c : prelookupCache) : prelookupCache :=
  {| entries := entries c; positiveTTL := positiveTTL c; negativeTTL := negativeTTL c;
     maxSize := maxSize c; hits := uint64_incr (hits c); misses := misses c |}.

(** Lines 60-78.  [None] is the result [(nil, 0, false)]. *)
Definition Get (c : prelookupCache) (key : string) (now : Time)
    : option (option UserRoutingInfo * AuthResult) * prelookupCache :=
  match entries c !! key with
  | None => (None, miss c)
  | Some entry =>
      if bool_decide (expiresAt entry < now) then (None, miss c)
      else (Some (info entry, authResult entry), hit c)
  end.

(** Lines 114-124: the loop of evictOldest. *)
Fixpoint oldest (order : list (string * cacheEntry)) (oldestKey : string)
    (oldestTime : Time) (first : bool) : string * Time * bool :=
  match order with
  | [] => (oldestKey, oldestTime, first)
  | (key, entry) :: order =>
      if first || bool_decide (expiresAt entry < oldestTime)
      then oldest order key (expiresAt entry) false
      else oldest order oldestKey oldestTime first
  end.

(** Lines 109-129. *)
Definition evictOldest (c : prelookupCache) : prelookupCache :=
  if bool_decide (size (entries c) = 0%nat) then c else
  let '(oldestKey, _, _) := oldest (range (entries c)) "" zero_time true in
  if bool_decide (oldestKey ≠ "") then with_entries (delete oldestKey (entries c)) c
  else c.

(** Lines 81-105. *)
Definition Set_ (c : prelookupCache) (key : string) (info : option UserRoutingInfo)
    (authResult : AuthResult) (now : Time) : prelookupCache :=
  let c := if bool_decide (maxSize c ≤ Z.of_nat (size (entries c)))
           then evictOldest c else c in
  let isNegative := bool_decide (authResult = AuthUserNotFound ∨ authResult = AuthFailed) in
  let ttl := if isNegative then negativeTTL c else positiveTTL c in
  with_entries
    (<[key := {| info := info; authResult := authResult;
                 expiresAt := now + ttl; isNegative := isNegative |}]> (entries c)) c.

(** Lines 149-166. *)
Definition cleanup (c : prelookupCache) (now : Time) : prelookupCache :=
  with_entries (filter (λ kv, ¬ expiresAt kv.2 < now) (entries c)) c.

(** ** A history of calls, and what least-recently-used would mean *)

Inductive call :=
| CallSet (key : string) (info : option UserRoutingInfo) (authResult : AuthResult) (now : Time)
| CallGet (key : string) (now : Time).

Definition step (c : prelookupCache) (o : call) : prelookupCache :=
  match o with
  | CallSet key info authResult now => Set_ c key info authResult now
  | CallGet key now => (Get c key now).2
  end.

Definition run (c : prelookupCache) (history : list call) : prelookupCache :=
  foldl step c history.

Definition call_key (o : call) : string :=
  match o with CallSet key _ _ _ => key | CallGet key _ => key end.

Definition call_time (o : call) : Time :=
  match o with CallSet _ _ _ now => now | CallGet _ now => now end.

(** The time [key] was last stored or looked up. *)
Definition last_used (history : list call) (key : string) : option Time :=
  call_time <$> last (filter (λ o, call_key o = key) history).

(** Following the spec's words: [k] is a least-recently-used key of [c]
    after [history] when no cached key was last used before it. *)
Definition least_recently_used (history : list call) (c : prelookupCache) (k : string) : Prop :=
  is_Some (entries c !! k)
  ∧ Forall (λ k', match last_used history k, last_used history k' with
                  | Some t, Some t' => t ≤ t'
                  | _, _ => True
                  end) (map_to_list (entries c)).*1.

(** ** Properties *)

Lemma oldest_false order : ∀ k0 t0,
  ∃ k t, oldest order k0 t0 false = (k, t, false)
    ∧ t ≤ t0
    ∧ (∀ k' e', (k', e') ∈ order → t ≤ expiresAt e')
    ∧ ((k, t) = (k0, t0) ∨ ∃ e, (k, e) ∈ order ∧ expiresAt e = t).
Proof.
  induction order as [|[k1 e1] order IH]; intros k0 t0; simpl.
  - exists k0, t0. split; [done|]. split; [lia|]. split; [|by left].
    intros k' e' Hin. by apply elem_of_nil in Hin.
  - case_bool_decide as Hlt.
    + destruct (IH k1 (expiresAt e1)) as (k & t & -> & Hle & Hmin & Hwho).
      exists k, t. split; [done|]. split; [lia|]. split.
      * intros k' e' [?|?]%elem_of_cons; [by simplify_eq|by eapply Hmin].
      * right. destruct Hwho as [?|(e & ? & ?)].
        -- simplify_eq. exists e1. split; [left|done].
        -- exists e. split; [by right|done].
    + destruct (IH k0 t0) as (k & t & -> & Hle & Hmin & Hwho).
      exists k, t. split; [done|]. split; [done|]. split.
      * intros k' e' [?|?]%elem_of_cons; [simplify_eq; lia|by eapply Hmin].
      * destruct Hwho as [?|(e & ? & ?)]; [by left|].
        right. exists e. split; [by right|done].
Qed.

Lemma oldest_first k1 e1 order k0 t0 :
  ∃ k e, oldest ((k1, e1) :: order) k0 t0 true = (k, expiresAt e, false)
    ∧ (k, e) ∈ (k1, e1) :: order
    ∧ ∀ k' e', (k', e') ∈ (k1, e1) :: order → expiresAt e ≤ expiresAt e'.
Proof.
  simpl. destruct (oldest_false order k1 (expiresAt e1)) as (k & t & -> & Hle & Hmin & Hwho).
  destruct Hwho as [?|(e & Hin & <-)].
  - simplify_eq. exists k1, e1. split; [done|]. split; [left|].
    intros k' e' [?|?]%elem_of_cons; [by simplify_eq|by eapply Hmin].
  - exists k, e. split; [done|]. split; [by right|].
    intros k' e' [?|?]%elem_of_cons; [by simplify_eq|by eapply Hmin].
Qed.

(** evictOldest picks an entry whose expiry time is the earliest, and removes
    it unless its key is the empty string. *)
Lemma evictOldest_spec c :
  entries c ≠ ∅ →
  ∃ k e, entries c !! k = Some e
    ∧ (∀ k' e', entries c !! k' = Some e' → expiresAt e ≤ expiresAt e')
    ∧ evictOldest c
      = if bool_decide (k ≠ "") then with_entries (delete k (entries c)) c else c.
Proof using range_perm.
  intros Hne. unfold evictOldest.
  rewrite bool_decide_false by (by rewrite map_size_empty_iff).
  destruct (range (entries c)) as [|[k1 e1] order] eqn:Hrange.
  { pose proof (range_perm (entries c)) as Hp. rewrite Hrange in Hp.
    symmetry in Hp. apply Permutation_nil_r in Hp.
    by apply map_to_list_empty_iff in Hp. }
  destruct (oldest_first k1 e1 order "" zero_time) as (k & e & -> & Hin & Hmin).
  rewrite <-Hrange in Hin, Hmin.
  exists k, e. split; [|split; [|done]].
  - apply elem_of_map_to_list. by rewrite <-range_perm.
  - intros k' e' Hk'. eapply Hmin. rewrite range_perm. by apply elem_of_map_to_list.
Qed.

Lemma Get_Some c key now v :
  (Get c key now).1 = Some v →
  ∃ e, entries c !! key = Some e ∧ now ≤ expiresAt e ∧ v = (info e, authResult e).
Proof.
  unfold Get. destruct (entries c !! key) as [e|]; [|done].
  case_bool_decide; [done|]. simpl. intros ?; simplify_eq.
  exists e. split; [done|]. split; [lia|done].
Qed.

Lemma evictOldest_ttl c :
  positiveTTL (evictOldest c) = positiveTTL c
  ∧ negativeTTL (evictOldest c) = negativeTTL c
  ∧ maxSize (evictOldest c) = maxSize c.
Proof.
  unfold evictOldest. case_bool_decide; [done|].
  destruct (oldest _ _ _ _) as [[k t] f]. case_bool_decide; done.
Qed.

(** The entry Set stores: negative results (user not found, failed) live
    for negativeTTL, the others for positiveTTL. *)
Definition stored_entry (c : prelookupCache) (info : option UserRoutingInfo)
    (authResult : AuthResult) (now : Time) : cacheEntry :=
  let isNegative := bool_decide (authResult = AuthUserNotFound ∨ authResult = AuthFailed) in
  {| info := info; authResult := authResult;
     expiresAt := now + (if isNegative then negativeTTL c else positiveTTL c);
     isNegative := isNegative |}.

Lemma Set_entries c key info authResult now :
  entries (Set_ c key info authResult now)
  = <[key := stored_entry c info authResult now]>
      (entries (if bool_decide (maxSize c ≤ Z.of_nat (size (entries c)))
                then evictOldest c else c)).
Proof.
  unfold Set_, stored_entry. cbv zeta. cbn [entries with_entries].
  destruct (bool_decide (maxSize c ≤ _)); [|done].
  destruct (evictOldest_ttl c) as (-> & -> & _). done.
Qed.

(** C8 (amended).  Set stores a negative result (UserNotFound or Failed)
    with expiry now + negativeTTL and any other result with expiry
    now + positiveTTL; Get returns the stored entry up to its expiry time and
    nothing after it, and never returns an entry whose expiry time has
    passed; below maxSize, Set only adds the entry; at maxSize (or above),
    Set first removes one entry whose expiry time is the earliest in the
    cache, whenever it was last used, and then stores the new one. *)
Theorem Set_expiry_and_eviction c key routing result now :
  let c' := Set_ c key routing result now in
  let stored := stored_entry c routing result now in
  expiresAt stored
    = now + (if bool_decide (result = AuthUserNotFound ∨ result = AuthFailed)
             then negativeTTL c else positiveTTL c)
  ∧ entries c' !! key = Some stored
  ∧ (∀ t, (Get c' key t).1
          = if bool_decide (t ≤ expiresAt stored) then Some (routing, result) else None)
  ∧ (∀ c0 k t v, (Get c0 k t).1 = Some v →
       ∃ e, entries c0 !! k = Some e ∧ t ≤ expiresAt e ∧ v = (info e, authResult e))
  ∧ (Z.of_nat (size (entries c)) < maxSize c → entries c' = <[key := stored]> (entries c))
  ∧ (maxSize c ≤ Z.of_nat (size (entries c)) → entries c ≠ ∅ → entries c !! "" = None →
       ∃ k e, entries c !! k = Some e
         ∧ (∀ k' e', entries c !! k' = Some e' → expiresAt e ≤ expiresAt e')
         ∧ entries c' = <[key := stored]> (delete k (entries c))).
Proof using range_perm.
  intros c' stored. subst c' stored.
  split; [done|]. split; [|split; [|split; [|split]]].
  - by rewrite Set_entries, lookup_insert_eq.
  - intros t. unfold Get. rewrite Set_entries, lookup_insert_eq.
    destruct (decide (t ≤ expiresAt (stored_entry c routing result now))).
    + rewrite bool_decide_false by lia. by rewrite bool_decide_true.
    + rewrite bool_decide_true by lia. by rewrite bool_decide_false.
  - intros c0 k t v. apply Get_Some.
  - intros Hlt. rewrite Set_entries. by rewrite bool_decide_false by lia.
  - intros Hfull Hne Hempty. rewrite Set_entries, bool_decide_true by done.
    destruct (evictOldest_spec c Hne) as (k & e & Hk & Hmin & ->).
    exists k, e. split; [done|]. split; [done|].
    rewrite bool_decide_true; [done|]. intros ->. congruence.
Qed.

(** ** cleanup, the counters and the size of the cache *)

(** Lines 182-187. *)
Definition GetStats (c : prelookupCache) : Z * Z * nat :=
  (hits c, misses c, size (entries c)).

(** X15.  cleanup removes the entries whose expiry time has passed and no
    other, and nothing that a later Get could have returned: at any time
    from the cleanup on, Get answers for every key as it would have without
    the cleanup.  The counters and the settings are not touched and the
    cache does not grow. *)
Theorem cleanup_keeps_live_entries c now :
  (∀ k e, entries (cleanup c now) !! k = Some e ↔
          entries c !! k = Some e ∧ now ≤ expiresAt e)
  ∧ (∀ key t, now ≤ t → (Get (cleanup c now) key t).1 = (Get c key t).1)
  ∧ (GetStats (cleanup c now)).1 = (GetStats c).1
  ∧ ((GetStats (cleanup c now)).2 ≤ (GetStats c).2)%nat
  ∧ positiveTTL (cleanup c now) = positiveTTL c
  ∧ negativeTTL (cleanup c now) = negativeTTL c
  ∧ maxSize (cleanup c now) = maxSize c.
Proof.
  assert (∀ k e, entries (cleanup c now) !! k = Some e ↔
                 entries c !! k = Some e ∧ now ≤ expiresAt e) as Hlook.
  { intros k e. unfold cleanup. cbn [entries with_entries].
    rewrite map_lookup_filter_Some. cbn. split; intros [? ?]; (split; [done|lia]). }
  split; [done|]. split; [|split; [done|split; [|done]]].
  - intros key t Ht. unfold Get.
    destruct (entries c !! key) as [e|] eqn:He.
    + destruct (decide (now ≤ expiresAt e)) as [Hlive|Hdead].
      * rewrite (proj2 (Hlook key e) (conj He Hlive)). by case_bool_decide.
      * rewrite bool_decide_eq_true_2 by lia.
        destruct (entries (cleanup c now) !! key) as [e'|] eqn:He'; [|done].
        apply Hlook in He' as [He' ?]. simplify_eq; lia.
    + destruct (entries (cleanup c now) !! key) as [e'|] eqn:He'; [|done].
      apply Hlook in He' as [He' ?]. simplify_eq; lia.
  - unfold GetStats, cleanup. cbn [snd entries with_entries].
    apply map_subseteq_size, map_filter_subseteq.
Qed.

Definition is_lookup (o : call) : bool :=
  match o with CallGet _ _ => true | CallSet _ _ _ _ => false end.

(** The number of lookups in a history. *)
Definition lookups (history : list call) : nat :=
  length (filter (λ o, is_lookup o) history).

Lemma Get_counts c key now :
  match (Get c key now).1 with
  | Some _ => hits (Get c key now).2 = uint64_incr (hits c)
              ∧ misses (Get c key now).2 = misses c
  | None => hits (Get c key now).2 = hits c
            ∧ misses (Get c key now).2 = uint64_incr (misses c)
  end
  ∧ entries (Get c key now).2 = entries c.
Proof.
  unfold Get. destruct (entries c !! key) as [e|]; [|done].
  by case_bool_decide.
Qed.

Lemma Set_counts c key routing result now :
  hits (Set_ c key routing result now) = hits c
  ∧ misses (Set_ c key routing result now) = misses c.
Proof.
  unfold Set_. cbv zeta. cbn [hits misses with_entries].
  destruct (bool_decide (maxSize c ≤ _)); [|done].
  unfold evictOldest. case_bool_decide; [done|].
  destruct (oldest _ _ _ _) as [[k t] f]. by case_bool_decide.
Qed.

(** Calls that run one after another: every Get is counted once.  A Get that
    returns an entry adds one to hits and a Get that returns nothing adds
    one to misses, Set changes neither, and so the two uint64 counters add
    up, modulo 2^64, to what they were plus the number of lookups. *)
Lemma serial_lookups_are_counted c history :
  let before := GetStats c in
  let after := GetStats (run c history) in
  (after.1.1 + after.1.2) mod 2 ^ 64
  = (before.1.1 + before.1.2 + Z.of_nat (lookups history)) mod 2 ^ 64
  ∧ ∀ key now,
      match (Get c key now).1 with
      | Some _ => hits (Get c key now).2 = uint64_incr (hits c)
                  ∧ misses (Get c key now).2 = misses c
      | None => hits (Get c key now).2 = hits c
                ∧ misses (Get c key now).2 = uint64_incr (misses c)
      end.
Proof.
  cbv zeta. split; [|intros key now; apply Get_counts].
  unfold GetStats, run. cbn [fst snd]. revert c.
  induction history as [|o history IH]; intros c; cbn [foldl].
  - unfold lookups. rewrite filter_nil. cbn [length]. by rewrite Z.add_0_r.
  - rewrite IH. unfold lookups. rewrite filter_cons.
    destruct o as [key routing result now|key now]; cbn [step].
    + rewrite decide_False by (by intros ?).
      by destruct (Set_counts c key routing result now) as [-> ->].
    + rewrite decide_True by done. cbn [length].
      destruct (Get_counts c key now) as [Hc _].
      rewrite Nat2Z.inj_succ.
      generalize (Z.of_nat (length (filter (λ o, is_lookup o) history))). intros n.
      destruct (Get c key now).1; destruct Hc as [-> ->]; unfold uint64_incr.
      * replace ((hits c + 1) `mod` 2 ^ 64 + misses c + n)
          with ((hits c + 1) `mod` 2 ^ 64 + (misses c + n)) by lia.
        rewrite Zplus_mod_idemp_l. f_equal. lia.
      * replace (hits c + (misses c + 1) `mod` 2 ^ 64 + n)
          with ((misses c + 1) `mod` 2 ^ 64 + (hits c + n)) by lia.
        rewrite Zplus_mod_idemp_l. f_equal. lia.
Qed.

(** ** Lookups that overlap

    Get holds the read lock only, so lookups run at the same time, and its
    [c.hits++] and [c.misses++] are not atomic: each is a read of the
    counter followed by a write of the value read plus one, and the reads
    and writes of other lookups may come between the two.  Set and cleanup
    hold the write lock: they run when no lookup is in progress. *)

Inductive counter := Hits | Misses.

(** A lookup in progress: the counter that it is about to increment, and the
    value that it has read from it, once it has. *)
Record reader := {
  r_counter : counter;
  r_read : option Z }.

Record shared := {
  cache : prelookupCache;
  readers : gmap nat reader }.

(** The steps of the goroutines: lookup [g] takes the read lock, looks the
    key up and tests the expiry (lines 61-73); it reads the counter; it
    writes the counter and returns, releasing the lock; a whole Set; a whole
    cleanup. *)
Inductive event :=
| GetLookup (g : nat) (key : string) (now : Time)
| GetLoad (g : nat)
| GetStore (g : nat)
| SetCall (key : string) (info : option UserRoutingInfo) (authResult : AuthResult)
    (now : Time)
| CleanupCall (now : Time).

Definition load (k : counter) (c : prelookupCache) : Z :=
  match k with Hits => hits c | Misses => misses c end.

Definition store (k : counter) (v : Z) (c : prelookupCache) : prelookupCache :=
  match k with
  | Hits => {| entries := entries c; positiveTTL := positiveTTL c;
               negativeTTL := negativeTTL c; maxSize := maxSize c;
               hits := v; misses := misses c |}
  | Misses => {| entries := entries c; positiveTTL := positiveTTL c;
                 negativeTTL := negativeTTL c; maxSize := maxSize c;
                 hits := hits c; misses := v |}
  end.

(** One step; [None] when the step cannot be taken in this state (the
    goroutine is elsewhere in its Get, or the lock is held). *)
Definition cstep (s : shared) (e : event) : option shared :=
  match e with
  | GetLookup g key now =>
      match readers s !! g with
      | Some _ => None
      | None =>
          let k := match (Get (cache s) key now).1 with Some _ => Hits | None => Misses end in
          Some {| cache := cache s;
                  readers := <[g := {| r_counter := k; r_read := None |}]> (readers s) |}
      end
  | GetLoad g =>
      match readers s !! g with
      | Some {| r_counter := k; r_read := None |} =>
          Some {| cache := cache s;
                  readers := <[g := {| r_counter := k; r_read := Some (load k (cache s)) |}]>
                               (readers s) |}
      | _ => None
      end
  | GetStore g =>
      match readers s !! g with
      | Some {| r_counter := k; r_read := Some v |} =>
          Some {| cache := store k ((v + 1) mod 2 ^ 64) (cache s);
                  readers := delete g (readers s) |}
      | _ => None
      end
  | SetCall key info authResult now =>
      if bool_decide (readers s = ∅)
      then Some {| cache := Set_ (cache s) key info authResult now; readers := ∅ |}
      else None
  | CleanupCall now =>
      if bool_decide (readers s = ∅)
      then Some {| cache := cleanup (cache s) now; readers := ∅ |}
      else None
  end.

Fixpoint crun (s : shared) (es : list event) : option shared :=
  match es with
  | [] => Some s
  | e :: es => s' ← cstep s e; crun s' es
  end.

(** The lookups that a schedule completes. *)
Definition is_store (e : event) : bool :=
  match e with GetStore _ => true | _ => false end.

Definition completed (es : list event) : nat := length (filter (λ e, is_store e) es).

(** The schedule of calls that do not overlap. *)
Definition serial (history : list call) : list event :=
  o ← history;
  match o with
  | CallGet key now => [GetLookup 0 key now; GetLoad 0; GetStore 0]
  | CallSet key info authResult now => [SetCall key info authResult now]
  end.

Lemma store_load k c : store k ((load k c + 1) mod 2 ^ 64) c
                       = match k with Hits => hit c | Misses => miss c end.
Proof. by destruct k. Qed.

Lemma crun_app s es1 es2 :
  crun s (es1 ++ es2) = s' ← crun s es1; crun s' es2.
Proof.
  revert s. induction es1 as [|e es1 IH]; intros s; [done|].
  cbn [app crun]. destruct (cstep s e) as [s1|]; [|done]. apply IH.
Qed.

Lemma crun_serial history : ∀ c,
  crun {| cache := c; readers := ∅ |} (serial history)
  = Some {| cache := run c history; readers := ∅ |}.
Proof.
  unfold serial, run.
  induction history as [|o history IH]; intros c; [done|].
  rewrite bind_cons, crun_app. cbn [foldl].
  destruct o as [key routing result now|key now]; cbn [crun cstep step cache readers].
  - rewrite bool_decide_eq_true_2 by done. cbn [mbind option_bind]. apply IH.
  - rewrite lookup_empty. cbn [mbind option_bind readers cache].
    rewrite lookup_insert_eq. cbn [mbind option_bind readers cache].
    rewrite lookup_insert_eq. cbn [mbind option_bind readers cache].
    rewrite store_load, insert_insert_eq, delete_insert_eq, delete_empty.
    rewrite <-IH. do 2 f_equal.
    unfold Get. destruct (entries c !! key) as [e|]; [|done]. by case_bool_decide.
Qed.

(** What holds of the counters while lookups overlap, [h0] and [m0] being
    the counters at the start and [nh] and [nm] bounds on the stores so far
    to either counter: a counter, and a value read from it, lies between the
    start value and the start value plus the number of stores. *)
Definition counted (h0 m0 : Z) (nh nm : nat) (s : shared) : Prop :=
  h0 ≤ hits (cache s) ≤ h0 + Z.of_nat nh
  ∧ m0 ≤ misses (cache s) ≤ m0 + Z.of_nat nm
  ∧ ∀ g k v, readers s !! g = Some {| r_counter := k; r_read := Some v |} →
      match k with
      | Hits => h0 ≤ v ≤ h0 + Z.of_nat nh
      | Misses => m0 ≤ v ≤ m0 + Z.of_nat nm
      end.

Lemma cstep_counted h0 m0 nh nm s e s' :
  counted h0 m0 nh nm s →
  0 ≤ h0 → 0 ≤ m0 →
  h0 + m0 + Z.of_nat (nh + nm) + (if is_store e then 1 else 0) < 2 ^ 64 →
  cstep s e = Some s' →
  ∃ nh' nm', counted h0 m0 nh' nm' s'
    ∧ (nh' + nm' = nh + nm + (if is_store e then 1 else 0))%nat
    ∧ (nh ≤ nh')%nat ∧ (nm ≤ nm')%nat.
Proof.
  intros (Hh & Hm & Hr) Hh0 Hm0 Hbound Hstep.
  destruct e as [g key now|g|g|key routing result now|now];
    cbn [cstep is_store] in Hstep, Hbound |- *.
  - destruct (readers s !! g) eqn:Hg; [done|]. simplify_eq.
    exists nh, nm. split; [|lia]. split; [done|]. split; [done|].
    cbn [readers]. intros g' k v Hg'.
    destruct (decide (g' = g)) as [->|Hne].
    + by rewrite lookup_insert_eq in Hg'.
    + rewrite lookup_insert_ne in Hg' by done. by eapply Hr.
  - destruct (readers s !! g) as [[k [v|]]|] eqn:Hg; [done| |done]. simplify_eq.
    exists nh, nm. split; [|lia]. split; [done|]. split; [done|].
    cbn [readers cache]. intros g' k' v' Hg'.
    destruct (decide (g' = g)) as [->|Hne].
    + rewrite lookup_insert_eq in Hg'. simplify_eq. by destruct k'.
    + rewrite lookup_insert_ne in Hg' by done. by eapply Hr.
  - destruct (readers s !! g) as [[k [v|]]|] eqn:Hg; [|done|done]. simplify_eq.
    pose proof (Hr g k v Hg) as Hv.
    assert (∀ g' k' v', delete g (readers s) !! g' = Some {| r_counter := k'; r_read := Some v' |} →
              readers s !! g' = Some {| r_counter := k'; r_read := Some v' |}) as Hdel.
    { intros g' k' v' Hg'. by apply lookup_delete_Some in Hg' as [_ ?]. }
    destruct k.
    + exists (S nh), nm. split; [|lia].
      rewrite Z.mod_small by lia.
      split; [cbn; lia|]. split; [cbn; lia|].
      cbn [readers]. intros g' k' v' Hg'. apply Hdel in Hg'.
      specialize (Hr g' k' v' Hg'). destruct k'; lia.
    + exists nh, (S nm). split; [|lia].
      rewrite Z.mod_small by lia.
      split; [cbn; lia|]. split; [cbn; lia|].
      cbn [readers]. intros g' k' v' Hg'. apply Hdel in Hg'.
      specialize (Hr g' k' v' Hg'). destruct k'; lia.
  - case_bool_decide as Hnone; [|done]. simplify_eq.
    exists nh, nm. split; [|lia]. unfold counted. cbn [cache readers].
    destruct (Set_counts (cache s) key routing result now) as [-> ->].
    split; [done|]. split; [done|]. intros g k v Hg. by rewrite lookup_empty in Hg.
  - case_bool_decide as Hnone; [|done]. simplify_eq.
    exists nh, nm. split; [|lia]. unfold counted, cleanup.
    cbn [cache readers hits misses with_entries].
    split; [done|]. split; [done|]. intros g k v Hg. by rewrite lookup_empty in Hg.
Qed.

Lemma crun_counted h0 m0 es : ∀ nh nm s s',
  counted h0 m0 nh nm s →
  0 ≤ h0 → 0 ≤ m0 →
  h0 + m0 + Z.of_nat (nh + nm) + Z.of_nat (completed es) < 2 ^ 64 →
  crun s es = Some s' →
  ∃ nh' nm', counted h0 m0 nh' nm' s' ∧ (nh' + nm' = nh + nm + completed es)%nat
    ∧ (nh ≤ nh')%nat ∧ (nm ≤ nm')%nat.
Proof.
  induction es as [|e es IH]; intros nh nm s s' Hinv Hh0 Hm0 Hbound Hrun.
  - cbn in Hrun. simplify_eq. exists nh, nm. split; [done|]. unfold completed. cbn. lia.
  - cbn [crun] in Hrun. destruct (cstep s e) as [s1|] eqn:Hstep; [|done].
    cbn [mbind option_bind] in Hrun.
    assert (completed (e :: es) = ((if is_store e then 1 else 0) + completed es)%nat) as Hc.
    { unfold completed. rewrite filter_cons. by destruct (is_store e). }
    rewrite Hc in Hbound |- *.
    destruct (cstep_counted h0 m0 nh nm s e s1 Hinv Hh0 Hm0)
      as (nh1 & nm1 & Hinv1 & Hn1 & Hh1 & Hm1); [destruct (is_store e); lia|done|].
    destruct (IH nh1 nm1 s1 s' Hinv1 Hh0 Hm0) as (nh2 & nm2 & Hinv2 & Hn2 & Hh2 & Hm2);
      [lia|done|].
    exists nh2, nm2. split; [done|]. lia.
Qed.

(** X16.  Lookups may overlap, and the increments of hits and misses are
    not atomic.  In every schedule of lookups, stores and cleanups (short of
    what would wrap the uint64 counters) neither counter that GetStats
    reports falls below its start value, and the two together exceed their
    start values by at most the number of lookups completed; lookups that
    overlap may lose counts.  This holds also when steps of lookups come
    between the read of hits and the read of misses by GetStats (line
    186).  When the calls do not overlap, the schedule is the history run
    call after call, and then every lookup is counted: the counters add up,
    modulo 2^64, to their start values plus the number of lookups. *)
Theorem GetStats_counts_lookups c es s :
  0 ≤ hits c → 0 ≤ misses c →
  hits c + misses c + Z.of_nat (completed es) < 2 ^ 64 →
  crun {| cache := c; readers := ∅ |} es = Some s →
  let before := GetStats c in
  let after := GetStats (cache s) in
  before.1.1 ≤ after.1.1 ∧ before.1.2 ≤ after.1.2
  ∧ after.1.1 + after.1.2 ≤ before.1.1 + before.1.2 + Z.of_nat (completed es)
  ∧ (∀ es1 es2 s1,
       es = es1 ++ es2 → crun {| cache := c; readers := ∅ |} es1 = Some s1 →
       before.1.1 ≤ hits (cache s1)
       ∧ hits (cache s1) + after.1.2 ≤ before.1.1 + before.1.2 + Z.of_nat (completed es))
  ∧ ∀ history,
      crun {| cache := c; readers := ∅ |} (serial history)
      = Some {| cache := run c history; readers := ∅ |}
      ∧ ((GetStats (run c history)).1.1 + (GetStats (run c history)).1.2) mod 2 ^ 64
        = (before.1.1 + before.1.2 + Z.of_nat (lookups history)) mod 2 ^ 64.
Proof.
  intros Hh0 Hm0 Hbound Hrun. cbv zeta. unfold GetStats. cbn [fst snd].
  assert (counted (hits c) (misses c) 0 0 {| cache := c; readers := ∅ |}) as Hstart.
  { unfold counted. cbn [cache readers].
    split; [lia|]. split; [lia|]. intros g k v Hg. by rewrite lookup_empty in Hg. }
  destruct (crun_counted (hits c) (misses c) es 0 0 {| cache := c; readers := ∅ |} s)
    as (nh & nm & (Hh & Hm & _) & Hn & _); [done..|cbn; lia|done|].
  split; [lia|]. split; [lia|]. split; [lia|]. split.
  { intros es1 es2 s1 -> Hrun1.
    assert (completed (es1 ++ es2) = (completed es1 + completed es2)%nat) as Hc.
    { unfold completed. by rewrite filter_app, length_app. }
    rewrite Hc in Hbound |- *.
    rewrite crun_app, Hrun1 in Hrun. cbn [mbind option_bind] in Hrun.
    destruct (crun_counted (hits c) (misses c) es1 0 0 _ s1 Hstart)
      as (nh1 & nm1 & Hinv1 & Hn1 & _); [done..|cbn; lia|done|].
    destruct (crun_counted (hits c) (misses c) es2 nh1 nm1 s1 s Hinv1)
      as (nh2 & nm2 & (_ & Hm2 & _) & Hn2 & Hh12 & _); [done..|lia|done|].
    destruct Hinv1 as (Hh1 & _). lia. }
  intros history. split; [apply crun_serial|].
  apply (serial_lookups_are_counted c history).
Qed.

(** The keys that a history stores under. *)
Definition stores_no_empty_key (history : list call) : Prop :=
  Forall (λ o, match o with CallSet key _ _ _ => key ≠ "" | CallGet _ _ => True end) history.

Lemma Set_size c key routing result now :
  0 < maxSize c → Z.of_nat (size (entries c)) ≤ maxSize c →
  entries c !! "" = None → key ≠ "" →
  let c' := Set_ c key routing result now in
  maxSize c' = maxSize c
  ∧ Z.of_nat (size (entries c')) ≤ maxSize c
  ∧ entries c' !! "" = None.
Proof using range_perm.
  intros Hpos Hsize Hempty Hkey. cbv zeta.
  split.
  { unfold Set_. cbv zeta. cbn [maxSize with_entries].
    destruct (bool_decide (maxSize c ≤ _)); [|done]. apply evictOldest_ttl. }
  rewrite Set_entries. case_bool_decide as Hfull.
  - assert (entries c ≠ ∅) as Hne.
    { intros Heq. rewrite Heq, map_size_empty in Hfull. lia. }
    destruct (evictOldest_spec c Hne) as (k & e & Hk & _ & ->).
    rewrite bool_decide_eq_true_2 by (intros ->; congruence).
    cbn [entries with_entries]. split.
    + pose proof (map_size_insert key (stored_entry c routing result now)
                    (delete k (entries c))) as Hins.
      pose proof (map_size_delete k (entries c)) as Hdel. rewrite Hk in Hdel.
      destruct (delete k (entries c) !! key); cbn in Hins, Hdel; lia.
    + rewrite lookup_insert_ne by done.
      destruct (decide (k = "")) as [->|Hne']; [by rewrite lookup_delete_eq|].
      by rewrite lookup_delete_ne.
  - split.
    + pose proof (map_size_insert key (stored_entry c routing result now) (entries c)) as Hins.
      destruct (entries c !! key); cbn in Hins; lia.
    + by rewrite lookup_insert_ne.
Qed.

(** X17.  A cache made by newPrelookupCache has a positive maxSize (10000
    when the given one is not positive), and as long as nothing is stored
    under the empty key it never holds more than maxSize entries, whatever
    the calls are. *)
Theorem cache_size_is_bounded ttlPositive ttlNegative size0 history :
  stores_no_empty_key history →
  let c := run (newPrelookupCache ttlPositive ttlNegative size0) history in
  maxSize c = (if bool_decide (size0 ≤ 0) then 10000 else size0)
  ∧ 0 < maxSize c
  ∧ Z.of_nat (size (entries c)) ≤ maxSize c.
Proof using range_perm.
  intros Hkeys. cbv zeta.
  assert (∀ c, 0 < maxSize c → Z.of_nat (size (entries c)) ≤ maxSize c →
               entries c !! "" = None →
               maxSize (run c history) = maxSize c
               ∧ Z.of_nat (size (entries (run c history))) ≤ maxSize c) as Hinv.
  { unfold run. induction Hkeys as [|o history Ho Hkeys IH]; intros c Hpos Hsize Hempty;
      cbn [foldl]; [done|].
    destruct o as [key routing result now|key now]; cbn [step].
    - destruct (Set_size c key routing result now Hpos Hsize Hempty Ho) as (Hm & Hs & He).
      destruct (IH (Set_ c key routing result now)) as [H1 H2];
        [by rewrite Hm|by rewrite Hm|done|].
      by rewrite Hm in H1, H2.
    - destruct (Get_counts c key now) as [_ Hent].
      assert (maxSize (Get c key now).2 = maxSize c) as Hm.
      { unfold Get. destruct (entries c !! key); [|done]. by case_bool_decide. }
      destruct (IH (Get c key now).2) as [H1 H2];
        [by rewrite Hm|by rewrite Hm, Hent|by rewrite Hent|].
      by rewrite Hm in H1, H2. }
  set (c0 := newPrelookupCache ttlPositive ttlNegative size0).
  assert (maxSize c0 = (if bool_decide (size0 ≤ 0) then 10000 else size0)) as Hm0 by done.
  assert (0 < maxSize c0) as Hpos by (rewrite Hm0; case_bool_decide; lia).
  destruct (Hinv c0) as [Hm Hs]; [done| |done|].
  { cbn [entries c0 newPrelookupCache]. rewrite map_size_empty. lia. }
  rewrite Hm. split; [done|]. split; [done|]. done.
Qed.

End cache.

(** ** Examples *)

(** A cache of two entries: "old" is stored at time 0 as a positive result
    (TTL 100), "new" at time 1 as a negative one (TTL 10) and looked up at
    time 2. *)
Definition ex_history : list (call unit) :=
  [CallSet unit "old" None AuthSuccess 0;
   CallSet unit "new" None AuthUserNotFound 1;
   CallGet unit "new" 2].

Definition ex_cache : prelookupCache unit :=
  run unit map_to_list (newPrelookupCache unit 100 10 2) ex_history.

Example ex_cache_entries :
  (λ kv, (kv.1, expiresAt unit kv.2)) <$> map_to_list (entries unit ex_cache)
  ≡ₚ [("old", 100); ("new", 11)].
Proof. by vm_compute. Qed.

Example ex_Get_expired :
  (Get unit ex_cache "new" 11).1 = Some (None, AuthUserNotFound)
  ∧ (Get unit ex_cache "new" 12).1 = None.
Proof. by vm_compute. Qed.

(** C8 as stated fails: the cache is full, "old" is its least-recently-used
    entry and "new" is not, yet storing a third entry evicts "new", whose
    expiry time is the earliest, and keeps "old". *)
Lemma Set_evicts_lru_counterexample :
  Z.of_nat (size (entries unit ex_cache)) = maxSize unit ex_cache
  ∧ least_recently_used unit ex_history ex_cache "old"
  ∧ ¬ least_recently_used unit ex_history ex_cache "new"
  ∧ entries unit (Set_ unit map_to_list ex_cache "third" None AuthSuccess 3) !! "new" = None
  ∧ is_Some (entries unit (Set_ unit map_to_list ex_cache "third" None AuthSuccess 3) !! "old").
Proof.
  split; [by vm_compute|]. split; [|split; [|split]].
  - split; [vm_compute; by eexists|].
    vm_compute. repeat constructor; done.
  - intros [_ H]. rewrite Forall_forall in H. specialize (H "old").
    assert ("old" ∈ (map_to_list (entries unit ex_cache)).*1) as Hin
      by (vm_compute; repeat constructor).
    specialize (H Hin). vm_compute in H. by apply H.
  - by vm_compute.
  - vm_compute. by eexists.
Qed.

Lemma Set_expiry_and_eviction_witness :
  (∀ m : gmap string (cacheEntry unit), map_to_list m ≡ₚ map_to_list m)
  ∧ entries unit (Set_ unit map_to_list ex_cache "third" None AuthFailed 3) !! "third"
    = Some {| info := None; authResult := AuthFailed; expiresAt := 3 + 10;
              isNegative := true |}
  ∧ ∀ t, (Get unit (Set_ unit map_to_list ex_cache "third" None AuthFailed 3) "third" t).1
         = if bool_decide (t ≤ 13) then Some (None, AuthFailed) else None.
Proof.
  assert (∀ m : gmap string (cacheEntry unit), map_to_list m ≡ₚ map_to_list m) as Hperm
    by done.
  split; [done|].
  destruct (Set_expiry_and_eviction unit map_to_list Hperm ex_cache "third" None
              AuthFailed 3) as (_ & Hstored & Hget & _).
  split; [exact Hstored|exact Hget].
Defined.

Example ex_cleanup :
  (λ kv, kv.1) <$> map_to_list (entries unit (cleanup unit ex_cache 50))
  = ["old"].
Proof. by vm_compute. Qed.

(** Two lookups of a key that the cache does not hold, which overlap: both
    read misses before either writes it, and of the two lookups one is
    counted. *)
Definition ex_overlap : list (event unit) :=
  [GetLookup unit 0 "k" 1; GetLookup unit 1 "k" 1;
   GetLoad unit 0; GetLoad unit 1; GetStore unit 0; GetStore unit 1].

Lemma GetStats_counts_lookups_witness :
  let c := newPrelookupCache unit 100 10 2 in
  ∃ s, crun unit map_to_list {| cache := c; readers := ∅ |} ex_overlap = Some s
    ∧ completed unit ex_overlap = 2%nat
    ∧ GetStats unit c = (0, 0, 0%nat)
    ∧ GetStats unit (cache unit s) = (0, 1, 0%nat)
    ∧ (GetStats unit (cache unit s)).1.1 + (GetStats unit (cache unit s)).1.2
      ≤ 0 + 0 + Z.of_nat (completed unit ex_overlap).
Proof.
  cbv zeta.
  destruct (crun unit map_to_list
              {| cache := newPrelookupCache unit 100 10 2; readers := ∅ |} ex_overlap)
    as [s|] eqn:Hrun; [|by vm_compute in Hrun].
  exists s. split; [done|]. split; [by vm_compute|]. split; [by vm_compute|].
  destruct (GetStats_counts_lookups unit map_to_list (newPrelookupCache unit 100 10 2)
              ex_overlap s) as (_ & _ & Hsum & _); [by vm_compute..|exact Hrun|].
  split; [|exact Hsum].
  vm_compute in Hrun. by injection Hrun as <-.
Defined.

Lemma cache_size_is_bounded_witness :
  (∀ m : gmap string (cacheEntry unit), map_to_list m ≡ₚ map_to_list m)
  ∧ stores_no_empty_key unit ex_history
  ∧ maxSize unit ex_cache = 2
  ∧ Z.of_nat (size (entries unit ex_cache)) ≤ maxSize unit ex_cache.
Proof.
  assert (∀ m : gmap string (cacheEntry unit), map_to_list m ≡ₚ map_to_list m) as Hperm
    by done.
  assert (stores_no_empty_key unit ex_history) as Hkeys by (by repeat constructor).
  split; [done|]. split; [done|].
  destruct (cache_size_is_bounded unit map_to_list Hperm 100 10 2 ex_history Hkeys)
    as (Hm & _ & Hs).
  split; [exact Hm|exact Hs].
Defined.

End PrelookupCache.


(** * The ManageSieve session (package managesieve in
      src/server/userapi/message_list.go)

    The session runs one command at a time.  Its state is threaded through a
    state monad; the calls that leave the package (database, Sieve parser,
    authentication, TLS, base64) are parameters; metrics and logging are
    left out.  [mutexHelper.Acquire...LockWithTimeout] either acquires the
    session mutex or gives up when its timeout expires: the outcomes of the
    coming acquisitions are part of the state. *)

Module ManageSieve.

Definition dquote : string := String (Ascii.ascii_of_nat 34) EmptyString.
Definition CRLF : string :=
  String (Ascii.ascii_of_nat 13) (String (Ascii.ascii_of_nat 10) EmptyString).
Definition NUL : Ascii.ascii := Ascii.ascii_of_nat 0.

Definition quoted (s : string) : string := dquote +:+ s +:+ dquote.

(** [db.SieveScript], the fields the session reads. *)
Record SieveScript := {
  ID : Z;
  Name : string;
  Script : string;
  Active : bool }.

(** [server.User]: the address and the account id. *)
Record User := {
  FullAddress : string;
  AccountID : Z }.

Inductive lock_kind := ReadLock | WriteLock.

Inductive lock_event :=
| Acquire (kind : lock_kind) (acquired : bool)
| Release.

Record Session := {
  authenticated : bool;
  user : option User;
  isTLS : bool;
  useMasterDB : bool;
  (** what was written to the client, in order *)
  written : list string;
  (** whether each coming acquisition gets the mutex before its timeout *)
  lock_outcomes : list bool;
  (** the acquisitions and releases so far *)
  lock_events : list lock_event }.

Definition M (A : Type) : Type := Session → A * Session.

#[local] Instance M_ret : MRet M := λ A a s, (a, s).
#[local] Instance M_bind : MBind M := λ A B f m s, let '(a, s) := m s in f a s.

Definition get : M Session := λ s, (s, s).

Definition WriteString (str : string) : M unit := λ s,
  ((), {| authenticated := authenticated s; user := user s; isTLS := isTLS s;
          useMasterDB := useMasterDB s; written := written s ++ [str];
          lock_outcomes := lock_outcomes s; lock_events := lock_events s |}).

Definition log_lock (e : lock_event) (outcomes : list bool) : M unit := λ s,
  ((), {| authenticated := authenticated s; user := user s; isTLS := isTLS s;
          useMasterDB := useMasterDB s; written := written s;
          lock_outcomes := outcomes; lock_events := lock_events s ++ [e] |}).

(** [s.mutexHelper.AcquireReadLockWithTimeout()] and
    [AcquireWriteLockWithTimeout()]: [false] when the timeout expired. *)
Definition AcquireLockWithTimeout (kind : lock_kind) : M bool :=
  s ← get;
  let acquired := default true (head (lock_outcomes s)) in
  log_lock (Acquire kind acquired) (tail (lock_outcomes s));;
  mret acquired.

Definition release : M unit :=
  s ← get; log_lock Release (lock_outcomes s).

Definition set_useMasterDB (b : bool) : M unit := λ s,
  ((), {| authenticated := authenticated s; user := user s; isTLS := isTLS s;
          useMasterDB := b; written := written s;
          lock_outcomes := lock_outcomes s; lock_events := lock_events s |}).

Definition set_authenticated (u : User) : M unit := λ s,
  ((), {| authenticated := true; user := Some u; isTLS := isTLS s;
          useMasterDB := useMasterDB s; written := written s;
          lock_outcomes := lock_outcomes s; lock_events := lock_events s |}).

Definition set_isTLS : M unit := λ s,
  ((), {| authenticated := authenticated s; user := user s; isTLS := true;
          useMasterDB := useMasterDB s; written := written s;
          lock_outcomes := lock_outcomes s; lock_events := lock_events s |}).

(** Lines 1013-1028: Close forgets the user. *)
Definition clear_user : M unit := λ s,
  ((), {| authenticated := match user s with Some _ => false | None => authenticated s end;
          user := None; isTLS := isTLS s; useMasterDB := useMasterDB s;
          written := written s; lock_outcomes := lock_outcomes s;
          lock_events := lock_events s |}).

(** [s.UserID()] *)
Definition UserID (s : Session) : Z := default 0 (AccountID <$> user s).

(** Lines 191-193 and 653-656. *)
Definition sendRawLine (line : string) : M unit := WriteString (line +:+ CRLF).
Definition sendResponse (response : string) : M unit := WriteString response.

Definition server_busy : string := "NO Server busy, try again later" +:+ CRLF.

Fixpoint Join (l : list string) (sep : string) : string :=
  match l with
  | [] => ""
  | [x] => x
  | x :: l => x +:+ sep +:+ Join l sep
  end.

(** [strings.Trim(name, dquote)] *)
Fixpoint trim_left (c : Ascii.ascii) (l : list Ascii.ascii) : list Ascii.ascii :=
  match l with
  | a :: l' => if decide (a = c) then trim_left c l' else l
  | [] => []
  end.

Definition Trim (s : string) (c : Ascii.ascii) : string :=
  String.string_of_list_ascii
    (reverse (trim_left c (reverse (trim_left c (String.list_ascii_of_string s))))).

(** [strings.Split(s, sep)] for a separator of one character. *)
Fixpoint split_chars (c : Ascii.ascii) (l cur : list Ascii.ascii) : list string :=
  match l with
  | [] => [String.string_of_list_ascii (reverse cur)]
  | a :: l' =>
      if decide (a = c) then String.string_of_list_ascii (reverse cur) :: split_chars c l' []
      else split_chars c l' (a :: cur)
  end.

Definition Split (s : string) (c : Ascii.ascii) : list string :=
  split_chars c (String.list_ascii_of_string s) [].

(** [strings.HasPrefix], [strings.HasSuffix], [strings.TrimPrefix],
    [strings.TrimSuffix] on lists of characters. *)
Definition HasPrefix (s p : string) : bool :=
  bool_decide (String.list_ascii_of_string p `prefix_of` String.list_ascii_of_string s).
Definition HasSuffix (s p : string) : bool :=
  bool_decide (String.list_ascii_of_string p `suffix_of` String.list_ascii_of_string s).
Definition TrimPrefix (s p : string) : string :=
  if HasPrefix s p
  then String.string_of_list_ascii (drop (String.length p) (String.list_ascii_of_string s))
  else s.
Definition TrimSuffix (s p : string) : string :=
  if HasSuffix s p
  then String.string_of_list_ascii
         (take (String.length s - String.length p)%nat (String.list_ascii_of_string s))
  else s.

Inductive script_lookup :=
| Found (script : SieveScript)
| ErrDBNotFound
| ErrOther.

Section session.

(** The server's configuration ([s.server]). *)
Variable supportedExtensions : list string.
Variable maxScriptSize : Z.
Variable tlsConfig useStartTLS insecureAuth hasAuthLimiter : bool.
Variable masterSASLUsername masterSASLPassword : string.

(** The calls that leave the package.  [ctxErr] is [s.ctx.Err() != nil];
    the database calls are those of [s.server.rdb], the first argument of
    the read calls being the session's pin to the master database; an
    [option string] result of [sieve_Load] is the error it returns. *)
Variable ctxErr : bool.
Variable GetUserScripts : bool → Z → option (list SieveScript).
Variable GetScriptByName : bool → string → Z → script_lookup.
Variable UpdateScript : Z → Z → string → string → bool.
Variable CreateScript : Z → string → string → bool.
Variable SetScriptActive : Z → Z → bool → bool.
Variable DeleteScript : Z → Z → bool.
Variable sieve_Load : list string → string → option string.
Variable NewAddress : string → option string.
Variable CanAttemptAuth : string → bool.
Variable AuthenticateWithRetry : string → string → option Z.
Variable GetAccountIDByAddress : string → option Z.
Variable DecodeString : string → option string.
Variable ReadString : option string.
Variable ReadFull : Z → option string.
Variable Sscanf_d : string → option Z.
Variable TrimSpace ToUpper : string → string.
Variable Handshake : bool.

(** Lines 195-226. *)
Definition sendCapabilities : M unit :=
  acquired ← AcquireLockWithTimeout ReadLock;
  if negb acquired then
    sendRawLine (quoted "IMPLEMENTATION" +:+ " " +:+ quoted "ManageSieve");;
    sendRawLine (quoted "SIEVE" +:+ " " +:+ quoted "fileinto vacation")
  else
    sendRawLine (quoted "IMPLEMENTATION" +:+ " " +:+ quoted "ManageSieve");;
    let extensionsStr :=
      if bool_decide (0 < length supportedExtensions)%nat
      then Join supportedExtensions " " else "fileinto vacation" in
    sendRawLine (quoted "SIEVE" +:+ " " +:+ quoted extensionsStr);;
    s ← get;
    (if tlsConfig && useStartTLS && negb (isTLS s)
     then sendRawLine (quoted "STARTTLS") else mret ());;
    (if negb (isTLS s) && insecureAuth
     then sendRawLine (quoted "AUTH=PLAIN") else mret ());;
    (if bool_decide (0 < maxScriptSize)
     then sendRawLine (quoted "MAXSCRIPTSIZE" +:+ " " +:+ quoted (pretty maxScriptSize))
     else mret ());;
    release.

(** Lines 658-663. *)
Definition handleCapability : M bool :=
  sendCapabilities;; sendRawLine "OK";; mret true.

(** Lines 703-709: one line per script. *)
Definition script_line (script : SieveScript) : string :=
  quoted (Name script) +:+ (if Active script then " ACTIVE" else "") +:+ CRLF.

Definition send_script_lines (scripts : list SieveScript) : M unit :=
  foldr (λ script k, WriteString (script_line script);; k) (mret ()) scripts.

(** Lines 665-713. *)
Definition handleListScripts : M bool :=
  if ctxErr then sendResponse ("NO Session closed" +:+ CRLF);; mret false else
  acquired ← AcquireLockWithTimeout ReadLock;
  if negb acquired then sendResponse server_busy;; mret false else
  s ← get;
  let userID := UserID s in
  let useMaster := useMasterDB s in
  release;;
  match GetUserScripts useMaster userID with
  | None => sendResponse ("NO Internal server error" +:+ CRLF);; mret false
  | Some scripts =>
      if bool_decide (length scripts = 0%nat) then sendResponse ("OK" +:+ CRLF);; mret true
      else
        send_script_lines scripts;;
        sendRawLine "OK";; mret true
  end.

(** Lines 715-751. *)
Definition handleGetScript (name : string) : M bool :=
  if ctxErr then sendResponse ("NO Session closed" +:+ CRLF);; mret false else
  acquired ← AcquireLockWithTimeout ReadLock;
  if negb acquired then sendResponse server_busy;; mret false else
  s ← get;
  let userID := UserID s in
  let useMaster := useMasterDB s in
  release;;
  match GetScriptByName useMaster name userID with
  | Found script =>
      WriteString ("{" +:+ pretty (String.length (Script script)) +:+ "}" +:+ CRLF);;
      WriteString (Script script);;
      sendResponse ("OK" +:+ CRLF);; mret true
  | _ => sendResponse ("NO No such script" +:+ CRLF);; mret false
  end.

(** Lines 839-846 (and 915-922, 973-980): pin the session to the master
    database; a timeout is only logged. *)
Definition pin_session : M unit :=
  acquired ← AcquireLockWithTimeout WriteLock;
  if negb acquired then mret () else set_useMasterDB true;; release.

(** Lines 753-859. *)
Definition handlePutScript (name content : string) : M bool :=
  if ctxErr then sendResponse ("NO Session closed" +:+ CRLF);; mret false else
  let name := Trim name (Ascii.ascii_of_nat 34) in
  if bool_decide (name = "") then
    sendResponse ("NO Script name cannot be empty" +:+ CRLF);; mret false else
  acquired ← AcquireLockWithTimeout ReadLock;
  if negb acquired then sendResponse server_busy;; mret false else
  s ← get;
  let userID := UserID s in
  let useMaster := useMasterDB s in
  release;;
  if bool_decide (0 < maxScriptSize)
     && bool_decide (maxScriptSize < Z.of_nat (String.length content)) then
    sendResponse ("NO (MAXSCRIPTSIZE) Script size " +:+ pretty (String.length content)
                  +:+ " exceeds maximum allowed size " +:+ pretty maxScriptSize +:+ CRLF);;
    mret false else
  match sieve_Load supportedExtensions content with
  | Some err => sendResponse ("NO Script validation failed: " +:+ err +:+ CRLF);; mret false
  | None =>
  match GetScriptByName useMaster name userID with
  | ErrOther => sendResponse ("NO Internal server error" +:+ CRLF);; mret false
  | Found script =>
      if UpdateScript (ID script) userID name content then
        pin_session;; sendResponse ("OK Script updated" +:+ CRLF);; mret true
      else sendResponse ("NO Internal server error" +:+ CRLF);; mret false
  | ErrDBNotFound =>
      if CreateScript userID name content then
        pin_session;; sendResponse ("OK Script stored" +:+ CRLF);; mret true
      else sendResponse ("NO Internal server error" +:+ CRLF);; mret false
  end end.

(** Lines 861-930. *)
Definition handleSetActive (name : string) : M bool :=
  if ctxErr then sendResponse ("NO Session closed" +:+ CRLF);; mret false else
  acquired ← AcquireLockWithTimeout ReadLock;
  if negb acquired then sendResponse server_busy;; mret false else
  s ← get;
  let userID := UserID s in
  let useMaster := useMasterDB s in
  release;;
  match GetScriptByName useMaster name userID with
  | ErrDBNotFound => sendResponse ("NO No such script" +:+ CRLF);; mret false
  | ErrOther => sendResponse ("NO Internal server error" +:+ CRLF);; mret false
  | Found script =>
      match sieve_Load supportedExtensions (Script script) with
      | Some err =>
          sendResponse ("NO Script validation failed: " +:+ err +:+ CRLF);; mret false
      | None =>
          if SetScriptActive (ID script) userID true then
            pin_session;; sendResponse ("OK Script activated" +:+ CRLF);; mret true
          else sendResponse ("NO Internal server error" +:+ CRLF);; mret false
      end
  end.

(** Lines 932-983. *)
Definition handleDeleteScript (name : string) : M bool :=
  if ctxErr then sendResponse ("NO Session closed" +:+ CRLF);; mret false else
  acquired ← AcquireLockWithTimeout ReadLock;
  if negb acquired then sendResponse server_busy;; mret false else
  s ← get;
  let userID := UserID s in
  let useMaster := useMasterDB s in
  release;;
  match GetScriptByName useMaster name userID with
  | ErrDBNotFound => sendResponse ("NO No such script" +:+ CRLF);; mret false
  | ErrOther => sendResponse ("NO Internal server error" +:+ CRLF);; mret false
  | Found script =>
      if DeleteScript (ID script) userID then
        pin_session;; sendResponse ("OK Script deleted" +:+ CRLF);; mret true
      else sendResponse ("NO Internal server error" +:+ CRLF);; mret false
  end.

(** Lines 1209-1245 (and 367-395): the session update that ends LOGIN and
    AUTHENTICATE.  [deferred] is true in handleAuthenticate, whose deferred
    release runs when the function returns; in the LOGIN branch of
    handleConnection the deferred release runs only when the connection's
    loop returns. *)
Definition update_authenticated (address : string) (userID : Z) (deferred : bool) : M bool :=
  acquired ← AcquireLockWithTimeout WriteLock;
  if negb acquired then sendResponse server_busy;; mret false else
  set_authenticated {| FullAddress := address; AccountID := userID |};;
  sendResponse ("OK Authenticated" +:+ CRLF);;
  (if deferred then release else mret ());;
  mret true.

Definition masterConfigured : bool :=
  bool_decide (0 < String.length masterSASLUsername)%nat
  && bool_decide (0 < String.length masterSASLPassword)%nat.

(** Lines 1143-1201: authentication without impersonation. *)
Definition authenticate_regular (authzID authnID password : string) : M (option (string * Z)) :=
  if bool_decide (authzID ≠ "") && bool_decide (authzID ≠ authnID) then
    sendResponse ("NO Proxy authentication not supported" +:+ CRLF);; mret None else
  match NewAddress authnID with
  | None => sendResponse ("NO Invalid username format" +:+ CRLF);; mret None
  | Some address =>
      if hasAuthLimiter && negb (CanAttemptAuth address) then
        sendResponse ("NO Too many authentication attempts. Please try again later."
                      +:+ CRLF);; mret None
      else
        match AuthenticateWithRetry address password with
        | None => sendResponse ("NO Authentication failed" +:+ CRLF);; mret None
        | Some userID => mret (Some (address, userID))
        end
  end.

(** Lines 1111-1141: master SASL impersonation.  [inl] is a target, [inr true]
    a failure already answered, [inr false] no impersonation. *)
Definition authenticate_master (authzID authnID password : string)
    : M (string * Z + bool) :=
  if masterConfigured
     && bool_decide (authnID = masterSASLUsername)
     && bool_decide (password = masterSASLPassword) then
    if bool_decide (authzID = "") then
      sendResponse ("NO Master SASL login requires an authorization identity." +:+ CRLF);;
      mret (inr true)
    else
      match NewAddress authzID with
      | None =>
          sendResponse ("NO Invalid impersonation target user format" +:+ CRLF);;
          mret (inr true)
      | Some address =>
          match GetAccountIDByAddress address with
          | None =>
              sendResponse ("NO Impersonation target user not found" +:+ CRLF);;
              mret (inr true)
          | Some userID => mret (inl (address, userID))
          end
      end
  else mret (inr false).

(** Lines 1059-1082: the SASL data, from the command or from the next line. *)
Definition read_auth_data (parts : list string) : M (option string) :=
  match parts !! 2%nat with
  | Some authData => mret (Some authData)
  | None =>
      sendResponse (dquote +:+ dquote +:+ CRLF);;
      match ReadString with
      | None => sendResponse ("NO Authentication failed" +:+ CRLF);; mret None
      | Some authLine =>
          let authData := TrimSpace authLine in
          if bool_decide (authData = "*") then
            sendResponse ("NO Authentication cancelled" +:+ CRLF);; mret None
          else mret (Some authData)
      end
  end.

(** Lines 1037-1246. *)
Definition handleAuthenticate (parts : list string) : M bool :=
  if bool_decide (length parts < 2)%nat then
    sendResponse ("NO Syntax: AUTHENTICATE mechanism" +:+ CRLF);; mret false else
  if bool_decide (ToUpper (default "" (parts !! 1%nat)) ≠ "PLAIN") then
    sendResponse ("NO Unsupported authentication mechanism" +:+ CRLF);; mret false else
  data ← read_auth_data parts;
  match data with
  | None => mret false
  | Some authData =>
  match DecodeString authData with
  | None => sendResponse ("NO Invalid authentication data" +:+ CRLF);; mret false
  | Some decoded =>
  match Split decoded NUL with
  | [authzID; authnID; password] =>
      master ← authenticate_master authzID authnID password;
      target ← match master with
               | inl target => mret (Some target)
               | inr true => mret None
               | inr false => authenticate_regular authzID authnID password
               end;
      match target with
      | None => mret false
      | Some (address, userID) =>
          if ctxErr then mret false else update_authenticated address userID true
      end
  | _ => sendResponse ("NO Invalid authentication format" +:+ CRLF);; mret false
  end end end.

(** Lines 271-396: the LOGIN branch of handleConnection. *)
Definition handleLogin (parts : list string) : M bool :=
  match parts with
  | _ :: userAddress :: password :: _ =>
      match NewAddress userAddress with
      | None => sendResponse ("NO Invalid address" +:+ CRLF);; mret false
      | Some address =>
          if hasAuthLimiter && negb (CanAttemptAuth address) then
            sendResponse ("NO Too many authentication attempts. Please try again later."
                          +:+ CRLF);; mret false
          else
            let userID :=
              if masterConfigured
                 && bool_decide (address = masterSASLUsername)
                 && bool_decide (password = masterSASLPassword)
              then GetAccountIDByAddress address
              else AuthenticateWithRetry address password in
            match userID with
            | None => sendResponse ("NO Authentication failed" +:+ CRLF);; mret false
            | Some userID =>
                if ctxErr then mret false else update_authenticated address userID false
            end
      end
  | _ => sendResponse ("NO Syntax: LOGIN address password" +:+ CRLF);; mret false
  end.

(** Lines 546-598: the STARTTLS branch of handleConnection. *)
Definition handleStartTLS : M bool :=
  s ← get;
  if negb useStartTLS || negb tlsConfig then
    sendResponse ("NO STARTTLS not supported" +:+ CRLF);; mret false else
  if isTLS s then sendResponse ("NO TLS already active" +:+ CRLF);; mret false else
  sendResponse ("OK Begin TLS negotiation" +:+ CRLF);;
  if negb Handshake then sendResponse ("NO TLS handshake failed" +:+ CRLF);; mret false else
  if ctxErr then mret false else
  acquired ← AcquireLockWithTimeout WriteLock;
  if negb acquired then sendResponse server_busy;; mret false else
  set_isTLS;; mret true.

(** Lines 985-1035. *)
Definition Close : M unit :=
  acquired ← AcquireLockWithTimeout WriteLock;
  clear_user;;
  if negb acquired then mret () else release.

(** Lines 615-630: the LOGOUT branch of handleConnection. *)
Definition handleLogout : M bool :=
  sendResponse ("OK Goodbye" +:+ CRLF);; Close;; mret true.

(** Lines 452-498: the PUTSCRIPT branch, with its literal. *)
Definition handlePutScriptCommand (parts : list string) : M bool :=
  s ← get;
  if negb (authenticated s) then sendResponse ("NO Not authenticated" +:+ CRLF);; mret false else
  match parts with
  | _ :: scriptName :: scriptContent :: _ =>
      if HasPrefix scriptContent "{" && HasSuffix scriptContent "+}" then
        let lengthStr := TrimSuffix (TrimPrefix scriptContent "{") "+}" in
        match Sscanf_d lengthStr with
        | Some length =>
            if bool_decide (length < 0) then
              sendResponse ("NO Invalid literal string length" +:+ CRLF);; mret false
            else
              sendResponse ("+" +:+ CRLF);;
              match ReadFull length with
              | Some literalContent => handlePutScript scriptName literalContent
              | None =>
                  sendResponse ("NO Failed to read literal string content" +:+ CRLF);;
                  mret false
              end
        | None => sendResponse ("NO Invalid literal string length" +:+ CRLF);; mret false
        end
      else handlePutScript scriptName scriptContent
  | _ =>
      sendResponse ("NO Syntax: PUTSCRIPT scriptName scriptContent" +:+ CRLF);; mret false
  end.

(** The branches that need authentication and a script name (lines 429-450,
    500-544). *)
Definition with_script_name (syntax : string) (handler : string → M bool)
    (parts : list string) : M bool :=
  s ← get;
  if negb (authenticated s) then sendResponse ("NO Not authenticated" +:+ CRLF);; mret false else
  match parts !! 1%nat with
  | Some scriptName => handler scriptName
  | None => sendResponse (syntax +:+ CRLF);; mret false
  end.

(** Lines 249-634: one iteration of the command loop, for the line split
    into at most three [parts]. *)
Definition handleCommand (parts : list string) : M bool :=
  let command := ToUpper (default "" (parts !! 0%nat)) in
  if bool_decide (command = "CAPABILITY") then handleCapability
  else if bool_decide (command = "LOGIN") then handleLogin parts
  else if bool_decide (command = "AUTHENTICATE") then handleAuthenticate parts
  else if bool_decide (command = "LISTSCRIPTS") then
    s ← get;
    if negb (authenticated s) then sendResponse ("NO Not authenticated" +:+ CRLF);; mret false
    else handleListScripts
  else if bool_decide (command = "GETSCRIPT") then
    with_script_name "NO Syntax: GETSCRIPT scriptName" handleGetScript parts
  else if bool_decide (command = "PUTSCRIPT") then handlePutScriptCommand parts
  else if bool_decide (command = "SETACTIVE") then
    with_script_name "NO Syntax: SETACTIVE scriptName" handleSetActive parts
  else if bool_decide (command = "DELETESCRIPT") then
    with_script_name "NO Syntax: DELETESCRIPT scriptName" handleDeleteScript parts
  else if bool_decide (command = "STARTTLS") then handleStartTLS
  else if bool_decide (command = "NOOP") then sendResponse ("OK" +:+ CRLF);; mret true
  else if bool_decide (command = "LOGOUT") then handleLogout
  else sendResponse ("NO Unknown command" +:+ CRLF);; mret false.

(** ** What a lock timeout does to a command *)

(** The session fields that the mutex protects. *)
Definition same_fields (s s' : Session) : Prop :=
  authenticated s' = authenticated s ∧ user s' = user s
  ∧ isTLS s' = isTLS s ∧ useMasterDB s' = useMasterDB s.

(** The lock events of a run of [m] from [s]. *)
Definition events_of {A} (m : M A) (s : Session) : list lock_event :=
  drop (length (lock_events s)) (lock_events (m s).2).

(** The lock traces a command may leave, and what comes with each: no
    acquisition; one acquisition that timed out, and then the command fails
    with the server-busy response and the session fields as they were; one
    acquisition that succeeded (released, or held by a deferred release); a
    read lock, then the write lock that pins the session, which either
    succeeds or times out, and then the command still succeeds with an OK
    response and the session is not pinned. *)
Definition lock_trace_ok (m : M bool) (s : Session) : Prop :=
  let r := (m s).1 in
  let s' := (m s).2 in
  match events_of m s with
  | [] => True
  | [Acquire _ false] =>
      r = false ∧ last (written s') = Some server_busy ∧ same_fields s s'
  | [Acquire _ true] | [Acquire _ true; Release] => True
  | [Acquire ReadLock true; Release; Acquire WriteLock true; Release] =>
      useMasterDB s' = true
  | [Acquire ReadLock true; Release; Acquire WriteLock false] =>
      r = true ∧ useMasterDB s' = useMasterDB s
      ∧ ∃ msg, last (written s') = Some ("OK " +:+ msg)
  | _ => False
  end.


Lemma send_script_lines_run scripts s :
  send_script_lines scripts s
  = ((), {| authenticated := authenticated s; user := user s; isTLS := isTLS s;
            useMasterDB := useMasterDB s;
            written := written s ++ (script_line <$> scripts);
            lock_outcomes := lock_outcomes s; lock_events := lock_events s |}).
Proof.
  revert s. induction scripts as [|script scripts IH]; intros s.
  - simpl. unfold mret, M_ret. rewrite app_nil_r. by destruct s.
  - unfold send_script_lines in *. cbn [foldr]. unfold mbind at 1, M_bind at 1.
    unfold WriteString at 1. rewrite IH. cbn. by rewrite <-app_assoc.
Qed.

Ltac unfold_session H :=
  unfold handlePutScriptCommand, with_script_name, handleLogout,
    handlePutScript, handleSetActive, handleDeleteScript,
    handleGetScript, handleListScripts, handleCapability, handleAuthenticate,
    handleLogin, handleStartTLS, Close,
    sendCapabilities, pin_session, read_auth_data, authenticate_master,
    authenticate_regular, update_authenticated,
    sendRawLine, sendResponse, AcquireLockWithTimeout, release, get,
    WriteString, log_lock, set_useMasterDB, set_authenticated, set_isTLS, clear_user,
    mbind, M_bind, mret, M_ret in H.

(** One step of symbolic execution: decide the next condition or result
    that the run depends on. *)
Ltac decide_next H :=
  match type of H with
  | context [match ?x with _ => _ end] =>
      lazymatch type of x with
      | prod _ _ => fail
      | _ => destruct x eqn:?
      end
  end.

Ltac sym_exec H :=
  repeat (cbn -[String.append pretty send_script_lines HasPrefix HasSuffix TrimPrefix
                TrimSuffix Trim Split] in H;
          rewrite ?send_script_lines_run in H;
          try decide_next H).

Ltac lock_trace s :=
  let r := fresh "r" in
  let s' := fresh "s'" in
  let Hrun := fresh "Hrun" in
  unfold lock_trace_ok, events_of, same_fields; cbv zeta;
  destruct s as [? ? ? ? ? [|[] [|[] ?]] ?];
  match goal with |- context [fst ?run] => destruct run as [r s'] eqn:Hrun end;
  unfold_session Hrun; sym_exec Hrun; simplify_eq;
  cbn -[String.append pretty];
  rewrite <-?app_assoc, ?drop_app_length, ?drop_all;
  cbn -[String.append pretty];
  rewrite ?last_app;
  cbn -[String.append pretty];
  try done; try (repeat split; try done; by eexists).

Lemma handleListScripts_lock_trace s : lock_trace_ok handleListScripts s.
Proof. lock_trace s. Qed.

Lemma handleGetScript_lock_trace name s : lock_trace_ok (handleGetScript name) s.
Proof. lock_trace s. Qed.

Lemma handlePutScript_lock_trace name content s :
  lock_trace_ok (handlePutScript name content) s.
Proof. lock_trace s. Qed.

Lemma handleSetActive_lock_trace name s : lock_trace_ok (handleSetActive name) s.
Proof. lock_trace s. Qed.

Lemma handleDeleteScript_lock_trace name s : lock_trace_ok (handleDeleteScript name) s.
Proof. lock_trace s. Qed.








(** ** What a command may change in the session *)

(** A computation keeps the part [f] of the session. *)
Definition keeps {A B} (f : Session → B) (m : M A) : Prop :=
  ∀ s, f (m s).2 = f s.

(** The parts that do not look at what was written or at the lock. *)
Class Frame {B} (f : Session → B) : Prop :=
  frame : ∀ s w o e,
    f {| authenticated := authenticated s; user := user s; isTLS := isTLS s;
         useMasterDB := useMasterDB s; written := w; lock_outcomes := o;
         lock_events := e |} = f s.

Definition auth_of (s : Session) : bool * option User := (authenticated s, user s).

#[local] Instance auth_of_frame : Frame auth_of.
Proof. by intros []. Qed.
#[local] Instance useMasterDB_frame : Frame useMasterDB.
Proof. by intros []. Qed.
#[local] Instance isTLS_frame : Frame isTLS.
Proof. by intros []. Qed.

Lemma keeps_ret {A B} (f : Session → B) (a : A) : keeps f (mret a).
Proof. by intros s. Qed.

Lemma keeps_bind {A A' B} (f : Session → B) (m : M A) (k : A → M A') :
  keeps f m → (∀ a, keeps f (k a)) → keeps f (m ≫= k).
Proof.
  intros Hm Hk s. unfold mbind, M_bind. specialize (Hm s).
  destruct (m s) as [a s1]. by rewrite Hk.
Qed.

Lemma keeps_get {B} (f : Session → B) : keeps f get.
Proof. by intros s. Qed.

Lemma keeps_WriteString {B} (f : Session → B) `{!Frame f} str : keeps f (WriteString str).
Proof. intros s. apply frame. Qed.

Lemma keeps_log_lock {B} (f : Session → B) `{!Frame f} e o : keeps f (log_lock e o).
Proof. intros s. apply frame. Qed.

Lemma keeps_AcquireLockWithTimeout {B} (f : Session → B) `{!Frame f} kind :
  keeps f (AcquireLockWithTimeout kind).
Proof.
  apply keeps_bind; [apply keeps_get|]. intros s.
  apply keeps_bind; [by apply keeps_log_lock|]. intros _. apply keeps_ret.
Qed.

Lemma keeps_release {B} (f : Session → B) `{!Frame f} : keeps f release.
Proof. apply keeps_bind; [apply keeps_get|]. intros s. by apply keeps_log_lock. Qed.

Lemma keeps_auth_set_useMasterDB b : keeps auth_of (set_useMasterDB b).
Proof. by intros []. Qed.
Lemma keeps_auth_set_isTLS : keeps auth_of set_isTLS.
Proof. by intros []. Qed.
Lemma keeps_isTLS_set_useMasterDB b : keeps isTLS (set_useMasterDB b).
Proof. by intros []. Qed.
Lemma keeps_isTLS_set_authenticated u : keeps isTLS (set_authenticated u).
Proof. by intros []. Qed.
Lemma keeps_isTLS_clear_user : keeps isTLS clear_user.
Proof. by intros []. Qed.
Lemma keeps_useMasterDB_set_isTLS : keeps useMasterDB set_isTLS.
Proof. by intros []. Qed.
Lemma keeps_useMasterDB_set_authenticated u : keeps useMasterDB (set_authenticated u).
Proof. by intros []. Qed.
Lemma keeps_useMasterDB_clear_user : keeps useMasterDB clear_user.
Proof. by intros []. Qed.

Lemma keeps_send_script_lines {B} (f : Session → B) `{!Frame f} scripts :
  keeps f (send_script_lines scripts).
Proof.
  induction scripts as [|script scripts IH]; [apply keeps_ret|].
  apply keeps_bind; [by apply keeps_WriteString|]. by intros _.
Qed.

Create HintDb keeps discriminated.
#[local] Hint Resolve keeps_ret keeps_get keeps_WriteString keeps_log_lock
  keeps_AcquireLockWithTimeout keeps_release keeps_auth_set_useMasterDB
  keeps_auth_set_isTLS keeps_isTLS_set_useMasterDB keeps_isTLS_set_authenticated
  keeps_isTLS_clear_user keeps_useMasterDB_set_isTLS keeps_useMasterDB_set_authenticated
  keeps_useMasterDB_clear_user keeps_send_script_lines : keeps.
#[local] Hint Extern 0 (Frame _) => typeclasses eauto : keeps.

(** The rule of each construct of a handler. *)
Ltac keeps_step :=
  lazymatch goal with
  | |- keeps _ (mbind _ _) => apply keeps_bind; [|intros ?]
  | |- keeps _ (if ?b then _ else _) => destruct b
  | |- keeps _ (match ?x with _ => _ end) => destruct x
  | |- keeps _ _ => first [solve [eauto with keeps] | progress cbv zeta]
  end.

Ltac keeps_all := repeat keeps_step.

Section kept.
Context {B} (f : Session → B) {f_frame : Frame f}.

Lemma keeps_sendRawLine line : keeps f (sendRawLine line).
Proof using f_frame. unfold sendRawLine. keeps_all. Qed.

Lemma keeps_sendResponse response : keeps f (sendResponse response).
Proof using f_frame. unfold sendResponse. keeps_all. Qed.

Hint Resolve keeps_sendRawLine keeps_sendResponse : keeps.

Lemma keeps_sendCapabilities : keeps f sendCapabilities.
Proof using f_frame. unfold sendCapabilities. keeps_all. Qed.

Lemma keeps_handleListScripts : keeps f handleListScripts.
Proof using f_frame. unfold handleListScripts. keeps_all. Qed.

Lemma keeps_handleGetScript name : keeps f (handleGetScript name).
Proof using f_frame. unfold handleGetScript. keeps_all. Qed.

Lemma keeps_read_auth_data parts : keeps f (read_auth_data parts).
Proof using f_frame. unfold read_auth_data. keeps_all. Qed.

Lemma keeps_authenticate_master authzID authnID password :
  keeps f (authenticate_master authzID authnID password).
Proof using f_frame. unfold authenticate_master. keeps_all. Qed.

Lemma keeps_authenticate_regular authzID authnID password :
  keeps f (authenticate_regular authzID authnID password).
Proof using f_frame. unfold authenticate_regular. keeps_all. Qed.

End kept.

#[local] Hint Resolve keeps_sendRawLine keeps_sendResponse keeps_sendCapabilities
  keeps_handleListScripts keeps_handleGetScript keeps_read_auth_data
  keeps_authenticate_master keeps_authenticate_regular : keeps.

Lemma keeps_pin_session {B} (f : Session → B) `{!Frame f} :
  (∀ b, keeps f (set_useMasterDB b)) → keeps f pin_session.
Proof. intros Hset. unfold pin_session. keeps_all. Qed.

Lemma keeps_update_authenticated {B} (f : Session → B) `{!Frame f} address userID deferred :
  (∀ u, keeps f (set_authenticated u)) →
  keeps f (update_authenticated address userID deferred).
Proof. intros Hset. unfold update_authenticated. keeps_all. Qed.

#[local] Hint Resolve keeps_pin_session keeps_update_authenticated : keeps.

Lemma keeps_handlePutScript {B} (f : Session → B) `{!Frame f} name content :
  (∀ b, keeps f (set_useMasterDB b)) → keeps f (handlePutScript name content).
Proof. intros Hset. unfold handlePutScript. keeps_all. Qed.

Lemma keeps_handleSetActive {B} (f : Session → B) `{!Frame f} name :
  (∀ b, keeps f (set_useMasterDB b)) → keeps f (handleSetActive name).
Proof. intros Hset. unfold handleSetActive. keeps_all. Qed.

Lemma keeps_handleDeleteScript {B} (f : Session → B) `{!Frame f} name :
  (∀ b, keeps f (set_useMasterDB b)) → keeps f (handleDeleteScript name).
Proof. intros Hset. unfold handleDeleteScript. keeps_all. Qed.

#[local] Hint Resolve keeps_handlePutScript keeps_handleSetActive
  keeps_handleDeleteScript : keeps.

Lemma keeps_handlePutScriptCommand {B} (f : Session → B) `{!Frame f} parts :
  (∀ b, keeps f (set_useMasterDB b)) → keeps f (handlePutScriptCommand parts).
Proof. intros Hset. unfold handlePutScriptCommand. keeps_all. Qed.

Lemma keeps_with_script_name {B} (f : Session → B) `{!Frame f} syntax handler parts :
  (∀ name, keeps f (handler name)) → keeps f (with_script_name syntax handler parts).
Proof. intros Hh. unfold with_script_name. keeps_all. Qed.

Lemma keeps_handleLogin {B} (f : Session → B) `{!Frame f} parts :
  (∀ u, keeps f (set_authenticated u)) → keeps f (handleLogin parts).
Proof. intros Hset. unfold handleLogin. keeps_all. Qed.

Lemma keeps_handleAuthenticate {B} (f : Session → B) `{!Frame f} parts :
  (∀ u, keeps f (set_authenticated u)) → keeps f (handleAuthenticate parts).
Proof. intros Hset. unfold handleAuthenticate. keeps_all. Qed.

Lemma keeps_handleLogout {B} (f : Session → B) `{!Frame f} :
  keeps f clear_user → keeps f handleLogout.
Proof. intros Hset. unfold handleLogout, Close. keeps_all. Qed.

Lemma keeps_handleStartTLS {B} (f : Session → B) `{!Frame f} :
  keeps f set_isTLS → keeps f handleStartTLS.
Proof. intros Hset. unfold handleStartTLS. keeps_all. Qed.

#[local] Hint Resolve keeps_handlePutScriptCommand keeps_with_script_name
  keeps_handleLogin keeps_handleAuthenticate keeps_handleLogout keeps_handleStartTLS : keeps.

(** ** Who the session belongs to *)

(** The store vouches for the account of the address: it accepted a
    password for it, or the master credentials are configured and it knows
    the address. *)
Definition credentials_accepted (address : string) (userID : Z) : Prop :=
  (∃ password, AuthenticateWithRetry address password = Some userID)
  ∨ (masterConfigured = true ∧ GetAccountIDByAddress address = Some userID).

(** A run leaves the session's user alone, or makes the session that of an
    account that the store vouches for. *)
Definition auth_outcome (m : M bool) (s : Session) : Prop :=
  let r := (m s).1 in
  let s' := (m s).2 in
  auth_of s' = auth_of s
  ∨ (r = true ∧ authenticated s' = true ∧ ctxErr = false
     ∧ last (written s') = Some ("OK Authenticated" +:+ CRLF)
     ∧ ∃ address userID,
         user s' = Some {| FullAddress := address; AccountID := userID |}
         ∧ credentials_accepted address userID).

Lemma auth_outcome_keeps m s : keeps auth_of m → auth_outcome m s.
Proof. intros Hm. left. apply Hm. Qed.

Ltac kept_auth := solve [apply auth_outcome_keeps; keeps_all].

Lemma auth_outcome_bind {A} (Q : A → Prop) (m : M A) (k : A → M bool) s :
  keeps auth_of m → Q (m s).1 → (∀ a s1, Q a → auth_outcome (k a) s1) →
  auth_outcome (m ≫= k) s.
Proof.
  intros Hm HQ Hk. unfold auth_outcome, mbind, M_bind. cbv zeta.
  specialize (Hm s). destruct (m s) as [a s1]. cbn [fst snd] in *.
  destruct (Hk a s1 HQ) as [Hkeep|Hnew]; [left; congruence|by right].
Qed.

Lemma update_authenticated_outcome address userID deferred s :
  credentials_accepted address userID → ctxErr = false →
  auth_outcome (update_authenticated address userID deferred) s.
Proof.
  intros Hcred Hctx. unfold auth_outcome. cbv zeta.
  unfold update_authenticated, sendResponse, AcquireLockWithTimeout, release, get,
    WriteString, log_lock, set_authenticated, mbind, M_bind, mret, M_ret.
  destruct s as [? ? ? ? ? [|[] ?] ?], deferred;
    cbn -[String.append]; rewrite ?last_snoc;
    first [by left | right; repeat (split; [done|]); by exists address, userID].
Qed.

Lemma handleLogin_outcome parts s : auth_outcome (handleLogin parts) s.
Proof.
  unfold handleLogin.
  destruct parts as [|? [|userAddress [|password ?]]];
    try kept_auth.
  destruct (NewAddress userAddress) as [address|];
    [|kept_auth].
  destruct (hasAuthLimiter && negb (CanAttemptAuth address));
    [kept_auth|].
  cbv zeta.
  destruct (masterConfigured && bool_decide (address = masterSASLUsername)
            && bool_decide (password = masterSASLPassword)) eqn:Hmaster.
  - destruct (GetAccountIDByAddress address) as [userID|] eqn:Hid;
      [|kept_auth].
    destruct ctxErr eqn:Hctx; [kept_auth|].
    apply update_authenticated_outcome; [|done]. right.
    apply andb_true_iff in Hmaster as [Hmaster _].
    by apply andb_true_iff in Hmaster as [Hmaster _].
  - destruct (AuthenticateWithRetry address password) as [userID|] eqn:Hid;
      [|kept_auth].
    destruct ctxErr eqn:Hctx; [kept_auth|].
    apply update_authenticated_outcome; [|done]. left. by exists password.
Qed.

Lemma authenticate_master_result authzID authnID password s address userID :
  (authenticate_master authzID authnID password s).1 = inl (address, userID) →
  masterConfigured = true ∧ GetAccountIDByAddress address = Some userID.
Proof.
  unfold authenticate_master.
  destruct masterConfigured; [|done]. cbn [andb].
  destruct (_ && _); [|done].
  case_bool_decide; [done|].
  destruct (NewAddress authzID) as [a|]; [|done].
  destruct (GetAccountIDByAddress a) as [u|] eqn:Hid; [|done].
  by intros [= <- <-].
Qed.

Lemma authenticate_regular_result authzID authnID password s address userID :
  (authenticate_regular authzID authnID password s).1 = Some (address, userID) →
  AuthenticateWithRetry address password = Some userID.
Proof.
  unfold authenticate_regular.
  destruct (_ && _); [done|].
  destruct (NewAddress authnID) as [a|]; [|done].
  destruct (_ && _); [done|].
  destruct (AuthenticateWithRetry a password) as [u|] eqn:Hid; [|done].
  by intros [= <- <-].
Qed.

Lemma handleAuthenticate_outcome parts s : auth_outcome (handleAuthenticate parts) s.
Proof.
  unfold handleAuthenticate.
  case_bool_decide; [kept_auth|].
  case_bool_decide; [kept_auth|].
  apply (auth_outcome_bind (λ _, True)); [keeps_all|done|]. clear s.
  intros [authData|] s _; [|kept_auth].
  destruct (DecodeString authData) as [decoded|]; [|kept_auth].
  destruct (Split decoded NUL) as [|authzID [|authnID [|password [|]]]];
    try kept_auth.
  apply (auth_outcome_bind
           (λ master, ∀ address userID, master = inl (address, userID) →
              masterConfigured = true ∧ GetAccountIDByAddress address = Some userID));
    [keeps_all|intros ??; apply authenticate_master_result|]. clear s.
  intros master s Hmaster.
  apply (auth_outcome_bind
           (λ target, ∀ address userID, target = Some (address, userID) →
              credentials_accepted address userID)).
  - keeps_all.
  - intros address userID. destruct master as [[a u]|[]].
    + intros [= -> ->]. right. by apply Hmaster.
    + done.
    + intros Hreg. left. exists password. by eapply authenticate_regular_result.
  - clear s Hmaster. intros [[address userID]|] s Hcred;
      [|kept_auth].
    destruct ctxErr eqn:Hctx; [kept_auth|].
    apply update_authenticated_outcome; [by apply Hcred|done].
Qed.

(** X24.  Whatever the command and the session, a command leaves the
    session's user and its authenticated flag as they were, with two
    exceptions.  LOGOUT forgets the user (and with a user, the flag).  A
    LOGIN or an AUTHENTICATE that succeeds makes the session an
    authenticated one of an account that the store vouches for (it
    accepted a password for the address, or the master credentials are
    configured and it knows the address), after the context was seen
    alive, and its last answer is OK Authenticated; it does so also for a
    session that was authenticated already. *)
Theorem session_user_changes parts s :
  let command := ToUpper (default "" (parts !! 0%nat)) in
  let r := (handleCommand parts s).1 in
  let s' := (handleCommand parts s).2 in
  (authenticated s' = authenticated s ∧ user s' = user s)
  ∨ (command = "LOGOUT" ∧ user s' = None
     ∧ authenticated s' = match user s with Some _ => false | None => authenticated s end)
  ∨ ((command = "LOGIN" ∨ command = "AUTHENTICATE")
     ∧ r = true ∧ authenticated s' = true ∧ ctxErr = false
     ∧ last (written s') = Some ("OK Authenticated" +:+ CRLF)
     ∧ ∃ address userID,
         user s' = Some {| FullAddress := address; AccountID := userID |}
         ∧ credentials_accepted address userID).
Proof.
  cbv zeta.
  assert (∀ m : M bool, keeps auth_of m →
            authenticated (m s).2 = authenticated s ∧ user (m s).2 = user s) as Hkeep.
  { intros m Hm. specialize (Hm s). unfold auth_of in Hm. by simplify_eq. }
  assert (∀ m : M bool, auth_outcome m s →
            (authenticated (m s).2 = authenticated s ∧ user (m s).2 = user s)
            ∨ ((m s).1 = true ∧ authenticated (m s).2 = true ∧ ctxErr = false
               ∧ last (written (m s).2) = Some ("OK Authenticated" +:+ CRLF)
               ∧ ∃ address userID,
                   user (m s).2 = Some {| FullAddress := address; AccountID := userID |}
                   ∧ credentials_accepted address userID)) as Hauth.
  { intros m [Hm|Hm]; [left|by right]. unfold auth_of in Hm. by simplify_eq. }
  unfold handleCommand. cbv zeta.
  case_bool_decide as Hcap; [left; apply Hkeep; unfold handleCapability; solve [keeps_all]|].
  case_bool_decide as Hlogin.
  { destruct (Hauth _ (handleLogin_outcome parts s)) as [?|?]; [by left|].
    right; right. split; [by left|done]. }
  case_bool_decide as Hauthenticate.
  { destruct (Hauth _ (handleAuthenticate_outcome parts s)) as [?|?]; [by left|].
    right; right. split; [by right|done]. }
  case_bool_decide; [left; apply Hkeep; solve [keeps_all]|].
  case_bool_decide; [left; apply Hkeep; solve [keeps_all]|].
  case_bool_decide; [left; apply Hkeep; solve [keeps_all]|].
  case_bool_decide; [left; apply Hkeep; solve [keeps_all]|].
  case_bool_decide; [left; apply Hkeep; solve [keeps_all]|].
  case_bool_decide; [left; apply Hkeep; solve [keeps_all]|].
  case_bool_decide; [left; apply Hkeep; solve [keeps_all]|].
  case_bool_decide as Hlogout; [|left; apply Hkeep; solve [keeps_all]].
  right; left. split; [done|].
  unfold handleLogout, Close, sendResponse, AcquireLockWithTimeout, release, get,
    WriteString, log_lock, clear_user, mbind, M_bind, mret, M_ret.
  destruct s as [? [u|] ? ? ? [|[] ?] ?]; by cbn.
Qed.

(** ** The two flags of a session: pinned to the master database, and TLS *)

Definition pinned_answers : list string :=
  ["OK Script updated" +:+ CRLF; "OK Script stored" +:+ CRLF;
   "OK Script activated" +:+ CRLF; "OK Script deleted" +:+ CRLF].

(** A run leaves the pin alone, or pins the session and answers that a
    script was written. *)
Definition pin_outcome (m : M bool) (s : Session) : Prop :=
  let r := (m s).1 in
  let s' := (m s).2 in
  useMasterDB s' = useMasterDB s
  ∨ (useMasterDB s' = true ∧ r = true
     ∧ ∃ msg, msg ∈ pinned_answers ∧ last (written s') = Some msg).

Lemma pin_outcome_keeps m s : keeps useMasterDB m → pin_outcome m s.
Proof. intros Hm. left. apply Hm. Qed.

Ltac kept_pin := solve [apply pin_outcome_keeps; keeps_all].

Lemma pin_outcome_bind {A} (m : M A) (k : A → M bool) s :
  keeps useMasterDB m → (∀ a s1, pin_outcome (k a) s1) → pin_outcome (m ≫= k) s.
Proof.
  intros Hm Hk. unfold pin_outcome, mbind, M_bind. cbv zeta.
  specialize (Hm s). destruct (m s) as [a s1]. cbn [fst snd] in *.
  destruct (Hk a s1) as [Hkeep|Hnew]; [left; congruence|by right].
Qed.

Lemma pin_then_ok msg s :
  msg ∈ pinned_answers → pin_outcome (pin_session;; sendResponse msg;; mret true) s.
Proof.
  intros Hmsg. unfold pin_outcome. cbv zeta.
  unfold pin_session, sendResponse, AcquireLockWithTimeout, release, get,
    WriteString, log_lock, set_useMasterDB, mbind, M_bind, mret, M_ret.
  destruct s as [? ? ? ? ? [|[] ?] ?];
    cbn -[String.append]; rewrite ?last_snoc;
    first [by left | right; repeat (split; [done|]); by exists msg].
Qed.

Ltac pin_step :=
  lazymatch goal with
  | |- pin_outcome (mbind _ pin_session) _ =>
      apply pin_then_ok; unfold pinned_answers; repeat constructor
  | |- pin_outcome (mbind _ _) _ =>
      apply pin_outcome_bind; [solve [keeps_all]|intros ? ?]
  | |- pin_outcome (if ?b then _ else _) _ => destruct b
  | |- pin_outcome (match ?x with _ => _ end) _ => destruct x
  | |- pin_outcome _ _ => first [kept_pin | progress cbv zeta]
  end.

Lemma handlePutScript_pin name content s : pin_outcome (handlePutScript name content) s.
Proof. unfold handlePutScript. repeat pin_step. Qed.

Lemma handleSetActive_pin name s : pin_outcome (handleSetActive name) s.
Proof. unfold handleSetActive. repeat pin_step. Qed.

Lemma handleDeleteScript_pin name s : pin_outcome (handleDeleteScript name) s.
Proof. unfold handleDeleteScript. repeat pin_step. Qed.

(** The check that opens each script command. *)
Lemma pin_outcome_guarded (k : M bool) response s :
  (∀ s1, pin_outcome k s1) →
  let m : M bool :=
    s0 ← get;
    if negb (authenticated s0) then sendResponse response;; mret false else k in
  useMasterDB (m s).2 = useMasterDB s
  ∨ (useMasterDB (m s).2 = true ∧ authenticated s = true ∧ (m s).1 = true
     ∧ ∃ msg, msg ∈ pinned_answers ∧ last (written (m s).2) = Some msg).
Proof.
  intros Hk. cbv zeta. unfold mbind, M_bind, get, mret, M_ret, sendResponse, WriteString.
  cbv beta iota.
  destruct (authenticated s) eqn:Hauth; cbn [negb].
  - destruct (Hk s) as [?|(? & ? & ?)]; [by left|by right].
  - by left.
Qed.

(** STARTTLS turns TLS on, or leaves the flag alone. *)
Lemma handleStartTLS_outcome s :
  let r := (handleStartTLS s).1 in
  let s' := (handleStartTLS s).2 in
  isTLS s' = isTLS s
  ∨ (isTLS s = false ∧ isTLS s' = true ∧ r = true ∧ useStartTLS = true ∧ tlsConfig = true
     ∧ Handshake = true ∧ ctxErr = false).
Proof.
  cbv zeta.
  unfold handleStartTLS, sendResponse, AcquireLockWithTimeout, release, get,
    WriteString, log_lock, set_isTLS, mbind, M_bind, mret, M_ret.
  destruct s as [? ? [] ? ? [|[] ?] ?], useStartTLS, tlsConfig, Handshake, ctxErr;
    cbn -[String.append]; first [by left | by right].
Qed.

Lemma keeps_at {A B} (f : Session → B) (m : M A) s : keeps f m → f (m s).2 = f s.
Proof. intros Hm. apply Hm. Qed.

Ltac kept_flags :=
  split; left; [apply (keeps_at useMasterDB)|apply (keeps_at isTLS)]; solve [keeps_all].

(** X25.  A command never clears the pin of a session to the master
    database nor its TLS flag.  It sets the pin only when the session is
    authenticated, the command is PUTSCRIPT, SETACTIVE or DELETESCRIPT, and
    it succeeds with the answer that the script was updated, stored,
    activated or deleted; it sets the TLS flag only when the command is
    STARTTLS on a session without TLS, on a server configured for it, after
    a successful handshake with the context alive. *)
Theorem session_flags_are_sticky parts s :
  let command := ToUpper (default "" (parts !! 0%nat)) in
  let r := (handleCommand parts s).1 in
  let s' := (handleCommand parts s).2 in
  (useMasterDB s' = useMasterDB s
   ∨ (useMasterDB s' = true ∧ authenticated s = true ∧ r = true
      ∧ command ∈ ["PUTSCRIPT"; "SETACTIVE"; "DELETESCRIPT"]
      ∧ ∃ msg, msg ∈ pinned_answers ∧ last (written s') = Some msg))
  ∧ (isTLS s' = isTLS s
     ∨ (command = "STARTTLS" ∧ isTLS s = false ∧ isTLS s' = true ∧ r = true
        ∧ useStartTLS = true ∧ tlsConfig = true ∧ Handshake = true ∧ ctxErr = false)).
Proof.
  cbv zeta.
  assert (∀ script_command (k : M bool) response,
    script_command ∈ ["PUTSCRIPT"; "SETACTIVE"; "DELETESCRIPT"] →
    ToUpper (default "" (parts !! 0%nat)) = script_command →
    (∀ s1, pin_outcome k s1) →
    let m : M bool :=
      s0 ← get;
      if negb (authenticated s0) then sendResponse response;; mret false else k in
    useMasterDB (m s).2 = useMasterDB s
    ∨ (useMasterDB (m s).2 = true ∧ authenticated s = true ∧ (m s).1 = true
       ∧ ToUpper (default "" (parts !! 0%nat)) ∈ ["PUTSCRIPT"; "SETACTIVE"; "DELETESCRIPT"]
       ∧ ∃ msg, msg ∈ pinned_answers ∧ last (written (m s).2) = Some msg)) as Hguard.
  { intros script_command k response Hin Hcommand Hk.
    destruct (pin_outcome_guarded k response s Hk) as [?|(? & ? & ? & ?)]; [by left|].
    right. by rewrite Hcommand. }
  unfold handleCommand. cbv zeta.
  case_bool_decide as Hcap; [unfold handleCapability; kept_flags|].
  case_bool_decide as Hlogin; [kept_flags|].
  case_bool_decide as Hauthenticate; [kept_flags|].
  case_bool_decide as Hlist; [kept_flags|].
  case_bool_decide as Hget; [kept_flags|].
  case_bool_decide as Hput.
  { split; [|left; apply (keeps_at isTLS); solve [keeps_all]].
    apply (Hguard "PUTSCRIPT"); [repeat constructor|done|]. intros s1.
    repeat pin_step; apply handlePutScript_pin. }
  case_bool_decide as Hset.
  { split; [|left; apply (keeps_at isTLS); solve [keeps_all]].
    apply (Hguard "SETACTIVE"); [repeat constructor|done|]. intros s1.
    destruct (parts !! 1%nat); [apply handleSetActive_pin|kept_pin]. }
  case_bool_decide as Hdel.
  { split; [|left; apply (keeps_at isTLS); solve [keeps_all]].
    apply (Hguard "DELETESCRIPT"); [repeat constructor|done|]. intros s1.
    destruct (parts !! 1%nat); [apply handleDeleteScript_pin|kept_pin]. }
  case_bool_decide as Hstarttls.
  { split; [left; apply (keeps_at useMasterDB); solve [keeps_all]|].
    destruct (handleStartTLS_outcome s) as [?|?]; [by left|by right]. }
  case_bool_decide as Hnoop; [kept_flags|].
  case_bool_decide as Hlogout; kept_flags.
Qed.

End session.

(** ** A concrete server *)

(** A server without TLS and without master credentials, whose store holds
    no script and accepts every write, and whose validator accepts every
    script. *)
Definition ex_handleCommand : list string → M bool :=
  handleCommand ["fileinto"; "vacation"] 0 false false true false "" "" false
    (λ _ _, Some []) (λ _ _ _, ErrDBNotFound) (λ _ _ _ _, true) (λ _ _ _, true)
    (λ _ _ _, true) (λ _ _, true) (λ _ _, None) Some (λ _, true)
    (λ _ _, Some 1) (λ _, Some 1) Some None (λ _, None) (λ _, None) id id false.

(** An authenticated session whose next lock acquisition succeeds and whose
    second one times out. *)
Definition ex_session : Session :=
  {| authenticated := true;
     user := Some {| FullAddress := "alice@example.com"; AccountID := 1 |};
     isTLS := false; useMasterDB := false; written := [];
     lock_outcomes := [true; false]; lock_events := [] |}.

(** A session whose next lock acquisition times out. *)
Definition ex_contended : Session :=
  {| authenticated := true;
     user := Some {| FullAddress := "alice@example.com"; AccountID := 1 |};
     isTLS := false; useMasterDB := false; written := [];
     lock_outcomes := [false]; lock_events := [] |}.

Definition ex_putscript : M bool := ex_handleCommand ["PUTSCRIPT"; "vacation"; "keep;"].

Example ex_putscript_run :
  (ex_putscript ex_session).1 = true
  ∧ written (ex_putscript ex_session).2 = ["OK Script stored" +:+ CRLF]
  ∧ lock_events (ex_putscript ex_session).2
    = [Acquire ReadLock true; Release; Acquire WriteLock false]
  ∧ useMasterDB (ex_putscript ex_session).2 = false.
Proof. by vm_compute. Qed.

Example ex_putscript_contended :
  (ex_putscript ex_contended).1 = false
  ∧ written (ex_putscript ex_contended).2 = [server_busy]
  ∧ lock_events (ex_putscript ex_contended).2 = [Acquire ReadLock false].
Proof. by vm_compute. Qed.




(** ** A session that is not authenticated *)

Section unauthenticated.

Variable supportedExtensions : list string.
Variable maxScriptSize : Z.
Variable tlsConfig useStartTLS insecureAuth hasAuthLimiter : bool.
Variable masterSASLUsername masterSASLPassword : string.
Variable ctxErr : bool.
Variable NewAddress : string → option string.
Variable CanAttemptAuth : string → bool.
Variable AuthenticateWithRetry : string → string → option Z.
Variable GetAccountIDByAddress : string → option Z.
Variable DecodeString : string → option string.
Variable ReadString : option string.
Variable Sscanf_d : string → option Z.
Variable TrimSpace ToUpper : string → string.
Variable Handshake : bool.

(** Two stores of scripts, two validators and two contents of the
    connection after the command line. *)
Variable GetUserScripts GetUserScripts' : bool → Z → option (list SieveScript).
Variable GetScriptByName GetScriptByName' : bool → string → Z → script_lookup.
Variable UpdateScript UpdateScript' : Z → Z → string → string → bool.
Variable CreateScript CreateScript' : Z → string → string → bool.
Variable SetScriptActive SetScriptActive' : Z → Z → bool → bool.
Variable DeleteScript DeleteScript' : Z → Z → bool.
Variable sieve_Load sieve_Load' : list string → string → option string.
Variable ReadFull ReadFull' : Z → option string.

Ltac not_listed :=
  let Hin := fresh in
  intros Hin; repeat (apply elem_of_cons in Hin as [?|Hin]; [done|]);
  by apply elem_of_nil in Hin.

(** X26.  A session that is not authenticated never reaches the scripts:
    what a command returns and how it leaves the session are the same
    whatever the store of scripts holds and accepts, whatever the
    validator says and whatever follows the command line as a literal.
    LISTSCRIPTS, GETSCRIPT, PUTSCRIPT, SETACTIVE and DELETESCRIPT are
    refused with NO Not authenticated, which is all that happens to the
    session: no lock is taken. *)
Theorem unauthenticated_never_reaches_scripts parts s :
  authenticated s = false →
  let command := ToUpper (default "" (parts !! 0%nat)) in
  let run :=
    handleCommand supportedExtensions maxScriptSize tlsConfig useStartTLS insecureAuth
      hasAuthLimiter masterSASLUsername masterSASLPassword ctxErr
      GetUserScripts GetScriptByName UpdateScript CreateScript SetScriptActive DeleteScript
      sieve_Load NewAddress CanAttemptAuth AuthenticateWithRetry GetAccountIDByAddress
      DecodeString ReadString ReadFull Sscanf_d TrimSpace ToUpper Handshake parts s in
  let run' :=
    handleCommand supportedExtensions maxScriptSize tlsConfig useStartTLS insecureAuth
      hasAuthLimiter masterSASLUsername masterSASLPassword ctxErr
      GetUserScripts' GetScriptByName' UpdateScript' CreateScript' SetScriptActive'
      DeleteScript' sieve_Load' NewAddress CanAttemptAuth AuthenticateWithRetry
      GetAccountIDByAddress DecodeString ReadString ReadFull' Sscanf_d TrimSpace ToUpper
      Handshake parts s in
  run = run'
  ∧ (command ∈ ["LISTSCRIPTS"; "GETSCRIPT"; "PUTSCRIPT"; "SETACTIVE"; "DELETESCRIPT"] →
     run = (false, (WriteString ("NO Not authenticated" +:+ CRLF) s).2)).
Proof.
  intros Hauth. cbv zeta. unfold handleCommand. cbv zeta.
  assert (∀ c, ToUpper (default "" (parts !! 0%nat)) = c →
            c ∉ ["LISTSCRIPTS"; "GETSCRIPT"; "PUTSCRIPT"; "SETACTIVE"; "DELETESCRIPT"] →
            ToUpper (default "" (parts !! 0%nat))
              ∉ ["LISTSCRIPTS"; "GETSCRIPT"; "PUTSCRIPT"; "SETACTIVE"; "DELETESCRIPT"])
    as Hother by (by intros c ->).
  case_bool_decide as Hcap; [split; [done|]; intros Hin; destruct (Hother _ Hcap); [not_listed|done]|].
  case_bool_decide as Hlogin;
    [split; [done|]; intros Hin; destruct (Hother _ Hlogin); [not_listed|done]|].
  case_bool_decide as Hauthenticate;
    [split; [done|]; intros Hin; destruct (Hother _ Hauthenticate); [not_listed|done]|].
  assert (∀ k : M bool,
    (s0 ← get; if negb (authenticated s0)
               then sendResponse ("NO Not authenticated" +:+ CRLF);; mret false else k) s
    = (false, (WriteString ("NO Not authenticated" +:+ CRLF) s).2)) as Hrefused.
  { intros k. unfold mbind, M_bind, get, mret, M_ret, sendResponse.
    cbv beta iota. by rewrite Hauth. }
  case_bool_decide as Hlist; [by rewrite !Hrefused|].
  case_bool_decide as Hget; [unfold with_script_name; by rewrite !Hrefused|].
  case_bool_decide as Hput; [unfold handlePutScriptCommand; by rewrite !Hrefused|].
  case_bool_decide as Hset; [unfold with_script_name; by rewrite !Hrefused|].
  case_bool_decide as Hdel; [unfold with_script_name; by rewrite !Hrefused|].
  split; [done|]. intros Hin.
  repeat (apply elem_of_cons in Hin as [?|Hin]; [done|]). by apply elem_of_nil in Hin.
Qed.

End unauthenticated.

(** A session that has not logged in. *)
Definition ex_anonymous : Session :=
  {| authenticated := false; user := None; isTLS := false; useMasterDB := false;
     written := []; lock_outcomes := []; lock_events := [] |}.

Lemma unauthenticated_never_reaches_scripts_witness :
  ex_handleCommand ["DELETESCRIPT"; "vacation"] ex_anonymous
  = (false, (WriteString ("NO Not authenticated" +:+ CRLF) ex_anonymous).2)
  ∧ lock_events (ex_handleCommand ["DELETESCRIPT"; "vacation"] ex_anonymous).2 = [].
Proof.
  destruct (unauthenticated_never_reaches_scripts ["fileinto"; "vacation"] 0 false false
              true false "" "" false Some (λ _, true) (λ _ _, Some 1) (λ _, Some 1) Some
              None (λ _, None) id id false
              (λ _ _, Some []) (λ _ _, None) (λ _ _ _, ErrDBNotFound) (λ _ _ _, ErrOther)
              (λ _ _ _ _, true) (λ _ _ _ _, false) (λ _ _ _, true) (λ _ _ _, false)
              (λ _ _ _, true) (λ _ _ _, false) (λ _ _, true) (λ _ _, false)
              (λ _ _, None) (λ _ _, Some "refused") (λ _, None) (λ _, Some "keep;")
              ["DELETESCRIPT"; "vacation"] ex_anonymous eq_refl) as [_ Hrefused].
  assert (ex_handleCommand ["DELETESCRIPT"; "vacation"] ex_anonymous
          = (false, (WriteString ("NO Not authenticated" +:+ CRLF) ex_anonymous).2)) as Hrun.
  { apply Hrefused. cbn. repeat constructor. }
  split; [exact Hrun|]. by rewrite Hrun.
Defined.

End ManageSieve.

(** * The HTTP pre-lookup client (package proxy): outcome classification

    The client itself is not part of the sources at hand; its test,
    server/proxy/http_prelookup_errors_test.go, is. The classification below
    is written from the specification and agrees with every row of that
    test's table. *)

Module Prelookup.

(** The two sentinel errors that the callers tell apart with errors.Is. *)
Inductive sentinel := ErrPrelookupTransient | ErrPrelookupInvalidResponse.

#[global] Instance sentinel_eq_dec : EqDecision sentinel.
Proof. solve_decision. Defined.

(** An error that wraps a sentinel, as fmt.Errorf with the verb w builds. *)
Record error := Errorf { wraps : sentinel; detail : string }.

Definition Is (err : option error) (target : sentinel) : bool :=
  match err with
  | Some e => bool_decide (wraps e = target)
  | None => false
  end.

(** The decoded JSON body of a 200 response; a field that the body lacks
    decodes as the empty string. *)
Record response := { address : string; password_hash : string; server : string }.

Record UserRoutingInfo := { ServerAddress : string; Address : string }.

(** What came of the HTTP request: no answer, a request that the open
    circuit breaker refused, or a status with a body ([None] when the body is
    not JSON). *)
Inductive outcome :=
  | NetworkError
  | CircuitOpen
  | Response (status : Z) (body : option response).

Definition result : Type :=
  option UserRoutingInfo * PrelookupCache.AuthResult * option error.

(** Modelled from the spec: pre-lookup returns one of Authenticated,
    UserNotFound, Failed and Transient with distinct error kinds. A 4xx status
    is UserNotFound with no error and no routing information; a 5xx status, a
    network failure and an open circuit breaker are Failed with a Transient
    error; a 200 status whose body is not JSON, or has an empty address or
    password_hash, is Failed with an invalid-response error. A 200 status
    with no server is UserNotFound, and a well-formed one is Authenticated or
    Failed by the password check, both as the test table has them. The
    specification says nothing of the other statuses: [None]. *)
Definition LookupUserRoute (verify : string → string → bool) (password : string)
    (o : outcome) : option result :=
  match o with
  | NetworkError =>
      Some (None, PrelookupCache.AuthFailed,
            Some (Errorf ErrPrelookupTransient "request failed"))
  | CircuitOpen =>
      Some (None, PrelookupCache.AuthFailed,
            Some (Errorf ErrPrelookupTransient "circuit breaker open"))
  | Response status body =>
      if bool_decide (400 ≤ status < 500) then
        Some (None, PrelookupCache.AuthUserNotFound, None)
      else if bool_decide (500 ≤ status < 600) then
        Some (None, PrelookupCache.AuthFailed,
              Some (Errorf ErrPrelookupTransient "server error"))
      else if bool_decide (status = 200) then
        match body with
        | None =>
            Some (None, PrelookupCache.AuthFailed,
                  Some (Errorf ErrPrelookupInvalidResponse "failed to parse JSON"))
        | Some r =>
            if bool_decide (address r = "") then
              Some (None, PrelookupCache.AuthFailed,
                    Some (Errorf ErrPrelookupInvalidResponse "address is empty"))
            else if bool_decide (password_hash r = "") then
              Some (None, PrelookupCache.AuthFailed,
                    Some (Errorf ErrPrelookupInvalidResponse "password_hash is empty"))
            else if bool_decide (server r = "") then
              Some (None, PrelookupCache.AuthUserNotFound, None)
            else if verify (password_hash r) password then
              Some (Some {| ServerAddress := server r; Address := address r |},
                    PrelookupCache.AuthSuccess, None)
            else Some (None, PrelookupCache.AuthFailed, None)
        end
      else None
  end.

(** Modelled from the spec: UserNotFound falls back to database
    authentication, Transient does not (nor does any other failure). *)
Definition falls_back_to_database (r : result) : bool :=
  match r with
  | (_, PrelookupCache.AuthUserNotFound, None) => true
  | _ => false
  end.

(** The outcomes that the claim calls transient. *)
Definition transient (o : outcome) : Prop :=
  match o with
  | NetworkError | CircuitOpen => True
  | Response status _ => 500 ≤ status < 600
  end.

(** The 200 bodies that the claim calls invalid. *)
Definition invalid (body : option response) : Prop :=
  match body with
  | None => True
  | Some r => address r = "" ∨ password_hash r = ""
  end.

(** The rows of the test table, as (status, body, expected result, expected
    sentinel). *)
Definition ex_hash : string := "$2a$10$abcdefghijklmnopqrstuvwxyz".

Definition TestHTTPPrelookupErrorTypes :
    list (Z * option response * PrelookupCache.AuthResult * option sentinel) :=
  [(404, None, PrelookupCache.AuthUserNotFound, None);
   (400, None, PrelookupCache.AuthUserNotFound, None);
   (500, None, PrelookupCache.AuthFailed, Some ErrPrelookupTransient);
   (503, None, PrelookupCache.AuthFailed, Some ErrPrelookupTransient);
   (200, None, PrelookupCache.AuthFailed, Some ErrPrelookupInvalidResponse);
   (200, Some {| address := ""; password_hash := ex_hash; server := "backend:143" |},
    PrelookupCache.AuthFailed, Some ErrPrelookupInvalidResponse);
   (200, Some {| address := "user@example.com"; password_hash := "";
                 server := "backend:143" |},
    PrelookupCache.AuthFailed, Some ErrPrelookupInvalidResponse);
   (200, Some {| address := "user@example.com"; password_hash := ex_hash; server := "" |},
    PrelookupCache.AuthUserNotFound, None);
   (200, Some {| address := "user@example.com"; password_hash := ex_hash;
                 server := "backend:143" |},
    PrelookupCache.AuthFailed, None)].

(** One row passes when the result is the expected one, the error wraps the
    expected sentinel, and a UserNotFound comes with neither routing
    information nor an error (lines 182-203). *)
Definition row_passes
    (row : Z * option response * PrelookupCache.AuthResult * option sentinel) : bool :=
  let '(status, body, expectAuthResult, expectErrorType) := row in
  match LookupUserRoute (λ _ _, false) "testpassword" (Response status body) with
  | Some (routingInfo, authResult, err) =>
      bool_decide (authResult = expectAuthResult)
      && match expectErrorType with
         | Some target => Is err target
         | None =>
             if bool_decide (expectAuthResult = PrelookupCache.AuthUserNotFound)
             then bool_decide (routingInfo = None) && bool_decide (err = None)
             else true
         end
  | None => false
  end.

#[global] Instance error_eq_dec : EqDecision error.
Proof. solve_decision. Defined.

#[global] Instance UserRoutingInfo_eq_dec : EqDecision UserRoutingInfo.
Proof. solve_decision. Defined.

Example TestHTTPPrelookupErrorTypes_passes :
  forallb row_passes TestHTTPPrelookupErrorTypes = true.
Proof. by vm_compute. Qed.

(** C7. A 4xx status is UserNotFound with no error and no routing
    information, and falls back to database authentication; a 5xx status, a
    network failure and an open circuit breaker are Failed with an error that
    wraps the transient sentinel, and do not fall back; a 200 status whose
    body is not JSON or has an empty address or password_hash is an error
    that wraps the invalid-response sentinel, which is not the transient
    one. *)
Theorem LookupUserRoute_classification verify password :
  (∀ status body, 400 ≤ status < 500 →
     LookupUserRoute verify password (Response status body)
     = Some (None, PrelookupCache.AuthUserNotFound, None)
     ∧ falls_back_to_database (None, PrelookupCache.AuthUserNotFound, None) = true)
  ∧ (∀ o, transient o →
       ∃ err, LookupUserRoute verify password o
              = Some (None, PrelookupCache.AuthFailed, Some err)
              ∧ Is (Some err) ErrPrelookupTransient = true
              ∧ Is (Some err) ErrPrelookupInvalidResponse = false
              ∧ falls_back_to_database (None, PrelookupCache.AuthFailed, Some err) = false)
  ∧ (∀ body, invalid body →
       ∃ err, LookupUserRoute verify password (Response 200 body)
              = Some (None, PrelookupCache.AuthFailed, Some err)
              ∧ Is (Some err) ErrPrelookupInvalidResponse = true
              ∧ Is (Some err) ErrPrelookupTransient = false).
Proof.
  split; [|split].
  - intros status body Hstatus. unfold LookupUserRoute.
    by rewrite bool_decide_eq_true_2.
  - intros [| |status body] Ho; cbn in Ho.
    + by eexists.
    + by eexists.
    + unfold LookupUserRoute.
      rewrite bool_decide_eq_false_2 by lia.
      rewrite bool_decide_eq_true_2 by done.
      by eexists.
  - intros body Hbody. unfold LookupUserRoute.
    rewrite (bool_decide_eq_false_2 (400 ≤ 200 < 500)) by lia.
    rewrite (bool_decide_eq_false_2 (500 ≤ 200 < 600)) by lia.
    rewrite (bool_decide_eq_true_2 (200 = 200)) by done.
    destruct body as [r|]; [|by eexists].
    destruct Hbody as [Ha|Hp].
    + rewrite (bool_decide_eq_true_2 (address r = _)) by done. by eexists.
    + case_bool_decide; [by eexists|].
      rewrite (bool_decide_eq_true_2 (password_hash r = _)) by done. by eexists.
Qed.

Lemma LookupUserRoute_classification_witness :
  LookupUserRoute (λ _ _, false) "testpassword" (Response 404 None)
  = Some (None, PrelookupCache.AuthUserNotFound, None)
  ∧ (∃ err, LookupUserRoute (λ _ _, false) "testpassword" (Response 503 None)
            = Some (None, PrelookupCache.AuthFailed, Some err)
            ∧ Is (Some err) ErrPrelookupTransient = true)
  ∧ (∃ err, LookupUserRoute (λ _ _, false) "testpassword" NetworkError
            = Some (None, PrelookupCache.AuthFailed, Some err)
            ∧ Is (Some err) ErrPrelookupTransient = true)
  ∧ (∃ err, LookupUserRoute (λ _ _, false) "testpassword"
              (Response 200 (Some {| address := ""; password_hash := ex_hash;
                                     server := "backend:143" |}))
            = Some (None, PrelookupCache.AuthFailed, Some err)
            ∧ Is (Some err) ErrPrelookupInvalidResponse = true).
Proof.
  destruct (LookupUserRoute_classification (λ _ _, false) "testpassword")
    as (Hclient & Htransient & Hinvalid).
  split; [|split; [|split]].
  - apply (Hclient 404 None). lia.
  - destruct (Htransient (Response 503 None)) as (err & Hrun & His & _); [cbn; lia|].
    by exists err.
  - destruct (Htransient NetworkError) as (err & Hrun & His & _); [done|].
    by exists err.
  - destruct (Hinvalid (Some {| address := ""; password_hash := ex_hash;
                                server := "backend:143" |}))
      as (err & Hrun & His & _); [by left|].
    by exists err.
Defined.

End Prelookup.

(** * The untagged ESEARCH response (the IMAP server's response encoder)

    The encoder lives in the IMAP library that the server is built on, which
    is not part of the sources at hand; the integration test
    TestIMAP_ESearchEmptyResult (lines 172-307 of the search tests) states
    what it has to write. *)

Module ESearch.

Definition dquote : string := String (Ascii.ascii_of_nat 34) EmptyString.
Definition CRLF : string :=
  String (Ascii.ascii_of_nat 13) (String (Ascii.ascii_of_nat 10) EmptyString).

Inductive NumKind := NumKindSeq | NumKindUID.

(** The RETURN options of the command. *)
Record SearchOptions := {
  ReturnMin : bool;
  ReturnMax : bool;
  ReturnAll : bool;
  ReturnCount : bool;
  ReturnSave : bool;
}.

(** The result of a search: the matching numbers as a set of ranges, the
    smallest and the largest one (0 when there is none) and their count. *)
Record SearchData := {
  All : list (Z * Z);
  Min : Z;
  Max : Z;
  Count : Z;
}.

(** What the response encoder writes, item by item. *)
Inductive token :=
  | Atom (s : string)
  | Number (n : Z)
  | NumSet (set : list (Z * Z))
  | Tag (tag : string).

Definition range_string (r : Z * Z) : string :=
  if bool_decide (r.1 = r.2) then pretty r.1 else pretty r.1 +:+ ":" +:+ pretty r.2.

Fixpoint join (sep : string) (l : list string) : string :=
  match l with
  | [] => ""
  | [x] => x
  | x :: l => x +:+ sep +:+ join sep l
  end.

Definition encode (t : token) : string :=
  match t with
  | Atom s => s
  | Number n => pretty n
  | NumSet set => join "," (range_string <$> set)
  | Tag tag => "(TAG " +:+ dquote +:+ tag +:+ dquote +:+ ")"
  end.

(** The data of the matching numbers, in increasing order. *)
Definition search_data (nums : list Z) : SearchData :=
  {| All := (λ n, (n, n)) <$> nums;
     Min := default 0 (head nums);
     Max := default 0 (last nums);
     Count := Z.of_nat (length nums) |}.

(** Modelled from the spec: the untagged ESEARCH response carries the tag of
    the command, UID for a UID SEARCH, and one item for each RETURN option
    that has a result; under an empty result set it is written without the
    ALL keyword (and without MIN and MAX, which have no value then). *)
Definition writeESearch (tag : string) (data : SearchData) (options : SearchOptions)
    (numKind : NumKind) : list token :=
  [Atom "*"; Atom "ESEARCH"]
  ++ (if bool_decide (tag = "") then [] else [Tag tag])
  ++ (match numKind with NumKindUID => [Atom "UID"] | NumKindSeq => [] end)
  ++ (if ReturnAll options && negb (bool_decide (All data = []))
      then [Atom "ALL"; NumSet (All data)] else [])
  ++ (if ReturnMin options && bool_decide (0 < Min data)
      then [Atom "MIN"; Number (Min data)] else [])
  ++ (if ReturnMax options && bool_decide (0 < Max data)
      then [Atom "MAX"; Number (Max data)] else [])
  ++ (if ReturnCount options then [Atom "COUNT"; Number (Count data)] else []).

(** The line on the wire. *)
Definition response_line (tokens : list token) : string :=
  join " " (encode <$> tokens) +:+ CRLF.

Definition is_NumSet (t : token) : bool :=
  match t with NumSet _ => true | _ => false end.

(** C9. Under an empty result set the ESEARCH response has no ALL keyword
    and no set, whatever the RETURN options are; with the tag X and no RETURN
    option but ALL, the response to a UID SEARCH is the line
    * ESEARCH (TAG "X") UID and nothing more. *)
Theorem writeESearch_empty_result tag data options numKind :
  All data = [] →
  (Atom "ALL" ∉ writeESearch tag data options numKind)
  ∧ existsb is_NumSet (writeESearch tag data options numKind) = false
  ∧ (ReturnMin options = false → ReturnMax options = false →
     ReturnCount options = false →
     response_line (writeESearch "X" data options NumKindUID)
     = "* ESEARCH (TAG " +:+ dquote +:+ "X" +:+ dquote +:+ ") UID" +:+ CRLF).
Proof.
  intros Hall. unfold writeESearch. rewrite Hall.
  rewrite (bool_decide_eq_true_2 (@nil (Z * Z) = [])) by done.
  rewrite andb_false_r.
  split; [|split].
  - rewrite !elem_of_app, !elem_of_cons, !elem_of_nil.
    destruct (bool_decide (tag = "")), numKind,
      (ReturnMin options && bool_decide (0 < Min data)),
      (ReturnMax options && bool_decide (0 < Max data)), (ReturnCount options);
      rewrite ?elem_of_cons, ?elem_of_nil; intuition discriminate.
  - rewrite !existsb_app.
    by destruct (bool_decide (tag = "")), numKind,
      (ReturnMin options && bool_decide (0 < Min data)),
      (ReturnMax options && bool_decide (0 < Max data)), (ReturnCount options).
  - intros -> -> ->. by vm_compute.
Qed.

Definition ex_options : SearchOptions :=
  {| ReturnMin := true; ReturnMax := true; ReturnAll := true; ReturnCount := true;
     ReturnSave := false |}.

Example ex_nonempty :
  response_line (writeESearch "A1" (search_data [2; 3; 7]) ex_options NumKindUID)
  = "* ESEARCH (TAG " +:+ dquote +:+ "A1" +:+ dquote
    +:+ ") UID ALL 2,3,7 MIN 2 MAX 7 COUNT 3" +:+ CRLF.
Proof. by vm_compute. Qed.

Example ex_empty_count :
  response_line (writeESearch "A1" (search_data []) ex_options NumKindSeq)
  = "* ESEARCH (TAG " +:+ dquote +:+ "A1" +:+ dquote +:+ ") COUNT 0" +:+ CRLF.
Proof. by vm_compute. Qed.

Lemma writeESearch_empty_result_witness :
  All (search_data []) = []
  ∧ (Atom "ALL" ∉ writeESearch "X" (search_data []) ex_options NumKindUID)
  ∧ existsb is_NumSet (writeESearch "X" (search_data []) ex_options NumKindUID) = false.
Proof.
  split; [done|].
  destruct (writeESearch_empty_result "X" (search_data []) ex_options NumKindUID)
    as (Hall & Hset & _); [done|].
  split; [exact Hall|exact Hset].
Defined.

End ESearch.

(** * The connection limiter (package server, the second part of
      src/unnamed/part_002, lines 367-627) *)

Module ConnectionLimiter.

(** [atomic.Int64.Add]: int64 arithmetic wraps. *)
Definition Add (delta : Z) (x : Z) : Z := to_int64 (x + delta).

Section limiter.

(** [net.IP], [*net.IPNet] with its method Contains, [net.SplitHostPort]
    ([None] is its error) and [net.ParseIP] ([None] is nil). *)
Variable IP : Type.
Variable IPNet : Type.
Variable Contains : IPNet → IP → bool.
Variable SplitHostPort : string → option (string * string).
Variable ParseIP : string → option IP.

(** A [net.Addr]: the two types that isTrustedConnection tells apart, and
    any other; [text] is what the String method returns. *)
Inductive Addr :=
| TCPAddr (ip : IP) (text : string)
| UDPAddr (ip : IP) (text : string)
| OtherAddr (text : string).

Definition String_ (a : Addr) : string :=
  match a with TCPAddr _ text | UDPAddr _ text | OtherAddr text => text end.

(** Lines 380-389.  The map holds pointers to counters: [counters] is the
    heap of the [atomic.Int64] ever allocated, a pointer is an index into
    it. *)
Record ConnectionLimiter := {
  maxConnections : Z;
  maxPerIP : Z;
  currentTotal : Z;
  counters : list Z;
  perIPConnections : gmap string nat;
  protocol : string;
  trustedNets : list IPNet }.

(** Lines 392-401. *)
Definition NewConnectionLimiter (protocol : string) (maxConnections maxPerIP : Z)
    : ConnectionLimiter :=
  {| maxConnections := maxConnections; maxPerIP := maxPerIP; currentTotal := 0;
     counters := []; perIPConnections := ∅; protocol := protocol; trustedNets := [] |}.

(** Lines 404-419; [ParseTrustedNetworks] is declared outside these sources,
    [None] is its error. *)
Definition NewConnectionLimiterWithTrustedNets
    (ParseTrustedNetworks : list string → option (list IPNet))
    (protocol : string) (maxConnections maxPerIP : Z) (trustedProxies : list string)
    : ConnectionLimiter :=
  let trustedNets := default [] (ParseTrustedNetworks trustedProxies) in
  {| maxConnections := maxConnections; maxPerIP := maxPerIP; currentTotal := 0;
     counters := []; perIPConnections := ∅; protocol := protocol;
     trustedNets := trustedNets |}.

(** Lines 422-452. *)
Definition isTrustedConnection (cl : ConnectionLimiter) (remoteAddr : Addr) : bool :=
  if bool_decide (length (trustedNets cl) = 0%nat) then false else
  let ip :=
    match remoteAddr with
    | TCPAddr ip _ | UDPAddr ip _ => Some ip
    | OtherAddr _ =>
        match SplitHostPort (String_ remoteAddr) with
        | None => None
        | Some (host, _) => ParseIP host
        end
    end in
  match ip with
  | None => false
  | Some ip => existsb (λ network, Contains network ip) (trustedNets cl)
  end.

(** Lines 470-474 and 501-504: the key of the per-IP map. *)
Definition ip_of (remoteAddr : Addr) : string :=
  match SplitHostPort (String_ remoteAddr) with
  | Some (ip, _) => ip
  | None => String_ remoteAddr
  end.

Inductive error :=
| ErrMaxConnections (current maxConnections : Z)
| ErrMaxPerIP (ip : string) (current maxPerIP : Z).

(** What a pointer to a counter reads. *)
Definition Load (cl : ConnectionLimiter) (ipCounter : nat) : Z :=
  default 0 (counters cl !! ipCounter).

(** Lines 455-491; [None] is nil. *)
Definition CanAccept (cl : ConnectionLimiter) (remoteAddr : Addr) : option error :=
  if bool_decide (maxConnections cl ≤ 0) && bool_decide (maxPerIP cl ≤ 0) then None else
  if bool_decide (0 < maxConnections cl) && bool_decide (maxConnections cl ≤ currentTotal cl)
  then Some (ErrMaxConnections (currentTotal cl) (maxConnections cl)) else
  if bool_decide (0 < maxPerIP cl) && negb (isTrustedConnection cl remoteAddr) then
    let ip := ip_of remoteAddr in
    match perIPConnections cl !! ip with
    | Some ipCounter =>
        let current := Load cl ipCounter in
        if bool_decide (maxPerIP cl ≤ current) then Some (ErrMaxPerIP ip current (maxPerIP cl))
        else None
    | None => None
    end
  else None.

(** The closure that Accept returns (lines 534-559) is its captured
    variables: the key, whether the address was trusted, and the pointer to
    the counter (nil when none was taken). *)
Record release_func := {
  rel_ip : string;
  rel_isTrusted : bool;
  rel_ipCounter : option nat }.

#[global] Instance release_func_eq_dec : EqDecision release_func.
Proof. solve_decision. Defined.

Definition with_total (total : Z) (cl : ConnectionLimiter) : ConnectionLimiter :=
  {| maxConnections := maxConnections cl; maxPerIP := maxPerIP cl; currentTotal := total;
     counters := counters cl; perIPConnections := perIPConnections cl;
     protocol := protocol cl; trustedNets := trustedNets cl |}.

Definition with_counters (cs : list Z) (cl : ConnectionLimiter) : ConnectionLimiter :=
  {| maxConnections := maxConnections cl; maxPerIP := maxPerIP cl;
     currentTotal := currentTotal cl; counters := cs;
     perIPConnections := perIPConnections cl;
     protocol := protocol cl; trustedNets := trustedNets cl |}.

Definition with_perIP (m : gmap string nat) (cl : ConnectionLimiter) : ConnectionLimiter :=
  {| maxConnections := maxConnections cl; maxPerIP := maxPerIP cl;
     currentTotal := currentTotal cl; counters := counters cl;
     perIPConnections := m;
     protocol := protocol cl; trustedNets := trustedNets cl |}.

(** [ipCounter.Add(delta)] through the pointer. *)
Definition Add_at (ipCounter : nat) (delta : Z) (cl : ConnectionLimiter) : ConnectionLimiter :=
  with_counters (<[ipCounter := Add delta (Load cl ipCounter)]> (counters cl)) cl.

(** Lines 494-560. *)
Definition Accept (cl : ConnectionLimiter) (remoteAddr : Addr)
    : (release_func + error) * ConnectionLimiter :=
  match CanAccept cl remoteAddr with
  | Some err => (inr err, cl)
  | None =>
      let ip := ip_of remoteAddr in
      let cl := with_total (Add 1 (currentTotal cl)) cl in
      let isTrusted := isTrustedConnection cl remoteAddr in
      if bool_decide (0 < maxPerIP cl) && negb isTrusted then
        let '(ipCounter, cl) :=
          match perIPConnections cl !! ip with
          | Some ipCounter => (ipCounter, cl)
          | None =>
              let ipCounter := length (counters cl) in
              (ipCounter,
               with_perIP (<[ip := ipCounter]> (perIPConnections cl))
                 (with_counters (counters cl ++ [0]) cl))
          end in
        let cl := Add_at ipCounter 1 cl in
        (inl {| rel_ip := ip; rel_isTrusted := isTrusted; rel_ipCounter := Some ipCounter |},
         cl)
      else
        (inl {| rel_ip := ip; rel_isTrusted := isTrusted; rel_ipCounter := None |}, cl)
  end.

(** Lines 534-559: a call of the closure. *)
Definition release (r : release_func) (cl : ConnectionLimiter) : ConnectionLimiter :=
  let cl := with_total (Add (-1) (currentTotal cl)) cl in
  match rel_ipCounter r with
  | Some ipCounter =>
      if bool_decide (0 < maxPerIP cl) && negb (rel_isTrusted r) then
        let cl := Add_at ipCounter (-1) cl in
        let remaining := Load cl ipCounter in
        if bool_decide (remaining ≤ 0) then
          if bool_decide (Load cl ipCounter ≤ 0)
          then with_perIP (delete (rel_ip r) (perIPConnections cl)) cl
          else cl
        else cl
      else cl
  | None => cl
  end.

(** Lines 619-627 and 563-580. *)
Record ConnectionStats := {
  Protocol : string;
  TotalConnections : Z;
  MaxConnections : Z;
  MaxPerIP : Z;
  IPConnections : gmap string Z }.

Definition GetStats (cl : ConnectionLimiter) : ConnectionStats :=
  {| Protocol := protocol cl; TotalConnections := currentTotal cl;
     MaxConnections := maxConnections cl; MaxPerIP := maxPerIP cl;
     IPConnections := Load cl <$> perIPConnections cl |}.

(** Lines 604-617. *)
Definition cleanup (cl : ConnectionLimiter) : ConnectionLimiter :=
  with_perIP (filter (λ kv, ¬ Load cl kv.2 ≤ 0) (perIPConnections cl)) cl.

(** ** The connections that are open *)

(** The closures of the connections accepted and not yet released, and the
    untrusted ones among them that came from [ip] and that hold the counter
    at [a]. *)
Definition connections_from (tokens : list release_func) (ip : string) : nat :=
  length (filter (λ r, rel_ip r = ip ∧ is_Some (rel_ipCounter r)) tokens).

Definition holders (tokens : list release_func) (a : nat) : nat :=
  length (filter (λ r, rel_ipCounter r = Some a) tokens).

(** The limiter counts the open connections [tokens]: the total is their
    number, every pointer in the map is allocated, every counter is the
    number of connections that hold it, the counter a connection holds is
    the one the map has for its address, and no two addresses share one. *)
Definition balanced (cl : ConnectionLimiter) (tokens : list release_func) : Prop :=
  currentTotal cl = Z.of_nat (length tokens)
  ∧ (∀ ip a, perIPConnections cl !! ip = Some a → (a < length (counters cl))%nat)
  ∧ (∀ a n, counters cl !! a = Some n → n = Z.of_nat (holders tokens a))
  ∧ (∀ r a, r ∈ tokens → rel_ipCounter r = Some a →
       perIPConnections cl !! rel_ip r = Some a ∧ rel_isTrusted r = false
       ∧ 0 < maxPerIP cl)
  ∧ (∀ ip1 ip2 a, perIPConnections cl !! ip1 = Some a →
       perIPConnections cl !! ip2 = Some a → ip1 = ip2).

(** The limits that are set are kept. *)
Definition within_limits (cl : ConnectionLimiter) (tokens : list release_func) : Prop :=
  (0 < maxConnections cl → Z.of_nat (length tokens) ≤ maxConnections cl)
  ∧ (0 < maxPerIP cl → ∀ a, Z.of_nat (holders tokens a) ≤ maxPerIP cl).

Lemma holders_le tokens a : (holders tokens a ≤ length tokens)%nat.
Proof. apply length_filter. Qed.

Lemma holders_cons r tokens a :
  holders (r :: tokens) a
  = ((if decide (rel_ipCounter r = Some a) then 1 else 0) + holders tokens a)%nat.
Proof. unfold holders. rewrite filter_cons. by destruct (decide _). Qed.

Lemma holders_app t1 t2 a : holders (t1 ++ t2) a = (holders t1 a + holders t2 a)%nat.
Proof. unfold holders. by rewrite filter_app, length_app. Qed.

Lemma holders_held r tokens a :
  r ∈ tokens → rel_ipCounter r = Some a → (0 < holders tokens a)%nat.
Proof.
  intros Hr Ha. unfold holders.
  assert (r ∈ filter (λ r, rel_ipCounter r = Some a) tokens) as Hin
    by (by apply list_elem_of_filter).
  destruct (filter _ tokens); [by apply elem_of_nil in Hin|simpl; lia].
Qed.

Lemma Load_balanced cl tokens ip a :
  balanced cl tokens → perIPConnections cl !! ip = Some a →
  Load cl a = Z.of_nat (holders tokens a) ∧ counters cl !! a = Some (Load cl a).
Proof.
  intros (_ & Hvalid & Hcount & _) Hip. unfold Load.
  destruct (counters cl !! a) as [n|] eqn:Ha.
  - by rewrite (Hcount a n Ha).
  - apply lookup_ge_None in Ha. apply Hvalid in Hip. lia.
Qed.

Lemma CanAccept_None cl tokens remoteAddr :
  balanced cl tokens → CanAccept cl remoteAddr = None →
  (0 < maxConnections cl → Z.of_nat (length tokens) < maxConnections cl)
  ∧ (0 < maxPerIP cl → isTrustedConnection cl remoteAddr = false →
     ∀ a, perIPConnections cl !! ip_of remoteAddr = Some a →
          Z.of_nat (holders tokens a) < maxPerIP cl).
Proof.
  intros Hbal. pose proof Hbal as (Htotal & _). unfold CanAccept.
  destruct (bool_decide (maxConnections cl ≤ 0)) eqn:H1;
    [apply bool_decide_eq_true_1 in H1|apply bool_decide_eq_false_1 in H1];
  (destruct (bool_decide (maxPerIP cl ≤ 0)) eqn:H2;
    [apply bool_decide_eq_true_1 in H2|apply bool_decide_eq_false_1 in H2]);
  cbn [andb].
  - intros _. split; intros; lia.
  - rewrite (bool_decide_eq_false_2 (0 < maxConnections cl)) by lia. cbn [andb].
    rewrite (bool_decide_eq_true_2 (0 < maxPerIP cl)) by lia. cbn [andb].
    intros H. split; [lia|]. intros _ Htr a Ha. rewrite Htr, Ha in H. cbn in H.
    destruct (Load_balanced cl tokens _ a Hbal Ha) as [Hload _]. rewrite Hload in H.
    case_bool_decide; [done|lia].
  - rewrite (bool_decide_eq_true_2 (0 < maxConnections cl)) by lia. cbn [andb].
    case_bool_decide as Hfull; [done|].
    rewrite (bool_decide_eq_false_2 (0 < maxPerIP cl)) by lia. cbn [andb].
    intros _. split; intros; lia.
  - rewrite (bool_decide_eq_true_2 (0 < maxConnections cl)) by lia. cbn [andb].
    case_bool_decide as Hfull; [done|].
    rewrite (bool_decide_eq_true_2 (0 < maxPerIP cl)) by lia. cbn [andb].
    intros H. split; [lia|]. intros _ Htr a Ha. rewrite Htr, Ha in H. cbn in H.
    destruct (Load_balanced cl tokens _ a Hbal Ha) as [Hload _]. rewrite Hload in H.
    case_bool_decide; [done|lia].
Qed.

Lemma Accept_balanced cl tokens remoteAddr :
  balanced cl tokens → within_limits cl tokens →
  Z.of_nat (length tokens) < max_int64 →
  match Accept cl remoteAddr with
  | (inr err, cl') => cl' = cl ∧ CanAccept cl remoteAddr = Some err
  | (inl r, cl') =>
      CanAccept cl remoteAddr = None
      ∧ balanced cl' (r :: tokens) ∧ within_limits cl' (r :: tokens)
      ∧ rel_ip r = ip_of remoteAddr
      ∧ (is_Some (rel_ipCounter r) ↔
         0 < maxPerIP cl ∧ isTrustedConnection cl remoteAddr = false)
  end.
Proof.
  intros Hbal Hlim Hbound. unfold Accept.
  destruct (CanAccept cl remoteAddr) as [err|] eqn:Hcan; [done|].
  destruct (CanAccept_None cl tokens remoteAddr Hbal Hcan) as [Hroom Hiproom].
  destruct Hbal as (Htotal & Hvalid & Hcount & Hheld & Hinj).
  destruct Hlim as [Hmax Hmaxip].
  cbv zeta. cbn [maxPerIP with_total perIPConnections counters].
  change (isTrustedConnection (with_total _ cl) remoteAddr)
    with (isTrustedConnection cl remoteAddr).
  assert (Add 1 (currentTotal cl) = Z.of_nat (length (A:=release_func) tokens) + 1) as Hadd.
  { unfold Add. rewrite Htotal. apply DB.to_int64_id. unfold max_int64 in *. lia. }
  destruct (bool_decide (0 < maxPerIP cl)) eqn:Hper;
    [apply bool_decide_eq_true_1 in Hper|apply bool_decide_eq_false_1 in Hper];
    cbn [andb negb]; [destruct (isTrustedConnection cl remoteAddr) eqn:Htr; cbn [negb]|].
  - (* trusted *)
    split; [done|]. split; [|split; [|split; [done|]]].
    + split; [|split; [done|split; [|split; [|done]]]];
        cbn [currentTotal with_total counters perIPConnections maxPerIP length].
      * rewrite Hadd. lia.
      * intros a n Ha. rewrite holders_cons, decide_False by done. by apply Hcount.
      * intros r a [->|Hr]%elem_of_cons Ha; [done|]. by apply (Hheld r a).
    + split; cbn [maxConnections maxPerIP with_total length].
      * intros Hpos. specialize (Hroom Hpos). lia.
      * intros Hpos a. rewrite holders_cons, decide_False by done. by apply Hmaxip.
    + cbn. split; [by intros [? [=]]|by intros [_ [=]]].
  - (* counted by address *)
    destruct (perIPConnections cl !! ip_of remoteAddr) as [a|] eqn:Hip.
    + destruct (Load_balanced cl tokens _ a (conj Htotal (conj Hvalid (conj Hcount
                  (conj Hheld Hinj)))) Hip) as [Hload Hlook].
      specialize (Hiproom Hper eq_refl a eq_refl).
      assert (Add 1 (Load (with_total (Add 1 (currentTotal cl)) cl) a)
              = Z.of_nat (holders tokens a) + 1) as Hadd1.
      { change (Load (with_total _ cl) a) with (Load cl a). rewrite Hload. unfold Add.
        apply DB.to_int64_id. pose proof (holders_le tokens a). unfold max_int64 in *. lia. }
      split; [done|]. unfold Add_at. rewrite Hadd1.
      split; [|split; [|split; [done|]]].
      * split; [|split; [|split; [|split; [|done]]]];
          cbn [currentTotal with_total with_counters counters perIPConnections maxPerIP
               length].
        -- rewrite Hadd. lia.
        -- intros ip a' Ha'. rewrite length_insert. by eapply Hvalid.
        -- intros a' n. destruct (decide (a' = a)) as [->|Hne].
           ++ rewrite list_lookup_insert_eq by (by eapply Hvalid).
              intros [= <-]. rewrite holders_cons, decide_True by done. lia.
           ++ rewrite list_lookup_insert_ne by done. intros Ha'.
              rewrite holders_cons, decide_False by (cbn; congruence). by apply Hcount.
        -- intros r a' [->|Hr]%elem_of_cons Ha'.
           ++ cbn in Ha'. injection Ha' as <-. done.
           ++ by apply (Hheld r a').
      * split; cbn [maxConnections maxPerIP with_total with_counters length].
        -- intros Hpos. specialize (Hroom Hpos). lia.
        -- intros _ a'. rewrite holders_cons. destruct (decide _) as [Heq|Hne].
           ++ cbn in Heq. injection Heq as <-. lia.
           ++ specialize (Hmaxip Hper a'). lia.
      * cbn. split; [done|]. intros _. by eexists.
    + assert (holders tokens (length (counters cl)) = 0%nat) as Hnone.
      { unfold holders. rewrite DB.filter_none; [done|].
        apply Forall_forall. intros r Hr Ha.
        destruct (Hheld r _ Hr Ha) as (Hmap & _). apply Hvalid in Hmap. lia. }
      split; [done|]. unfold Add_at.
      cbn [counters with_total with_counters with_perIP].
      assert (Load (with_perIP (<[ip_of remoteAddr := length (counters cl)]>
                                  (perIPConnections cl))
                      (with_counters (counters cl ++ [0])
                         (with_total (Add 1 (currentTotal cl)) cl)))
                (length (counters cl)) = 0) as ->.
      { unfold Load. cbn [counters with_perIP with_counters].
        by rewrite lookup_app_r, Nat.sub_diag by lia. }
      assert (Add 1 0 = 1) as -> by done.
      assert (<[length (counters cl) := 1]> (counters cl ++ [0]) = counters cl ++ [1])
        as Hins.
      { rewrite insert_app_r_alt, Nat.sub_diag by lia. done. }
      rewrite Hins.
      split; [|split; [|split; [done|]]].
      * split; [|split; [|split; [|split]]];
          cbn [currentTotal with_total with_counters with_perIP counters perIPConnections
               maxPerIP length].
        -- rewrite Hadd. lia.
        -- intros ip a'. rewrite length_app. cbn [length].
           destruct (decide (ip = ip_of remoteAddr)) as [->|Hne].
           ++ rewrite lookup_insert_eq. intros [= <-]. lia.
           ++ rewrite lookup_insert_ne by done. intros Ha'%Hvalid. lia.
        -- intros a' n. destruct (decide (a' < length (counters cl))%nat) as [Hlt|Hge].
           ++ rewrite lookup_app_l by done. intros Ha'.
              rewrite holders_cons, decide_False by (cbn; intros [= ?]; lia).
              by apply Hcount.
           ++ rewrite lookup_app_r by lia. intros Ha'.
              destruct (a' - length (counters cl))%nat as [|k] eqn:Hk; [|done].
              assert (a' = length (counters cl)) as -> by lia.
              cbn in Ha'. injection Ha' as <-.
              rewrite holders_cons, decide_True, Hnone by done. done.
        -- intros r a' [->|Hr]%elem_of_cons Ha'.
           ++ cbn in Ha'. injection Ha' as <-. cbn. by rewrite lookup_insert_eq.
           ++ destruct (Hheld r a' Hr Ha') as (Hmap & ? & ?).
              split; [|done]. rewrite lookup_insert_ne; [done|].
              intros Heq. rewrite <-Heq in Hmap. congruence.
        -- intros ip1 ip2 a'.
           destruct (decide (ip1 = ip_of remoteAddr)) as [->|Hne1],
                    (decide (ip2 = ip_of remoteAddr)) as [->|Hne2]; [done|..].
           ++ rewrite lookup_insert_eq, lookup_insert_ne by done.
              intros [= <-] Ha'%Hvalid. lia.
           ++ rewrite lookup_insert_eq, lookup_insert_ne by done.
              intros Ha'%Hvalid [= <-]. lia.
           ++ rewrite !lookup_insert_ne by done. apply Hinj.
      * split; cbn [maxConnections maxPerIP with_total with_counters with_perIP length].
        -- intros Hpos. specialize (Hroom Hpos). lia.
        -- intros _ a'. rewrite holders_cons. destruct (decide _) as [Heq|Hne].
           ++ cbn in Heq. injection Heq as <-. rewrite Hnone. lia.
           ++ specialize (Hmaxip Hper a'). lia.
      * cbn. split; [done|]. intros _. by eexists.
  - (* no limit per address *)
    split; [done|]. split; [|split; [|split; [done|]]].
    + split; [|split; [done|split; [|split; [|done]]]];
        cbn [currentTotal with_total counters perIPConnections maxPerIP length].
      * rewrite Hadd. lia.
      * intros a n Ha. rewrite holders_cons, decide_False by done. by apply Hcount.
      * intros r a [->|Hr]%elem_of_cons Ha; [done|]. by apply (Hheld r a).
    + split; cbn [maxConnections maxPerIP with_total length].
      * intros Hpos. specialize (Hroom Hpos). lia.
      * intros Hpos. lia.
    + cbn. split; [by intros [? [=]]|]. intros [? _]. lia.
Qed.

Lemma holders_middle t1 r t2 a :
  holders (t1 ++ r :: t2) a
  = ((if decide (rel_ipCounter r = Some a) then 1 else 0) + holders (t1 ++ t2) a)%nat.
Proof. rewrite !holders_app, holders_cons. lia. Qed.

Lemma release_balanced cl t1 r t2 :
  balanced cl (t1 ++ r :: t2) → within_limits cl (t1 ++ r :: t2) →
  Z.of_nat (length (t1 ++ r :: t2)) ≤ max_int64 →
  balanced (release r cl) (t1 ++ t2) ∧ within_limits (release r cl) (t1 ++ t2).
Proof.
  intros Hbal Hlim Hbound.
  assert (r ∈ t1 ++ r :: t2) as Hr by (apply elem_of_app; right; left).
  pose proof Hbal as (Htotal & Hvalid & Hcount & Hheld & Hinj).
  destruct Hlim as [Hmax Hmaxip].
  assert (length (t1 ++ r :: t2) = S (length (t1 ++ t2))) as Hlen
    by (rewrite !length_app; simpl; lia).
  assert (Add (-1) (currentTotal cl) = Z.of_nat (length (t1 ++ t2))) as Hadd.
  { unfold Add. rewrite Htotal, Hlen.
    rewrite DB.to_int64_id by (unfold max_int64 in *; lia). lia. }
  assert (within_limits (with_total (Add (-1) (currentTotal cl)) cl) (t1 ++ t2)) as Hlim0.
  { split; cbn [maxConnections maxPerIP with_total].
    - intros Hpos. specialize (Hmax Hpos). lia.
    - intros Hpos a. specialize (Hmaxip Hpos a). rewrite holders_middle in Hmaxip.
      destruct (decide _); lia. }
  unfold release. cbv zeta. cbn [maxPerIP with_total].
  destruct (rel_ipCounter r) as [a|] eqn:Ha.
  - destruct (Hheld r a Hr Ha) as (Hmap & Htr & Hper).
    rewrite Htr, (bool_decide_eq_true_2 _ Hper). cbn [andb negb].
    destruct (Load_balanced cl _ _ a Hbal Hmap) as [Hload Hlook].
    pose proof (holders_held r _ a Hr Ha) as Hpos.
    pose proof (holders_le (t1 ++ r :: t2) a) as Hle.
    assert (holders (t1 ++ r :: t2) a = S (holders (t1 ++ t2) a)) as Hh.
    { rewrite holders_middle, decide_True by done. done. }
    unfold Add_at. change (Load (with_total _ cl) a) with (Load cl a).
    assert (Add (-1) (Load cl a) = Z.of_nat (holders (t1 ++ t2) a)) as ->.
    { unfold Add. rewrite Hload, Hh.
      rewrite DB.to_int64_id by (unfold max_int64 in *; lia). lia. }
    set (cl1 := with_counters _ _).
    assert (Load cl1 a = Z.of_nat (holders (t1 ++ t2) a)) as Hload1.
    { unfold Load, cl1. cbn [counters with_counters with_total].
      by rewrite list_lookup_insert_eq by (by eapply Hvalid). }
    rewrite Hload1.
    assert (balanced cl1 (t1 ++ t2) ∨ holders (t1 ++ t2) a = 0%nat) as Hbal1.
    { destruct (decide (holders (t1 ++ t2) a = 0%nat)) as [?|Hne]; [by right|]. left.
      split; [|split; [|split; [|split]]];
        unfold cl1; cbn [currentTotal with_total with_counters counters perIPConnections
                         maxPerIP].
      - done.
      - intros ip a' Ha'. rewrite length_insert. by eapply Hvalid.
      - intros a' n. destruct (decide (a' = a)) as [->|Hne'].
        + rewrite list_lookup_insert_eq by (by eapply Hvalid). by intros [= <-].
        + rewrite list_lookup_insert_ne by done. intros Ha'.
          rewrite (Hcount a' n Ha'), holders_middle, decide_False by congruence. done.
      - intros r' a' Hr' Ha'. apply (Hheld r' a'); [|done].
        apply elem_of_app in Hr' as [?|?]; apply elem_of_app; [by left|by right; right].
      - done. }
    assert (∀ a' n, a' ≠ a → counters cl !! a' = Some n →
              n = Z.of_nat (holders (t1 ++ t2) a')) as Hothers.
    { intros a' n Hne Ha'.
      rewrite (Hcount a' n Ha'), holders_middle, decide_False by congruence. done. }
    case_bool_decide as Hzero.
    + assert (holders (t1 ++ t2) a = 0%nat) as Hnone by lia.
      split; [|done].
      split; [|split; [|split; [|split]]];
        unfold cl1; cbn [currentTotal with_total with_counters with_perIP counters
                         perIPConnections maxPerIP].
      * done.
      * intros ip a' [_ Ha']%lookup_delete_Some. rewrite length_insert. by eapply Hvalid.
      * intros a' n. destruct (decide (a' = a)) as [->|Hne'].
        -- rewrite list_lookup_insert_eq by (by eapply Hvalid). by intros [= <-].
        -- rewrite list_lookup_insert_ne by done. by apply Hothers.
      * intros r' a' Hr' Ha'.
        assert (r' ∈ t1 ++ r :: t2) as Hr'2.
        { apply elem_of_app in Hr' as [?|?]; apply elem_of_app; [by left|by right; right]. }
        destruct (Hheld r' a' Hr'2 Ha') as (Hmap' & ? & ?).
        split; [|done]. rewrite lookup_delete_ne; [done|].
        intros Heq. rewrite <-Heq in Hmap'. rewrite Hmap in Hmap'. injection Hmap' as <-.
        pose proof (holders_held r' (t1 ++ t2) a Hr' Ha'). lia.
      * intros ip1 ip2 a' [_ H1]%lookup_delete_Some [_ H2]%lookup_delete_Some.
        by eapply Hinj.
    + destruct Hbal1 as [Hbal1|?]; [|lia]. done.
  - split; [|done].
    split; [|split; [done|split; [|split; [|done]]]];
      cbn [currentTotal with_total counters perIPConnections maxPerIP].
    + done.
    + intros a n Hn. rewrite (Hcount a n Hn), holders_middle, decide_False by congruence.
      done.
    + intros r' a' Hr' Ha'. apply (Hheld r' a'); [|done].
      apply elem_of_app in Hr' as [?|?]; apply elem_of_app; [by left|by right; right].
Qed.

Lemma cleanup_balanced cl tokens :
  balanced cl tokens → within_limits cl tokens →
  balanced (cleanup cl) tokens ∧ within_limits (cleanup cl) tokens.
Proof.
  intros Hbal Hlim. pose proof Hbal as (Htotal & Hvalid & Hcount & Hheld & Hinj).
  split; [|done].
  split; [|split; [|split; [|split]]];
    unfold cleanup; cbn [currentTotal with_perIP counters perIPConnections maxPerIP].
  - done.
  - intros ip a [Ha _]%map_lookup_filter_Some. by eapply Hvalid.
  - done.
  - intros r a Hr Ha. destruct (Hheld r a Hr Ha) as (Hmap & ? & ?).
    split; [|done]. apply map_lookup_filter_Some. split; [done|]. cbn.
    destruct (Load_balanced cl tokens _ a Hbal Hmap) as [-> _].
    pose proof (holders_held r tokens a Hr Ha). lia.
  - intros ip1 ip2 a [H1 _]%map_lookup_filter_Some [H2 _]%map_lookup_filter_Some.
    by eapply Hinj.
Qed.

(** The settings of a limiter. *)
Definition same_settings (cl cl' : ConnectionLimiter) : Prop :=
  maxConnections cl' = maxConnections cl ∧ maxPerIP cl' = maxPerIP cl
  ∧ trustedNets cl' = trustedNets cl ∧ protocol cl' = protocol cl.

Lemma isTrustedConnection_settings cl cl' remoteAddr :
  same_settings cl cl' → isTrustedConnection cl' remoteAddr = isTrustedConnection cl remoteAddr.
Proof. intros (_ & _ & Ht & _). unfold isTrustedConnection. by rewrite Ht. Qed.

Lemma Accept_settings cl remoteAddr : same_settings cl (Accept cl remoteAddr).2.
Proof.
  unfold Accept. destruct (CanAccept cl remoteAddr); [done|]. cbv zeta.
  destruct (_ && _); [|done].
  by destruct (perIPConnections _ !! _).
Qed.

Lemma release_settings r cl : same_settings cl (release r cl).
Proof.
  unfold release. cbv zeta. destruct (rel_ipCounter r); [|done].
  destruct (_ && _); [|done]. by repeat case_bool_decide.
Qed.

Lemma filter_ext_in {A} (P Q : A → Prop) `{!∀ x, Decision (P x)} `{!∀ x, Decision (Q x)}
    (l : list A) :
  (∀ x, x ∈ l → P x ↔ Q x) → filter P l = filter Q l.
Proof.
  induction l as [|x l IH]; intros Hext; [done|].
  rewrite !filter_cons, IH by (intros y ?; apply Hext; by right).
  destruct (decide (P x)) as [HP|HP], (decide (Q x)) as [HQ|HQ]; try done.
  - destruct HQ. apply (Hext x); [left|done].
  - destruct HP. apply (Hext x); [left|done].
Qed.

(** A counter in the map counts the open untrusted connections of its
    address, and an address without a counter has none. *)
Lemma connections_from_balanced cl tokens ip :
  balanced cl tokens →
  match perIPConnections cl !! ip with
  | Some a => Load cl a = Z.of_nat (connections_from tokens ip)
  | None => connections_from tokens ip = 0%nat
  end.
Proof.
  intros Hbal. pose proof Hbal as (_ & _ & _ & Hheld & Hinj).
  destruct (perIPConnections cl !! ip) as [a|] eqn:Hip.
  - destruct (Load_balanced cl tokens ip a Hbal Hip) as [-> _].
    f_equal. unfold holders, connections_from. f_equal. apply filter_ext_in.
    intros r Hr. split.
    + intros Ha. destruct (Hheld r a Hr Ha) as (Hmap & _).
      split; [by eapply Hinj|by eexists].
    + intros [<- [a' Ha']]. destruct (Hheld r a' Hr Ha') as (Hmap & _). congruence.
  - unfold connections_from. rewrite DB.filter_none; [done|].
    apply Forall_forall. intros r Hr [<- [a' Ha']].
    destruct (Hheld r a' Hr Ha') as (Hmap & _). congruence.
Qed.

(** X18.  Where the limiter counts the open connections, CanAccept decides
    by them alone: it refuses with the total when a positive maxConnections
    is reached by the number of open connections, else with the address when
    a positive maxPerIP is reached by the open connections of that address
    and the address is not in a trusted network, and else accepts.  A
    trusted address is never refused for the number of its connections, but
    counts in the total like any other. *)
Theorem CanAccept_counts_open_connections cl tokens remoteAddr :
  balanced cl tokens →
  let total := Z.of_nat (length tokens) in
  let here := Z.of_nat (connections_from tokens (ip_of remoteAddr)) in
  CanAccept cl remoteAddr
  = if bool_decide (0 < maxConnections cl ∧ maxConnections cl ≤ total) then
      Some (ErrMaxConnections total (maxConnections cl))
    else if bool_decide (0 < maxPerIP cl ∧ maxPerIP cl ≤ here)
            && negb (isTrustedConnection cl remoteAddr) then
      Some (ErrMaxPerIP (ip_of remoteAddr) here (maxPerIP cl))
    else None.
Proof.
  intros Hbal. cbv zeta. pose proof Hbal as (Htotal & _).
  pose proof (connections_from_balanced cl tokens (ip_of remoteAddr) Hbal) as Hhere.
  unfold CanAccept. rewrite Htotal.
  destruct (decide (0 < maxConnections cl)) as [Hc|Hc],
           (decide (0 < maxPerIP cl)) as [Hp|Hp].
  - rewrite (bool_decide_eq_false_2 (maxConnections cl ≤ 0)) by lia.
    rewrite (bool_decide_eq_true_2 (0 < maxConnections cl)) by done. cbn [andb].
    destruct (decide (maxConnections cl ≤ Z.of_nat (length tokens))) as [Hfull|Hroom].
    { by rewrite !bool_decide_eq_true_2 by done. }
    rewrite !(bool_decide_eq_false_2 (maxConnections cl ≤ _)) by done.
    rewrite (bool_decide_eq_false_2 (_ ∧ maxConnections cl ≤ _)) by (by intros [? ?]).
    rewrite (bool_decide_eq_true_2 (0 < maxPerIP cl)) by done. cbn [andb].
    destruct (isTrustedConnection cl remoteAddr); cbn [negb];
      [by rewrite andb_false_r|rewrite andb_true_r].
    destruct (perIPConnections cl !! ip_of remoteAddr) as [a|]; cbv zeta.
    + rewrite Hhere. case_bool_decide as H1.
      * by rewrite bool_decide_eq_true_2.
      * rewrite bool_decide_eq_false_2; [done|]. by intros [? ?].
    + rewrite Hhere. rewrite bool_decide_eq_false_2; [done|]. intros [? ?]. simpl in *. lia.
  - rewrite (bool_decide_eq_false_2 (maxConnections cl ≤ 0)) by lia.
    rewrite (bool_decide_eq_true_2 (0 < maxConnections cl)) by done. cbn [andb].
    destruct (decide (maxConnections cl ≤ Z.of_nat (length tokens))) as [Hfull|Hroom].
    { by rewrite !bool_decide_eq_true_2 by done. }
    rewrite !(bool_decide_eq_false_2 (maxConnections cl ≤ _)) by done.
    rewrite (bool_decide_eq_false_2 (_ ∧ maxConnections cl ≤ _)) by (by intros [? ?]).
    rewrite (bool_decide_eq_false_2 (0 < maxPerIP cl)) by done. cbn [andb].
    rewrite bool_decide_eq_false_2; [done|]. by intros [? ?].
  - rewrite (bool_decide_eq_true_2 (maxConnections cl ≤ 0)) by lia.
    rewrite (bool_decide_eq_false_2 (maxPerIP cl ≤ 0)) by lia. cbn [andb].
    rewrite (bool_decide_eq_false_2 (0 < maxConnections cl)) by done. cbn [andb].
    rewrite (bool_decide_eq_false_2 (_ ∧ maxConnections cl ≤ _)) by (by intros [? ?]).
    rewrite (bool_decide_eq_true_2 (0 < maxPerIP cl)) by done. cbn [andb].
    destruct (isTrustedConnection cl remoteAddr); cbn [negb];
      [by rewrite andb_false_r|rewrite andb_true_r].
    destruct (perIPConnections cl !! ip_of remoteAddr) as [a|]; cbv zeta.
    + rewrite Hhere. case_bool_decide as H1.
      * by rewrite bool_decide_eq_true_2.
      * rewrite bool_decide_eq_false_2; [done|]. by intros [? ?].
    + rewrite Hhere. rewrite bool_decide_eq_false_2; [done|]. intros [? ?]. simpl in *. lia.
  - rewrite (bool_decide_eq_true_2 (maxConnections cl ≤ 0)) by lia.
    rewrite (bool_decide_eq_true_2 (maxPerIP cl ≤ 0)) by lia. cbn [andb].
    rewrite (bool_decide_eq_false_2 (_ ∧ maxConnections cl ≤ _)) by (by intros [? ?]).
    rewrite (bool_decide_eq_false_2 (_ ∧ maxPerIP cl ≤ _)) by (by intros [? ?]). done.
Qed.

(** ** A history of connections *)

(** What happens to a limiter: a connection asks to be accepted, the i-th
    open connection is closed (each closure is called once), the cleanup
    runs. *)
Inductive event :=
| Accepts (remoteAddr : Addr)
| Releases (i : nat)
| Cleans.

Definition step (s : ConnectionLimiter * list release_func) (e : event)
    : ConnectionLimiter * list release_func :=
  match e with
  | Accepts remoteAddr =>
      match Accept s.1 remoteAddr with
      | (inl r, cl) => (cl, r :: s.2)
      | (inr _, cl) => (cl, s.2)
      end
  | Releases i =>
      match s.2 !! i with
      | Some r => (release r s.1, delete i s.2)
      | None => s
      end
  | Cleans => (cleanup s.1, s.2)
  end.

(** A limiter as its constructors make it (lines 392-419). *)
Definition is_new (cl : ConnectionLimiter) : Prop :=
  currentTotal cl = 0 ∧ counters cl = [] ∧ perIPConnections cl = ∅.

Lemma step_balanced s e :
  balanced s.1 s.2 → within_limits s.1 s.2 → Z.of_nat (length s.2) < max_int64 →
  balanced (step s e).1 (step s e).2 ∧ within_limits (step s e).1 (step s e).2
  ∧ same_settings s.1 (step s e).1
  ∧ (length (step s e).2 ≤ S (length s.2))%nat.
Proof.
  destruct s as [cl tokens]. cbn [fst snd]. intros Hbal Hlim Hbound.
  destruct e as [remoteAddr|i|]; cbn [step fst snd].
  - pose proof (Accept_balanced cl tokens remoteAddr Hbal Hlim Hbound) as Hacc.
    pose proof (Accept_settings cl remoteAddr) as Hset.
    destruct (Accept cl remoteAddr) as [[r|err] cl']; cbn [fst snd] in *.
    + destruct Hacc as (_ & ? & ? & _). done.
    + destruct Hacc as [-> _]. split; [done|]. split; [done|]. split; [done|]. lia.
  - destruct (tokens !! i) as [r|] eqn:Hi; cbn [fst snd].
    + rewrite <-(take_drop_middle tokens i r Hi) in Hbal, Hlim, Hbound.
      rewrite delete_take_drop.
      destruct (release_balanced cl _ r _ Hbal Hlim) as [? ?]; [lia|].
      split; [done|]. split; [done|]. split; [apply release_settings|].
      rewrite <-(take_drop_middle tokens i r Hi) at 3. rewrite !length_app. simpl. lia.
    + split; [done|]. split; [done|]. split; [done|]. lia.
  - destruct (cleanup_balanced cl tokens Hbal Hlim) as [? ?].
    split; [done|]. split; [done|]. split; [done|]. lia.
Qed.

(** When no two calls overlap: starting from a new limiter, whatever
    connections ask to be accepted, are closed and whenever the cleanup runs
    between them (fewer than 2^63 events in all), the total that GetStats
    reports is the number of open connections; a positive maxConnections is
    never exceeded by them; a positive maxPerIP is never exceeded by the
    open untrusted connections of one address; and the count that GetStats
    reports for an address is the number of these.  Calls that overlap are
    taken up further down. *)
Lemma serial_limits_are_kept cl0 history :
  is_new cl0 →
  Z.of_nat (length history) < max_int64 →
  let cl := (foldl step (cl0, []) history).1 in
  let tokens := (foldl step (cl0, []) history).2 in
  TotalConnections (GetStats cl) = Z.of_nat (length tokens)
  ∧ (0 < maxConnections cl0 → Z.of_nat (length tokens) ≤ maxConnections cl0)
  ∧ (0 < maxPerIP cl0 → ∀ ip, Z.of_nat (connections_from tokens ip) ≤ maxPerIP cl0)
  ∧ ∀ ip n, IPConnections (GetStats cl) !! ip = Some n →
            n = Z.of_nat (connections_from tokens ip).
Proof.
  intros (Htotal0 & Hcounters0 & Hmap0) Hbound. cbv zeta.
  assert (∀ s, balanced s.1 s.2 → within_limits s.1 s.2 →
               Z.of_nat (length s.2) + Z.of_nat (length history) < max_int64 →
               balanced (foldl step s history).1 (foldl step s history).2
               ∧ within_limits (foldl step s history).1 (foldl step s history).2
               ∧ same_settings s.1 (foldl step s history).1) as Hinv.
  { clear. induction history as [|e history IH]; intros s Hbal Hlim Hbound; cbn [foldl].
    - split; [done|]. split; [done|]. by repeat split.
    - cbn [length] in Hbound.
      destruct (step_balanced s e Hbal Hlim) as (Hbal' & Hlim' & Hset & Hlen); [lia|].
      destruct (IH (step s e) Hbal' Hlim') as (? & ? & Hset'); [lia|].
      split; [done|]. split; [done|].
      destruct Hset as (? & ? & ? & ?), Hset' as (? & ? & ? & ?).
      repeat split; congruence. }
  destruct (Hinv (cl0, [])) as (Hbal & [Hmax Hmaxip] & (Hmc & Hmp & _)); cbn [fst snd].
  - split; [by rewrite Htotal0|]. split; [by rewrite Hmap0|].
    split; [by rewrite Hcounters0|]. split; [|by rewrite Hmap0].
    intros r a Hr. by apply elem_of_nil in Hr.
  - split; [intros ?; cbn; lia|]. intros ? a. unfold holders. cbn. lia.
  - cbn [length]. lia.
  - set (s := foldl step (cl0, []) history) in *. cbn [fst snd] in Hmc, Hmp.
    rewrite Hmc in Hmax. rewrite Hmp in Hmaxip.
    split; [apply Hbal|]. split; [done|]. split.
    + intros Hpos ip.
      pose proof (connections_from_balanced s.1 s.2 ip Hbal) as Hip.
      destruct (perIPConnections s.1 !! ip) as [a|] eqn:Ha; [|rewrite Hip; lia].
      destruct (Load_balanced s.1 s.2 ip a Hbal Ha) as [Hload _].
      specialize (Hmaxip Hpos a). lia.
    + intros ip n. unfold GetStats. cbn [IPConnections]. rewrite lookup_fmap.
      pose proof (connections_from_balanced s.1 s.2 ip Hbal) as Hip.
      destruct (perIPConnections s.1 !! ip) as [a|]; [|done].
      cbn. intros [= <-]. done.
Qed.

(** X20.  Closing a connection undoes its acceptance: after Accept and the
    call of the closure it returned, the total is what it was, CanAccept
    answers for every address as before, and GetStats reports for every
    address with open connections the count it reported before. *)
Theorem release_undoes_Accept cl tokens remoteAddr r cl' :
  balanced cl tokens → within_limits cl tokens →
  Z.of_nat (length tokens) < max_int64 →
  Accept cl remoteAddr = (inl r, cl') →
  let cl'' := release r cl' in
  TotalConnections (GetStats cl'') = TotalConnections (GetStats cl)
  ∧ (∀ addr, CanAccept cl'' addr = CanAccept cl addr)
  ∧ (∀ ip n, 0 < n →
       (IPConnections (GetStats cl'') !! ip = Some n ↔
        IPConnections (GetStats cl) !! ip = Some n)).
Proof.
  intros Hbal Hlim Hbound Hacc. cbv zeta.
  pose proof (Accept_balanced cl tokens remoteAddr Hbal Hlim Hbound) as H.
  pose proof (Accept_settings cl remoteAddr) as Hset1.
  rewrite Hacc in H, Hset1. cbn [snd] in Hset1. destruct H as (_ & Hbal' & Hlim' & _).
  destruct (release_balanced cl' [] r tokens Hbal' Hlim') as [Hbal'' _];
    [cbn [app length] in *; lia|]. cbn [app] in Hbal''.
  pose proof (release_settings r cl') as Hset2.
  assert (same_settings cl (release r cl')) as Hset.
  { destruct Hset1 as (? & ? & ? & ?), Hset2 as (? & ? & ? & ?). repeat split; congruence. }
  assert (∀ ip, IPConnections (GetStats (release r cl')) !! ip
                = (λ _, Z.of_nat (connections_from tokens ip))
                    <$> perIPConnections (release r cl') !! ip) as Hstats''.
  { intros ip. unfold GetStats. cbn [IPConnections]. rewrite lookup_fmap.
    pose proof (connections_from_balanced _ _ ip Hbal'') as Hip.
    destruct (perIPConnections _ !! ip); cbn; [by rewrite Hip|done]. }
  assert (∀ ip, IPConnections (GetStats cl) !! ip
                = (λ _, Z.of_nat (connections_from tokens ip))
                    <$> perIPConnections cl !! ip) as Hstats.
  { intros ip. unfold GetStats. cbn [IPConnections]. rewrite lookup_fmap.
    pose proof (connections_from_balanced _ _ ip Hbal) as Hip.
    destruct (perIPConnections _ !! ip); cbn; [by rewrite Hip|done]. }
  split; [|split].
  - unfold GetStats. cbn [TotalConnections].
    destruct Hbal as [-> _], Hbal'' as [-> _]. done.
  - intros addr.
    rewrite (CanAccept_counts_open_connections _ tokens addr Hbal'').
    rewrite (CanAccept_counts_open_connections _ tokens addr Hbal).
    destruct Hset as (-> & -> & Ht & _).
    unfold isTrustedConnection. by rewrite Ht.
  - intros ip n Hn. rewrite Hstats'', Hstats.
    pose proof (connections_from_balanced _ _ ip Hbal'') as Hip''.
    pose proof (connections_from_balanced _ _ ip Hbal) as Hip.
    destruct (perIPConnections (release r cl') !! ip), (perIPConnections cl !! ip);
      cbn; split; intros [= <-]; try done; lia.
Qed.

(** X21.  The cleanup takes out of the map the addresses whose counter is
    not positive and no other, and it changes no answer: the total is
    untouched and CanAccept decides for every address as before. *)
Theorem cleanup_changes_no_answer cl :
  TotalConnections (GetStats (cleanup cl)) = TotalConnections (GetStats cl)
  ∧ (∀ ip n, IPConnections (GetStats (cleanup cl)) !! ip = Some n ↔
             IPConnections (GetStats cl) !! ip = Some n ∧ 0 < n)
  ∧ ∀ remoteAddr, CanAccept (cleanup cl) remoteAddr = CanAccept cl remoteAddr.
Proof.
  split; [done|]. split.
  - intros ip n. unfold GetStats, cleanup.
    cbn [IPConnections perIPConnections with_perIP].
    rewrite !lookup_fmap.
    change (Load (with_perIP _ cl)) with (Load cl).
    destruct (perIPConnections cl !! ip) as [a|] eqn:Ha.
    + destruct (decide (Load cl a ≤ 0)) as [Hle|Hgt].
      * rewrite (proj2 (map_lookup_filter_None _ _ _)).
        2:{ right. intros a' Ha'. cbn. intros Hn. simplify_eq. lia. }
        cbn. split; [done|]. intros [[= <-] ?]. lia.
      * rewrite (proj2 (map_lookup_filter_Some _ _ _ _)) by (split; [done|cbn; lia]).
        cbn. split; [intros [= <-]; split; [done|lia]|by intros [? _]].
    + rewrite (proj2 (map_lookup_filter_None _ _ _)) by (by left).
      cbn. split; [done|by intros [? _]].
  - intros remoteAddr. unfold CanAccept.
    change (maxConnections (cleanup cl)) with (maxConnections cl).
    change (maxPerIP (cleanup cl)) with (maxPerIP cl).
    change (currentTotal (cleanup cl)) with (currentTotal cl).
    change (isTrustedConnection (cleanup cl) remoteAddr)
      with (isTrustedConnection cl remoteAddr).
    destruct (_ && _); [done|]. destruct (_ && _); [done|].
    destruct (bool_decide (0 < maxPerIP cl)) eqn:Hp; [|done].
    apply bool_decide_eq_true_1 in Hp. cbn [andb].
    destruct (negb _); [|done]. cbv zeta. unfold cleanup at 1.
    cbn [perIPConnections with_perIP]. change (Load (cleanup cl)) with (Load cl).
    destruct (perIPConnections cl !! ip_of remoteAddr) as [a|] eqn:Ha.
    + destruct (decide (Load cl a ≤ 0)) as [Hle|Hgt].
      * rewrite (proj2 (map_lookup_filter_None _ _ _)).
        2:{ right. intros a' Ha'. cbn. intros Hn. simplify_eq. lia. }
        rewrite bool_decide_eq_false_2; [done|lia].
      * by rewrite (proj2 (map_lookup_filter_Some _ _ _ _)) by (split; [done|cbn; lia]).
    + by rewrite (proj2 (map_lookup_filter_None _ _ _)) by (by left).
Qed.

(** ** Calls that overlap

    The limiter is shared by the goroutines of a server: Accept and the
    closures it returns run at the same time, and so does the cleanup.  The
    counters are atomic and the map is behind the mutex, but a call is not
    one step: CanAccept reads the total (line 463), then the map (lines
    476-478), then the counter of the address (line 481); Accept then adds to
    the total (line 507), takes or makes the counter under the lock (lines
    516-523) and adds to it outside the lock (line 525); the closure
    subtracts from the total (line 535), then from the counter (line 538),
    then deletes the entry under the lock (lines 542-546).  Steps of other
    calls may come between any two of them. *)

(** Where a call is: the phases of Accept in the order above, the
    connection open with its closure, the phases of the closure, and the
    two ends. *)
Inductive phase :=
| Checking (remoteAddr : Addr)
| CheckedTotal (remoteAddr : Addr)
| CheckingIP (remoteAddr : Addr) (ipCounter : nat)
| Passed (remoteAddr : Addr)
| Counted (remoteAddr : Addr)
| Pointed (remoteAddr : Addr) (ipCounter : nat)
| Open (r : release_func)
| Releasing (r : release_func)
| Deleting (r : release_func)
| Refused (err : error)
| Closed.

(** The next step of a call in phase [ph]; [None] when the call has none to
    take by itself. *)
Definition advance (cl : ConnectionLimiter) (ph : phase)
    : option (ConnectionLimiter * phase) :=
  match ph with
  | Checking remoteAddr =>
      if bool_decide (maxConnections cl ≤ 0) && bool_decide (maxPerIP cl ≤ 0)
      then Some (cl, Passed remoteAddr)
      else if bool_decide (0 < maxConnections cl)
              && bool_decide (maxConnections cl ≤ currentTotal cl)
      then Some (cl, Refused (ErrMaxConnections (currentTotal cl) (maxConnections cl)))
      else Some (cl, CheckedTotal remoteAddr)
  | CheckedTotal remoteAddr =>
      if bool_decide (0 < maxPerIP cl) && negb (isTrustedConnection cl remoteAddr) then
        match perIPConnections cl !! ip_of remoteAddr with
        | Some ipCounter => Some (cl, CheckingIP remoteAddr ipCounter)
        | None => Some (cl, Passed remoteAddr)
        end
      else Some (cl, Passed remoteAddr)
  | CheckingIP remoteAddr ipCounter =>
      let current := Load cl ipCounter in
      if bool_decide (maxPerIP cl ≤ current)
      then Some (cl, Refused (ErrMaxPerIP (ip_of remoteAddr) current (maxPerIP cl)))
      else Some (cl, Passed remoteAddr)
  | Passed remoteAddr =>
      Some (with_total (Add 1 (currentTotal cl)) cl, Counted remoteAddr)
  | Counted remoteAddr =>
      let isTrusted := isTrustedConnection cl remoteAddr in
      if bool_decide (0 < maxPerIP cl) && negb isTrusted then
        match perIPConnections cl !! ip_of remoteAddr with
        | Some ipCounter => Some (cl, Pointed remoteAddr ipCounter)
        | None =>
            let ipCounter := length (counters cl) in
            Some (with_perIP (<[ip_of remoteAddr := ipCounter]> (perIPConnections cl))
                    (with_counters (counters cl ++ [0]) cl),
                  Pointed remoteAddr ipCounter)
        end
      else
        Some (cl, Open {| rel_ip := ip_of remoteAddr; rel_isTrusted := isTrusted;
                          rel_ipCounter := None |})
  | Pointed remoteAddr ipCounter =>
      Some (Add_at ipCounter 1 cl,
            Open {| rel_ip := ip_of remoteAddr;
                    rel_isTrusted := isTrustedConnection cl remoteAddr;
                    rel_ipCounter := Some ipCounter |})
  | Releasing r =>
      match rel_ipCounter r with
      | Some ipCounter =>
          if bool_decide (0 < maxPerIP cl) && negb (rel_isTrusted r) then
            let cl := Add_at ipCounter (-1) cl in
            let remaining := Load cl ipCounter in
            if bool_decide (remaining ≤ 0) then Some (cl, Deleting r) else Some (cl, Closed)
          else Some (cl, Closed)
      | None => Some (cl, Closed)
      end
  | Deleting r =>
      match rel_ipCounter r with
      | Some ipCounter =>
          if bool_decide (Load cl ipCounter ≤ 0)
          then Some (with_perIP (delete (rel_ip r) (perIPConnections cl)) cl, Closed)
          else Some (cl, Closed)
      | None => Some (cl, Closed)
      end
  | Open _ | Refused _ | Closed => None
  end.

(** The limiter and the calls made so far, each in its phase. *)
Record system := {
  limiter : ConnectionLimiter;
  calls : list phase }.

(** What happens next: a new call of Accept; the next step of call [t]; the
    closure of the open connection [t] is called (once) and takes its first
    step; the cleanup visits the entry of [ip] (one turn of the loop of
    lines 609-614: between two turns the counters may change, Add not
    taking the mutex).  What the code does under the mutex is one step
    here, but for the loop of the cleanup, whose turns are steps of their
    own: the schedules below include every order the code can run in. *)
Inductive action :=
| Call (remoteAddr : Addr)
| Advance (t : nat)
| Close (t : nat)
| Clean (ip : string).

Definition clean_entry (ip : string) (cl : ConnectionLimiter) : ConnectionLimiter :=
  match perIPConnections cl !! ip with
  | Some counter =>
      if bool_decide (Load cl counter ≤ 0)
      then with_perIP (delete ip (perIPConnections cl)) cl else cl
  | None => cl
  end.

Definition act (s : system) (a : action) : option system :=
  match a with
  | Call remoteAddr =>
      Some {| limiter := limiter s; calls := calls s ++ [Checking remoteAddr] |}
  | Advance t =>
      ph ← calls s !! t;
      '(cl, ph') ← advance (limiter s) ph;
      Some {| limiter := cl; calls := <[t := ph']> (calls s) |}
  | Close t =>
      match calls s !! t with
      | Some (Open r) =>
          Some {| limiter := with_total (Add (-1) (currentTotal (limiter s))) (limiter s);
                  calls := <[t := Releasing r]> (calls s) |}
      | _ => None
      end
  | Clean ip => Some {| limiter := clean_entry ip (limiter s); calls := calls s |}
  end.

(** A schedule, from its first action on; [None] when some action cannot be
    taken. *)
Fixpoint play (s : system) (schedule : list action) : option system :=
  match schedule with
  | [] => Some s
  | a :: schedule => s' ← act s a; play s' schedule
  end.

(** Call [t] runs by itself until it has no step to take. *)
Fixpoint settle (fuel : nat) (t : nat) (s : system) : system :=
  match fuel with
  | O => s
  | S fuel =>
      match act s (Advance t) with
      | Some s' => settle fuel t s'
      | None => s
      end
  end.

(** The calls that have added to the total and not yet subtracted from it;
    those that have passed the check of the total and not yet added to it;
    those that have added to the counter at [p] and not yet subtracted. *)
Definition holds_total (ph : phase) : bool :=
  match ph with Counted _ | Pointed _ _ | Open _ => true | _ => false end.

Definition in_flight (ph : phase) : bool :=
  match ph with CheckedTotal _ | CheckingIP _ _ | Passed _ => true | _ => false end.

Definition holds_counter (p : nat) (ph : phase) : bool :=
  match ph with
  | Open r | Releasing r => bool_decide (rel_ipCounter r = Some p)
  | _ => false
  end.

Definition count (f : phase → bool) (phs : list phase) : nat :=
  length (filter (λ ph, f ph) phs).

(** The greatest number of calls in flight at one time in the course of a
    schedule. *)
Fixpoint peak (s : system) (schedule : list action) : nat :=
  match schedule with
  | [] => count in_flight (calls s)
  | a :: schedule =>
      match act s a with
      | Some s' => count in_flight (calls s) `max` peak s' schedule
      | None => count in_flight (calls s)
      end
  end.

(** A step of the call whose turn it is, in a proof. *)
Ltac go H :=
  match goal with
  | |- context [settle (S ?n) _ {| limiter := ?c; calls := _ ++ ?ph :: _ |}] =>
      rewrite (H n c ph)
  end;
  cbn [advance]; cbv beta iota zeta.

(** A call that runs by itself does what Accept does, and a closure that
    runs by itself what [release] does. *)
Lemma settle_Accept cl phs remoteAddr :
  settle 6 (length phs) {| limiter := cl; calls := phs ++ [Checking remoteAddr] |}
  = {| limiter := (Accept cl remoteAddr).2;
       calls := phs ++ [match (Accept cl remoteAddr).1 with
                        | inl r => Open r
                        | inr err => Refused err
                        end] |}.
Proof.
  assert (∀ ph, (phs ++ [ph]) !! length phs = Some ph) as Hlook.
  { intros ph. by rewrite lookup_app_r, Nat.sub_diag by done. }
  assert (∀ ph ph', <[length phs := ph']> (phs ++ [ph]) = phs ++ [ph']) as Hins.
  { intros ph ph'. by rewrite insert_app_r_alt, Nat.sub_diag by done. }
  assert (∀ n cl1 ph, settle (S n) (length phs) {| limiter := cl1; calls := phs ++ [ph] |}
            = match advance cl1 ph with
              | Some (cl2, ph') =>
                  settle n (length phs) {| limiter := cl2; calls := phs ++ [ph'] |}
              | None => {| limiter := cl1; calls := phs ++ [ph] |}
              end) as Hstep.
  { intros n cl1 ph. cbn [settle act limiter calls]. rewrite Hlook.
    cbn [mbind option_bind]. destruct (advance cl1 ph) as [[cl2 ph']|]; [|done].
    cbn [mbind option_bind]. by rewrite Hins. }
  unfold Accept, CanAccept. go Hstep.
  destruct (bool_decide (maxConnections cl ≤ 0) && bool_decide (maxPerIP cl ≤ 0)) eqn:Hnone.
  { apply andb_true_iff in Hnone as [Hmax%bool_decide_eq_true Hip%bool_decide_eq_true].
    go Hstep. go Hstep. cbn [maxPerIP with_total].
    rewrite (bool_decide_eq_false_2 (0 < maxPerIP cl)) by lia.
    cbn [andb]. go Hstep. done. }
  destruct (bool_decide (0 < maxConnections cl)
            && bool_decide (maxConnections cl ≤ currentTotal cl)) eqn:Hfull.
  { go Hstep. done. }
  go Hstep.
  assert (∀ t, isTrustedConnection (with_total t cl) remoteAddr
               = isTrustedConnection cl remoteAddr) as Htrust by done.
  destruct (bool_decide (0 < maxPerIP cl) && negb (isTrustedConnection cl remoteAddr))
    eqn:Hper.
  - destruct (perIPConnections cl !! ip_of remoteAddr) as [p|] eqn:Hp.
    + go Hstep. destruct (bool_decide (maxPerIP cl ≤ Load cl p)); [by go Hstep|].
      go Hstep. go Hstep. cbn [maxPerIP with_total perIPConnections]. rewrite Htrust, Hper, Hp.
      go Hstep. done.
    + go Hstep. go Hstep. cbn [maxPerIP with_total perIPConnections]. rewrite Htrust, Hper, Hp.
      go Hstep. go Hstep. done.
  - go Hstep. go Hstep. cbn [maxPerIP with_total]. rewrite Htrust, Hper. go Hstep. done.
Qed.

Lemma settle_release cl phs phs' r :
  (s ← act {| limiter := cl; calls := phs ++ Open r :: phs' |} (Close (length phs));
   Some (settle 2 (length phs) s))
  = Some {| limiter := release r cl; calls := phs ++ Closed :: phs' |}.
Proof.
  assert (∀ ph, (phs ++ ph :: phs') !! length phs = Some ph) as Hlook.
  { intros ph. by rewrite lookup_app_r, Nat.sub_diag by done. }
  assert (∀ ph ph', <[length phs := ph']> (phs ++ ph :: phs') = phs ++ ph' :: phs') as Hins.
  { intros ph ph'. by rewrite insert_app_r_alt, Nat.sub_diag by done. }
  assert (∀ n cl1 ph, settle (S n) (length phs) {| limiter := cl1; calls := phs ++ ph :: phs' |}
            = match advance cl1 ph with
              | Some (cl2, ph') =>
                  settle n (length phs) {| limiter := cl2; calls := phs ++ ph' :: phs' |}
              | None => {| limiter := cl1; calls := phs ++ ph :: phs' |}
              end) as Hstep.
  { intros n cl1 ph. cbn [settle act limiter calls]. rewrite Hlook.
    cbn [mbind option_bind]. destruct (advance cl1 ph) as [[cl2 ph']|]; [|done].
    cbn [mbind option_bind]. by rewrite Hins. }
  cbn [act limiter calls]. rewrite Hlook, Hins. cbn [mbind option_bind]. f_equal.
  unfold release. cbv zeta. go Hstep.
  destruct (rel_ipCounter r) as [p|] eqn:Hp; [|by go Hstep].
  cbn [maxPerIP with_total].
  destruct (bool_decide (0 < maxPerIP cl) && negb (rel_isTrusted r)); [|by go Hstep].
  destruct (bool_decide (Load (Add_at p (-1) (with_total _ cl)) p ≤ 0)) eqn:Hrem;
    [|by go Hstep].
  go Hstep. by rewrite Hp, Hrem.
Qed.

(** *** Counting the calls in a phase *)

Lemma count_cons f ph phs :
  count f (ph :: phs) = ((if f ph then 1 else 0) + count f phs)%nat.
Proof. unfold count. rewrite filter_cons. by destruct (f ph). Qed.

Lemma count_app f phs1 phs2 : count f (phs1 ++ phs2) = (count f phs1 + count f phs2)%nat.
Proof. unfold count. by rewrite filter_app, length_app. Qed.

Lemma count_le f phs : (count f phs ≤ length phs)%nat.
Proof. apply length_filter. Qed.

Lemma count_insert f phs t ph ph' :
  phs !! t = Some ph →
  Z.of_nat (count f (<[t := ph']> phs))
  = Z.of_nat (count f phs) + Z.b2z (f ph') - Z.b2z (f ph).
Proof.
  intros Ht. rewrite insert_take_drop by (by eapply lookup_lt_Some).
  rewrite <-(take_drop_middle phs t ph Ht) at 3.
  rewrite !count_app, !count_cons. destruct (f ph), (f ph'); cbn [Z.b2z]; lia.
Qed.

Lemma count_none f phs : (∀ ph, ph ∈ phs → f ph = false) → count f phs = 0%nat.
Proof.
  intros Hf. unfold count. rewrite DB.filter_none; [done|].
  apply Forall_forall. intros ph Hph. rewrite (Hf ph Hph). by intros ?.
Qed.

Lemma count_pos f phs t ph : phs !! t = Some ph → f ph = true → (0 < count f phs)%nat.
Proof.
  intros Ht Hf. rewrite <-(take_drop_middle phs t ph Ht), count_app, count_cons, Hf. lia.
Qed.

Lemma elem_of_insert_inv (phs : list phase) t ph ph' :
  ph ∈ <[t := ph']> phs → ph = ph' ∨ ph ∈ phs.
Proof.
  intros [i Hi]%list_elem_of_lookup.
  apply list_lookup_insert_Some in Hi as [(_ & -> & _)|[_ Hi]]; [by left|].
  right. by eapply list_elem_of_lookup_2.
Qed.

(** *** What holds of the limiter whatever the schedule *)

(** A call that holds a pointer to a counter holds one into the heap, and
    is a call from an address that is not trusted, to a limiter with a
    per-IP limit. *)
Definition well_pointed (cl0 cl : ConnectionLimiter) (ph : phase) : Prop :=
  match ph with
  | Pointed remoteAddr p =>
      (p < length (counters cl))%nat ∧ 0 < maxPerIP cl0
      ∧ isTrustedConnection cl0 remoteAddr = false
  | Open r | Releasing r =>
      ∀ p, rel_ipCounter r = Some p →
        (p < length (counters cl))%nat ∧ 0 < maxPerIP cl0 ∧ rel_isTrusted r = false
  | _ => True
  end.

(** The settings are those of the limiter at the start, [cl0]; the total is
    the number of calls that have added to it and not yet subtracted; so is
    every counter; the map points into the heap; and the total and the calls
    in flight together stay below maxConnections plus [K], where no more
    than [K] calls are in flight at one time. *)
Definition accounted (K : nat) (cl0 : ConnectionLimiter) (s : system) : Prop :=
  same_settings cl0 (limiter s)
  ∧ currentTotal (limiter s) = Z.of_nat (count holds_total (calls s))
  ∧ (∀ p, (p < length (counters (limiter s)))%nat →
       counters (limiter s) !! p = Some (Z.of_nat (count (holds_counter p) (calls s))))
  ∧ (∀ ip p, perIPConnections (limiter s) !! ip = Some p →
       (p < length (counters (limiter s)))%nat)
  ∧ (∀ ph, ph ∈ calls s → well_pointed cl0 (limiter s) ph)
  ∧ (0 < maxConnections cl0 →
     currentTotal (limiter s) + Z.of_nat (count in_flight (calls s))
     ≤ maxConnections cl0 - 1 + Z.of_nat K).

Lemma well_pointed_mono cl0 cl cl' ph :
  (length (counters cl) ≤ length (counters cl'))%nat →
  well_pointed cl0 cl ph → well_pointed cl0 cl' ph.
Proof.
  intros Hlen. destruct ph; cbn [well_pointed]; try done.
  - intros (? & ? & ?). split; [lia|done].
  - intros Hp p Hr. destruct (Hp p Hr) as (? & ? & ?). split; [lia|done].
  - intros Hp p Hr. destruct (Hp p Hr) as (? & ? & ?). split; [lia|done].
Qed.

(** No call holds a counter beyond the heap. *)
Lemma count_beyond cl0 cl phs p :
  (∀ ph, ph ∈ phs → well_pointed cl0 cl ph) →
  (length (counters cl) ≤ p)%nat → count (holds_counter p) phs = 0%nat.
Proof.
  intros Hwp Hp. apply count_none. intros ph Hph. specialize (Hwp ph Hph).
  destruct ph; cbn [holds_counter]; try done;
    (apply bool_decide_eq_false; intros Hr; destruct (Hwp p Hr); lia).
Qed.

(** A step of call [t] from phase [ph] to [ph'] that takes the limiter from
    [cl] to [cl'], under what each step has to show: the settings stay, the
    total and the counters move with the phase, the map stays in the heap,
    the call holds a good pointer, a call comes in flight only when the
    total is below the limit, and the total grows only by a call in
    flight. *)
Lemma accounted_step K cl0 cl phs t ph cl' ph' :
  accounted K cl0 {| limiter := cl; calls := phs |} →
  phs !! t = Some ph →
  same_settings cl cl' →
  currentTotal cl' = currentTotal cl + Z.b2z (holds_total ph') - Z.b2z (holds_total ph) →
  (length (counters cl) ≤ length (counters cl'))%nat →
  (∀ p, (p < length (counters cl'))%nat →
     counters cl' !! p
     = Some (default 0 (counters cl !! p)
             + Z.b2z (holds_counter p ph') - Z.b2z (holds_counter p ph))) →
  (∀ ip p, perIPConnections cl' !! ip = Some p → (p < length (counters cl'))%nat) →
  well_pointed cl0 cl' ph' →
  (0 < maxConnections cl0 → in_flight ph' = true → in_flight ph = false →
   currentTotal cl < maxConnections cl0) →
  (holds_total ph' = true → holds_total ph = false →
   in_flight ph = true ∧ in_flight ph' = false) →
  (count in_flight (<[t := ph']> phs) ≤ K)%nat →
  accounted K cl0 {| limiter := cl'; calls := <[t := ph']> phs |}.
Proof.
  intros (Hset & Htotal & Hcount & Hmap & Hwp & HJ) Ht Hset' Htotal' Hlen Hcount' Hmap'
    Hwp' Hin Hgrow HK.
  cbn [limiter calls] in *.
  split; [|split; [|split; [|split; [|split]]]]; cbn [limiter calls].
  - destruct Hset as (? & ? & ? & ?), Hset' as (? & ? & ? & ?). repeat split; congruence.
  - rewrite (count_insert _ _ _ _ _ Ht). lia.
  - intros p Hp. rewrite (Hcount' p Hp), (count_insert _ _ _ _ _ Ht). f_equal.
    destruct (decide (p < length (counters cl))%nat) as [Hold|Hnew].
    + rewrite (Hcount p Hold). cbn [default from_option Datatypes.id]. lia.
    + rewrite lookup_ge_None_2 by lia. cbn [default from_option Datatypes.id].
      rewrite (count_beyond cl0 cl phs p Hwp) by lia. lia.
  - done.
  - intros ph1 [->|Hph1]%elem_of_insert_inv; [done|].
    eapply well_pointed_mono; [done|]. by apply Hwp.
  - intros Hmax. specialize (HJ Hmax). rewrite Htotal'.
    pose proof (count_insert in_flight _ _ _ ph' Ht) as Hfl.
    destruct (in_flight ph') eqn:Hf', (in_flight ph) eqn:Hf,
      (holds_total ph') eqn:Hh', (holds_total ph) eqn:Hh;
      cbn [Z.b2z] in *; try lia;
      try (destruct Hgrow; [done..|]; congruence);
      try (specialize (Hin Hmax eq_refl eq_refl); lia).
Qed.

Lemma counters_held (cs : list Z) p b :
  (p < length cs)%nat → cs !! p = Some (default 0 (cs !! p) + b - b).
Proof.
  intros [n Hn]%lookup_lt_is_Some. rewrite Hn. cbn. f_equal. lia.
Qed.

Lemma counters_same (cs : list Z) p :
  (p < length cs)%nat → cs !! p = Some (default 0 (cs !! p) + 0 - 0).
Proof. apply counters_held. Qed.

Lemma Add_small delta x : - 2 ^ 63 ≤ x + delta ≤ max_int64 → Add delta x = x + delta.
Proof. intros ?. unfold Add. by apply DB.to_int64_id. Qed.

(** The cleanup keeps the account: it only takes entries out of the map. *)
Lemma clean_entry_accounted K cl0 cl phs ip :
  accounted K cl0 {| limiter := cl; calls := phs |} →
  accounted K cl0 {| limiter := clean_entry ip cl; calls := phs |}.
Proof.
  intros Hacc. unfold clean_entry.
  destruct (perIPConnections cl !! ip) as [p|]; [|done].
  case_bool_decide; [|done].
  destruct Hacc as (Hset & Htotal & Hcount & Hmap & Hwp & HJ).
  split; [done|]. split; [done|]. split; [done|]. split; [|done].
  cbn [limiter calls perIPConnections with_perIP counters] in *.
  intros ip' p' [_ Hp']%lookup_delete_Some. by eapply Hmap.
Qed.

(** A new call keeps it: the call has done nothing yet. *)
Lemma Call_accounted K cl0 cl phs remoteAddr :
  accounted K cl0 {| limiter := cl; calls := phs |} →
  accounted K cl0 {| limiter := cl; calls := phs ++ [Checking remoteAddr] |}.
Proof.
  intros (Hset & Htotal & Hcount & Hmap & Hwp & HJ). cbn [limiter calls] in *.
  split; [done|]. split; [|split; [|split; [done|split]]]; cbn [limiter calls].
  - rewrite count_app, count_cons. cbn. rewrite Htotal. lia.
  - intros p Hp. rewrite count_app, count_cons. cbn. rewrite (Hcount p Hp). f_equal. lia.
  - intros ph [Hph|Hph]%elem_of_app; [by apply Hwp|].
    apply list_elem_of_singleton in Hph as ->. done.
  - intros Hmax. rewrite count_app, count_cons. cbn. specialize (HJ Hmax). lia.
Qed.

(** The steps that leave the limiter as it is. *)
Ltac stays Hacc Ht Hmap HK :=
  eapply accounted_step;
  [exact Hacc|exact Ht|done|cbn [holds_total Z.b2z]; lia|lia
  |intros ? ?; cbn [holds_counter Z.b2z]; by apply counters_same
  |exact Hmap| | | |exact HK].

Lemma act_accounted K cl0 s a s' :
  accounted K cl0 s → Z.of_nat (length (calls s)) < max_int64 →
  act s a = Some s' → (count in_flight (calls s') ≤ K)%nat →
  accounted K cl0 s'.
Proof.
  destruct s as [cl phs]. intros Hacc Hbound Hact HK.
  pose proof Hacc as (Hset & Htotal & Hcount & Hmap & Hwp & HJ).
  cbn [limiter calls] in *.
  assert (maxConnections cl = maxConnections cl0) as Hmc by (by destruct Hset as (? & _)).
  assert (maxPerIP cl = maxPerIP cl0) as Hmp by (by destruct Hset as (_ & ? & _)).
  pose proof (λ remoteAddr, isTrustedConnection_settings cl0 cl remoteAddr Hset) as Htr.
  pose proof (count_le holds_total phs) as Htl.
  assert (∀ p, (p < length (counters cl))%nat →
     ∃ n, counters cl !! p = Some n ∧ Load cl p = n ∧ 0 ≤ n < max_int64
          ∧ n = Z.of_nat (count (holds_counter p) phs)) as Hval.
  { intros p Hp. eexists. split; [by apply Hcount|]. unfold Load. rewrite (Hcount p Hp).
    pose proof (count_le (holds_counter p) phs). cbn. split; [done|]. split; [lia|done]. }
  destruct a as [remoteAddr|t|t|ip]; cbn [act limiter calls] in Hact.
  - injection Hact as <-. by apply Call_accounted.
  - destruct (phs !! t) as [ph|] eqn:Ht; [|done]. cbn [mbind option_bind] in Hact.
    destruct (advance cl ph) as [[cl' ph']|] eqn:Hadv; [|done].
    cbn [mbind option_bind] in Hact. injection Hact as <-. cbn [calls] in HK.
    assert (well_pointed cl0 cl ph) as Hph by (by eapply Hwp, list_elem_of_lookup_2).
    destruct ph as [remoteAddr|remoteAddr|remoteAddr p|remoteAddr|remoteAddr|remoteAddr p
                   |r|r|r|err|]; cbn [advance] in Hadv; try done.
    + (* Checking *)
      destruct (bool_decide (maxConnections cl ≤ 0)) eqn:H1;
        [apply bool_decide_eq_true_1 in H1|apply bool_decide_eq_false_1 in H1];
        (destruct (bool_decide (maxPerIP cl ≤ 0)) eqn:H2); cbn [andb] in Hadv.
      1:{ injection Hadv as <- <-. stays Hacc Ht Hmap HK; [done|lia|done]. }
      all: destruct (bool_decide (0 < maxConnections cl)) eqn:H3;
        [apply bool_decide_eq_true_1 in H3|apply bool_decide_eq_false_1 in H3];
        cbn [andb] in Hadv; try lia.
      all: try (destruct (bool_decide (maxConnections cl ≤ currentTotal cl)) eqn:H4;
        [apply bool_decide_eq_true_1 in H4|apply bool_decide_eq_false_1 in H4]).
      all: injection Hadv as <- <-; stays Hacc Ht Hmap HK; try done; lia.
    + (* CheckedTotal *)
      destruct (_ && _); [destruct (perIPConnections cl !! _)|];
        injection Hadv as <- <-; stays Hacc Ht Hmap HK; done.
    + (* CheckingIP *)
      cbv zeta in Hadv. destruct (bool_decide _);
        injection Hadv as <- <-; stays Hacc Ht Hmap HK; done.
    + (* Passed *)
      injection Hadv as <- <-.
      eapply accounted_step; [exact Hacc|exact Ht|done| |done| |exact Hmap|done|done| |exact HK].
      * cbn [currentTotal with_total holds_total Z.b2z]. rewrite Add_small; lia.
      * intros ? ?. cbn [holds_counter Z.b2z counters with_total]. by apply counters_same.
      * done.
    + (* Counted *)
      cbv zeta in Hadv. rewrite Htr, Hmp in Hadv.
      destruct (bool_decide (0 < maxPerIP cl0)) eqn:H1;
        [apply bool_decide_eq_true_1 in H1|]; cbn [andb] in Hadv;
        [destruct (isTrustedConnection cl0 remoteAddr) eqn:H2; cbn [negb] in Hadv|].
      * injection Hadv as <- <-. stays Hacc Ht Hmap HK; done.
      * destruct (perIPConnections cl !! ip_of remoteAddr) as [p|] eqn:Hp;
          injection Hadv as <- <-.
        { stays Hacc Ht Hmap HK; [|done..]. split; [by eapply Hmap|done]. }
        eapply accounted_step; [exact Hacc|exact Ht|done|cbn; lia| | | | |done|done|exact HK];
          cbn [counters with_counters with_perIP perIPConnections].
        -- rewrite length_app. lia.
        -- intros q Hq. rewrite length_app in Hq. cbn [length] in Hq.
           cbn [holds_counter Z.b2z].
           destruct (decide (q < length (counters cl))%nat) as [Hold|Hnew].
           ++ rewrite lookup_app_l by done. by apply counters_same.
           ++ assert (q = length (counters cl)) as -> by lia.
              rewrite lookup_app_r, Nat.sub_diag by done.
              rewrite (lookup_ge_None_2 (counters cl)) by lia. reflexivity.
        -- intros ip' p' [[_ <-]|[_ Hp']]%lookup_insert_Some; rewrite length_app; cbn.
           ++ lia.
           ++ apply Hmap in Hp'. lia.
        -- cbn [well_pointed counters with_counters with_perIP]. rewrite length_app. cbn.
           split; [lia|done].
      * injection Hadv as <- <-. stays Hacc Ht Hmap HK; done.
    + (* Pointed *)
      injection Hadv as <- <-. destruct Hph as (Hp & Hper & Htrusted).
      destruct (Hval p Hp) as (n & Hn & Hload & Hrange & Hcnt).
      pose proof (count_le (holds_counter p) phs).
      eapply accounted_step; [exact Hacc|exact Ht|done|cbn; lia| | | | |done|done|exact HK];
        unfold Add_at; cbn [counters with_counters perIPConnections rel_ipCounter].
      * by rewrite length_insert.
      * intros q Hq. rewrite length_insert in Hq. cbn [holds_counter rel_ipCounter Z.b2z].
        destruct (decide (q = p)) as [->|Hne].
        -- rewrite list_lookup_insert_eq by done. rewrite Hload, Hn.
           rewrite bool_decide_eq_true_2 by done. cbn. f_equal. rewrite Add_small; lia.
        -- rewrite list_lookup_insert_ne by done.
           rewrite bool_decide_eq_false_2 by congruence. by apply counters_same.
      * intros ip' p' Hp'. rewrite length_insert. by eapply Hmap.
      * cbn [well_pointed rel_ipCounter rel_isTrusted counters with_counters].
        intros p' [= <-]. rewrite length_insert, Htr. done.
    + (* Releasing *)
      cbn [well_pointed] in Hph.
      destruct (rel_ipCounter r) as [p|] eqn:Hr.
      2:{ injection Hadv as <- <-. eapply accounted_step;
            [exact Hacc|exact Ht|done|cbn; lia|done| |exact Hmap|done|done|done|exact HK].
          intros q Hq. cbn [holds_counter Z.b2z]. rewrite Hr.
          rewrite bool_decide_eq_false_2 by done. by apply counters_same. }
      destruct (Hph p eq_refl) as (Hp & Hper & Htrusted).
      rewrite Hmp, Htrusted, (bool_decide_eq_true_2 (0 < maxPerIP cl0)) in Hadv by done.
      cbn [andb negb] in Hadv. cbv zeta in Hadv.
      destruct (Hval p Hp) as (n & Hn & Hload & Hrange & Hcnt).
      assert (holds_counter p (Releasing r) = true) as Hheld.
      { cbn. by rewrite Hr, bool_decide_eq_true_2. }
      pose proof (count_pos _ _ _ _ Ht Hheld) as Hpos.
      assert (∀ ph1, (∀ q, holds_counter q ph1 = false) → holds_total ph1 = false →
                in_flight ph1 = false → well_pointed cl0 (Add_at p (-1) cl) ph1 →
                accounted K cl0 {| limiter := Add_at p (-1) cl; calls := <[t := ph1]> phs |}
                ∨ (count in_flight (<[t := ph1]> phs) > K)%nat) as Hgo.
      { intros ph1 Hc Ht' Hf' Hwp'.
        destruct (decide (count in_flight (<[t := ph1]> phs) ≤ K)%nat) as [HK'|]; [|right; lia].
        left. eapply accounted_step;
          [exact Hacc|exact Ht|done|rewrite Ht'; cbn; lia| | | |done|by rewrite Hf'
          |by rewrite Ht'|exact HK'];
          unfold Add_at; cbn [counters with_counters perIPConnections].
        - by rewrite length_insert.
        - intros q Hq. rewrite length_insert in Hq. rewrite Hc. cbn [holds_counter Z.b2z].
          rewrite Hr. destruct (decide (q = p)) as [->|Hne].
          + rewrite list_lookup_insert_eq by done. rewrite Hload, Hn.
            rewrite bool_decide_eq_true_2 by done. cbn. f_equal. rewrite Add_small; lia.
          + rewrite list_lookup_insert_ne by done.
            rewrite bool_decide_eq_false_2 by congruence. by apply counters_same.
        - intros ip' p' Hp'. rewrite length_insert. by eapply Hmap. }
      destruct (bool_decide (Load (Add_at p (-1) cl) p ≤ 0)); injection Hadv as <- <-.
      * destruct (Hgo (Deleting r)) as [?|?]; [done..|lia].
      * destruct (Hgo Closed) as [?|?]; [done..|lia].
    + (* Deleting *)
      destruct (rel_ipCounter r) as [p|] eqn:Hr.
      2:{ injection Hadv as <- <-. stays Hacc Ht Hmap HK; done. }
      destruct (bool_decide (Load cl p ≤ 0)); injection Hadv as <- <-.
      2:{ stays Hacc Ht Hmap HK; done. }
      eapply accounted_step;
        [exact Hacc|exact Ht|done|cbn; lia|done| | |done|done|done|exact HK].
      * intros q Hq. cbn [holds_counter Z.b2z]. by apply counters_same.
      * cbn [perIPConnections with_perIP counters].
        intros ip' p' [_ Hp']%lookup_delete_Some. by eapply Hmap.
  - destruct (phs !! t) as [[| | | | | |r| | | |]|] eqn:Ht; try done.
    injection Hact as <-. cbn [calls] in HK.
    assert (well_pointed cl0 cl (Open r)) as Hph by (by eapply Hwp, list_elem_of_lookup_2).
    assert (holds_total (Open r) = true) as Hheld by done.
    pose proof (count_pos _ _ _ _ Ht Hheld) as Hpos.
    eapply accounted_step; [exact Hacc|exact Ht|done| |done| |exact Hmap|exact Hph|done|done
                           |exact HK].
    + cbn [currentTotal with_total holds_total Z.b2z]. rewrite Add_small; lia.
    + intros q Hq. cbn [holds_counter counters with_total].
      by apply counters_held.
  - injection Hact as <-. by apply clean_entry_accounted.
Qed.

(** *** A whole schedule *)

Lemma peak_now s schedule : (count in_flight (calls s) ≤ peak s schedule)%nat.
Proof. destruct schedule as [|a schedule]; cbn [peak]; [done|]. destruct (act s a); lia. Qed.

Lemma act_calls s a s' : act s a = Some s' → (length (calls s') ≤ S (length (calls s)))%nat.
Proof.
  destruct a as [remoteAddr|t|t|ip]; cbn [act].
  - intros [= <-]. cbn. rewrite length_app. cbn. lia.
  - destruct (calls s !! t) as [ph|]; [|done]. cbn [mbind option_bind].
    destruct (advance (limiter s) ph) as [[cl ph']|]; [|done]. cbn [mbind option_bind].
    intros [= <-]. cbn. rewrite length_insert. lia.
  - destruct (calls s !! t) as [[| | | | | |r| | | |]|]; try done.
    intros [= <-]. cbn. rewrite length_insert. lia.
  - intros [= <-]. cbn. lia.
Qed.

Lemma play_accounted K cl0 schedule : ∀ s s',
  accounted K cl0 s → (peak s schedule ≤ K)%nat →
  Z.of_nat (length (calls s) + length schedule) < max_int64 →
  play s schedule = Some s' → accounted K cl0 s'.
Proof.
  induction schedule as [|a schedule IH]; intros s s' Hacc HK Hbound; cbn [play].
  { by intros [= <-]. }
  cbn [peak] in HK. destruct (act s a) as [s1|] eqn:Hact; [|done]. cbn [mbind option_bind].
  apply IH.
  - eapply act_accounted; [done| |done|].
    + cbn [length] in Hbound. lia.
    + pose proof (peak_now s1 schedule). lia.
  - lia.
  - pose proof (act_calls s a s1 Hact). cbn [length] in Hbound. lia.
Qed.

Lemma new_accounted K cl0 : is_new cl0 → accounted K cl0 {| limiter := cl0; calls := [] |}.
Proof.
  intros (Htotal & Hcounters & Hmap). cbn.
  split; [done|]. split; [done|]. split; [|split; [|split]]; cbn [limiter calls].
  - rewrite Hcounters. cbn. lia.
  - rewrite Hmap. intros ip p. by rewrite lookup_empty.
  - intros ph Hph. by apply elem_of_nil in Hph.
  - intros ?. rewrite Htotal. unfold count. cbn. lia.
Qed.

(** X19.  Starting from a new limiter, whatever calls of Accept and of the
    closures it returned are made, whenever the cleanup visits an entry and
    however the steps of the calls interleave (fewer than 2^63 actions in
    all), at every moment: the total (what GetStats reads at line 569) is
    the number of calls that have added to it and not yet subtracted from
    it; the counter that the map has for an address (what GetStats reads at
    line 576) is the number of connections that have added to that counter
    and not yet subtracted; and a positive maxConnections is exceeded by the
    total by less than the greatest number of calls that were between their
    check of the total and their addition to it at one time, and so not at
    all when no two calls were there together. *)
Theorem counters_follow_overlapping_calls cl0 schedule s :
  is_new cl0 →
  Z.of_nat (length schedule) < max_int64 →
  play {| limiter := cl0; calls := [] |} schedule = Some s →
  let overlap := peak {| limiter := cl0; calls := [] |} schedule in
  currentTotal (limiter s) = Z.of_nat (count holds_total (calls s))
  ∧ (∀ ip p, perIPConnections (limiter s) !! ip = Some p →
       Load (limiter s) p = Z.of_nat (count (holds_counter p) (calls s)))
  ∧ (0 < maxConnections cl0 →
     currentTotal (limiter s) + Z.of_nat (count in_flight (calls s))
     ≤ maxConnections cl0 - 1 + Z.of_nat overlap
     ∧ ((overlap ≤ 1)%nat → currentTotal (limiter s) ≤ maxConnections cl0)).
Proof.
  intros Hnew Hbound Hplay. cbv zeta.
  pose proof (play_accounted (peak {| limiter := cl0; calls := [] |} schedule) cl0 schedule
                _ s (new_accounted _ cl0 Hnew)) as Hacc.
  destruct Hacc as (Hset & Htotal & Hcount & Hmap & Hwp & HJ); [done|cbn; lia|done|].
  split; [done|]. split.
  - intros ip p Hp. unfold Load. by rewrite (Hcount p (Hmap ip p Hp)).
  - intros Hmax. specialize (HJ Hmax). split; [done|]. intros Hone. lia.
Qed.

End limiter.

(** ** An example: addresses as text, networks as single addresses *)

Fixpoint ex_host (s : string) : string :=
  match s with
  | EmptyString => EmptyString
  | String c s => if Ascii.eqb c (Ascii.ascii_of_nat 58) then EmptyString else String c (ex_host s)
  end.

Definition ex_SplitHostPort (s : string) : option (string * string) :=
  if bool_decide (ex_host s = s) then None else Some (ex_host s, "").

Definition ex_limiter : ConnectionLimiter string :=
  {| maxConnections := 3; maxPerIP := 1; currentTotal := 0; counters := [];
     perIPConnections := ∅; protocol := "pop3"; trustedNets := ["10.0.0.9"] |}.

Definition ex_step := step string string String.eqb ex_SplitHostPort Some.

Definition ex_history : list (event string) :=
  [Accepts string (OtherAddr string "10.0.0.1:5000");
   Accepts string (OtherAddr string "10.0.0.1:5001");
   Accepts string (OtherAddr string "10.0.0.9:7000");
   Accepts string (OtherAddr string "10.0.0.9:7001");
   Accepts string (OtherAddr string "10.0.0.2:6000");
   Releases string 0;
   Cleans string].

Example ex_history_run :
  let s := foldl ex_step (ex_limiter, []) ex_history in
  currentTotal string s.1 = 2
  ∧ rel_ip <$> s.2 = ["10.0.0.9"; "10.0.0.1"]
  ∧ map_to_list (IPConnections (GetStats string s.1)) = [("10.0.0.1", 1)].
Proof. by vm_compute. Qed.

Lemma ex_limiter_balanced : balanced string ex_limiter [].
Proof.
  split; [done|]. split; [done|]. split; [done|]. split; [|done].
  intros r a Hr. by apply elem_of_nil in Hr.
Qed.

Lemma CanAccept_counts_open_connections_witness :
  balanced string ex_limiter []
  ∧ CanAccept string string String.eqb ex_SplitHostPort Some ex_limiter
      (OtherAddr string "10.0.0.1:5000") = None.
Proof.
  split; [exact ex_limiter_balanced|].
  rewrite (CanAccept_counts_open_connections string string String.eqb ex_SplitHostPort Some
             ex_limiter [] (OtherAddr string "10.0.0.1:5000") ex_limiter_balanced).
  by vm_compute.
Defined.

Lemma serial_limits_are_kept_example :
  let s := foldl ex_step (ex_limiter, []) ex_history in
  is_new string ex_limiter
  ∧ Z.of_nat (length ex_history) < max_int64
  ∧ TotalConnections (GetStats string s.1) = Z.of_nat (length s.2)
  ∧ Z.of_nat (length s.2) ≤ 3
  ∧ Z.of_nat (connections_from s.2 "10.0.0.1") ≤ 1.
Proof.
  cbv zeta.
  assert (is_new string ex_limiter) as Hnew by done.
  assert (Z.of_nat (length ex_history) < max_int64) as Hlen by (by vm_compute).
  destruct (serial_limits_are_kept string string String.eqb ex_SplitHostPort Some ex_limiter
              ex_history Hnew Hlen) as (Htotal & Hmax & Hip & _).
  split; [done|]. split; [done|]. split; [exact Htotal|].
  split; [apply Hmax; done|apply Hip; done].
Defined.

Lemma release_undoes_Accept_witness :
  ∃ r cl', Accept string string String.eqb ex_SplitHostPort Some ex_limiter
             (OtherAddr string "10.0.0.1:5000") = (inl r, cl')
    ∧ TotalConnections (GetStats string cl') = 1
    ∧ TotalConnections (GetStats string (release string r cl')) = 0
    ∧ CanAccept string string String.eqb ex_SplitHostPort Some (release string r cl')
        (OtherAddr string "10.0.0.1:5001")
      = CanAccept string string String.eqb ex_SplitHostPort Some ex_limiter
          (OtherAddr string "10.0.0.1:5001").
Proof.
  destruct (Accept string string String.eqb ex_SplitHostPort Some ex_limiter
              (OtherAddr string "10.0.0.1:5000")) as [[r|e] cl'] eqn:Hacc;
    [|by vm_compute in Hacc].
  exists r, cl'. split; [done|].
  assert (within_limits string ex_limiter []) as Hlim.
  { split; [intros _; cbn; lia|intros _ a; unfold holders; cbn; lia]. }
  destruct (release_undoes_Accept string string String.eqb ex_SplitHostPort Some ex_limiter
              [] (OtherAddr string "10.0.0.1:5000") r cl' ex_limiter_balanced Hlim)
    as (Htotal & Hcan & _); [by vm_compute|done|].
  split; [by vm_compute in Hacc; injection Hacc as <- <-|].
  split; [exact Htotal|apply Hcan].
Defined.

(** ** Calls that overlap: two examples *)

Definition ex_play := play string string String.eqb ex_SplitHostPort Some.
Definition ex_peak := peak string string String.eqb ex_SplitHostPort Some.

(** One connection in all, one per address. *)
Definition ex_single : ConnectionLimiter string :=
  {| maxConnections := 1; maxPerIP := 1; currentTotal := 0; counters := [];
     perIPConnections := ∅; protocol := "imap"; trustedNets := [] |}.

(** Two calls of Accept check the total before either adds to it. *)
Definition ex_both_pass : list (action string) :=
  [Call string (OtherAddr string "10.0.0.1:5000");
   Call string (OtherAddr string "10.0.0.2:5000");
   Advance string 0; Advance string 1;
   Advance string 0; Advance string 0; Advance string 0; Advance string 0;
   Advance string 1; Advance string 1; Advance string 1; Advance string 1].

Lemma counters_follow_overlapping_calls_witness :
  let start := {| limiter := ex_single; calls := [] |} in
  is_new string ex_single
  ∧ Z.of_nat (length ex_both_pass) < max_int64
  ∧ ∃ s, ex_play start ex_both_pass = Some s
      ∧ rel_ip <$> omap (λ ph, match ph with Open _ r => Some r | _ => None end) (calls _ _ s)
        = ["10.0.0.1"; "10.0.0.2"]
      ∧ ex_peak start ex_both_pass = 2%nat
      ∧ currentTotal _ (limiter _ _ s) = Z.of_nat (count _ (holds_total _) (calls _ _ s))
      ∧ currentTotal _ (limiter _ _ s) = 2
      ∧ currentTotal _ (limiter _ _ s) + Z.of_nat (count _ (in_flight _) (calls _ _ s))
        ≤ maxConnections _ ex_single - 1 + 2.
Proof.
  cbv zeta.
  assert (is_new string ex_single) as Hnew by done.
  assert (Z.of_nat (length ex_both_pass) < max_int64) as Hlen by (by vm_compute).
  split; [done|]. split; [done|].
  destruct (ex_play {| limiter := ex_single; calls := [] |} ex_both_pass) as [s|] eqn:Hplay;
    [|by vm_compute in Hplay].
  exists s. split; [done|].
  destruct (counters_follow_overlapping_calls string string String.eqb ex_SplitHostPort Some
              ex_single ex_both_pass s Hnew Hlen Hplay) as (Htotal & _ & Hmax).
  destruct Hmax as [Hover _]; [done|].
  assert (ex_peak {| limiter := ex_single; calls := [] |} ex_both_pass = 2%nat) as Hpeak
    by (by vm_compute).
  unfold ex_peak in Hpeak. rewrite Hpeak in Hover.
  vm_compute in Hplay. injection Hplay as <-.
  split; [by vm_compute|]. split; [done|]. split; [exact Htotal|].
  split; [by vm_compute|exact Hover].
Defined.

(** No limit on the total, one connection per address. *)
Definition ex_per_address : ConnectionLimiter string :=
  {| maxConnections := 0; maxPerIP := 1; currentTotal := 0; counters := [];
     perIPConnections := ∅; protocol := "imap"; trustedNets := [] |}.

(** A connection of 10.0.0.1 is closed while the next one from there is
    accepted: the closure brings the counter to 0, the new call takes the
    pointer to that counter from the map (lines 516-523), the closure finds
    the counter at 0 and deletes the entry (lines 542-546), the new call
    adds to the counter that no entry points to any more (line 525).  A
    third call from 10.0.0.1 then finds no entry and is accepted. *)
Definition ex_entry_lost : list (action string) :=
  [Call string (OtherAddr string "10.0.0.1:5000");
   Advance string 0; Advance string 0; Advance string 0; Advance string 0; Advance string 0;
   Close string 0; Advance string 0;
   Call string (OtherAddr string "10.0.0.1:5001");
   Advance string 1; Advance string 1; Advance string 1; Advance string 1; Advance string 1;
   Advance string 0;
   Advance string 1;
   Call string (OtherAddr string "10.0.0.1:5002");
   Advance string 2; Advance string 2; Advance string 2; Advance string 2; Advance string 2].

(** Two connections of 10.0.0.1 are then open where maxPerIP is 1, and
    GetStats reports one. *)
Example ex_entry_lost_run :
  ∃ s, ex_play {| limiter := ex_per_address; calls := [] |} ex_entry_lost = Some s
    ∧ calls _ _ s
      = [Closed string;
         Open string {| rel_ip := "10.0.0.1"; rel_isTrusted := false; rel_ipCounter := Some 0%nat |};
         Open string {| rel_ip := "10.0.0.1"; rel_isTrusted := false; rel_ipCounter := Some 1%nat |}]
    ∧ MaxPerIP (GetStats _ (limiter _ _ s)) = 1
    ∧ TotalConnections (GetStats _ (limiter _ _ s)) = 2
    ∧ map_to_list (IPConnections (GetStats _ (limiter _ _ s))) = [("10.0.0.1", 1)].
Proof. eexists. split; [by vm_compute|]. by vm_compute. Qed.

End ConnectionLimiter.

(** * The POP3 XCLIENT command (src/server/pop3/xclient.go) *)

Module POP3.

(** The fields of [server.ForwardingParams] that handleXCLIENT reads. *)
Module server.
Record ForwardingParams := {
  OriginatingIP : string;
  OriginatingPort : Z;
  SessionID : string;
  ProxyTTL : Z;
  Variables : gmap string string }.
End server.

Definition CRLF : string :=
  String (Ascii.ascii_of_nat 13) (String (Ascii.ascii_of_nat 10) EmptyString).

Section session.

(** [net.Addr] and the address [&net.TCPAddr{IP: ip}] of an IP ([None] is the
    nil IP that net.ParseIP returns for text it cannot read); the limiter's
    IsTrustedConnection; and the three methods of package server that the
    handler calls: the parser ([None] is its error), the validation ([true]
    is a nil error) and DecrementTTL, which changes the parameters it is
    called on. *)
Variable Addr : Type.
Variable IP : Type.
Variable TCPAddr : option IP → Addr.
Variable ParseIP : string → option IP.
Variable IsTrustedConnection : Addr → bool.
Variable ParsePOP3XCLIENT : string → option server.ForwardingParams.
Variable ValidateForwarding : server.ForwardingParams → bool.
Variable DecrementTTL : server.ForwardingParams → bool * server.ForwardingParams.

(** The fields of [POP3Session] that the command reads and writes, whether
    the server has a limiter, the remote address of the connection, and what
    has been written to the client. *)
Record POP3Session := {
  ForwardingParams : option server.ForwardingParams;
  RemoteIP : string;
  ProxyIP : string;
  limiter : bool;
  RemoteAddr : Addr;
  written : list string }.

Definition WriteString (line : string) (s : POP3Session) : POP3Session :=
  {| ForwardingParams := ForwardingParams s; RemoteIP := RemoteIP s; ProxyIP := ProxyIP s;
     limiter := limiter s; RemoteAddr := RemoteAddr s; written := written s ++ [line] |}.

(** Lines 66-87. *)
Definition isFromTrustedProxy (s : POP3Session) : bool :=
  if negb (limiter s) then false
  else if bool_decide (ProxyIP s ≠ "") then IsTrustedConnection (TCPAddr (ParseIP (ProxyIP s)))
  else IsTrustedConnection (RemoteAddr s).

(** Lines 13-63. *)
Definition handleXCLIENT (args : string) (s : POP3Session) : POP3Session :=
  if negb (isFromTrustedProxy s) then
    WriteString ("-ERR Connection not from trusted proxy" +:+ CRLF) s else
  match ParsePOP3XCLIENT args with
  | None => WriteString ("-ERR Invalid XCLIENT parameters" +:+ CRLF) s
  | Some forwardingParams =>
      if negb (ValidateForwarding forwardingParams) then
        WriteString ("-ERR Invalid forwarding parameters" +:+ CRLF) s else
      let '(alive, forwardingParams) := DecrementTTL forwardingParams in
      if negb alive then WriteString ("-ERR Proxy TTL expired" +:+ CRLF) s else
      let remoteIP :=
        if bool_decide (server.OriginatingIP forwardingParams ≠ "")
        then server.OriginatingIP forwardingParams else RemoteIP s in
      let proxyIP :=
        match server.Variables forwardingParams !! "proxy-source-ip" with
        | Some proxySourceIP =>
            if bool_decide (ProxyIP s = "") then proxySourceIP else ProxyIP s
        | None => ProxyIP s
        end in
      WriteString ("+OK XCLIENT parameters accepted" +:+ CRLF)
        {| ForwardingParams := Some forwardingParams; RemoteIP := remoteIP;
           ProxyIP := proxyIP; limiter := limiter s; RemoteAddr := RemoteAddr s;
           written := written s |}
  end.

(** The fields that the command may change. *)
Definition same_session (s s' : POP3Session) : Prop :=
  ForwardingParams s' = ForwardingParams s ∧ RemoteIP s' = RemoteIP s
  ∧ ProxyIP s' = ProxyIP s.

Definition accepted : string := "+OK XCLIENT parameters accepted" +:+ CRLF.

Definition refusals : list string :=
  ["-ERR Connection not from trusted proxy" +:+ CRLF;
   "-ERR Invalid XCLIENT parameters" +:+ CRLF;
   "-ERR Invalid forwarding parameters" +:+ CRLF;
   "-ERR Proxy TTL expired" +:+ CRLF].

(** X22.  XCLIENT writes exactly one line.  Unless that line is the +OK, it
    is one of the four refusals and the session is as it was: its
    forwarding parameters, its client address and its proxy address.  A
    connection that is not from a trusted proxy (always so on a server
    without a limiter) is refused before its arguments are even parsed.
    With the +OK, the session holds the parameters as DecrementTTL left
    them, the client address is the originating IP when one is given, and
    a proxy address that the session already has is never replaced. *)
Theorem handleXCLIENT_outcomes args s :
  let s' := handleXCLIENT args s in
  ∃ line, written s' = written s ++ [line]
    ∧ (isFromTrustedProxy s = false →
       line = "-ERR Connection not from trusted proxy" +:+ CRLF)
    ∧ (limiter s = false → isFromTrustedProxy s = false)
    ∧ (line ≠ accepted → line ∈ refusals ∧ same_session s s')
    ∧ (line = accepted →
       isFromTrustedProxy s = true
       ∧ ∃ p p', ParsePOP3XCLIENT args = Some p ∧ ValidateForwarding p = true
           ∧ DecrementTTL p = (true, p')
           ∧ ForwardingParams s' = Some p'
           ∧ RemoteIP s' = (if bool_decide (server.OriginatingIP p' = "")
                            then RemoteIP s else server.OriginatingIP p')
           ∧ (ProxyIP s ≠ "" → ProxyIP s' = ProxyIP s)
           ∧ (ProxyIP s = "" →
              ProxyIP s' = default "" (server.Variables p' !! "proxy-source-ip"))).
Proof.
  cbv zeta. unfold handleXCLIENT.
  assert (limiter s = false → isFromTrustedProxy s = false) as Hlim.
  { intros Hl. unfold isFromTrustedProxy. by rewrite Hl. }
  destruct (isFromTrustedProxy s) eqn:Htrust; cbn [negb].
  2:{ eexists. split; [done|]. split; [done|]. split; [done|].
      split; [intros _; split; [left|done]|]. intros Heq. by vm_compute in Heq. }
  destruct (ParsePOP3XCLIENT args) as [p|] eqn:Hparse.
  2:{ eexists. split; [done|]. split; [done|]. split; [done|].
      split; [intros _; split; [right; left|done]|]. intros Heq. by vm_compute in Heq. }
  destruct (ValidateForwarding p) eqn:Hvalid; cbn [negb].
  2:{ eexists. split; [done|]. split; [done|]. split; [done|].
      split; [intros _; split; [do 2 right; left|done]|].
      intros Heq. by vm_compute in Heq. }
  destruct (DecrementTTL p) as [alive p'] eqn:Httl. destruct alive; cbn [negb].
  2:{ eexists. split; [done|]. split; [done|]. split; [done|].
      split; [intros _; split; [do 3 right; left|done]|].
      intros Heq. by vm_compute in Heq. }
  eexists. split; [done|]. split; [done|]. split; [done|].
  split; [by intros Hne|]. intros _. split; [done|].
  exists p, p'. cbn [ForwardingParams RemoteIP ProxyIP WriteString].
  split; [done|]. split; [done|]. split; [done|]. split; [done|].
  split; [by repeat case_bool_decide|].
  split.
  - intros Hne. destruct (server.Variables p' !! _); [|done].
    by rewrite bool_decide_eq_false_2.
  - intros Heq. destruct (server.Variables p' !! _); [|by rewrite Heq].
    by rewrite bool_decide_eq_true_2.
Qed.

End session.

Definition ex_params : server.ForwardingParams :=
  {| server.OriginatingIP := "203.0.113.5"; server.OriginatingPort := 40000;
     server.SessionID := "abc"; server.ProxyTTL := 3;
     server.Variables := {["proxy-source-ip" := "10.0.0.9"]} |}.

Definition ex_session : POP3Session string :=
  {| ForwardingParams := None; RemoteIP := "10.0.0.9"; ProxyIP := ""; limiter := true;
     RemoteAddr := "10.0.0.9"; written := [] |}.

Definition ex_handleXCLIENT : string → POP3Session string → POP3Session string :=
  handleXCLIENT string string (default "") Some (String.eqb "10.0.0.9")
    (λ _, Some ex_params) (λ _, true)
    (λ p, (bool_decide (0 < server.ProxyTTL p),
           {| server.OriginatingIP := server.OriginatingIP p;
              server.OriginatingPort := server.OriginatingPort p;
              server.SessionID := server.SessionID p;
              server.ProxyTTL := server.ProxyTTL p - 1;
              server.Variables := server.Variables p |})).

Example ex_handleXCLIENT_run :
  let s' := ex_handleXCLIENT "ADDR=203.0.113.5" ex_session in
  written string s' = [accepted]
  ∧ RemoteIP string s' = "203.0.113.5" ∧ ProxyIP string s' = "10.0.0.9"
  ∧ server.ProxyTTL <$> ForwardingParams string s' = Some 2.
Proof. by vm_compute. Qed.

End POP3.

(** * The message list of the user API (package userapi, the first part of
      src/server/userapi/message_list.go, lines 1-150) *)

Module UserAPI.

Inductive error := ErrMailboxNotFound | ErrOther.

Section handlers.

(** [db.DBMessage]; the request as the handler reads it: the result of
    getAccountIDFromContext ([None] is its error), the path and the query
    parameters through url.Values.Get; [extractPathParam],
    [url.QueryUnescape] and [strconv.Atoi] ([None] is an error); and the
    three reads of the store. *)
Variable DBMessage : Type.
Variable extractPathParam : string → string → string → string.
Variable QueryUnescape : string → option string.
Variable Atoi : string → option Z.
Variable GetMessagesForMailboxWithRetry :
  Z → string → Z → Z → bool → list DBMessage + error.
Variable GetUnseenCountForMailboxWithRetry : Z → string → option Z.
Variable GetMessageCountForMailboxWithRetry : Z → string → option Z.

Record Request := {
  accountID_of_context : option Z;
  Path : string;
  Query : string → string }.

(** Lines 14-20. *)
Record MessageListResponse := {
  Messages : list DBMessage;
  Total : Z;
  Limit : Z;
  Offset : Z }.

(** What the handler writes: writeError or writeJSON. *)
Inductive response :=
| writeError (status : Z) (message : string)
| writeJSON (status : Z) (body : MessageListResponse).

Definition StatusOK : Z := 200.
Definition StatusBadRequest : Z := 400.
Definition StatusUnauthorized : Z := 401.
Definition StatusNotFound : Z := 404.
Definition StatusInternalServerError : Z := 500.

(** Lines 41-54: the limit, 50 when none is given, at most 1000. *)
Definition parse_limit (limitStr : string) : option Z :=
  if bool_decide (limitStr ≠ "") then
    match Atoi limitStr with
    | None => None
    | Some parsedLimit =>
        if bool_decide (parsedLimit < 1) then None
        else Some (if bool_decide (1000 < parsedLimit) then 1000 else parsedLimit)
    end
  else Some 50.

(** Lines 56-65: the offset, 0 when none is given. *)
Definition parse_offset (offsetStr : string) : option Z :=
  if bool_decide (offsetStr ≠ "") then
    match Atoi offsetStr with
    | None => None
    | Some parsedOffset => if bool_decide (parsedOffset < 0) then None else Some parsedOffset
    end
  else Some 0.

(** Lines 23-102. *)
Definition handleListMessages (r : Request) : response :=
  match accountID_of_context r with
  | None => writeError StatusUnauthorized "Unauthorized"
  | Some accountID =>
  match QueryUnescape (extractPathParam (Path r) "/user/v1/mailboxes/" "/messages") with
  | None => writeError StatusBadRequest "Invalid mailbox name"
  | Some mailboxName =>
  if bool_decide (mailboxName = "") then writeError StatusBadRequest "Invalid mailbox name" else
  match parse_limit (Query r "limit") with
  | None => writeError StatusBadRequest "Invalid limit parameter"
  | Some limit =>
  match parse_offset (Query r "offset") with
  | None => writeError StatusBadRequest "Invalid offset parameter"
  | Some offset =>
  let unseenOnly := bool_decide (Query r "unseen" = "true") in
  match GetMessagesForMailboxWithRetry accountID mailboxName limit offset unseenOnly with
  | inr ErrMailboxNotFound => writeError StatusNotFound "Mailbox not found"
  | inr _ => writeError StatusInternalServerError "Failed to retrieve messages"
  | inl messages =>
      let count :=
        if unseenOnly then GetUnseenCountForMailboxWithRetry accountID mailboxName
        else GetMessageCountForMailboxWithRetry accountID mailboxName in
      let total := default (Z.of_nat (length messages)) count in
      writeJSON StatusOK
        {| Messages := messages; Total := total; Limit := limit; Offset := offset |}
  end end end end end.

Lemma parse_limit_bounds limitStr limit :
  parse_limit limitStr = Some limit →
  1 ≤ limit ≤ 1000 ∧ (limitStr = "" → limit = 50).
Proof.
  unfold parse_limit. case_bool_decide as Hl.
  - destruct (Atoi _) as [n|]; [|done]. repeat case_bool_decide; try done;
      intros [= <-]; (split; [lia|done]).
  - intros [= <-]. split; [lia|done].
Qed.

Lemma parse_offset_bounds offsetStr offset :
  parse_offset offsetStr = Some offset →
  0 ≤ offset ∧ (offsetStr = "" → offset = 0).
Proof.
  unfold parse_offset. case_bool_decide as Hl.
  - destruct (Atoi _) as [n|]; [|done]. case_bool_decide; [done|].
    intros [= <-]. split; [lia|done].
  - by intros [= <-].
Qed.

(** X23.  Whatever the request says, handleListMessages reads the store
    with a limit between 1 and 1000 (50 when none is given) and an offset
    that is not negative (0 when none is given), for the account of the
    request and a mailbox name that is not empty; the body of its answer,
    always with status 200, carries the messages of exactly that read
    together with that limit and offset, and as total the count of the
    store for the same filter, or the number of messages returned when the
    count fails. *)
Theorem handleListMessages_paging r status body :
  handleListMessages r = writeJSON status body →
  status = 200
  ∧ 1 ≤ Limit body ≤ 1000 ∧ 0 ≤ Offset body
  ∧ (Query r "limit" = "" → Limit body = 50)
  ∧ (Query r "offset" = "" → Offset body = 0)
  ∧ ∃ accountID mailboxName,
      accountID_of_context r = Some accountID ∧ mailboxName ≠ ""
      ∧ GetMessagesForMailboxWithRetry accountID mailboxName (Limit body) (Offset body)
          (bool_decide (Query r "unseen" = "true")) = inl (Messages body)
      ∧ Total body
        = default (Z.of_nat (length (Messages body)))
            (if bool_decide (Query r "unseen" = "true")
             then GetUnseenCountForMailboxWithRetry accountID mailboxName
             else GetMessageCountForMailboxWithRetry accountID mailboxName).
Proof.
  unfold handleListMessages.
  destruct (accountID_of_context r) as [accountID|]; [|done].
  destruct (QueryUnescape _) as [mailboxName|]; [|done].
  case_bool_decide as Hname; [done|].
  destruct (parse_limit _) as [limit|] eqn:Hlimit; [|done].
  destruct (parse_offset _) as [offset|] eqn:Hoffset; [|done].
  cbv zeta.
  destruct (GetMessagesForMailboxWithRetry _ _ _ _ _) as [messages|[]] eqn:Hget; [|done..].
  intros [= <- <-]. cbn [Limit Offset Messages Total].
  split; [done|].
  apply parse_limit_bounds in Hlimit as [? ?].
  apply parse_offset_bounds in Hoffset as [? ?].
  split; [done|]. split; [done|]. split; [done|]. split; [done|].
  exists accountID, mailboxName. split; [done|]. split; [done|]. split; [done|].
  by destruct (bool_decide (Query r "unseen" = "true")).
Qed.

End handlers.

(** An example: a store of numbers, the page of which the request asks
    for with a limit beyond the bound. *)
Definition ex_messages (limit offset : Z) : list Z :=
  seqZ (offset + 1) (Z.min limit (2000 - offset)).

Definition ex_handleListMessages : Request → response Z :=
  handleListMessages Z (λ path _ _, path) Some
    (λ s, if bool_decide (s = "5000") then Some 5000 else None)
    (λ _ _ limit offset _, inl (ex_messages limit offset))
    (λ _ _, None) (λ _ _, Some 2000).

Definition ex_request : Request :=
  {| accountID_of_context := Some 7; Path := "INBOX";
     Query := λ k, if bool_decide (k = "limit") then "5000" else "" |}.

Lemma handleListMessages_paging_witness :
  ∃ body, ex_handleListMessages ex_request = writeJSON Z 200 body
    ∧ Limit Z body = 1000 ∧ Offset Z body = 0 ∧ Total Z body = 2000
    ∧ length (Messages Z body) = 1000%nat.
Proof.
  destruct (ex_handleListMessages ex_request) as [status message|status body] eqn:Hrun;
    [by vm_compute in Hrun|].
  destruct (handleListMessages_paging Z (λ path _ _, path) Some
              (λ s, if bool_decide (s = "5000") then Some 5000 else None)
              (λ _ _ limit offset _, inl (ex_messages limit offset))
              (λ _ _, None) (λ _ _, Some 2000) ex_request status body Hrun)
    as (-> & _ & _ & _ & Hoffset & _).
  exists body. split; [done|].
  vm_compute in Hrun. injection Hrun as <-.
  split; [done|]. split; [by apply Hoffset|]. split; [done|]. by vm_compute.
Defined.

End UserAPI.
